(** * GPBoost: Vecchia approximation utilities ([Vecchia_utils.h])

    A shallow embedding of the neighbour search (distance kernel, cover
    tree, search orchestrator), of the construction of the Vecchia factors
    [B] and [D], and of the predicted-first prediction step, together with
    the properties the specification states about them.

    Conventions.
    - C++ [int] indices are [Z]; vectors are lists; [std::map] is a [gmap].
    - [Log::REFatal] throws: functions that can call it return a [result].
    - The covariance module ([RECompGP]), Eigen's solvers and the helpers of
      [utils.h] are not part of the embedded file; they appear as section
      variables, or are modelled where a doc comment says so. *)

From Stdlib Require Import ZArith QArith Qminmax Qpower Reals Lra Lia List Bool String PrimFloat.
From Stdlib Require Lqa.
From stdpp Require Import gmap strings list sorting.

Local Open Scope Z_scope.

(** ** Shared helpers *)

(** [v[i]] for a C++ vector read at an [int] index (a default stands for the
    undefined out-of-range read). *)
Definition znth {A : Type} (d : A) (l : list A) (i : Z) : A :=
  if i <? 0 then d else nth (Z.to_nat i) l d.

(** [v[i] = x] for a C++ vector written at an [int] index. *)
Definition zset {A : Type} (l : list A) (i : Z) (x : A) : list A :=
  if i <? 0 then l else <[Z.to_nat i := x]> l.

(** The index range [lo, lo+1, ..., hi-1] of a [for (int i = lo; i < hi; ++i)] loop. *)
Definition range (lo hi : Z) : list Z := seqZ lo (hi - lo).

(** Outcome of a function that may call [Log::REFatal]: the exception carries
    the message; [st] is the state of the by-reference arguments when it is
    thrown. *)
Inductive result (S : Type) : Type :=
| Ok (st : S)
| REFatal (msg : string) (st : S).
Arguments Ok {S} st.
Arguments REFatal {S} msg st.

Lemma elem_of_range (lo hi i : Z) : i ∈ range lo hi ↔ lo ≤ i < hi.
Proof. unfold range. rewrite elem_of_seqZ. lia. Qed.

Lemma length_range (lo hi : Z) : length (range lo hi) = Z.to_nat (hi - lo).
Proof. unfold range. apply length_seqZ. Qed.

Lemma range_nil (lo hi : Z) : hi ≤ lo → range lo hi = [].
Proof.
  intros H. unfold range, seqZ.
  replace (Z.to_nat (hi - lo)) with 0%nat by lia. reflexivity.
Qed.

Lemma range_cons (lo hi : Z) : lo < hi → range lo hi = lo :: range (lo + 1) hi.
Proof.
  intros H. unfold range.
  replace (hi - lo) with (Z.succ (hi - (lo + 1))) by lia.
  rewrite seqZ_cons by lia.
  f_equal. f_equal; lia.
Qed.

Lemma range_snoc (lo hi : Z) : lo ≤ hi → range lo (hi + 1) = range lo hi ++ [hi].
Proof.
  intros H. unfold range.
  replace (hi + 1 - lo) with ((hi - lo) + 1) by lia.
  rewrite seqZ_app by lia. f_equal.
  rewrite seqZ_cons by lia. rewrite seqZ_nil by lia. f_equal. lia.
Qed.

(** ** Initialisation of the components ([CreateREComponentsVecchia]) *)

(** An Eigen triplet [(row, col, value)]. *)
Record Triplet_t (double : Type) : Type := Triplet {
  t_row : Z;
  t_col : Z;
  t_value : double
}.
Arguments Triplet {double} _ _ _.
Arguments t_row {double} _.
Arguments t_col {double} _.
Arguments t_value {double} _.

(** The by-reference arguments of [CreateREComponentsVecchia]. *)
Record REComponents (double RECompGP RNG_t : Type) : Type := mkREComponents {
  data_indices_per_cluster : list Z;  (* entry [cluster_i] of the map *)
  re_comps_cluster_i : list RECompGP;
  nearest_neighbors_cluster_i : list (list Z);
  dist_obs_neighbors_cluster_i : list (list double);
  dist_between_neighbors_cluster_i : list (list (list double));
  entries_init_B_cluster_i : list (Triplet_t double);
  entries_init_B_grad_cluster_i : list (Triplet_t double);
  z_outer_z_obs_neighbors_cluster_i : list (list (list (list double)));
  only_one_GP_calculations_on_RE_scale : bool;
  has_duplicates_coords : bool;
  rng : RNG_t
}.
Arguments mkREComponents {double RECompGP RNG_t}.
Arguments data_indices_per_cluster {double RECompGP RNG_t} _.
Arguments re_comps_cluster_i {double RECompGP RNG_t} _.
Arguments nearest_neighbors_cluster_i {double RECompGP RNG_t} _.
Arguments dist_obs_neighbors_cluster_i {double RECompGP RNG_t} _.
Arguments dist_between_neighbors_cluster_i {double RECompGP RNG_t} _.
Arguments entries_init_B_cluster_i {double RECompGP RNG_t} _.
Arguments entries_init_B_grad_cluster_i {double RECompGP RNG_t} _.
Arguments z_outer_z_obs_neighbors_cluster_i {double RECompGP RNG_t} _.
Arguments only_one_GP_calculations_on_RE_scale {double RECompGP RNG_t} _.
Arguments has_duplicates_coords {double RECompGP RNG_t} _.
Arguments rng {double RECompGP RNG_t} _.

(** The by-value configuration of [CreateREComponentsVecchia]. *)
Record REConfig (double : Type) : Type := mkREConfig {
  num_data : Z;
  dim_gp_coords : Z;
  gp_coords_data : list double;
  gp_rand_coef_data : list double;
  vecchia_ordering : string;
  num_neighbors : Z;
  vecchia_neighbor_selection : string;
  check_has_duplicates : bool;
  num_gp_rand_coef : Z;
  num_gp_total : Z;
  num_comps_total : Z;
  gauss_likelihood : bool;
  cov_fct : string;
  cov_fct_shape : double;
  cov_fct_taper_range : double;
  cov_fct_taper_shape : double;
  apply_tapering : bool;
  gp_approx : string
}.
Arguments mkREConfig {double}.
Arguments num_data {double} _.
Arguments dim_gp_coords {double} _.
Arguments gp_coords_data {double} _.
Arguments gp_rand_coef_data {double} _.
Arguments vecchia_ordering {double} _.
Arguments num_neighbors {double} _.
Arguments vecchia_neighbor_selection {double} _.
Arguments check_has_duplicates {double} _.
Arguments num_gp_rand_coef {double} _.
Arguments num_gp_total {double} _.
Arguments num_comps_total {double} _.
Arguments gauss_likelihood {double} _.
Arguments cov_fct {double} _.
Arguments cov_fct_shape {double} _.
Arguments cov_fct_taper_range {double} _.
Arguments cov_fct_taper_shape {double} _.
Arguments apply_tapering {double} _.
Arguments gp_approx {double} _.

Definition msg_time_ordering : string :=
  "'vecchia_ordering' is '%s' but the 'cov_function' is not a space-time covariance function ".
Definition msg_duplicates : string :=
  "Duplicates found in the coordinates for the Gaussian process. This is currently not supported for the Vecchia approximation for non-Gaussian likelihoods ".
Definition msg_rand_coef : string :=
  "Random coefficient processes are not supported for covariance functions for which the neighbors are dynamically determined based on correlations".

Section CreateREComponents.

(** The floating-point type and the few operations this function needs. *)
Variable double : Type.
Variables dzero done : double.
Variable dmul : double → double → double.
(** [(x - y).lpNorm<2>()] on coordinate rows, and the test [d < EPSILON_NUMBERS]. *)
Variable lpNorm2_diff : list double → list double → double.
Variable lt_EPSILON_NUMBERS : double → bool.

(** The covariance module [RECompGP] ([re_comp.h]) with its two constructors
    and the observers used here. *)
Variable RECompGP : Type.
Variable new_RECompGP : list (list double) → REConfig double → bool → RECompGP.
Variable new_RECompGP_rand_coef : list double → REConfig double → double → RECompGP.
Variable GetNumUniqueREs : RECompGP → Z.
Variable GetCoords : RECompGP → list (list double).
Variable ShouldSaveDistances : RECompGP → bool.
Variable IsSpaceTimeModel : RECompGP → bool.
Variable GetTaperMu : RECompGP → double.

(** [std::shuffle] with the generator [rng], and [SortIndeces] of [utils.h]. *)
Variable RNG_t : Type.
Variable std_shuffle : list Z → RNG_t → list Z * RNG_t.
Variable SortIndeces : list double → list Z.

(** [find_nearest_neighbors_Vecchia_fast] is only declared in this header:
    arguments are coords, num_data, num_neighbors, start_at, end_search_at,
    check_has_duplicates, neighbor_selection, gen, save_distances; it returns
    neighbors, dist_obs_neighbors, dist_between_neighbors, the duplicate flag
    and the generator. *)
Variable find_nearest_neighbors_Vecchia_fast :
  list (list double) → Z → Z → Z → Z → bool → string → RNG_t → bool →
  list (list Z) * list (list double) * list (list (list double)) * bool * RNG_t.

Abbreviation comps := (REComponents double RECompGP RNG_t).
Abbreviation config := (REConfig double).

(** Lines 1211-1213: the random pre-permutation of the data indices. *)
Definition pre_shuffle (cfg : config) (ids : list Z) (g : RNG_t) : list Z * RNG_t :=
  if ((vecchia_ordering cfg =? "random")%string || (vecchia_ordering cfg =? "time_random_space")%string)
     && negb (gp_approx cfg =? "full_scale_vecchia")%string
  then std_shuffle ids g
  else (ids, g).

(** Lines 1214-1220: gather the coordinates of the cluster, one row per point. *)
Definition gather_coords (cfg : config) (ids : list Z) : list (list double) :=
  map (fun id => map (fun j => znth dzero (gp_coords_data cfg) (j * num_data cfg + id))
                     (range 0 (dim_gp_coords cfg))) ids.

Definition is_time_ordering (cfg : config) : bool :=
  (vecchia_ordering cfg =? "time")%string || (vecchia_ordering cfg =? "time_random_space")%string.

(** Lines 1221-1237: order by the time coordinate (column 0). *)
Definition time_order (cfg : config) (coords : list (list double)) (ids : list Z)
  : list (list double) * list Z :=
  if is_time_ordering cfg then
    let coord_time := map (fun r => znth dzero r 0) coords in
    let sort_time := SortIndeces coord_time in
    (map (znth [] coords) sort_time, map (znth 0 ids) sort_time)
  else (coords, ids).

(** Lines 1251-1256: the component whose coordinates and flags are used. *)
Definition select_re_comp (cfg : config) (re_comps : list RECompGP)
    (re_comps_resid_cluster_i : list RECompGP) (ind_intercept_gp : Z) (dflt : RECompGP) : RECompGP :=
  if (gp_approx cfg =? "full_scale_vecchia")%string
     && (vecchia_neighbor_selection cfg =? "residual_correlation")%string
  then znth dflt re_comps_resid_cluster_i ind_intercept_gp
  else znth dflt re_comps ind_intercept_gp.

(** Lines 1280-1295: the inner loop over [j < i] for a point with [i <= num_neighbors]. *)
Definition init_point_small (check save_distances : bool) (coords : list (list double))
    (i : Z) (acc : list double * bool) : list double * bool :=
  fold_left (fun (a : list double * bool) (j : Z) =>
    let '(d_obs, has_dup) := a in
    let dist_ij :=
      if save_distances || (check && negb has_dup)
      then lpNorm2_diff (znth [] coords j) (znth [] coords i) else dzero in
    let d_obs' := if save_distances then zset d_obs j dist_ij else d_obs in
    let has_dup' :=
      if check && negb has_dup then (if lt_EPSILON_NUMBERS dist_ij then true else has_dup)
      else has_dup in
    (d_obs', has_dup')) (range 0 i) acc.

(** Lines 1274-1300: neighbour vectors when neighbours are selected by
    residual correlation; [std::vector::resize] fills new slots with zeros. *)
Definition init_neighbors_step (k : Z) (check save_distances : bool) (coords : list (list double))
    (st : list (list Z) * list (list double) * bool) (i : Z)
  : list (list Z) * list (list double) * bool :=
  let '(nn, d_obs, has_dup) := st in
  if (0 <? i) && (i <=? k) then
    let '(d_i, has_dup') :=
      init_point_small check save_distances coords i
        ((if save_distances then replicate (Z.to_nat i) dzero else znth [] d_obs i), has_dup) in
    (zset nn i (range 0 i), zset d_obs i d_i, has_dup')
  else if k <? i then
    (zset nn i (replicate (Z.to_nat k) 0), d_obs, has_dup)
  else st.

Definition init_neighbors (n k : Z) (check save_distances : bool) (coords : list (list double))
    (st : list (list Z) * list (list double) * bool) : list (list Z) * list (list double) * bool :=
  fold_left (init_neighbors_step k check save_distances coords) (range 0 n) st.

(** Lines 1312-1318: the triplets that fix the sparsity pattern of [B] and of
    its gradients, pushed row by row. *)
Definition init_B_triplets (n : Z) (nn : list (list Z))
  : list (Triplet_t double) * list (Triplet_t double) :=
  (flat_map (fun i => map (fun j => Triplet i j dzero) (znth [] nn i) ++ [Triplet i i done])
            (range 0 n),
   flat_map (fun i => map (fun j => Triplet i j dzero) (znth [] nn i)) (range 0 n)).

(** Lines 1343-1356: outer product of the coefficient of a point and of its neighbours. *)
Definition z_outer_z (rand_coef_data : list double) (nn : list (list Z)) (i : Z) : list (list double) :=
  let coef_vec :=
    znth dzero rand_coef_data i ::
    (if 0 <? i then map (znth dzero rand_coef_data) (znth [] nn i) else []) in
  map (fun a => map (fun b => dmul a b) coef_vec) coef_vec.

(** Lines 1326-1357: one random-coefficient process [j]. *)
Definition add_rand_coef (cfg : config) (re_comp : RECompGP) (st : comps) (j : Z) : comps :=
  let rand_coef_data :=
    map (fun id => znth dzero (gp_rand_coef_data cfg) (j * num_data cfg + id))
        (data_indices_per_cluster st) in
  let n := Z.of_nat (length (data_indices_per_cluster st)) in
  let zz := fold_left (fun (z : list (list (list (list double)))) (i : Z) =>
      let z_i := if j =? 0 then replicate (Z.to_nat (num_gp_rand_coef cfg)) [] else znth [] z i in
      zset z i (zset z_i j (z_outer_z rand_coef_data (nearest_neighbors_cluster_i st) i)))
    (range 0 n) (z_outer_z_obs_neighbors_cluster_i st) in
  mkREComponents (data_indices_per_cluster st)
    (re_comps_cluster_i st ++ [new_RECompGP_rand_coef rand_coef_data cfg (GetTaperMu re_comp)])
    (nearest_neighbors_cluster_i st) (dist_obs_neighbors_cluster_i st)
    (dist_between_neighbors_cluster_i st) (entries_init_B_cluster_i st)
    (entries_init_B_grad_cluster_i st) zz
    (only_one_GP_calculations_on_RE_scale st) (has_duplicates_coords st) (rng st).

(** The whole function. [re_comps_resid_cluster_i] is only read. *)
Definition CreateREComponentsVecchia (cfg : config) (re_comps_resid_cluster_i : list RECompGP)
    (st0 : comps) : result comps :=
  let ind_intercept_gp := Z.of_nat (length (re_comps_cluster_i st0)) in
  let '(ids1, g1) := pre_shuffle cfg (data_indices_per_cluster st0) (rng st0) in
  let '(gp_coords_mat, ids2) := time_order cfg (gather_coords cfg ids1) ids1 in
  let only_one := (num_gp_total cfg =? 1) && (num_comps_total cfg =? 1) && negb (gauss_likelihood cfg) in
  let new_comp := new_RECompGP gp_coords_mat cfg only_one in
  let re_comps1 := re_comps_cluster_i st0 ++ [new_comp] in
  let re_comp := select_re_comp cfg re_comps1 re_comps_resid_cluster_i ind_intercept_gp new_comp in
  let only_one' :=
    if GetNumUniqueREs re_comp =? Z.of_nat (length ids2) then false else only_one in
  let n_re := GetNumUniqueREs re_comp in
  let empty_nn := replicate (Z.to_nat n_re) [] in
  let '(nn, d_obs, d_between, has_duplicates, g2) :=
    if negb (vecchia_neighbor_selection cfg =? "residual_correlation")%string then
      find_nearest_neighbors_Vecchia_fast (GetCoords re_comp) n_re (num_neighbors cfg) 0 (-1)
        (check_has_duplicates cfg) (vecchia_neighbor_selection cfg) g1 (ShouldSaveDistances re_comp)
    else
      let '(nn, d_obs, has_dup) :=
        init_neighbors (num_data cfg) (num_neighbors cfg) (check_has_duplicates cfg)
          (ShouldSaveDistances re_comp) (GetCoords re_comp)
          (empty_nn, replicate (Z.to_nat n_re) [], false) in
      (nn, d_obs, replicate (Z.to_nat n_re) [], has_dup, g1) in
  let st1 := mkREComponents ids2 re_comps1 nn d_obs d_between
      (entries_init_B_cluster_i st0) (entries_init_B_grad_cluster_i st0)
      (z_outer_z_obs_neighbors_cluster_i st0) only_one' (has_duplicates_coords st0) g2 in
  if is_time_ordering cfg && negb (IsSpaceTimeModel re_comp) then REFatal msg_time_ordering st1
  else
    let dup := if check_has_duplicates cfg then has_duplicates_coords st0 || has_duplicates
               else has_duplicates_coords st0 in
    let st2 := mkREComponents ids2 re_comps1 nn d_obs d_between
      (entries_init_B_cluster_i st0) (entries_init_B_grad_cluster_i st0)
      (z_outer_z_obs_neighbors_cluster_i st0) only_one' dup g2 in
    if check_has_duplicates cfg && negb (gauss_likelihood cfg) && dup then REFatal msg_duplicates st2
    else
      let '(tB, tBg) := init_B_triplets n_re nn in
      let st3 := mkREComponents ids2 re_comps1 nn d_obs d_between
        (entries_init_B_cluster_i st0 ++ tB) (entries_init_B_grad_cluster_i st0 ++ tBg)
        (z_outer_z_obs_neighbors_cluster_i st0) only_one' dup g2 in
      if 0 <? num_gp_rand_coef cfg then
        if negb (ShouldSaveDistances re_comp) then REFatal msg_rand_coef st3
        else
          let st4 := mkREComponents ids2 re_comps1 nn d_obs d_between
            (entries_init_B_cluster_i st3) (entries_init_B_grad_cluster_i st3)
            (replicate (Z.to_nat n_re) []) only_one' dup g2 in
          Ok (fold_left (add_rand_coef cfg re_comp) (range 0 (num_gp_rand_coef cfg)) st4)
      else Ok st3.

(** The component whose [ShouldSaveDistances] decides the random-coefficient check. *)
Definition selected_re_comp (cfg : config) (re_comps_resid_cluster_i : list RECompGP) (st0 : comps)
  : RECompGP :=
  let '(ids1, g1) := pre_shuffle cfg (data_indices_per_cluster st0) (rng st0) in
  let '(gp_coords_mat, ids2) := time_order cfg (gather_coords cfg ids1) ids1 in
  let only_one := (num_gp_total cfg =? 1) && (num_comps_total cfg =? 1) && negb (gauss_likelihood cfg) in
  let new_comp := new_RECompGP gp_coords_mat cfg only_one in
  select_re_comp cfg (re_comps_cluster_i st0 ++ [new_comp]) re_comps_resid_cluster_i
    (Z.of_nat (length (re_comps_cluster_i st0))) new_comp.

(** The state of the by-reference arguments in either outcome. *)
Definition final_state (r : result comps) : comps :=
  match r with Ok st => st | REFatal _ st => st end.

Lemma add_rand_coef_frame (cfg : config) (re_comp : RECompGP) (js : list Z) (st : comps) :
  let st' := fold_left (add_rand_coef cfg re_comp) js st in
  data_indices_per_cluster st' = data_indices_per_cluster st ∧
  nearest_neighbors_cluster_i st' = nearest_neighbors_cluster_i st ∧
  entries_init_B_cluster_i st' = entries_init_B_cluster_i st ∧
  entries_init_B_grad_cluster_i st' = entries_init_B_grad_cluster_i st.
Proof.
  revert st. induction js as [|j js IH]; intros st; simpl; [tauto|].
  destruct (IH (add_rand_coef cfg re_comp st j)) as (H1 & H2 & H3 & H4).
  rewrite H1, H2, H3, H4. unfold add_rand_coef; simpl. tauto.
Qed.

(** The data order after the function is the (time-ordered) pre-shuffled order. *)
Lemma CreateREComponentsVecchia_data_indices (cfg : config) (resid : list RECompGP) (st0 : comps) :
  data_indices_per_cluster (final_state (CreateREComponentsVecchia cfg resid st0)) =
  (let ids1 := fst (pre_shuffle cfg (data_indices_per_cluster st0) (rng st0)) in
   snd (time_order cfg (gather_coords cfg ids1) ids1)).
Proof.
  unfold CreateREComponentsVecchia.
  destruct (pre_shuffle cfg (data_indices_per_cluster st0) (rng st0)) as [ids1 g1]; simpl fst.
  cbv zeta.
  destruct (time_order cfg (gather_coords cfg ids1) ids1) as [gp_coords_mat ids2]; simpl snd.
  repeat match goal with
  | |- context [let '(_, _) := ?e in _] => destruct e
  | |- context [if ?b then _ else _] => destruct b
  end; simpl; try reflexivity;
  match goal with
  | |- data_indices_per_cluster (fold_left ?f ?js ?st) = _ =>
      exact (proj1 (add_rand_coef_frame cfg _ js st))
  end.
Qed.

(** C10. The random pre-permutation of the data indices is applied exactly
    when the ordering is "random" or "time_random_space" and [gp_approx] is
    not "full_scale_vecchia": under the full-scale approximation the data
    order after [CreateREComponentsVecchia] is the input order (time-sorted
    when a time ordering is requested), whatever the ordering setting and the
    random generator; without it, and with one of the two random orderings,
    it is the shuffled order. *)
Theorem CreateREComponentsVecchia_shuffle_only_without_full_scale
    (cfg : config) (resid : list RECompGP) (st0 : comps) :
  let ids0 := data_indices_per_cluster st0 in
  let ids_out := data_indices_per_cluster (final_state (CreateREComponentsVecchia cfg resid st0)) in
  (gp_approx cfg = "full_scale_vecchia" →
     pre_shuffle cfg ids0 (rng st0) = (ids0, rng st0) ∧
     ids_out = snd (time_order cfg (gather_coords cfg ids0) ids0)) ∧
  (gp_approx cfg ≠ "full_scale_vecchia" →
     vecchia_ordering cfg = "random" ∨ vecchia_ordering cfg = "time_random_space" →
     pre_shuffle cfg ids0 (rng st0) = std_shuffle ids0 (rng st0) ∧
     ids_out = (let ids1 := fst (std_shuffle ids0 (rng st0)) in
                snd (time_order cfg (gather_coords cfg ids1) ids1))) ∧
  (vecchia_ordering cfg ≠ "random" → vecchia_ordering cfg ≠ "time_random_space" →
     pre_shuffle cfg ids0 (rng st0) = (ids0, rng st0) ∧
     ids_out = snd (time_order cfg (gather_coords cfg ids0) ids0)).
Proof.
  intros ids0 ids_out. subst ids_out.
  rewrite CreateREComponentsVecchia_data_indices. fold ids0.
  split; [|split].
  - intros Hfsa. unfold pre_shuffle. rewrite Hfsa.
    rewrite String.eqb_refl, andb_false_r. simpl. split; reflexivity.
  - intros Hfsa Hord. unfold pre_shuffle.
    apply String.eqb_neq in Hfsa. rewrite Hfsa.
    destruct Hord as [-> | ->]; simpl; split; reflexivity.
  - intros H1 H2. unfold pre_shuffle.
    apply String.eqb_neq in H1. apply String.eqb_neq in H2. rewrite H1, H2.
    simpl. split; reflexivity.
Qed.

(** C9. With at least one random-coefficient process and a covariance module
    whose [ShouldSaveDistances] is false, [CreateREComponentsVecchia] ends in
    a fatal error, and it does so before any random-coefficient component is
    constructed: only the intercept process has been appended to the
    components and the outer-product container is untouched. *)
Theorem CreateREComponentsVecchia_rand_coef_fatal
    (cfg : config) (resid : list RECompGP) (st0 : comps) :
  0 < num_gp_rand_coef cfg →
  ShouldSaveDistances (selected_re_comp cfg resid st0) = false →
  ∃ msg st,
    CreateREComponentsVecchia cfg resid st0 = REFatal msg st ∧
    (msg = msg_rand_coef ∨ msg = msg_time_ordering ∨ msg = msg_duplicates) ∧
    length (re_comps_cluster_i st) = S (length (re_comps_cluster_i st0)) ∧
    z_outer_z_obs_neighbors_cluster_i st = z_outer_z_obs_neighbors_cluster_i st0.
Proof.
  intros Hnum Hsave. unfold selected_re_comp in Hsave.
  unfold CreateREComponentsVecchia.
  destruct (pre_shuffle cfg (data_indices_per_cluster st0) (rng st0)) as [ids1 g1].
  destruct (time_order cfg (gather_coords cfg ids1) ids1) as [gp_coords_mat ids2].
  cbv zeta in *. rewrite Hsave.
  apply Z.ltb_lt in Hnum. rewrite Hnum. simpl negb.
  repeat match goal with
  | |- context [let '(_, _) := ?e in _] => destruct e
  | |- context [if ?b then _ else _] => destruct b
  end;
  eexists; eexists; (split; [reflexivity|]); simpl;
  rewrite ?length_app; simpl; (split; [tauto|]); split; try reflexivity; lia.
Qed.

End CreateREComponents.

(** A small instance used to exercise the function: two points on a line,
    numbers read as integers, a covariance module that is just the value of
    its [ShouldSaveDistances] flag. *)
Definition ex_cfg : REConfig Z :=
  mkREConfig 2 1 [0; 1] [1; 1] "none" 1 "residual_correlation" false 1 2 2 true
             "exponential" 0 0 0 false "vecchia".

Definition ex_st0 : REComponents Z bool unit :=
  mkREComponents [0; 1] [] [] [] [] [] [] [] false false tt.

Definition ex_CreateREComponentsVecchia (save_distances : bool) (cfg : REConfig Z)
  : result (REComponents Z bool unit) :=
  CreateREComponentsVecchia Z 0 1 Z.mul (fun _ _ => 1) (fun d => d <? 0)
    bool (fun _ _ _ => save_distances) (fun _ _ _ => save_distances)
    (fun _ => 2) (fun _ => [[0]; [1]]) (fun b => b) (fun _ => false) (fun _ => 0)
    unit (fun l g => (rev l, g)) (fun _ => [1; 0])
    (fun _ _ _ _ _ _ _ g _ => ([], [], [], false, g)) cfg [] ex_st0.

Example ex_rand_coef_fatal :
  ex_CreateREComponentsVecchia false ex_cfg =
  REFatal msg_rand_coef
    (mkREComponents [0; 1] [false] [[]; [0]] [[]; []] [[]; []]
       [Triplet 0 0 1; Triplet 1 0 0; Triplet 1 1 1] [Triplet 1 0 0] [] false false tt).
Proof. vm_compute. reflexivity. Qed.

Example ex_rand_coef_ok :
  is_Some (match ex_CreateREComponentsVecchia true ex_cfg with
           | Ok st => Some (length (re_comps_cluster_i st)) | REFatal _ _ => None end).
Proof. vm_compute. eexists; reflexivity. Qed.

Lemma CreateREComponentsVecchia_rand_coef_fatal_witness :
  ∃ msg st,
    ex_CreateREComponentsVecchia false ex_cfg = REFatal msg st ∧
    (msg = msg_rand_coef ∨ msg = msg_time_ordering ∨ msg = msg_duplicates) ∧
    length (re_comps_cluster_i st) = S (length (re_comps_cluster_i ex_st0)) ∧
    z_outer_z_obs_neighbors_cluster_i st = z_outer_z_obs_neighbors_cluster_i ex_st0.
Proof.
  unfold ex_CreateREComponentsVecchia.
  apply CreateREComponentsVecchia_rand_coef_fatal; reflexivity.
Defined.

(** ** The factor [B] ([CalcCovFactorVecchia]) *)

Section CovFactorB.

Variable double : Type.
Variables dzero done : double.
Variable dadd : double → double → double.
Variable dneg : double → double.
(** The row [A_i = (c_NN^{-1} c_iN)^T] that Eigen's LLT solve returns for
    point [i] from the covariance blocks of the covariance module. *)
Variable A_i : Z → list double.

(** Eigen's sparse matrix: the stored coefficients by [(row, col)]. *)
Abbreviation sp_mat_t := (gmap (Z * Z) double).

(** [m.coeff(i, j)]: zero where nothing is stored. *)
Definition coeff (m : sp_mat_t) (i j : Z) : double := default dzero (m !! (i, j)).

(** [m.coeffRef(i, j) = v]. *)
Definition coeffRef_set (m : sp_mat_t) (i j : Z) (v : double) : sp_mat_t := <[(i, j) := v]> m.

Definition add_triplet (m : sp_mat_t) (t : Triplet_t double) : sp_mat_t :=
  <[(t_row t, t_col t) :=
      match m !! (t_row t, t_col t) with
      | Some v => dadd v (t_value t)
      | None => t_value t
      end]> m.

(** [setFromTriplets]: duplicated entries are summed. *)
Definition setFromTriplets (ts : list (Triplet_t double)) : sp_mat_t :=
  fold_left add_triplet ts ∅.

(** Lines 1742-1744 for one point. *)
Definition set_B_row (nn : list (list Z)) (B : sp_mat_t) (i : Z) : sp_mat_t :=
  if 0 <? i then
    let nearest_neighbors_cluster_i_i := znth [] nn i in
    let num_nn := Z.of_nat (length nearest_neighbors_cluster_i_i) in
    fold_left (fun B inn =>
        coeffRef_set B i (znth 0 nearest_neighbors_cluster_i_i inn) (dneg (znth dzero (A_i i) inn)))
      (range 0 num_nn) B
  else B.

(** [B_cluster_i] after the loop over the points (lines 1505-1506, 1573 and
    1742-1744). *)
Definition CalcCovFactorVecchia_B (num_re_cluster_i : Z)
    (entries_init_B_cluster_i : list (Triplet_t double)) (nn : list (list Z)) : sp_mat_t :=
  fold_left (set_B_row nn) (range 0 num_re_cluster_i) (setFromTriplets entries_init_B_cluster_i).

(** Well-formed neighbour lists: every neighbour of [i] has a smaller index. *)
Definition earlier_neighbors (n : Z) (nn : list (list Z)) : Prop :=
  ∀ i j, 0 ≤ i < n → j ∈ znth [] nn i → 0 ≤ j < i.

Lemma fold_add_triplet_other (ts : list (Triplet_t double)) (m : sp_mat_t) (κ : Z * Z) :
  (∀ t, t ∈ ts → (t_row t, t_col t) ≠ κ) →
  fold_left add_triplet ts m !! κ = m !! κ.
Proof.
  revert m. induction ts as [|t ts IH]; intros m H; simpl; [reflexivity|].
  rewrite IH.
  - unfold add_triplet. apply lookup_insert_ne. apply H. left.
  - intros t' Ht'. apply H. right. exact Ht'.
Qed.

Lemma fold_add_triplet_dom (ts : list (Triplet_t double)) (m : sp_mat_t) (κ : Z * Z) :
  is_Some (fold_left add_triplet ts m !! κ) →
  is_Some (m !! κ) ∨ ∃ t, t ∈ ts ∧ (t_row t, t_col t) = κ.
Proof.
  revert m. induction ts as [|t ts IH]; intros m H; simpl in H; [left; exact H|].
  destruct (IH _ H) as [Hm | (t' & Ht' & Hk)].
  - unfold add_triplet in Hm.
    destruct (decide ((t_row t, t_col t) = κ)) as [Heq | Hne].
    + right. exists t. split; [left | exact Heq].
    + rewrite lookup_insert_ne in Hm by exact Hne. left. exact Hm.
  - right. exists t'. split; [right; exact Ht' | exact Hk].
Qed.

Lemma znth_elem_of (l : list Z) (inn : Z) :
  0 ≤ inn < Z.of_nat (length l) → znth 0 l inn ∈ l.
Proof.
  intros H. unfold znth. destruct (inn <? 0) eqn:E; [lia|].
  apply list_elem_of_In. apply nth_In. lia.
Qed.

Lemma set_B_row_other (nn : list (list Z)) (B : sp_mat_t) (i : Z) (κ : Z * Z) :
  (κ.1 ≠ i ∨ κ.2 ∉ znth [] nn i) →
  set_B_row nn B i !! κ = B !! κ.
Proof.
  intros H. unfold set_B_row. destruct (0 <? i); [|reflexivity].
  cbv zeta.
  assert (Hin : ∀ inn, inn ∈ range 0 (Z.of_nat (length (znth [] nn i))) →
                 znth 0 (znth [] nn i) inn ∈ znth [] nn i).
  { intros inn Hinn. apply elem_of_range in Hinn. apply znth_elem_of. lia. }
  revert B Hin. generalize (range 0 (Z.of_nat (length (znth [] nn i)))).
  intros l. induction l as [|inn l IH]; intros B Hin; simpl; [reflexivity|].
  rewrite IH.
  - unfold coeffRef_set. apply lookup_insert_ne.
    intros Heq. destruct κ as [a b]. simpl in H. inversion Heq; subst.
    destruct H as [H | H]; [congruence|]. apply H, Hin. left.
  - intros inn' Hinn'. apply Hin. right. exact Hinn'.
Qed.

Lemma set_B_row_dom (nn : list (list Z)) (B : sp_mat_t) (i : Z) (κ : Z * Z) :
  is_Some (set_B_row nn B i !! κ) →
  is_Some (B !! κ) ∨ (κ.1 = i ∧ κ.2 ∈ znth [] nn i).
Proof.
  intros H.
  destruct (decide (κ.1 = i)) as [Hi | Hi].
  - destruct (decide (κ.2 ∈ znth [] nn i)) as [Hj | Hj]; [right; tauto|].
    left. rewrite set_B_row_other in H by tauto. exact H.
  - left. rewrite set_B_row_other in H by tauto. exact H.
Qed.

Lemma fold_set_B_row_other (nn : list (list Z)) (rows : list Z) (B : sp_mat_t) (κ : Z * Z) :
  κ.2 ∉ znth [] nn κ.1 →
  fold_left (set_B_row nn) rows B !! κ = B !! κ.
Proof.
  intros H. revert B. induction rows as [|i rows IH]; intros B; simpl; [reflexivity|].
  rewrite IH. apply set_B_row_other.
  destruct (decide (κ.1 = i)) as [<- | Hne]; [right; exact H | left; exact Hne].
Qed.

Lemma fold_set_B_row_dom (nn : list (list Z)) (rows : list Z) (B : sp_mat_t) (κ : Z * Z) :
  is_Some (fold_left (set_B_row nn) rows B !! κ) →
  is_Some (B !! κ) ∨ κ.2 ∈ znth [] nn κ.1.
Proof.
  revert B. induction rows as [|i rows IH]; intros B H; simpl in H; [left; exact H|].
  destruct (IH _ H) as [HB | Hin]; [|right; exact Hin].
  destruct (set_B_row_dom _ _ _ _ HB) as [HB' | [<- Hin]]; [left; exact HB' | right; exact Hin].
Qed.

(** The triplets of [init_B_triplets] put exactly one entry, [1.], on the
    diagonal of every row when neighbours have smaller indices. *)
Lemma setFromTriplets_init_diag (n : nat) (nn : list (list Z)) :
  earlier_neighbors (Z.of_nat n) nn →
  let B := setFromTriplets (init_B_triplets double dzero done (Z.of_nat n) nn).1 in
  (∀ i, 0 ≤ i < Z.of_nat n → B !! (i, i) = Some done) ∧
  (∀ i j, is_Some (B !! (i, j)) → 0 ≤ i < Z.of_nat n ∧ (j = i ∨ j ∈ znth [] nn i)).
Proof.
  unfold init_B_triplets, setFromTriplets. simpl fst.
  induction n as [|n IH]; intros Hnn.
  - simpl. split; [lia|]. intros i j H. rewrite lookup_empty in H. destruct H; discriminate.
  - rewrite Nat2Z.inj_succ, <- Z.add_1_r, range_snoc by lia.
    rewrite flat_map_app, fold_left_app. simpl flat_map. rewrite app_nil_r.
    rewrite fold_left_app. simpl fold_left.
    destruct IH as [IHd IHk].
    { intros i j Hi Hj. apply Hnn; [lia | exact Hj]. }
    set (B0 := fold_left add_triplet _ ∅) in *.
    set (row := map (fun j => Triplet (Z.of_nat n) j dzero) (znth [] nn (Z.of_nat n))).
    assert (Hrow : ∀ t, t ∈ row → t_row t = Z.of_nat n ∧ t_col t ∈ znth [] nn (Z.of_nat n)).
    { intros t Ht. apply list_elem_of_fmap in Ht. destruct Ht as (j & -> & Hj). simpl. tauto. }
    split.
    + intros i Hi. unfold add_triplet at 1. simpl t_row. simpl t_col. simpl t_value.
      destruct (decide (i = Z.of_nat n)) as [-> | Hne].
      * rewrite lookup_insert_eq.
        rewrite fold_add_triplet_other.
        -- destruct (B0 !! (Z.of_nat n, Z.of_nat n)) eqn:E; [|reflexivity].
           destruct (IHk (Z.of_nat n) (Z.of_nat n)) as [Hlt _]; [eexists; exact E | lia].
        -- intros t Ht Heq. destruct (Hrow t Ht) as [_ Hc].
           injection Heq as Hr Hc'. rewrite Hc' in Hc.
           apply Hnn in Hc; lia.
      * rewrite lookup_insert_ne by congruence.
        rewrite fold_add_triplet_other; [apply IHd; lia|].
        intros t Ht Heq. destruct (Hrow t Ht) as [Hr _]. inversion Heq. congruence.
    + intros i j H. unfold add_triplet at 1 in H. simpl t_row in H. simpl t_col in H.
      destruct (decide ((Z.of_nat n, Z.of_nat n) = (i, j))) as [Heq | Hne].
      * inversion Heq; subst. split; [lia | left; reflexivity].
      * rewrite lookup_insert_ne in H by exact Hne.
        apply fold_add_triplet_dom in H. destruct H as [H | (t & Ht & Hk)].
        -- destruct (IHk i j H) as [Hi Hj]. split; [lia | exact Hj].
        -- destruct (Hrow t Ht) as [Hr Hc]. injection Hk as <- <-.
           rewrite Hr. split; [lia | right; exact Hc].
Qed.

(** Structure of [B] for any neighbour lists with earlier neighbours. *)
Lemma CalcCovFactorVecchia_B_structure (n : Z) (nn : list (list Z)) :
  0 ≤ n → earlier_neighbors n nn →
  let B := CalcCovFactorVecchia_B n (init_B_triplets double dzero done n nn).1 nn in
  ∀ i, 0 ≤ i < n →
    coeff B i i = done ∧
    ∀ j, j ≠ i → is_Some (B !! (i, j)) → j ∈ znth [] nn i.
Proof.
  intros Hn Hnn B i Hi. subst B. unfold CalcCovFactorVecchia_B, coeff.
  rewrite <- (Z2Nat.id n) in Hnn |- * by lia.
  destruct (setFromTriplets_init_diag (Z.to_nat n) nn Hnn) as [Hd Hk].
  split.
  - rewrite fold_set_B_row_other.
    + rewrite Hd by lia. reflexivity.
    + simpl. intros Hin. apply Hnn in Hin; lia.
  - intros j Hj H. apply fold_set_B_row_dom in H. simpl in H.
    destruct H as [H | H]; [|exact H].
    destruct (Hk i j H) as [_ [-> | Hin]]; [congruence | exact Hin].
Qed.

End CovFactorB.

(** ** The neighbour vectors before the search *)

Lemma znth_zset_eq {A : Type} (d : A) (l : list A) (i : Z) (x : A) :
  0 ≤ i < Z.of_nat (length l) → znth d (zset l i x) i = x.
Proof.
  intros H. unfold znth, zset. destruct (i <? 0) eqn:E; [lia|].
  apply nth_lookup_Some. apply list_lookup_insert_eq. lia.
Qed.

Lemma znth_zset_ne {A : Type} (d : A) (l : list A) (i j : Z) (x : A) :
  i ≠ j → znth d (zset l i x) j = znth d l j.
Proof.
  intros H. unfold znth, zset. destruct (j <? 0) eqn:Ej; [reflexivity|].
  destruct (i <? 0) eqn:Ei; [reflexivity|].
  rewrite !nth_lookup. rewrite list_lookup_insert_ne by lia. reflexivity.
Qed.

Lemma length_zset {A : Type} (l : list A) (i : Z) (x : A) : length (zset l i x) = length l.
Proof. unfold zset. destruct (i <? 0); [reflexivity | apply length_insert]. Qed.

Section FactorStructure.

Variable double : Type.
Variable dzero : double.
Variable lpNorm2_diff : list double → list double → double.
Variable lt_EPSILON_NUMBERS : double → bool.

(** The neighbour vector that [init_neighbors] leaves for point [i]. *)
Definition initial_neighbors (k i : Z) : list Z :=
  if (0 <? i) && (i <=? k) then range 0 i
  else if k <? i then replicate (Z.to_nat k) 0
  else [].

Lemma init_neighbors_step_nn (k : Z) (check save : bool) (coords : list (list double))
    (st : list (list Z) * list (list double) * bool) (i : Z) :
  0 ≤ k → 0 ≤ i →
  (init_neighbors_step double dzero lpNorm2_diff lt_EPSILON_NUMBERS k check save coords st i).1.1 =
  if decide (i = 0) then st.1.1 else zset st.1.1 i (initial_neighbors k i).
Proof.
  intros Hk Hi. destruct st as [[nn d_obs] has_dup]. unfold init_neighbors_step, initial_neighbors.
  destruct ((0 <? i) && (i <=? k)) eqn:E1.
  - destruct (init_point_small _ _ _ _ _ _ _ _ _) as [d_i hd]. simpl.
    destruct (decide (i = 0)); [lia | reflexivity].
  - destruct (k <? i) eqn:E2; simpl.
    + destruct (decide (i = 0)); [lia | reflexivity].
    + destruct (decide (i = 0)); [reflexivity | lia].
Qed.

Lemma init_neighbors_nn (m : nat) (k : Z) (check save : bool) (coords : list (list double))
    (st : list (list Z) * list (list double) * bool) :
  0 ≤ k →
  let nn := (init_neighbors double dzero lpNorm2_diff lt_EPSILON_NUMBERS
               (Z.of_nat m) k check save coords st).1.1 in
  length nn = length st.1.1 ∧
  ∀ i, 0 ≤ i < Z.of_nat (length st.1.1) →
    znth [] nn i = if decide (0 < i < Z.of_nat m) then initial_neighbors k i else znth [] st.1.1 i.
Proof.
  intros Hk. unfold init_neighbors. induction m as [|m IH].
  - simpl. split; [reflexivity|]. intros i Hi. destruct (decide _); [lia | reflexivity].
  - rewrite Nat2Z.inj_succ, <- Z.add_1_r, range_snoc by lia.
    rewrite fold_left_app. simpl fold_left.
    rewrite init_neighbors_step_nn by lia.
    destruct IH as [IHl IHn].
    destruct (decide (Z.of_nat m = 0)) as [E | E].
    + split; [exact IHl|]. intros i Hi. rewrite IHn by exact Hi.
      repeat destruct (decide _); try reflexivity; lia.
    + rewrite length_zset. split; [exact IHl|]. intros i Hi.
      destruct (decide (i = Z.of_nat m)) as [-> | Hne].
      * rewrite znth_zset_eq by lia. destruct (decide _); [reflexivity | lia].
      * rewrite znth_zset_ne by congruence. rewrite IHn by exact Hi.
        repeat destruct (decide _); try reflexivity; lia.
Qed.

Lemma initial_neighbors_spec (k i : Z) :
  0 ≤ k → 0 ≤ i →
  length (initial_neighbors k i) = Z.to_nat (Z.min k i) ∧
  ∀ j, j ∈ initial_neighbors k i → 0 ≤ j < i.
Proof.
  intros Hk Hi. unfold initial_neighbors.
  destruct ((0 <? i) && (i <=? k)) eqn:E1.
  - rewrite length_range. split; [f_equal; lia|].
    intros j Hj. apply elem_of_range in Hj. exact Hj.
  - destruct (k <? i) eqn:E2.
    + rewrite length_replicate. split; [f_equal; lia|].
      intros j Hj. apply elem_of_replicate in Hj. lia.
    + simpl. split; [lia|]. intros j Hj. inversion Hj.
Qed.

(** The neighbour vectors that [CreateREComponentsVecchia] leaves for [n]
    points when the neighbours are selected by residual correlation (lines
    1274-1300). They are no neighbours yet: the rows beyond [k] hold the [k]
    zeros of [resize] until [UpdateNearestNeighbors] runs the search. *)
Definition neighbors_after_init (n k : Z) (check save : bool) (coords : list (list double))
  : list (list Z) :=
  (init_neighbors double dzero lpNorm2_diff lt_EPSILON_NUMBERS n k check save coords
     (replicate (Z.to_nat n) [], replicate (Z.to_nat n) [], false)).1.1.

Lemma neighbors_after_init_spec (n k : Z) (check save : bool) (coords : list (list double)) (i : Z) :
  0 ≤ k → 0 ≤ i < n →
  znth [] (neighbors_after_init n k check save coords) i = initial_neighbors k i.
Proof.
  intros Hk Hi. unfold neighbors_after_init.
  rewrite <- (Z2Nat.id n) at 1 by lia.
  destruct (init_neighbors_nn (Z.to_nat n) k check save coords
              (replicate (Z.to_nat n) [], replicate (Z.to_nat n) [], false) Hk) as [_ H].
  simpl in H. rewrite length_replicate in H. rewrite H by lia.
  destruct (decide _); [reflexivity|].
  assert (i = 0) as -> by lia.
  unfold initial_neighbors. simpl.
  destruct (k <? 0) eqn:E; [lia|].
  unfold znth. simpl. destruct (Z.to_nat n); reflexivity.
Qed.

End FactorStructure.

Example ex_neighbors_after_init :
  neighbors_after_init Z 0 (fun _ _ => 1) (fun d => d <? 0) 4 2 false false [] =
  [[]; [0]; [0; 1]; [0; 0]].
Proof. vm_compute. reflexivity. Qed.

(** ** The diagonal [D] and its safeguard ([CalcCovFactorVecchia]) *)

(** Here the numbers are IEEE binary64 values, as in the program: the
    safeguard is a comparison on [1 / D[i,i]]. *)

Definition msg_min_D_inv_below_zero : string :=
  "The matrix D in the Vecchia approximation contains negative or zero values. This is a serious problem that likely results from numerical instabilities ".

(** What the safeguard does with the message. *)
Inductive report : Type :=
| NoReport
| Warned (msg : string)    (* Log::REWarning: execution continues *)
| Aborted (msg : string).  (* Log::REFatal: the call is aborted *)

(** The terms that enter [D[i,i]] for one point. *)
Record D_terms : Type := mkDTerms {
  q_sq : float;           (* chol_ip_cross_cov.col(i).array().square().sum() *)
  d_comp : list float;    (* d_comp_j for j < num_gp_total *)
  A_i_cov : float         (* (A_i * cov_mat_obs_neighbors)(0, 0) *)
}.

(** Lines 1507-1514: the value the diagonal starts from. *)
Definition D_start (transf_scale gauss_likelihood : bool) (nugget_var : float) : float :=
  if negb gauss_likelihood then 0%float
  else if negb transf_scale then nugget_var
  else 1%float.

(** Lines 1575, 1705 and 1745: [D[i,i]] before it is inverted. *)
Definition D_entry (full_scale_vecchia : bool) (start : float) (i : Z) (t : D_terms) : float :=
  let d := if full_scale_vecchia then (start - q_sq t)%float else start in
  let d := fold_left (fun d c => (d + c)%float) (d_comp t) d in
  if 0 <? i then (d - A_i_cov t)%float else d.

(** Line 1798: the stored diagonal is [1. / D[i,i]]. *)
Definition D_inv_diagonal (full_scale_vecchia transf_scale gauss_likelihood : bool)
    (nugget_var : float) (terms : list D_terms) : list float :=
  map (fun '(i, t) =>
         (1 / D_entry full_scale_vecchia (D_start transf_scale gauss_likelihood nugget_var) i t)%float)
      (combine (range 0 (Z.of_nat (length terms))) terms).

(** Eigen's [minCoeff]: the smallest coefficient, found by a scan. *)
Definition minCoeff (v : list float) : float :=
  match v with
  | [] => 0%float
  | x :: r => fold_left (fun m y => if PrimFloat.ltb y m then y else m) r x
  end.

(** Lines 1800-1811: the safeguard after the loop over the points. *)
Definition check_min_D_inv (gauss_likelihood : bool) (D_inv : list float) : report :=
  if PrimFloat.leb (minCoeff D_inv) 0%float then
    if gauss_likelihood then Warned msg_min_D_inv_below_zero
    else Aborted msg_min_D_inv_below_zero
  else NoReport.

Definition CalcCovFactorVecchia_safeguard (full_scale_vecchia transf_scale gauss_likelihood : bool)
    (nugget_var : float) (terms : list D_terms) : report :=
  check_min_D_inv gauss_likelihood
    (D_inv_diagonal full_scale_vecchia transf_scale gauss_likelihood nugget_var terms).

(** A negative entry of [D] is reported, as a warning or as an abort. *)
Example ex_negative_D_reported :
  let terms := [mkDTerms 0 [1%float] 0; mkDTerms 0 [1%float] 3] in
  map (D_entry false 1%float 1) terms = [2%float; (-1)%float] ∧
  CalcCovFactorVecchia_safeguard false true true 1 terms = Warned msg_min_D_inv_below_zero ∧
  map (D_entry false 0%float 1) terms = [1%float; (-2)%float] ∧
  CalcCovFactorVecchia_safeguard false true false 1 terms = Aborted msg_min_D_inv_below_zero.
Proof. vm_compute. repeat split. Qed.

Example ex_positive_D_silent :
  CalcCovFactorVecchia_safeguard false true true 1 [mkDTerms 0 [1%float] 0] = NoReport ∧
  CalcCovFactorVecchia_safeguard false true false 1 [mkDTerms 0 [1%float] 0] = NoReport.
Proof. vm_compute. repeat split. Qed.

(** C5 at a zero diagonal entry. With a non-Gaussian likelihood and the
    full-scale approximation, a first point that coincides with an inducing
    point has [D[0,0] = 0 - |Q[:,0]|^2 + sigma^2 = 0 - 1 + 1 = 0.]; the stored
    inverse is [1/0. = +infinity], the minimum of the inverted diagonal is not
    [<= 0], and nothing is reported, although the message of the safeguard
    speaks of "negative or zero values". The same holds in the Gaussian case
    on the original scale with a zero nugget. *)
Theorem zero_D_entry_is_not_reported :
  let t := mkDTerms 1 [1%float] 0 in
  D_entry true (D_start true false 1) 0 t = 0%float ∧
  D_inv_diagonal true true false 1 [t] = [infinity] ∧
  CalcCovFactorVecchia_safeguard true true false 1 [t] = NoReport ∧
  D_entry false (D_start false true 0) 0 (mkDTerms 0 [0%float] 0) = 0%float ∧
  CalcCovFactorVecchia_safeguard false false true 0 [mkDTerms 0 [0%float] 0] = NoReport.
Proof. vm_compute. repeat split. Qed.

(** ** Distances in the index structures *)

(** The neighbour search only compares distances, adds a slack to one and
    takes minima and maxima. In the index structures a distance is therefore
    a rational number, so that every comparison is decided; [Inf] is
    [std::numeric_limits<double>::infinity()], the initial content of the
    distance slots. A distance that is not a number (the NaN that
    [distances_funct] computes from a product of [corr_diag] entries that is
    not positive, or from a correlation above one) is outside this model:
    what is proved about the searches is proved for distances that are
    numbers. *)
Inductive dbl : Type :=
| Fin (q : Q)
| Inf.

Definition Qltb (x y : Q) : bool := negb (Qle_bool y x).

Definition dbl_ltb (a b : dbl) : bool :=
  match a, b with
  | Fin x, Fin y => Qltb x y
  | Fin _, Inf => true
  | Inf, _ => false
  end.

(** One pass of the inner loop of the insertion sort: the element moves to
    the left while its left neighbour is strictly larger. The prefix is given
    from right to left. *)
Fixpoint sift_left (x : dbl * Z) (rev_prefix : list (dbl * Z)) : list (dbl * Z) :=
  match rev_prefix with
  | [] => [x]
  | y :: r => if dbl_ltb x.1 y.1 then y :: sift_left x r else x :: y :: r
  end.

(** Modelled from the spec: [SortVectorsDecreasing] of [utils.h] is not among
    the sources. The specification uses it to keep the pair
    (distance, index) of the [k] candidate slots ordered so that the scans can
    test a new distance against slot [k-1] and overwrite that slot ("a
    max-heap of size k", "select the k smallest by distance"), leaving equal
    distances in the order in which they arrived ("ties broken by ascending
    global index"). It is the insertion sort that brings the largest distance
    to the last slot. *)
Definition SortVectorsDecreasing (a : list (dbl * Z)) : list (dbl * Z) :=
  rev (fold_left (fun rev_prefix x => sift_left x rev_prefix) a []).

(** The body of the three scans (lines 648-652, 672-676, 812-816): a closer
    candidate replaces slot [k-1] and the slots are sorted again. *)
Definition heap_offer (k : Z) (h : list (dbl * Z)) (d : Q) (jj : Z) : list (dbl * Z) :=
  if dbl_ltb (Fin d) (znth (Inf, 0) h (k - 1)).1
  then SortVectorsDecreasing (zset h (k - 1) (Fin d, jj))
  else h.

(** The slots before a scan: [k] infinite distances beside the first [k]
    entries of the neighbour vector. *)
Definition heap_init (k : Z) (neighbors_i : list Z) : list (dbl * Z) :=
  combine (replicate (Z.to_nat k) Inf) neighbors_i.

(** The neighbour vector after a scan: the first [k] entries are the slots. *)
Definition heap_neighbors (k : Z) (h : list (dbl * Z)) (neighbors_i : list Z) : list Z :=
  map snd h ++ drop (Z.to_nat k) neighbors_i.

(** [std::set_difference] on two sorted ranges. *)
Fixpoint set_difference (l1 l2 : list Z) : list Z :=
  match l1 with
  | [] => []
  | x :: r1 =>
      (fix scan (l2 : list Z) : list Z :=
         match l2 with
         | [] => x :: r1
         | y :: r2 =>
             if x <? y then x :: set_difference r1 (y :: r2)
             else if y <? x then scan r2
             else set_difference r1 r2
         end) l2
  end.

(** [*std::max_element] and the element [std::nth_element] puts at position [k-1]. *)
Definition max_element (l : list Q) : Q :=
  match l with
  | [] => 0%Q
  | x :: r => fold_left (fun m y => if Qltb m y then y else m) r x
  end.

Fixpoint insertQ (x : Q) (l : list Q) : list Q :=
  match l with
  | [] => [x]
  | y :: r => if Qle_bool x y then x :: y :: r else y :: insertQ x r
  end.

Definition sortQ (l : list Q) : list Q := fold_right insertQ [] l.

Definition kth_smallest (k : Z) (l : list Q) : Q := znth 0%Q (sortQ l) (k - 1).

(** Operations of [std::map<int, std::vector<int>>]. *)
Abbreviation int_map := (gmap Z (list Z)).

(** [m[key]] read. *)
Definition map_at (m : int_map) (key : Z) : list Z := default [] (m !! key).
(** [m[key].push_back(x)]; [operator[]] creates the entry when it is missing. *)
Definition map_push_back (m : int_map) (key x : Z) : int_map := <[key := map_at m key ++ [x]]> m.
(** [m.insert({key, v})]: nothing happens when the key is present. *)
Definition map_insert_new (m : int_map) (key : Z) (v : list Z) : int_map :=
  match m !! key with
  | Some _ => m
  | None => <[key := v]> m
  end.
(** The keys in the order a range-for visits them. *)
Definition keys_in_order (m : int_map) : list Z := merge_sort Z.le (elements (dom m)).

(** Outcome of [CoverTree_kNN]: the tree and its number of levels; the loop
    bound of the model exhausted; or the [std::length_error] of
    [std::vector<int> all_indices(coords.rows() - 1)] on an empty segment. *)
Inductive cover_tree_outcome : Type :=
| CT_built (cover_tree : int_map) (level : Z)
| CT_out_of_fuel
| CT_length_error.

(** The state of a query between two levels: the candidates with their
    distances ([Q] and [Q_dist], which grow and shrink together), the nodes to
    expand next, and the number of candidates after the previous level. *)
Record knn_state : Type := mkKnnState {
  Q_cand : list (Z * Q);
  diff_rev : list Z;
  Q_before_size : Z
}.

Section NeighborSearch.

(** [dist i j] is the entry that [distances_funct] writes for candidate [j]
    when the query point is [i] (global indices). *)
Variable dist : Z → Z → Q.

Definition distances_funct_idx (i : Z) (coords_ind_j : list Z) : list Q :=
  map (dist i) coords_ind_j.

(** *** Construction of the cover tree ([CoverTree_kNN]) *)

(** Lines 107-139: the loop that samples the children of [key] from its
    uncovered points at the radius [R_l]. Indices are local to the segment;
    [start] turns them into global ones. *)
Fixpoint sample_children (fuel : nat) (start key : Z) (R_l : Q)
    (covert_points_old_i : list Z) (cover_tree covert_points : int_map)
  : option (int_map * int_map) :=
  match covert_points_old_i with
  | [] => Some (cover_tree, covert_points)
  | sample_ind :: _ =>
      match fuel with
      | O => None
      | S fuel' =>
          let cover_tree' := map_push_back cover_tree (key + start) (sample_ind + start) in
          let covert_points_old_i_up :=
            List.filter (fun j => sample_ind <? j) covert_points_old_i in
          let dist_vect :=
            distances_funct_idx (sample_ind + start) (map (fun j => j + start) covert_points_old_i_up) in
          let covert_points1 :=
            fold_left (fun cp '(j, d) =>
                         if Qle_bool d R_l then map_push_back cp sample_ind j else cp)
                      (combine covert_points_old_i_up dist_vect) covert_points in
          let covert_points_vect := map_at covert_points1 sample_ind in
          let covert_points2 := map_insert_new covert_points1 sample_ind [] in
          let diff_vect := set_difference (tail covert_points_old_i) covert_points_vect in
          sample_children fuel' start key R_l diff_vect cover_tree' covert_points2
      end
  end.

(** Lines 100-140: one level, over the parents of the previous level. *)
Definition cover_level (start : Z) (R_l : Q) (covert_points_old cover_tree : int_map)
  : option (int_map * int_map) :=
  fold_left (fun acc key =>
      match acc with
      | None => None
      | Some (ct, cp) =>
          let covert_points_old_i := map_at covert_points_old key in
          sample_children (length covert_points_old_i) start key R_l covert_points_old_i
            (map_insert_new ct (key + start) [key + start]) cp
      end) (keys_in_order covert_points_old) (Some (cover_tree, ∅)).

(** Lines 97-143: the loop over the levels. *)
Fixpoint CoverTree_levels (fuel : nat) (rows : Z) (base : Q) (start : Z)
    (cover_tree covert_points_old : int_map) (level : Z) : cover_tree_outcome :=
  if Z.of_nat (size cover_tree) - 1 =? rows then CT_built cover_tree level
  else
    match fuel with
    | O => CT_out_of_fuel
    | S fuel' =>
        let level' := level + 1 in
        let R_l := (1 / base ^ level')%Q in
        match cover_level start R_l covert_points_old cover_tree with
        | None => CT_out_of_fuel
        | Some (cover_tree', covert_points) =>
            CoverTree_levels fuel' rows base start cover_tree' covert_points level'
        end
    end.

(** [CoverTree_kNN] on a segment of [rows] points that starts at [start]. *)
Definition CoverTree_kNN (fuel : nat) (rows : Z) (base : Q) (start : Z) : cover_tree_outcome :=
  if rows <=? 0 then CT_length_error
  else CoverTree_levels fuel rows base start {[ -1 := [start] ]} {[ 0 := range 1 rows ]} 0.

(** *** Query ([find_kNN_CoverTree]) *)

(** Lines 569-579: the children of [j] below [i]; the list is left at the
    first child that is not below [i]. *)
Fixpoint children_below (i j : Z) (children : list Z) : list Z :=
  match children with
  | [] => []
  | jj :: r =>
      if jj <? i then (if jj =? j then children_below i j r else jj :: children_below i j r)
      else []
  end.

(** Lines 562-639: one level [ii] of the query; the flag is [early_stop]. *)
Definition query_level (i k levels : Z) (base : Q) (cover_tree : int_map) (root : Z)
    (ii : Z) (st : knn_state) : knn_state * bool :=
  let diff_rev_interim :=
    (if ii =? 1 then [root] else []) ++
    flat_map (fun j => children_below i j (map_at cover_tree j)) (diff_rev st) in
  let Qn := Q_cand st ++ map (fun jj => (jj, dist i jj)) diff_rev_interim in
  let early_stop := (Z.of_nat (length diff_rev_interim) =? 0) || (ii =? levels - 1) in
  let dist_k_Q_cor :=
    if 1 <? ii then
      ((if Z.of_nat (length Qn) <? k then max_element (map snd Qn)
        else kth_smallest k (map snd Qn)) + 1 / base ^ (ii - 1))%Q
    else 1%Q in
  if Qle_bool 1 dist_k_Q_cor then
    let diff_rev' :=
      if early_stop then []
      else if ii =? 1 then tail diff_rev_interim else diff_rev_interim in
    (mkKnnState Qn diff_rev' (Z.of_nat (length Qn)), early_stop)
  else
    let keep := fun p : Z * Q => Qle_bool p.2 dist_k_Q_cor in
    let Q_interim := List.filter keep Qn in
    let diff_rev' := map fst (List.filter keep (drop (Z.to_nat (Q_before_size st)) Qn)) in
    (mkKnnState Q_interim diff_rev' (Z.of_nat (length Q_interim)), early_stop).

(** Lines 561-640: the loop over the levels with its [break]. *)
Fixpoint query_levels (i k levels : Z) (base : Q) (cover_tree : int_map) (root : Z)
    (iis : list Z) (st : knn_state) : knn_state :=
  match iis with
  | [] => st
  | ii :: r =>
      let '(st', early_stop) := query_level i k levels base cover_tree root ii st in
      if early_stop then st' else query_levels i k levels base cover_tree root r st'
  end.

(** The brute-force scan over a list of candidates (lines 668-677, 808-817). *)
Definition brute_force_scan (i k : Z) (neighbors_i : list Z) (candidates : list Z)
  : list (dbl * Z) :=
  fold_left (fun h jj => heap_offer k h (dist i jj) jj) candidates (heap_init k neighbors_i).

(** [find_kNN_CoverTree]: the neighbour vector and [dist_of_neighbors_i]. *)
Definition find_kNN_CoverTree (i k levels : Z) (base : Q) (neighbors_i : list Z)
    (cover_tree : int_map) : list Z * list dbl :=
  let root := znth 0 (map_at cover_tree (-1)) 0 in
  let st := query_levels i k levels base cover_tree root (range 1 levels)
              (mkKnnState [] [root] 1) in
  let h :=
    if k <=? Q_before_size st then
      fold_left (fun h jj => let p := znth (0, 0%Q) (Q_cand st) jj in heap_offer k h p.2 p.1)
                (range 0 (Q_before_size st)) (heap_init k neighbors_i)
    else brute_force_scan i k neighbors_i (range 0 i) in
  (heap_neighbors k h neighbors_i, map fst h).

End NeighborSearch.

(** ** Properties of the cover-tree construction *)

Lemma set_difference_nil_r (l : list Z) : set_difference l [] = l.
Proof. destruct l; reflexivity. Qed.

Lemma filter_nil_negb {A : Type} (f : A → bool) (l : list A) :
  List.filter f l = [] → List.filter (fun x => negb (f x)) l = l.
Proof.
  induction l as [|x l IH]; simpl; [reflexivity|].
  destruct (f x); [discriminate|]. intros H. simpl. f_equal. apply IH, H.
Qed.

Lemma elem_of_List_filter {A : Type} (f : A → bool) (l : list A) (x : A) :
  x ∈ List.filter f l ↔ x ∈ l ∧ f x = true.
Proof. rewrite !list_elem_of_In. apply filter_In. Qed.

Lemma StronglySorted_List_filter (f : Z → bool) (l : list Z) :
  StronglySorted Z.lt l → StronglySorted Z.lt (List.filter f l).
Proof.
  induction 1 as [|x l Hs IH Hall]; simpl; [constructor|].
  destruct (f x); [|exact IH].
  constructor; [exact IH|].
  apply Forall_forall. intros y Hy. apply elem_of_List_filter in Hy.
  rewrite Forall_forall in Hall. apply Hall. tauto.
Qed.

(** On a sorted range, removing the covered points is a filter. *)
Lemma set_difference_filter (f : Z → bool) (l : list Z) :
  StronglySorted Z.lt l →
  set_difference l (List.filter f l) = List.filter (fun x => negb (f x)) l.
Proof.
  induction 1 as [|x l Hs IH Hall]; [reflexivity|].
  simpl List.filter. destruct (f x) eqn:E; simpl negb; cbv iota.
  - simpl. rewrite Z.ltb_irrefl. exact IH.
  - destruct (List.filter f l) as [|y r] eqn:El.
    + simpl. f_equal. symmetry. apply filter_nil_negb, El.
    + assert (Hy : x < y).
      { rewrite Forall_forall in Hall. apply Hall.
        assert (H : y ∈ List.filter f l) by (rewrite El; left).
        apply elem_of_List_filter in H. tauto. }
      simpl. apply Z.ltb_lt in Hy. rewrite Hy. f_equal. exact IH.
Qed.

Lemma filter_gt_head (q : Z) (rest : list Z) :
  StronglySorted Z.lt (q :: rest) →
  List.filter (fun j => q <? j) (q :: rest) = rest.
Proof.
  intros H. apply StronglySorted_inv in H. destruct H as [_ Hall].
  simpl. rewrite Z.ltb_irrefl.
  induction rest as [|y r IH]; [reflexivity|].
  apply Forall_cons in Hall. destruct Hall as [Hy Hr].
  simpl. apply Z.ltb_lt in Hy. rewrite Hy. f_equal. apply IH, Hr.
Qed.

Lemma map_at_insert_eq (m : int_map) (key : Z) (v : list Z) : map_at (<[key := v]> m) key = v.
Proof. unfold map_at. rewrite lookup_insert_eq. reflexivity. Qed.

Lemma map_at_insert_ne (m : int_map) (key key' : Z) (v : list Z) :
  key ≠ key' → map_at (<[key := v]> m) key' = map_at m key'.
Proof. intros H. unfold map_at. rewrite lookup_insert_ne by exact H. reflexivity. Qed.

(** A run of [push_back]s on one key. *)
Lemma fold_push_back (m : int_map) (key : Z) (xs : list Z) :
  fold_left (fun m x => map_push_back m key x) xs m =
  match xs with
  | [] => m
  | _ => <[key := map_at m key ++ xs]> m
  end.
Proof.
  revert m. induction xs as [|x xs IH]; intros m; [reflexivity|].
  simpl fold_left. rewrite IH. unfold map_push_back.
  destruct xs as [|y ys].
  - reflexivity.
  - rewrite map_at_insert_eq, insert_insert_eq, <- app_assoc. reflexivity.
Qed.

(** A run of [m[key] = v] assignments. *)
Definition insert_all (l : list (Z * list Z)) (m : int_map) : int_map :=
  fold_left (fun m (kv : Z * list Z) => <[kv.1 := kv.2]> m) l m.

Lemma insert_all_app (l1 l2 : list (Z * list Z)) (m : int_map) :
  insert_all (l1 ++ l2) m = insert_all l2 (insert_all l1 m).
Proof. unfold insert_all. apply fold_left_app. Qed.

Lemma insert_all_lookup_notin (l : list (Z * list Z)) (m : int_map) (k : Z) :
  k ∉ l.*1 → insert_all l m !! k = m !! k.
Proof.
  revert m. induction l as [|[k' v'] l IH]; intros m H; [reflexivity|].
  simpl in *. rewrite not_elem_of_cons in H. destruct H as [H1 H2].
  unfold insert_all in *. simpl. rewrite IH by exact H2.
  apply lookup_insert_ne. congruence.
Qed.

Lemma insert_all_lookup_in (l : list (Z * list Z)) (m : int_map) (k : Z) (v : list Z) :
  NoDup l.*1 → (k, v) ∈ l → insert_all l m !! k = Some v.
Proof.
  revert m. induction l as [|[k' v'] l IH]; intros m Hnd Hin; [inversion Hin|].
  simpl in Hnd. apply NoDup_cons in Hnd. destruct Hnd as [Hk' Hnd].
  apply elem_of_cons in Hin. destruct Hin as [Heq | Hin].
  - injection Heq as -> ->. unfold insert_all. simpl.
    fold (insert_all l (<[k' := v']> m)).
    rewrite insert_all_lookup_notin by exact Hk'. apply lookup_insert_eq.
  - unfold insert_all. simpl. apply IH; assumption.
Qed.

Lemma insert_all_is_Some (l : list (Z * list Z)) (m : int_map) (k : Z) :
  is_Some (insert_all l m !! k) → k ∈ l.*1 ∨ is_Some (m !! k).
Proof.
  intros H. destruct (decide (k ∈ l.*1)) as [Hin | Hnot]; [left; exact Hin|].
  right. rewrite insert_all_lookup_notin in H by exact Hnot. exact H.
Qed.

Lemma insert_all_lookup_Some (l : list (Z * list Z)) (m : int_map) (k : Z) (v : list Z) :
  NoDup l.*1 → insert_all l m !! k = Some v → (k, v) ∈ l ∨ ((k ∉ l.*1) ∧ m !! k = Some v).
Proof.
  intros Hnd H. destruct (decide (k ∈ l.*1)) as [Hin | Hnot].
  - left. apply list_elem_of_fmap in Hin. destruct Hin as ([k' v'] & -> & Hin). simpl in *.
    rewrite (insert_all_lookup_in l m k' v' Hnd Hin) in H. congruence.
  - right. rewrite insert_all_lookup_notin in H by exact Hnot. tauto.
Qed.

Section CoverTreeConstruction.

Variable dist : Z → Z → Q.
Variable start : Z.

(** [q] covers [x] at the radius [R] (local indices). *)
Definition covers (R : Q) (q x : Z) : bool := Qle_bool (dist (q + start) (x + start)) R.

(** The samples taken from a sorted list of uncovered points, each with the
    points it covers: what the loop of [sample_children] computes. *)
Fixpoint split_cover (fuel : nat) (R : Q) (U : list Z) : list (Z * list Z) :=
  match U, fuel with
  | q :: rest, S fuel' =>
      (q, List.filter (covers R q) rest) ::
      split_cover fuel' R (List.filter (fun x => negb (covers R q x)) rest)
  | _, _ => []
  end.

Lemma covered_fold (R : Q) (q : Z) (up : list Z) (cp : int_map) :
  fold_left (fun cp '(j, d) => if Qle_bool d R then map_push_back cp q j else cp)
            (combine up (distances_funct_idx dist (q + start) (map (fun j => j + start) up))) cp =
  fold_left (fun cp j => map_push_back cp q j) (List.filter (covers R q) up) cp.
Proof.
  revert cp. induction up as [|j up IH]; intros cp; [reflexivity|].
  simpl. unfold covers at 1. destruct (Qle_bool _ R); simpl; apply IH.
Qed.

Lemma length_List_filter_le {A : Type} (f : A → bool) (l : list A) :
  (length (List.filter f l) ≤ length l)%nat.
Proof. induction l as [|x l IH]; simpl; [lia|]. destruct (f x); simpl; lia. Qed.

(** The loop of [sample_children] on a sorted list whose points are not yet
    keys of [covert_points]: the samples become children of [key], and each
    sample gets the list of the points it covers. *)
Lemma sample_children_spec (fuel : nat) (key : Z) (R : Q) (U : list Z) (ct cp : int_map) :
  StronglySorted Z.lt U →
  (length U ≤ fuel)%nat →
  (∀ x, x ∈ U → cp !! x = None) →
  sample_children dist fuel start key R U ct cp =
  Some (fold_left (fun ct q => map_push_back ct (key + start) (q + start))
                  (map fst (split_cover fuel R U)) ct,
        fold_left (fun cp (qc : Z * list Z) => <[qc.1 := qc.2]> cp) (split_cover fuel R U) cp).
Proof.
  revert U ct cp. induction fuel as [|fuel IH]; intros U ct cp Hs Hlen Hfresh.
  - destruct U; [reflexivity | simpl in Hlen; lia].
  - destruct U as [|q rest]; [reflexivity|].
    cbn [sample_children split_cover].
    rewrite (filter_gt_head q rest Hs).
    rewrite covered_fold, fold_push_back.
    pose proof (StronglySorted_inv Hs) as [Hs' Hall].
    assert (Hq : cp !! q = None) by (apply Hfresh; left).
    assert (Hat : map_at cp q = []) by (unfold map_at; rewrite Hq; reflexivity).
    set (C := List.filter (covers R q) rest).
    assert (E1 : map_at match C with [] => cp | _ :: _ => <[q := map_at cp q ++ C]> cp end q = C).
    { destruct C as [|c C']; [exact Hat|]. rewrite map_at_insert_eq, Hat. reflexivity. }
    assert (E2 : map_insert_new match C with [] => cp | _ :: _ => <[q := map_at cp q ++ C]> cp end q []
                 = <[q := C]> cp).
    { unfold map_insert_new. destruct C as [|c C'].
      - rewrite Hq. reflexivity.
      - rewrite lookup_insert_eq, Hat. reflexivity. }
    rewrite E1, E2. simpl tail. unfold C at 1.
    rewrite (set_difference_filter (covers R q) rest Hs').
    rewrite IH.
    + reflexivity.
    + apply StronglySorted_List_filter, Hs'.
    + simpl in Hlen. pose proof (length_List_filter_le (fun x => negb (covers R q x)) rest). lia.
    + intros x Hx. apply elem_of_List_filter in Hx. destruct Hx as [Hx _].
      rewrite lookup_insert_ne.
      * apply Hfresh. right. exact Hx.
      * rewrite Forall_forall in Hall. specialize (Hall x Hx). lia.
Qed.

(** The samples are taken in increasing order, every covered point lies
    within the radius of the sample that covers it, and the samples and the
    covered lists split the uncovered points. *)
Lemma split_cover_props (fuel : nat) (R : Q) (U : list Z) :
  StronglySorted Z.lt U →
  (length U ≤ fuel)%nat →
  let sp := split_cover fuel R U in
  StronglySorted Z.lt sp.*1 ∧
  (∀ q C, (q, C) ∈ sp →
     q ∈ U ∧ StronglySorted Z.lt C ∧
     ∀ x, x ∈ C → x ∈ U ∧ q < x ∧ covers R q x = true ∧ x ∉ sp.*1) ∧
  (∀ x, x ∈ U → x ∈ sp.*1 ∨ ∃ q C, (q, C) ∈ sp ∧ x ∈ C) ∧
  (∀ q C q' C' x, (q, C) ∈ sp → (q', C') ∈ sp → x ∈ C → x ∈ C' → q = q') ∧
  (∀ q, head U = Some q → head sp.*1 = Some q).
Proof.
  revert U. induction fuel as [|fuel IH]; intros U Hs Hlen.
  - destruct U; [|simpl in Hlen; lia]. simpl.
    repeat split; try constructor; try (intros; discriminate);
      intros; match goal with H : _ ∈ [] |- _ => inversion H end.
  - destruct U as [|q rest].
    { simpl. repeat split; try constructor; try (intros; discriminate);
        intros; match goal with H : _ ∈ [] |- _ => inversion H end. }
    pose proof (StronglySorted_inv Hs) as [Hs' Hall]. rewrite Forall_forall in Hall.
    cbn [split_cover]. cbv zeta.
    set (C0 := List.filter (covers R q) rest).
    set (rest' := List.filter (fun x => negb (covers R q x)) rest).
    assert (Hs'' : StronglySorted Z.lt rest') by (apply StronglySorted_List_filter, Hs').
    assert (Hlen' : (length rest' ≤ fuel)%nat).
    { pose proof (length_List_filter_le (fun x => negb (covers R q x)) rest).
      simpl in Hlen. unfold rest'. lia. }
    destruct (IH rest' Hs'' Hlen') as (I1 & I2 & I3 & I4 & _).
    set (sp := split_cover fuel R rest') in *.
    assert (Hsub : ∀ x, x ∈ sp.*1 → x ∈ rest').
    { intros x Hx. apply list_elem_of_fmap in Hx. destruct Hx as ([q' C'] & -> & Hin).
      apply I2 in Hin. tauto. }
    assert (Hrest' : ∀ x, x ∈ rest' → x ∈ rest ∧ covers R q x = false).
    { intros x Hx. apply elem_of_List_filter in Hx. destruct Hx as [Hx Hc].
      split; [exact Hx|]. destruct (covers R q x); [discriminate | reflexivity]. }
    simpl fmap. split; [|split; [|split; [|split]]].
    + constructor; [exact I1|]. apply Forall_forall. intros x Hx.
      apply Hall. apply Hsub, Hrest' in Hx. tauto.
    + intros q' C' Hin. apply elem_of_cons in Hin. destruct Hin as [Heq | Hin].
      * injection Heq as -> ->. split; [left|]. split.
        { apply StronglySorted_List_filter, Hs'. }
        intros x Hx. apply elem_of_List_filter in Hx. destruct Hx as [Hx Hc].
        split; [right; exact Hx|]. split; [apply Hall, Hx|]. split; [exact Hc|].
        rewrite not_elem_of_cons. split.
        { specialize (Hall x Hx). lia. }
        intros Hx'. apply Hsub, Hrest' in Hx'. destruct Hx' as [_ Hx']. congruence.
      * destruct (I2 q' C' Hin) as (Hq' & HsC & HC).
        split; [right; apply Hrest' in Hq'; tauto|]. split; [exact HsC|].
        intros x Hx. destruct (HC x Hx) as (Hx1 & Hx2 & Hx3 & Hx4).
        split; [right; apply Hrest' in Hx1; tauto|]. split; [exact Hx2|]. split; [exact Hx3|].
        rewrite not_elem_of_cons. split; [|exact Hx4].
        apply Hrest' in Hq'. destruct Hq' as [Hq' _]. specialize (Hall q' Hq'). lia.
    + intros x Hx. apply elem_of_cons in Hx. destruct Hx as [-> | Hx].
      * left. left.
      * destruct (covers R q x) eqn:Hc.
        { right. exists q, C0. split; [left|]. apply elem_of_List_filter. tauto. }
        assert (Hx' : x ∈ rest').
        { apply elem_of_List_filter. rewrite Hc. tauto. }
        destruct (I3 x Hx') as [Hin | (q' & C' & Hin & HxC)].
        { left. right. exact Hin. }
        right. exists q', C'. split; [right; exact Hin | exact HxC].
    + intros q1 C1 q2 C2 x H1 H2 Hx1 Hx2.
      apply elem_of_cons in H1. apply elem_of_cons in H2.
      destruct H1 as [E1 | H1], H2 as [E2 | H2].
      * congruence.
      * injection E1 as -> ->. apply elem_of_List_filter in Hx1. destruct Hx1 as [_ Hc].
        destruct (I2 q2 C2 H2) as (_ & _ & HC). destruct (HC x Hx2) as (Hx' & _).
        apply Hrest' in Hx'. destruct Hx' as [_ Hx']. congruence.
      * injection E2 as -> ->. apply elem_of_List_filter in Hx2. destruct Hx2 as [_ Hc].
        destruct (I2 q1 C1 H1) as (_ & _ & HC). destruct (HC x Hx1) as (Hx' & _).
        apply Hrest' in Hx'. destruct Hx' as [_ Hx']. congruence.
      * exact (I4 q1 C1 q2 C2 x H1 H2 Hx1 Hx2).
    + intros q' Hq'. simpl in Hq'. simpl. exact Hq'.
Qed.

(** The samples of the parent [p] at the radius [R]. *)
Definition split_of (R : Q) (cpo : int_map) (p : Z) : list (Z * list Z) :=
  split_cover (length (map_at cpo p)) R (map_at cpo p).

(** One level in closed form: every parent gets its own index followed by
    its samples, every sample gets the points it covers. *)
Definition level_ct (R : Q) (cpo : int_map) (ks : list Z) (ct : int_map) : int_map :=
  insert_all (map (fun p => (p + start, (p + start) :: map (fun q => q + start) (split_of R cpo p).*1)) ks) ct.

Definition level_cp (R : Q) (cpo : int_map) (ks : list Z) (cp : int_map) : int_map :=
  insert_all (flat_map (split_of R cpo) ks) cp.

Lemma fold_left_compose {A B C : Type} (f : A → C → A) (g : B → C) (l : list B) (a : A) :
  fold_left (fun a x => f a (g x)) l a = fold_left f (map g l) a.
Proof. revert a. induction l as [|x l IH]; intros a; simpl; [reflexivity | apply IH]. Qed.

Lemma push_children_new_key (ct : int_map) (k : Z) (samples : list Z) :
  ct !! k = None →
  fold_left (fun ct q => map_push_back ct k (q + start)) samples (map_insert_new ct k [k]) =
  <[k := k :: map (fun q => q + start) samples]> ct.
Proof.
  intros Hk.
  rewrite (fold_left_compose (fun ct x => map_push_back ct k x) (fun q => q + start)).
  rewrite fold_push_back. unfold map_insert_new. rewrite Hk.
  destruct (map (fun q => q + start) samples) as [|x xs]; [reflexivity|].
  rewrite map_at_insert_eq, insert_insert_eq. reflexivity.
Qed.

Definition level_fold (R : Q) (cpo : int_map) (ks : list Z) (acc : option (int_map * int_map))
  : option (int_map * int_map) :=
  fold_left (fun acc key =>
      match acc with
      | None => None
      | Some (ct, cp) =>
          let covert_points_old_i := map_at cpo key in
          sample_children dist (length covert_points_old_i) start key R covert_points_old_i
            (map_insert_new ct (key + start) [key + start]) cp
      end) ks acc.

Lemma level_fold_cons (R : Q) (cpo : int_map) (p : Z) (ks : list Z) (ct cp : int_map) :
  level_fold R cpo (p :: ks) (Some (ct, cp)) =
  level_fold R cpo ks
    (sample_children dist (length (map_at cpo p)) start p R (map_at cpo p)
       (map_insert_new ct (p + start) [p + start]) cp).
Proof. reflexivity. Qed.

Lemma level_fold_spec (R : Q) (cpo : int_map) (ks : list Z) (ct cp : int_map) :
  NoDup ks →
  (∀ p, p ∈ ks → StronglySorted Z.lt (map_at cpo p)) →
  (∀ p x, p ∈ ks → x ∈ map_at cpo p → cp !! x = None) →
  (∀ p p' x, p ∈ ks → p' ∈ ks → x ∈ map_at cpo p → x ∈ map_at cpo p' → p = p') →
  (∀ p, p ∈ ks → ct !! (p + start) = None) →
  level_fold R cpo ks (Some (ct, cp)) = Some (level_ct R cpo ks ct, level_cp R cpo ks cp).
Proof.
  revert ct cp. induction ks as [|p ks IH]; intros ct cp Hnd Hsorted Hfresh Hdisj Hnew;
    [reflexivity|].
  apply NoDup_cons in Hnd. destruct Hnd as [Hp Hnd].
  rewrite level_fold_cons.
  rewrite sample_children_spec; [| apply Hsorted; left | lia | intros x Hx; apply (Hfresh p); [left | exact Hx]].
  rewrite push_children_new_key by (apply Hnew; left).
  fold (insert_all (split_cover (length (map_at cpo p)) R (map_at cpo p)) cp).
  fold (split_of R cpo p).
  rewrite IH.
  - unfold level_ct, level_cp. simpl map. simpl flat_map. rewrite insert_all_app. reflexivity.
  - exact Hnd.
  - intros p' Hp'. apply Hsorted. right. exact Hp'.
  - intros p' x Hp' Hx. rewrite insert_all_lookup_notin.
    + apply (Hfresh p'); [right; exact Hp' | exact Hx].
    + intros Hin. apply list_elem_of_fmap in Hin. destruct Hin as ([q C] & -> & Hin).
      assert (Hs : StronglySorted Z.lt (map_at cpo p)) by (apply Hsorted; left).
      destruct (split_cover_props (length (map_at cpo p)) R (map_at cpo p) Hs (Nat.le_refl _))
        as (_ & H2 & _).
      destruct (H2 q C Hin) as (Hq & _). simpl in Hx.
      assert (p = p') by (apply (Hdisj p p' q); [left | right; exact Hp' | exact Hq | exact Hx]).
      subst p'. contradiction.
  - intros p1 p2 x H1 H2. apply Hdisj; right; assumption.
  - intros p' Hp'. rewrite lookup_insert_ne.
    + apply Hnew. right. exact Hp'.
    + intros Heq. assert (p = p') by lia. subst p'. contradiction.
Qed.

Lemma cover_level_eq (R : Q) (cpo ct : int_map) :
  cover_level dist start R cpo ct = level_fold R cpo (keys_in_order cpo) (Some (ct, ∅)).
Proof. reflexivity. Qed.

End CoverTreeConstruction.

Lemma elem_of_keys_in_order (m : int_map) (p : Z) : p ∈ keys_in_order m ↔ is_Some (m !! p).
Proof.
  unfold keys_in_order. rewrite merge_sort_Permutation, elem_of_elements. apply elem_of_dom.
Qed.

Lemma NoDup_keys_in_order (m : int_map) : NoDup (keys_in_order m).
Proof. unfold keys_in_order. rewrite merge_sort_Permutation. apply NoDup_elements. Qed.

Lemma elem_of_map_at (m : int_map) (p x : Z) : x ∈ map_at m p → ∃ l, m !! p = Some l ∧ x ∈ l.
Proof.
  unfold map_at. destruct (m !! p) as [l|]; simpl; [eauto|]. intros H. inversion H.
Qed.

Lemma size_insert_all_fresh (l : list (Z * list Z)) (m : int_map) :
  NoDup l.*1 → (∀ k, k ∈ l.*1 → m !! k = None) →
  size (insert_all l m) = (size m + length l)%nat.
Proof.
  revert m. induction l as [|[k v] l IH]; intros m Hnd Hfresh; simpl; [lia|].
  simpl in Hnd. apply NoDup_cons in Hnd. destruct Hnd as [Hk Hnd].
  unfold insert_all. simpl. fold (insert_all l (<[k := v]> m)).
  rewrite IH.
  - rewrite map_size_insert_None by (apply Hfresh; left). lia.
  - exact Hnd.
  - intros k' Hk'. rewrite lookup_insert_ne; [apply Hfresh; right; exact Hk'|].
    intros ->. contradiction.
Qed.

Lemma StronglySorted_lt_NoDup (l : list Z) : StronglySorted Z.lt l → NoDup l.
Proof.
  induction 1 as [|x l Hs IH Hall]; constructor; [|exact IH].
  intros Hx. rewrite Forall_forall in Hall. specialize (Hall x Hx). lia.
Qed.

Section CoverTreeInvariants.

Variable dist : Z → Z → Q.
Variable start : Z.
Variable rows : Z.
Hypothesis start_nonneg : 0 ≤ start.

(** The state at the head of the loop over the levels: the points with an
    entry in the tree, the parents of the next level and their uncovered
    points split the segment. *)
Record tree_inv (ct cpo : int_map) : Prop := mkTreeInv {
  inv_root : ct !! (-1) = Some [start];
  inv_dom : ∀ key, is_Some (ct !! key) → key = -1 ∨ start ≤ key < start + rows;
  inv_front : ∀ p, is_Some (cpo !! p) → 0 ≤ p < rows ∧ ct !! (p + start) = None;
  inv_pend : ∀ p x, x ∈ map_at cpo p →
               0 ≤ x < rows ∧ p < x ∧ ct !! (x + start) = None ∧ cpo !! x = None;
  inv_sorted : ∀ p, StronglySorted Z.lt (map_at cpo p);
  inv_disj : ∀ p p' x, x ∈ map_at cpo p → x ∈ map_at cpo p' → p = p';
  inv_cover : ∀ x, 0 ≤ x < rows →
                is_Some (ct !! (x + start)) ∨ is_Some (cpo !! x) ∨ ∃ p, x ∈ map_at cpo p
}.

Lemma tree_inv_init : 1 ≤ rows → tree_inv {[ -1 := [start] ]} {[ 0 := range 1 rows ]}.
Proof.
  intros Hrows.
  assert (Hat : ∀ p x, x ∈ map_at ({[ 0 := range 1 rows ]} : int_map) p → p = 0 ∧ 1 ≤ x < rows).
  { intros p x Hx. apply elem_of_map_at in Hx. destruct Hx as (l & Hl & Hx).
    apply lookup_singleton_Some in Hl. destruct Hl as [<- <-].
    apply elem_of_range in Hx. lia. }
  constructor.
  - apply lookup_singleton_eq.
  - intros key [l Hl]. apply lookup_singleton_Some in Hl. left. symmetry. tauto.
  - intros p [l Hl]. apply lookup_singleton_Some in Hl. destruct Hl as [<- _].
    split; [lia|]. apply lookup_singleton_ne. lia.
  - intros p x Hx. apply Hat in Hx. destruct Hx as [-> Hx].
    split; [lia|]. split; [lia|]. split; apply lookup_singleton_ne; lia.
  - intros p. unfold map_at. destruct (decide (p = 0)) as [-> | Hne].
    + rewrite lookup_singleton_eq. simpl. unfold range.
      apply Sorted_StronglySorted; [intros ? ? ?; lia|].
      generalize (rows - 1). intros n. generalize 1.
      unfold seqZ. generalize 0%nat. induction (Z.to_nat n) as [|m IH]; intros a b; simpl.
      * constructor.
      * constructor; [apply IH|]. destruct m; simpl; constructor. lia.
    + rewrite lookup_singleton_ne by congruence. constructor.
  - intros p p' x H1 H2. apply Hat in H1. apply Hat in H2. lia.
  - intros x Hx. destruct (decide (x = 0)) as [-> | Hne].
    + right. left. rewrite lookup_singleton_eq. eauto.
    + right. right. exists 0. unfold map_at. rewrite lookup_singleton_eq. simpl.
      apply elem_of_range. lia.
Qed.

Section Level.

Variables (R : Q) (ct cpo : int_map).
Hypothesis Hinv : tree_inv ct cpo.

Let ks := keys_in_order cpo.

Lemma split_of_props (p : Z) :
  let sp := split_of dist start R cpo p in
  StronglySorted Z.lt sp.*1 ∧
  (∀ q C, (q, C) ∈ sp →
     q ∈ map_at cpo p ∧ StronglySorted Z.lt C ∧
     ∀ x, x ∈ C → x ∈ map_at cpo p ∧ q < x ∧ covers dist start R q x = true ∧ x ∉ sp.*1) ∧
  (∀ x, x ∈ map_at cpo p → x ∈ sp.*1 ∨ ∃ q C, (q, C) ∈ sp ∧ x ∈ C) ∧
  (∀ q C q' C' x, (q, C) ∈ sp → (q', C') ∈ sp → x ∈ C → x ∈ C' → q = q') ∧
  (∀ q, head (map_at cpo p) = Some q → head sp.*1 = Some q).
Proof.
  apply split_cover_props; [apply (inv_sorted _ _ Hinv) | lia].
Qed.

Lemma sample_in_pending (p q : Z) (C : list Z) :
  (q, C) ∈ split_of dist start R cpo p → q ∈ map_at cpo p.
Proof. intros H. destruct (split_of_props p) as (_ & H2 & _). apply H2 in H. tauto. Qed.

Lemma NoDup_samples (l : list Z) :
  NoDup l → NoDup (flat_map (split_of dist start R cpo) l).*1.
Proof.
  induction 1 as [|p l Hp Hnd IH]; simpl; [constructor|].
  rewrite fmap_app. apply NoDup_app. split; [|split; [|exact IH]].
  - apply StronglySorted_lt_NoDup. apply (split_of_props p).
  - intros q Hq Hq'.
    apply list_elem_of_fmap in Hq. destruct Hq as ([q1 C1] & -> & H1).
    apply list_elem_of_fmap in Hq'. destruct Hq' as ([q2 C2] & Heq & H2). simpl in Heq. subst q2.
    apply list_elem_of_In, in_flat_map in H2. destruct H2 as (p' & Hp' & H2).
    apply list_elem_of_In in Hp', H2.
    apply sample_in_pending in H1, H2.
    assert (p = p') by (eapply (inv_disj _ _ Hinv); eassumption).
    subst p'. contradiction.
Qed.

Lemma level_cp_lookup (q : Z) (C : list Z) :
  level_cp dist start R cpo ks ∅ !! q = Some C ↔
  ∃ p, (q, C) ∈ split_of dist start R cpo p.
Proof.
  unfold level_cp. split.
  - intros H. apply insert_all_lookup_Some in H; [|apply NoDup_samples, NoDup_keys_in_order].
    destruct H as [H | [_ H]]; [|rewrite lookup_empty in H; discriminate].
    apply list_elem_of_In, in_flat_map in H. destruct H as (p & _ & H).
    exists p. apply list_elem_of_In, H.
  - intros (p & H). apply insert_all_lookup_in; [apply NoDup_samples, NoDup_keys_in_order|].
    apply list_elem_of_In, in_flat_map. exists p. split; [|apply list_elem_of_In, H].
    apply list_elem_of_In, elem_of_keys_in_order.
    apply sample_in_pending, elem_of_map_at in H. destruct H as (l & Hl & _). eauto.
Qed.

Lemma level_ct_keys :
  (map (fun p => (p + start, (p + start) :: map (fun q => q + start)
                                 (split_of dist start R cpo p).*1)) ks).*1 =
  map (fun p => p + start) ks.
Proof. rewrite <- list_fmap_compose. reflexivity. Qed.

Lemma level_ct_lookup_parent (p : Z) :
  is_Some (cpo !! p) →
  level_ct dist start R cpo ks ct !! (p + start) =
  Some ((p + start) :: map (fun q => q + start) (split_of dist start R cpo p).*1).
Proof.
  intros Hp. unfold level_ct. apply insert_all_lookup_in.
  - rewrite level_ct_keys. apply NoDup_fmap; [intros ? ? ?; lia | apply NoDup_keys_in_order].
  - apply list_elem_of_fmap. exists p. split; [reflexivity|].
    apply elem_of_keys_in_order, Hp.
Qed.

Lemma level_ct_lookup_other (key : Z) :
  (∀ p, is_Some (cpo !! p) → key ≠ p + start) →
  level_ct dist start R cpo ks ct !! key = ct !! key.
Proof.
  intros H. unfold level_ct. apply insert_all_lookup_notin.
  rewrite level_ct_keys. intros Hin. apply list_elem_of_fmap in Hin.
  destruct Hin as (p & -> & Hp). apply elem_of_keys_in_order in Hp. exact (H p Hp eq_refl).
Qed.

Lemma level_ct_preserved (key : Z) (l : list Z) :
  ct !! key = Some l → level_ct dist start R cpo ks ct !! key = Some l.
Proof.
  intros Hl. rewrite level_ct_lookup_other; [exact Hl|].
  intros p Hp ->. apply (inv_front _ _ Hinv) in Hp. destruct Hp as [_ Hp]. congruence.
Qed.

Lemma cover_level_spec :
  cover_level dist start R cpo ct =
  Some (level_ct dist start R cpo ks ct, level_cp dist start R cpo ks ∅).
Proof.
  rewrite cover_level_eq. apply level_fold_spec.
  - apply NoDup_keys_in_order.
  - intros p _. apply (inv_sorted _ _ Hinv).
  - intros. apply lookup_empty.
  - intros p p' x _ _. apply (inv_disj _ _ Hinv).
  - intros p Hp. apply elem_of_keys_in_order in Hp. apply (inv_front _ _ Hinv), Hp.
Qed.

(** A point that is not yet a parent and not in the tree stays out of the
    tree during the level. *)
Lemma level_ct_unplaced (x : Z) :
  ct !! (x + start) = None → cpo !! x = None →
  level_ct dist start R cpo ks ct !! (x + start) = None.
Proof.
  intros H1 H2. rewrite level_ct_lookup_other; [exact H1|].
  intros p Hp Heq. assert (x = p) by lia. subst p. rewrite H2 in Hp. destruct Hp; discriminate.
Qed.

Lemma tree_inv_step :
  tree_inv (level_ct dist start R cpo ks ct) (level_cp dist start R cpo ks ∅).
Proof.
  assert (Hpend' : ∀ q x, x ∈ map_at (level_cp dist start R cpo ks ∅) q →
            ∃ p C, (q, C) ∈ split_of dist start R cpo p ∧ x ∈ C).
  { intros q x Hx. apply elem_of_map_at in Hx. destruct Hx as (C & HC & Hx).
    apply level_cp_lookup in HC. destruct HC as (p & HC). eauto. }
  constructor.
  - apply level_ct_preserved, (inv_root _ _ Hinv).
  - intros key Hkey.
    destruct (cpo !! (key - start)) as [l|] eqn:E.
    + right. assert (Hp : is_Some (cpo !! (key - start))) by eauto.
      apply (inv_front _ _ Hinv) in Hp. lia.
    + rewrite level_ct_lookup_other in Hkey.
      * apply (inv_dom _ _ Hinv), Hkey.
      * intros p [l Hp] Heq. replace (key - start) with p in E by lia. congruence.
  - intros q [C HC]. apply level_cp_lookup in HC. destruct HC as (p & HC).
    apply sample_in_pending in HC. apply (inv_pend _ _ Hinv) in HC.
    destruct HC as (H1 & H2 & H3 & H4). split; [exact H1|].
    apply level_ct_unplaced; assumption.
  - intros q x Hx. destruct (Hpend' q x Hx) as (p & C & HC & HxC).
    destruct (split_of_props p) as (_ & P2 & _).
    destruct (P2 q C HC) as (Hq & _ & HCx). destruct (HCx x HxC) as (HxU & Hlt & _ & Hns).
    destruct (inv_pend _ _ Hinv p x HxU) as (H1 & H2 & H3 & H4).
    split; [exact H1|]. split; [exact Hlt|]. split; [apply level_ct_unplaced; assumption|].
    destruct (level_cp dist start R cpo ks ∅ !! x) as [C'|] eqn:E; [|reflexivity].
    exfalso. apply level_cp_lookup in E. destruct E as (p' & E).
    pose proof (sample_in_pending _ _ _ E) as HxU'.
    assert (p = p') by (eapply (inv_disj _ _ Hinv); eassumption). subst p'.
    apply Hns. apply list_elem_of_fmap. exists (x, C'). split; [reflexivity | exact E].
  - intros q. unfold map_at.
    destruct (level_cp dist start R cpo ks ∅ !! q) as [C|] eqn:E; simpl; [|constructor].
    apply level_cp_lookup in E. destruct E as (p & E).
    destruct (split_of_props p) as (_ & P2 & _). apply P2 in E. tauto.
  - intros q q' x Hx Hx'.
    destruct (Hpend' q x Hx) as (p & C & HC & HxC).
    destruct (Hpend' q' x Hx') as (p' & C' & HC' & HxC').
    destruct (split_of_props p) as (_ & P2 & _ & P4 & _).
    destruct (split_of_props p') as (_ & P2' & _).
    assert (p = p').
    { apply (inv_disj _ _ Hinv p p' x).
      - destruct (P2 q C HC) as (_ & _ & H). apply H in HxC. tauto.
      - destruct (P2' q' C' HC') as (_ & _ & H). apply H in HxC'. tauto. }
    subst p'. exact (P4 q C q' C' x HC HC' HxC HxC').
  - intros x Hx. destruct (inv_cover _ _ Hinv x Hx) as [[l Hl] | [Hf | (p & Hp)]].
    + left. rewrite (level_ct_preserved _ _ Hl). eauto.
    + left. rewrite (level_ct_lookup_parent x Hf). eauto.
    + destruct (split_of_props p) as (_ & _ & P3 & _).
      destruct (P3 x Hp) as [Hs | (q & C & HC & HxC)].
      * right. left. apply list_elem_of_fmap in Hs. destruct Hs as ([x' C] & -> & HC).
        simpl. exists C. apply level_cp_lookup. eauto.
      * right. right. exists q. unfold map_at.
        assert (E : level_cp dist start R cpo ks ∅ !! q = Some C) by (apply level_cp_lookup; eauto).
        rewrite E. exact HxC.
Qed.

(** Every parent of the level is a new key of the tree. *)
Lemma level_ct_size :
  size (level_ct dist start R cpo ks ct) = (size ct + length ks)%nat.
Proof.
  unfold level_ct. rewrite size_insert_all_fresh.
  - rewrite length_map. reflexivity.
  - rewrite level_ct_keys. apply NoDup_fmap; [intros ? ? ?; lia | apply NoDup_keys_in_order].
  - rewrite level_ct_keys. intros k Hk. apply list_elem_of_fmap in Hk.
    destruct Hk as (p & -> & Hp). apply elem_of_keys_in_order in Hp.
    apply (inv_front _ _ Hinv), Hp.
Qed.

End Level.

(** The keys a complete tree has. *)
Definition tree_keys : gset Z := {[ -1 ]} ∪ list_to_set (range start (start + rows)).

Lemma size_tree_keys : 0 ≤ rows → size tree_keys = S (Z.to_nat rows).
Proof.
  intros Hrows. unfold tree_keys. rewrite size_union.
  - rewrite size_singleton, size_list_to_set by apply NoDup_seqZ.
    rewrite length_range. f_equal. f_equal. lia.
  - intros x Hx Hx'. apply elem_of_singleton in Hx. subst x.
    apply elem_of_list_to_set, elem_of_range in Hx'. lia.
Qed.

Lemma dom_subseteq_tree_keys (ct cpo : int_map) : tree_inv ct cpo → dom ct ⊆ tree_keys.
Proof.
  intros Hinv key Hkey. apply elem_of_dom in Hkey. apply (inv_dom _ _ Hinv) in Hkey.
  unfold tree_keys. apply elem_of_union. destruct Hkey as [-> | Hkey].
  - left. apply elem_of_singleton. reflexivity.
  - right. apply elem_of_list_to_set, elem_of_range. lia.
Qed.

Lemma tree_size_le (ct cpo : int_map) :
  0 ≤ rows → tree_inv ct cpo → Z.of_nat (size ct) ≤ rows + 1.
Proof.
  intros Hrows Hinv. pose proof (subseteq_size _ _ (dom_subseteq_tree_keys ct cpo Hinv)) as H.
  rewrite size_dom, size_tree_keys in H by exact Hrows. lia.
Qed.

(** The loop test: the tree has [rows + 1] keys exactly when every point of
    the segment has its entry. *)
Lemma tree_complete_iff (ct cpo : int_map) :
  0 ≤ rows → tree_inv ct cpo →
  Z.of_nat (size ct) - 1 = rows ↔ ∀ key, is_Some (ct !! key) ↔ key = -1 ∨ start ≤ key < start + rows.
Proof.
  intros Hrows Hinv. split.
  - intros Hsize.
    assert (Heq : dom ct = tree_keys).
    { apply set_subseteq_size_eq; [apply (dom_subseteq_tree_keys ct cpo Hinv)|].
      rewrite size_dom, size_tree_keys by exact Hrows. lia. }
    intros key. rewrite <- elem_of_dom, Heq. unfold tree_keys.
    rewrite elem_of_union, elem_of_singleton, elem_of_list_to_set, elem_of_range. tauto.
  - intros Hall.
    assert (Heq : dom ct = tree_keys).
    { apply set_eq. intros key. rewrite elem_of_dom, Hall. unfold tree_keys.
      rewrite elem_of_union, elem_of_singleton, elem_of_list_to_set, elem_of_range. tauto. }
    pose proof (size_dom ct) as Hs. rewrite Heq, size_tree_keys in Hs by exact Hrows. lia.
Qed.

Lemma keys_nonempty_if_incomplete (ct cpo : int_map) :
  0 ≤ rows → tree_inv ct cpo → Z.of_nat (size ct) - 1 ≠ rows →
  (1 ≤ length (keys_in_order cpo))%nat.
Proof.
  intros Hrows Hinv Hsize.
  destruct (decide (Forall (fun x => is_Some (ct !! (x + start))) (range 0 rows))) as [Hall | Hex].
  - exfalso. apply Hsize. apply (tree_complete_iff ct cpo Hrows Hinv).
    intros key. split; [apply (inv_dom _ _ Hinv)|].
    intros [-> | Hkey]; [rewrite (inv_root _ _ Hinv); eauto|].
    rewrite Forall_forall in Hall. specialize (Hall (key - start)).
    replace (key - start + start) with key in Hall by lia.
    apply Hall, elem_of_range. lia.
  - apply not_Forall_Exists in Hex; [|intros x; apply _].
    apply Exists_exists in Hex. destruct Hex as (x & Hx & Hnot).
    apply elem_of_range in Hx.
    assert (Hp : ∃ p, is_Some (cpo !! p)).
    { destruct (inv_cover _ _ Hinv x Hx) as [H | [H | (p & H)]]; [contradiction | eauto |].
      apply elem_of_map_at in H. destruct H as (l & Hl & _). eauto. }
    destruct Hp as (p & Hp). apply elem_of_keys_in_order in Hp.
    destruct (keys_in_order cpo); [inversion Hp | simpl; lia].
Qed.

(** The loop over the levels ends, with an entry for every point. *)
Lemma CoverTree_levels_terminates (base : Q) (n : nat) (ct cpo : int_map) (level : Z) :
  0 ≤ rows → tree_inv ct cpo → rows + 1 - Z.of_nat (size ct) ≤ Z.of_nat n →
  ∃ ct' cpo' level',
    CoverTree_levels dist n rows base start ct cpo level = CT_built ct' level' ∧
    tree_inv ct' cpo' ∧ Z.of_nat (size ct') - 1 = rows ∧ level ≤ level'.
Proof.
  intros Hrows. revert ct cpo level. induction n as [|n IH]; intros ct cpo level Hinv Hn.
  - pose proof (tree_size_le ct cpo Hrows Hinv).
    assert (E : Z.of_nat (size ct) - 1 = rows) by lia.
    exists ct, cpo, level. simpl. apply Z.eqb_eq in E. rewrite E.
    apply Z.eqb_eq in E. split; [reflexivity|]. split; [exact Hinv|]. split; [exact E | lia].
  - cbn [CoverTree_levels].
    destruct (Z.of_nat (size ct) - 1 =? rows) eqn:E.
    + apply Z.eqb_eq in E. exists ct, cpo, level.
      split; [reflexivity|]. split; [exact Hinv|]. split; [exact E | lia].
    + apply Z.eqb_neq in E. cbv zeta.
      rewrite (cover_level_spec _ ct cpo Hinv).
      pose proof (tree_inv_step (1 / base ^ (level + 1))%Q ct cpo Hinv) as Hinv'.
      pose proof (level_ct_size (1 / base ^ (level + 1))%Q ct cpo Hinv) as Hsize.
      pose proof (keys_nonempty_if_incomplete ct cpo Hrows Hinv E) as Hks.
      destruct (IH _ _ (level + 1) Hinv') as (ct' & cpo' & level' & H1 & H2 & H3 & H4); [lia|].
      exists ct', cpo', level'.
      split; [exact H1|]. split; [exact H2|]. split; [exact H3 | lia].
Qed.

End CoverTreeInvariants.

(** C6. On every non-empty segment the construction loop of [CoverTree_kNN]
    ends (a bound of [rows] levels is enough), and the tree it returns has
    one entry per point of the segment and no other entry apart from the
    root link [-1]: every point, offset by the start of the segment, is a key
    of the map exactly once. *)
Theorem CoverTree_kNN_terminates_with_all_points (dist : Z → Z → Q) (base : Q) (start rows : Z) :
  0 ≤ start → 1 ≤ rows →
  ∃ cover_tree level,
    CoverTree_kNN dist (Z.to_nat rows) rows base start = CT_built cover_tree level ∧
    (∀ key, is_Some (cover_tree !! key) ↔ key = -1 ∨ start ≤ key < start + rows) ∧
    cover_tree !! (-1) = Some [start] ∧
    size cover_tree = S (Z.to_nat rows).
Proof.
  intros Hstart Hrows. unfold CoverTree_kNN.
  destruct (rows <=? 0) eqn:E; [apply Z.leb_le in E; lia|].
  assert (Hrows0 : 0 ≤ rows) by lia.
  pose proof (tree_inv_init dist _ _ Hstart Hrows) as Hinit.
  destruct (CoverTree_levels_terminates dist _ _ Hstart base (Z.to_nat rows) _ _ 0 Hrows0 Hinit)
    as (ct & cpo & level & H1 & H2 & H3 & _).
  { rewrite map_size_singleton. lia. }
  exists ct, level. split; [exact H1|]. split; [|split].
  - apply (tree_complete_iff dist _ _ Hstart ct cpo Hrows0 H2), H3.
  - apply (inv_root _ _ _ _ H2).
  - lia.
Qed.

(** ** The neighbour search ([find_nearest_neighbors_Vecchia_FSA_fast]) *)

(** The by-reference outputs, and the lines written with [Log::REInfo]. *)
Record nn_output : Type := mkNNOutput {
  neighbors : list (list Z);
  dist_obs_neighbors : list (list Q);
  dist_between_neighbors : list (list (list Q));
  has_duplicates_out : bool;
  info_log : list (string * list Z)
}.

(** Outcome of the search: the outputs; a failed [CHECK] (it ends the call
    with [Log::Fatal]); the [std::length_error] of [CoverTree_kNN]; or the
    loop bound of the model exhausted. *)
Inductive search_outcome : Type :=
| Search_done (out : nn_output)
| Search_check_failed (what : string)
| Search_length_error
| Search_out_of_fuel.

Definition msg_clamp : string :=
  "The number of neighbors (%d) for the Vecchia approximation needs to be smaller than the number of data points (%d). It is set to %d.".

(** [v.resize(n)] on a vector of [int]: new slots hold zero. *)
Definition resize_int (n : Z) (v : list Z) : list Z :=
  take (Z.to_nat n) v ++ replicate (Z.to_nat n - length v) 0.

Section Orchestrator.

Variable dist : Z → Z → Q.
(** [(coords(i, all) - coords(j, all)).lpNorm<2>()] and [EPSILON_NUMBERS]. *)
Variable coord_dist : Z → Z → Q.
Variable EPSILON_NUMBERS : Q.

(** Lines 733-739. *)
Definition default_end_search_at (num_data end_search_at : Z) : Z :=
  if end_search_at <? 0 then num_data - 2 else end_search_at.

Definition clamp_num_neighbors (num_neighbors end_search_at : Z) : Z :=
  if end_search_at + 1 <? num_neighbors then end_search_at + 1 else num_neighbors.

Definition clamp_log (num_neighbors end_search_at : Z) : list (string * list Z) :=
  if end_search_at + 1 <? num_neighbors
  then [(msg_clamp, [num_neighbors; end_search_at + 2; end_search_at + 1])]
  else [].

(** Lines 790-795. *)
Definition first_search_index (start_at num_neighbors : Z) : Z :=
  if start_at <=? num_neighbors then num_neighbors + 1 else start_at.

Definition brute_force_threshold_of (num_data num_neighbors first_i : Z) (prediction : bool) : Z :=
  if prediction then Z.min num_data (Z.max (first_i + 500) num_neighbors)
  else Z.min num_data (Z.max 1000 num_neighbors).

(** The indices of the loop of line 801 and of the loop of line 899. *)
Definition brute_force_indices (num_data num_neighbors start_at : Z) (prediction : bool) : list Z :=
  if num_neighbors <? num_data then
    let first_i := first_search_index start_at num_neighbors in
    range first_i (brute_force_threshold_of num_data num_neighbors first_i prediction)
  else [].

Definition cover_tree_indices (num_data num_neighbors start_at : Z) (prediction : bool) : list Z :=
  if num_neighbors <? num_data then
    let first_i := first_search_index start_at num_neighbors in
    let brute_force_threshold := brute_force_threshold_of num_data num_neighbors first_i prediction in
    if brute_force_threshold <? num_data then range brute_force_threshold num_data else []
  else [].

(** The test for duplicates on one Euclidean distance. *)
Definition dup_step (check has_duplicates : bool) (d : Q) : bool :=
  if check && negb has_duplicates then
    (if Qltb d EPSILON_NUMBERS then true else has_duplicates)
  else has_duplicates.

(** The state the loops thread: neighbours, saved distances, duplicate flag. *)
Definition nn_state : Type := list (list Z) * list (list Q) * bool.

(** Lines 761-787. *)
Definition init_step (num_neighbors start_at : Z) (check save_distances : bool)
    (st : nn_state) (i : Z) : nn_state :=
  let '(nn, d_obs, has_dup) := st in
  if (0 <? i) && (i <=? num_neighbors) then
    let has_dup' := fold_left (fun h j => dup_step check h (coord_dist j i)) (range 0 i) has_dup in
    (zset nn (i - start_at) (range 0 i),
     (if save_distances then zset d_obs (i - start_at) (map (fun j => coord_dist j i) (range 0 i))
      else d_obs),
     has_dup')
  else if num_neighbors <? i then
    (zset nn (i - start_at) (resize_int num_neighbors (znth [] nn (i - start_at))), d_obs, has_dup)
  else st.

(** Lines 818-835 and 972-989: distances between the point and its neighbours. *)
Definition save_obs_distances (num_neighbors start_at : Z) (check save_distances : bool)
    (st : nn_state) (i : Z) : nn_state :=
  let '(nn, d_obs, has_dup) := st in
  let ds := map (fun jjj => coord_dist i (znth 0 (znth [] nn (i - start_at)) jjj))
                (range 0 num_neighbors) in
  (nn, (if save_distances then zset d_obs (i - start_at) ds else d_obs),
   fold_left (dup_step check) ds has_dup).

(** Lines 801-836: brute-force search for one point. *)
Definition brute_force_step (num_neighbors start_at max_ind_nn : Z) (check save_distances : bool)
    (st : nn_state) (i : Z) : nn_state :=
  let '(nn, d_obs, has_dup) := st in
  let neighbors_i := znth [] nn (i - start_at) in
  let h := brute_force_scan dist i num_neighbors neighbors_i (range 0 (Z.min i max_ind_nn)) in
  save_obs_distances num_neighbors start_at check save_distances
    (zset nn (i - start_at) (heap_neighbors num_neighbors h neighbors_i), d_obs, has_dup) i.

(** Lines 899-990 with one thread (the branch of line 966, one tree):
    cover-tree search for one point. *)
Definition cover_tree_step (num_neighbors start_at level : Z) (base : Q) (cover_tree : int_map)
    (check save_distances : bool) (st : nn_state) (i : Z) : nn_state :=
  let '(nn, d_obs, has_dup) := st in
  let neighbors_i := znth [] nn (i - start_at) in
  let r := find_kNN_CoverTree dist i num_neighbors level base neighbors_i cover_tree in
  save_obs_distances num_neighbors start_at check save_distances
    (zset nn (i - start_at) r.1, d_obs, has_dup) i.

(** Lines 1037-1081: distances among the neighbours of one point. *)
Definition between_step (start_at : Z) (check save_distances : bool)
    (nn : list (list Z)) (st : list (list (list Q)) * bool) (i : Z) : list (list (list Q)) * bool :=
  let '(d_between, has_dup) := st in
  let nn_i := znth [] nn (i - start_at) in
  let n := Z.of_nat (length nn_i) in
  let pairs := flat_map (fun j => map (fun k => (j, k)) (range (j + 1) n)) (range 0 n) in
  let has_dup' :=
    fold_left (fun h '(j, k) => dup_step check h (coord_dist (znth 0 nn_i j) (znth 0 nn_i k)))
              pairs has_dup in
  let m := map (fun j => map (fun k => if j =? k then 0%Q
                                       else coord_dist (znth 0 nn_i (Z.min j k)) (znth 0 nn_i (Z.max j k)))
                             (range 0 n)) (range 0 n) in
  ((if save_distances then zset d_between (i - start_at) m else d_between), has_dup').

(** The whole function with one thread ([num_threads = 1]): a build without
    OpenMP, or one in which [omp_get_max_threads()] is one. The function
    with more threads is [find_nearest_neighbors_Vecchia_FSA_fast_threads]. *)
Definition find_nearest_neighbors_Vecchia_FSA_fast
    (num_data num_neighbors : Z)
    (neighbors0 : list (list Z)) (dist_obs0 : list (list Q)) (dist_between0 : list (list (list Q)))
    (start_at end_search_at : Z) (check_has_duplicates save_distances : bool) (base : Q)
    (prediction cond_on_all : bool) (num_data_obs : Z) : search_outcome :=
  if negb (Z.of_nat (length neighbors0) =? num_data - start_at) then
    Search_check_failed "(int)neighbors.size() == (num_data - start_at)"
  else if save_distances && negb (Z.of_nat (length dist_obs0) =? num_data - start_at) then
    Search_check_failed "(int)dist_obs_neighbors.size() == (num_data - start_at)"
  else if save_distances && negb (Z.of_nat (length dist_between0) =? num_data - start_at) then
    Search_check_failed "(int)dist_between_neighbors.size() == (num_data - start_at)"
  else
    let end_search_at := default_end_search_at num_data end_search_at in
    let log1 := clamp_log num_neighbors end_search_at in
    let num_neighbors := clamp_num_neighbors num_neighbors end_search_at in
    let st1 := fold_left (init_step num_neighbors start_at check_has_duplicates save_distances)
                         (range start_at num_data) (neighbors0, dist_obs0, false) in
    let max_ind_nn := if cond_on_all then num_data else num_data_obs in
    let st2 := fold_left (brute_force_step num_neighbors start_at max_ind_nn
                            check_has_duplicates save_distances)
                         (brute_force_indices num_data num_neighbors start_at prediction) st1 in
    let finish (st3 : nn_state) (log2 : list (string * list Z)) : search_outcome :=
      let '(nn, d_obs, has_dup) := st3 in
      let first_i := if start_at =? 0 then 1 else start_at in
      let '(d_between, has_dup') :=
        fold_left (between_step start_at check_has_duplicates save_distances nn)
                  (range first_i num_data) (dist_between0, has_dup) in
      Search_done (mkNNOutput nn d_obs d_between
                     (if check_has_duplicates then has_dup' else false) (log1 ++ log2)) in
    match cover_tree_indices num_data num_neighbors start_at prediction with
    | [] => finish st2 []
    | idx =>
        let rows := if prediction && negb cond_on_all then num_data_obs else num_data in
        match CoverTree_kNN dist (Z.to_nat rows) rows base 0 with
        | CT_built cover_tree level =>
            finish (fold_left (cover_tree_step num_neighbors start_at level base cover_tree
                                 check_has_duplicates save_distances) idx st2)
                   [(" time until CoverTrees for kNN = %g ", []);
                    ("num threads %i %i %i", [1; num_data; 0])]
        | CT_length_error => Search_length_error
        | CT_out_of_fuel => Search_out_of_fuel
        end
    end.

End Orchestrator.

(** ** The neighbour search with several threads *)

(** In a build with OpenMP the search takes [num_threads] from
    [omp_get_max_threads()]. With more than one thread it builds a cover tree
    for each of [num_threads] segments of the candidate points (lines
    866-889), asks for every point all the trees that start before the point
    (lines 900-936) and merges their answers (lines 937-957). *)

(** Outcome of a call: what the call returns or throws, or undefined
    behaviour (a block or a read outside its matrix or vector, an exception
    that leaves a parallel loop). *)
Inductive threads_outcome : Type :=
| Threads_returns (r : search_outcome)
| Threads_undefined (what : string).

(** The elements of [std::set<std::tuple<double, int, int, int>>]: distance,
    tree, position in the vector of the tree, neighbour. *)
Definition tuple_t : Type := dbl * Z * Z * Z.

(** [operator<] of the tuples: lexicographic. *)
Definition tuple_ltb (a b : tuple_t) : bool :=
  let '(d1, t1, p1, n1) := a in
  let '(d2, t2, p2, n2) := b in
  if dbl_ltb d1 d2 then true else if dbl_ltb d2 d1 then false
  else if t1 <? t2 then true else if t2 <? t1 then false
  else if p1 <? p2 then true else if p2 <? p1 then false
  else n1 <? n2.

(** [set.insert]: the elements are kept in increasing order, and an element
    equivalent to one of the set is not inserted. *)
Fixpoint set_insert (x : tuple_t) (s : list tuple_t) : list tuple_t :=
  match s with
  | [] => [x]
  | y :: r =>
      if tuple_ltb x y then x :: y :: r
      else if tuple_ltb y x then y :: set_insert x r
      else y :: r
  end.

(** Outcome of the loop that builds the trees of the segments. *)
Inductive trees_outcome : Type :=
| Trees_built (trees : list (Z * (int_map * Z)))
| Trees_undefined (what : string)
| Trees_out_of_fuel.

Section SearchThreads.

Variable dist : Z → Z → Q.
Variable coord_dist : Z → Z → Q.
Variable EPSILON_NUMBERS : Q.

(** Lines 867-883: start and length of every segment; the length of the list
    is [num_threads] after line 871. For numbers of rows and of threads that
    [double] represents exactly, [std::ceil] of their quotient in [double] is
    the ceiling of the exact quotient. *)
Definition segments (rows num_threads : Z) : list (Z * Z) :=
  let segment_size := - ((- rows) / num_threads) in
  let last_segment := rows - (num_threads - 1) * segment_size in
  let overhead := negb (last_segment =? segment_size) in
  let num_threads := if overhead then num_threads - 1 else num_threads in
  map (fun i => (i * segment_size,
                 if (i =? num_threads - 1) && overhead then segment_size + last_segment
                 else segment_size))
      (range 0 num_threads).

(** Lines 878-888: the tree of every segment, with the start of the segment.
    [middleRows] needs the segment inside the matrix, and on an empty segment
    [CoverTree_kNN] throws inside the parallel loop. *)
Fixpoint build_trees (rows : Z) (base : Q) (segs : list (Z * Z)) : trees_outcome :=
  match segs with
  | [] => Trees_built []
  | (segment_start, segment_length) :: r =>
      if (segment_start <? 0) || (segment_length <? 0) || (rows <? segment_start + segment_length)
      then Trees_undefined "middleRows outside the matrix"
      else
        match CoverTree_kNN dist (Z.to_nat segment_length) segment_length base segment_start with
        | CT_built cover_tree level =>
            match build_trees rows base r with
            | Trees_built trees => Trees_built ((segment_start, (cover_tree, level)) :: trees)
            | o => o
            end
        | CT_length_error => Trees_undefined "exception in a parallel loop"
        | CT_out_of_fuel => Trees_out_of_fuel
        end
  end.

(** Lines 903-909: the trees whose segment starts before [i]. *)
Fixpoint trees_before (i : Z) (trees : list (Z * (int_map * Z))) : list (Z * (int_map * Z)) :=
  match trees with
  | [] => []
  | t :: r => if i <=? t.1 then [] else t :: trees_before i r
  end.

(** Line 648 reads [Q_dist[jj]] for every [jj] below [Q_before_size], and
    lines 648 and 672 read [nn_dist[k - 1]]. *)
Definition find_kNN_CoverTree_in_range (i k levels : Z) (base : Q) (cover_tree : int_map)
  : bool :=
  let root := znth 0 (map_at cover_tree (-1)) 0 in
  let st := query_levels dist i k levels base cover_tree root (range 1 levels)
              (mkKnnState [] [root] 1) in
  (1 <=? k) &&
  ((Q_before_size st <? k) || (Q_before_size st <=? Z.of_nat (length (Q_cand st)))).

(** Lines 917-934: the scan over the points of a segment that starts less
    than [k] points before [i]. *)
Definition local_scan (i k segment_start : Z) (neighbors_i : list Z) : list Z * list dbl :=
  let size_smaller_k := Z.min (i - segment_start) k in
  let h := fold_left (fun h jj => heap_offer size_smaller_k h (dist i jj) jj)
             (range segment_start i)
             (combine (replicate (Z.to_nat size_smaller_k) Inf)
                      (resize_int size_smaller_k neighbors_i)) in
  (map snd h, map fst h).

(** Lines 912-935: the neighbours and their distances that one tree gives. *)
Definition tree_answer (k : Z) (base : Q) (i : Z) (neighbors_i : list Z)
    (t : Z * (int_map * Z)) : option (list Z * list dbl) :=
  let '(segment_start, (cover_tree, levels)) := t in
  if segment_start + k <? i then
    if find_kNN_CoverTree_in_range i k levels base cover_tree
    then Some (find_kNN_CoverTree dist i k levels base neighbors_i cover_tree)
    else None
  else if segment_start <? i then Some (local_scan i k segment_start neighbors_i)
  else Some (neighbors_i, []).

(** Lines 947-956: one neighbour is taken from the smallest tuple, which is
    replaced by the next tuple of the same tree. *)
Definition merge_step (per_tree : list (list Z * list dbl))
    (acc : option (list tuple_t * list Z)) (ii : Z) : option (list tuple_t * list Z) :=
  match acc with
  | Some ((_, index_of_vector, index_in_vector, neighbor) :: s, row) =>
      let '(nbs, ds) := znth ([], []) per_tree index_of_vector in
      let s' :=
        if index_in_vector <? Z.of_nat (length ds) - 1
        then set_insert (znth Inf ds (index_in_vector + 1), index_of_vector,
                         index_in_vector + 1, znth 0 nbs (index_in_vector + 1)) s
        else s in
      Some (s', zset row ii neighbor)
  | _ => None
  end.

(** Lines 941-956: the merge of the answers of the trees into the row. *)
Definition merge_trees (k : Z) (per_tree : list (list Z * list dbl)) (row : list Z)
  : option (list Z) :=
  if forallb (fun p : list Z * list dbl => negb (Nat.eqb (length p.1) 0) && negb (Nat.eqb (length p.2) 0))
             per_tree
  then
    let set_tuples :=
      fold_left (fun s '(ii, (nbs, ds)) => set_insert (znth Inf ds 0, ii, 0, znth 0 nbs 0) s)
                (combine (range 0 (Z.of_nat (length per_tree))) per_tree) [] in
    option_map snd (fold_left (merge_step per_tree) (range 0 k) (Some (set_tuples, row)))
  else None.

(** Lines 900-989 with more than one tree: the search for one point. *)
Definition threads_step (num_neighbors start_at : Z) (base : Q)
    (trees : list (Z * (int_map * Z))) (check save_distances : bool)
    (st : option nn_state) (i : Z) : option nn_state :=
  match st with
  | None => None
  | Some (nn, d_obs, has_dup) =>
      let neighbors_i := znth [] nn (i - start_at) in
      match mapM (tree_answer num_neighbors base i neighbors_i) (trees_before i trees) with
      | None => None
      | Some per_tree =>
          let row :=
            match per_tree with
            | [p] => Some p.1
            | _ => merge_trees num_neighbors per_tree neighbors_i
            end in
          match row with
          | None => None
          | Some row =>
              Some (save_obs_distances coord_dist EPSILON_NUMBERS num_neighbors start_at
                      check save_distances (zset nn (i - start_at) row, d_obs, has_dup) i)
          end
      end
  end.

(** Lines 966-989 when line 871 has left one thread: the query uses the
    variable [level], which only the call of line 891 sets. *)
Definition one_tree_step (num_neighbors start_at level : Z) (base : Q) (cover_tree : int_map)
    (check save_distances : bool) (st : option nn_state) (i : Z) : option nn_state :=
  match st with
  | None => None
  | Some st =>
      if find_kNN_CoverTree_in_range i num_neighbors level base cover_tree
      then Some (cover_tree_step dist coord_dist EPSILON_NUMBERS num_neighbors start_at level base
                   cover_tree check save_distances st i)
      else None
  end.

(** The whole function in a build with OpenMP. *)
Definition find_nearest_neighbors_Vecchia_FSA_fast_threads (num_threads : Z)
    (num_data num_neighbors : Z)
    (neighbors0 : list (list Z)) (dist_obs0 : list (list Q)) (dist_between0 : list (list (list Q)))
    (start_at end_search_at : Z) (check_has_duplicates save_distances : bool) (base : Q)
    (prediction cond_on_all : bool) (num_data_obs : Z) : threads_outcome :=
  if negb (Z.of_nat (length neighbors0) =? num_data - start_at) then
    Threads_returns (Search_check_failed "(int)neighbors.size() == (num_data - start_at)")
  else if save_distances && negb (Z.of_nat (length dist_obs0) =? num_data - start_at) then
    Threads_returns (Search_check_failed "(int)dist_obs_neighbors.size() == (num_data - start_at)")
  else if save_distances && negb (Z.of_nat (length dist_between0) =? num_data - start_at) then
    Threads_returns
      (Search_check_failed "(int)dist_between_neighbors.size() == (num_data - start_at)")
  else
    let end_search_at := default_end_search_at num_data end_search_at in
    let log1 := clamp_log num_neighbors end_search_at in
    let num_neighbors := clamp_num_neighbors num_neighbors end_search_at in
    let st1 := fold_left (init_step coord_dist EPSILON_NUMBERS num_neighbors start_at
                            check_has_duplicates save_distances)
                         (range start_at num_data) (neighbors0, dist_obs0, false) in
    let max_ind_nn := if cond_on_all then num_data else num_data_obs in
    let st2 := fold_left (brute_force_step dist coord_dist EPSILON_NUMBERS num_neighbors start_at
                            max_ind_nn check_has_duplicates save_distances)
                         (brute_force_indices num_data num_neighbors start_at prediction) st1 in
    let finish (st3 : nn_state) (log2 : list (string * list Z)) : search_outcome :=
      let '(nn, d_obs, has_dup) := st3 in
      let first_i := if start_at =? 0 then 1 else start_at in
      let '(d_between, has_dup') :=
        fold_left (between_step coord_dist EPSILON_NUMBERS start_at check_has_duplicates
                     save_distances nn)
                  (range first_i num_data) (dist_between0, has_dup) in
      Search_done (mkNNOutput nn d_obs d_between
                     (if check_has_duplicates then has_dup' else false) (log1 ++ log2)) in
    let log2 (num_threads level : Z) : list (string * list Z) :=
      [(" time until CoverTrees for kNN = %g ", []);
       ("num threads %i %i %i", [num_threads; num_data; level])] in
    match cover_tree_indices num_data num_neighbors start_at prediction with
    | [] => Threads_returns (finish st2 [])
    | idx =>
        let rows := if prediction && negb cond_on_all then num_data_obs else num_data in
        if num_threads <? 1 then Threads_undefined "omp_get_max_threads() is positive"
        else if num_threads =? 1 then
          match CoverTree_kNN dist (Z.to_nat rows) rows base 0 with
          | CT_built cover_tree level =>
              Threads_returns
                (finish (fold_left (cover_tree_step dist coord_dist EPSILON_NUMBERS num_neighbors
                                      start_at level base cover_tree
                                      check_has_duplicates save_distances) idx st2)
                        (log2 1 0))
          | CT_length_error => Threads_returns Search_length_error
          | CT_out_of_fuel => Threads_returns Search_out_of_fuel
          end
        else
          match build_trees rows base (segments rows num_threads) with
          | Trees_built [] => Threads_undefined "levels_threads[0] of an empty vector"
          | Trees_built [(_, (cover_tree, level0))] =>
              match fold_left (one_tree_step num_neighbors start_at 0 base cover_tree
                                 check_has_duplicates save_distances) idx (Some st2) with
              | Some st3 => Threads_returns (finish st3 (log2 1 level0))
              | None => Threads_undefined "Q_dist[jj] outside the vector"
              end
          | Trees_built (((_, (_, level0)) :: _) as trees) =>
              match fold_left (threads_step num_neighbors start_at base trees
                                 check_has_duplicates save_distances) idx (Some st2) with
              | Some st3 =>
                  Threads_returns (finish st3 (log2 (Z.of_nat (length trees)) level0))
              | None => Threads_undefined "a read outside a vector or of an empty set"
              end
          | Trees_undefined what => Threads_undefined what
          | Trees_out_of_fuel => Threads_returns Search_out_of_fuel
          end
    end.

End SearchThreads.

(** With one thread the call is the call of the build without OpenMP. *)
Lemma find_nearest_neighbors_Vecchia_FSA_fast_one_thread
    (dist coord_dist : Z → Z → Q) (EPSILON_NUMBERS : Q) (num_data num_neighbors : Z)
    (neighbors0 : list (list Z)) (dist_obs0 : list (list Q)) (dist_between0 : list (list (list Q)))
    (start_at end_search_at : Z) (check save_distances : bool) (base : Q)
    (prediction cond_on_all : bool) (num_data_obs : Z) :
  find_nearest_neighbors_Vecchia_FSA_fast_threads dist coord_dist EPSILON_NUMBERS 1
    num_data num_neighbors neighbors0 dist_obs0 dist_between0 start_at end_search_at
    check save_distances base prediction cond_on_all num_data_obs =
  Threads_returns
    (find_nearest_neighbors_Vecchia_FSA_fast dist coord_dist EPSILON_NUMBERS
       num_data num_neighbors neighbors0 dist_obs0 dist_between0 start_at end_search_at
       check save_distances base prediction cond_on_all num_data_obs).
Proof.
  unfold find_nearest_neighbors_Vecchia_FSA_fast_threads, find_nearest_neighbors_Vecchia_FSA_fast.
  destruct (negb _); [reflexivity|].
  destruct (save_distances && negb _); [reflexivity|].
  destruct (save_distances && negb _); [reflexivity|].
  cbv zeta.
  destruct (cover_tree_indices _ _ _ _); [reflexivity|].
  change (1 <? 1) with false. change (1 =? 1) with true. cbv iota.
  destruct (CoverTree_kNN _ _ _ _ _); reflexivity.
Qed.

(** *** The threshold between the two searches *)


(** *** Clamping the number of neighbours *)

Definition prepend_log (l : list (string * list Z)) (r : search_outcome) : search_outcome :=
  match r with
  | Search_done out =>
      Search_done (mkNNOutput (neighbors out) (dist_obs_neighbors out)
                     (dist_between_neighbors out) (has_duplicates_out out) (l ++ info_log out))
  | _ => r
  end.

(** C8 (as amended). When the requested number of neighbours exceeds
    [end_search_at + 1] (after the default [end_search_at = n - 2] for a
    negative argument, this is [n - 1]), the search writes one log line that
    names the requested and the new value, and otherwise behaves exactly as
    the same call made with [end_search_at + 1] neighbours. *)
Theorem clamp_num_neighbors_then_proceed
    (dist coord_dist : Z → Z → Q) (EPSILON_NUMBERS : Q)
    (num_data num_neighbors : Z)
    (neighbors0 : list (list Z)) (dist_obs0 : list (list Q)) (dist_between0 : list (list (list Q)))
    (start_at end_search_at : Z) (check_has_duplicates save_distances : bool) (base : Q)
    (prediction cond_on_all : bool) (num_data_obs : Z) :
  let e := default_end_search_at num_data end_search_at in
  e + 1 < num_neighbors →
  (end_search_at < 0 → e + 1 = num_data - 1) ∧
  clamp_num_neighbors num_neighbors e = e + 1 ∧
  find_nearest_neighbors_Vecchia_FSA_fast dist coord_dist EPSILON_NUMBERS num_data num_neighbors
    neighbors0 dist_obs0 dist_between0 start_at end_search_at check_has_duplicates save_distances
    base prediction cond_on_all num_data_obs =
  prepend_log [(msg_clamp, [num_neighbors; e + 2; e + 1])]
    (find_nearest_neighbors_Vecchia_FSA_fast dist coord_dist EPSILON_NUMBERS num_data (e + 1)
       neighbors0 dist_obs0 dist_between0 start_at end_search_at check_has_duplicates save_distances
       base prediction cond_on_all num_data_obs).
Proof.
  intros e He.
  assert (Hc1 : clamp_num_neighbors num_neighbors e = e + 1).
  { unfold clamp_num_neighbors. apply Z.ltb_lt in He. rewrite He. reflexivity. }
  assert (Hc2 : clamp_num_neighbors (e + 1) e = e + 1).
  { unfold clamp_num_neighbors. rewrite Z.ltb_irrefl. reflexivity. }
  assert (Hl1 : clamp_log num_neighbors e = [(msg_clamp, [num_neighbors; e + 2; e + 1])]).
  { unfold clamp_log. apply Z.ltb_lt in He. rewrite He. reflexivity. }
  assert (Hl2 : clamp_log (e + 1) e = []).
  { unfold clamp_log. rewrite Z.ltb_irrefl. reflexivity. }
  split.
  { intros Hneg. unfold e, default_end_search_at. apply Z.ltb_lt in Hneg. rewrite Hneg. lia. }
  split; [exact Hc1|].
  unfold find_nearest_neighbors_Vecchia_FSA_fast.
  destruct (negb (Z.of_nat (length neighbors0) =? num_data - start_at)); [reflexivity|].
  destruct (save_distances && negb (Z.of_nat (length dist_obs0) =? num_data - start_at));
    [reflexivity|].
  destruct (save_distances && negb (Z.of_nat (length dist_between0) =? num_data - start_at));
    [reflexivity|].
  cbv zeta. fold e. rewrite Hc1, Hc2, Hl1, Hl2.
  destruct (cover_tree_indices num_data (e + 1) start_at prediction) as [|i0 idx].
  - repeat match goal with |- context [let '(_, _) := ?x in _] => destruct x end.
    reflexivity.
  - destruct (CoverTree_kNN dist _ _ base 0); try reflexivity.
    repeat match goal with |- context [let '(_, _) := ?x in _] => destruct x end.
    reflexivity.
Qed.

(** Points on a line, one unit apart: the distance between two indices grows
    with their gap. Used to run the search on small inputs. *)
Definition ex_line_dist (i j : Z) : Q := (Z.abs (i - j) # 1000)%Q.

Definition search_summary (r : search_outcome) : option (list (string * list Z) * list (list Z)) :=
  match r with
  | Search_done out => Some (info_log out, neighbors out)
  | _ => None
  end.

(** A prediction call over 5 observed and 5 prediction points that asks for
    12 neighbours among the observed points only. *)
Definition ex_clamped_search (num_neighbors : Z) : search_outcome :=
  find_nearest_neighbors_Vecchia_FSA_fast ex_line_dist ex_line_dist (1 # 100000)
    10 num_neighbors (replicate 5 []) [] [] 5 4 false false 2 true false 5.

(** The claim as stated fails: 12 neighbours are requested, more than
    [n - 1 = 9], and the number is set to 5 (the number of observed points),
    not to 9; the log line says so. *)
Lemma clamp_is_not_always_n_minus_1 :
  (10 - 1 <? 12) = true ∧
  clamp_num_neighbors 12 (default_end_search_at 10 4) = 5 ∧
  (5 =? 10 - 1) = false ∧
  search_summary (ex_clamped_search 12) =
  Some ([(msg_clamp, [12; 6; 5])],
        [[0; 1; 2; 3; 4]; [4; 3; 2; 1; 0]; [4; 3; 2; 1; 0]; [4; 3; 2; 1; 0]; [4; 3; 2; 1; 0]]).
Proof. vm_compute. repeat split. Qed.

Lemma clamp_num_neighbors_then_proceed_witness :
  (4 < 0 → default_end_search_at 10 4 + 1 = 10 - 1) ∧
  clamp_num_neighbors 12 (default_end_search_at 10 4) = default_end_search_at 10 4 + 1 ∧
  ex_clamped_search 12 =
  prepend_log [(msg_clamp, [12; default_end_search_at 10 4 + 2; default_end_search_at 10 4 + 1])]
    (ex_clamped_search (default_end_search_at 10 4 + 1)).
Proof.
  unfold ex_clamped_search.
  apply (clamp_num_neighbors_then_proceed ex_line_dist ex_line_dist (1 # 100000)
           10 12 (replicate 5 []) [] [] 5 4 false false 2 true false 5).
  reflexivity.
Defined.

(** With the default [end_search_at] the clamp is to [n - 1]. *)
Example ex_clamp_default :
  search_summary
    (find_nearest_neighbors_Vecchia_FSA_fast ex_line_dist ex_line_dist (1 # 100000)
       4 7 (replicate 4 []) [] [] 0 (-1) false false 2 false false 4) =
  Some ([(msg_clamp, [7; 4; 3])], [[]; [0]; [0; 1]; [0; 1; 2]]).
Proof. vm_compute. reflexivity. Qed.

Lemma CoverTree_kNN_terminates_with_all_points_witness :
  ∃ cover_tree level,
    CoverTree_kNN ex_line_dist (Z.to_nat 6) 6 2 3 = CT_built cover_tree level ∧
    (∀ key, is_Some (cover_tree !! key) ↔ key = -1 ∨ 3 ≤ key < 3 + 6) ∧
    cover_tree !! (-1) = Some [3] ∧
    size cover_tree = S (Z.to_nat 6).
Proof. apply (CoverTree_kNN_terminates_with_all_points ex_line_dist 2 3 6); lia. Defined.

(** Six points on a line that start at global index 3, one tenth apart, base 2. *)
Example ex_cover_tree_segment :
  match CoverTree_kNN (fun i j => (Z.abs (i - j) # 10)%Q) 6 6 2 3 with
  | CT_built t level => Some (map (map_at t) [-1; 3; 4; 5; 6; 7; 8], level)
  | _ => None
  end =
  Some ([[3]; [3; 4]; [4; 5; 8]; [5; 6]; [6; 7]; [7]; [8]], 5).
Proof. vm_compute. reflexivity. Qed.

(** ** The distance kernel ([distances_funct]) *)

(** In this part and in the prediction step the numbers are real numbers:
    the statements are about the formulas the program evaluates. *)

(** [a.dot(b)] and [(a - b).lpNorm<2>()]. *)
Definition dot (a b : list R) : R :=
  fold_right Rplus 0%R (map (fun '(x, y) => (x * y)%R) (combine a b)).

Definition lpNorm2_diff_R (a b : list R) : R :=
  R_sqrt.sqrt (fold_right Rplus 0%R (map (fun '(x, y) => ((x - y) * (x - y))%R) (combine a b))).

(** [std::pow] on a non-negative base with a positive exponent. *)
Definition std_pow (x y : R) : R := if Req_dec_T x 0 then 0%R else Rpower x y.

(** The arguments [distances_funct] takes by reference: the matrices it
    reads and the vector [distances] it writes. [chol_ip_cross_cov] is kept
    by columns, [coords] by rows. *)
Record kernel_args : Type := mkKernelArgs {
  coords : list (list R);
  corr_diag : list R;
  chol_ip_cross_cov : list (list R);
  distances : list R
}.

Lemma dot_comm (a b : list R) : dot a b = dot b a.
Proof.
  unfold dot. revert b. induction a as [|x a IH]; intros [|y b]; simpl; try reflexivity.
  rewrite IH. f_equal. apply Rmult_comm.
Qed.

Section DistanceKernel.

(** The covariance function [k] of the residual component, and the method
    [CalcSigmaAndSigmaGradVecchia] of the covariance module which evaluates it
    between the query point and the candidates, from the coordinates or, when
    they are saved, from the distances handed to it. *)
Variable k : list R → list R → R.
Variable CalcSigmaAndSigmaGradVecchia : list R → list R → list (list R) → list R.
Hypothesis CalcSigma_is_k : ∀ (distances_saved : bool) (coords_i : list R) (coords_j : list (list R)),
  CalcSigmaAndSigmaGradVecchia
    (if distances_saved then map (fun c => lpNorm2_diff_R c coords_i) coords_j else [])
    coords_i coords_j = map (k coords_i) coords_j.

Definition distances_funct (coord_ind_i : Z) (coords_ind_j : list Z) (a : kernel_args)
    (dist_function : string) (distances_saved : bool) : kernel_args :=
  if (dist_function =? "residual_correlation_FSA")%string then
    let chol_ip_cross_cov_sample := znth [] (chol_ip_cross_cov a) coord_ind_i in
    let pp_node :=
      map (fun j => dot (znth [] (chol_ip_cross_cov a) j) chol_ip_cross_cov_sample) coords_ind_j in
    let coords_i := znth [] (coords a) coord_ind_i in
    let coords_j := map (znth [] (coords a)) coords_ind_j in
    let dist_ij :=
      if distances_saved then map (fun c => lpNorm2_diff_R c coords_i) coords_j else [] in
    let corr_mat := CalcSigmaAndSigmaGradVecchia dist_ij coords_i coords_j in
    let corr_diag_sample := znth 0%R (corr_diag a) coord_ind_i in
    let value (j : nat) : R :=
      R_sqrt.sqrt (1 - std_pow (Rabs ((nth j corr_mat 0 - nth j pp_node 0) /
                               R_sqrt.sqrt (corr_diag_sample *
                                     znth 0 (corr_diag a) (nth j coords_ind_j 0%Z))))
                        (1 / 10))%R in
    mkKernelArgs (coords a) (corr_diag a) (chol_ip_cross_cov a)
      (fold_left (fun d j => <[j := value j]> d) (seq 0 (length coords_ind_j)) (distances a))
  else a.

(** The residual correlation of the points [i] and [j] and the distance the
    specification derives from it. *)
Definition residual_correlation (a : kernel_args) (i j : Z) : R :=
  ((k (znth [] (coords a) i) (znth [] (coords a) j) -
    dot (znth [] (chol_ip_cross_cov a) i) (znth [] (chol_ip_cross_cov a) j)) /
   R_sqrt.sqrt (znth 0 (corr_diag a) i * znth 0 (corr_diag a) j))%R.

Definition residual_correlation_distance (a : kernel_args) (i j : Z) : R :=
  R_sqrt.sqrt (1 - std_pow (Rabs (residual_correlation a i j)) (1 / 10))%R.

Lemma fold_insert_length (value : nat → R) (n : nat) (d : list R) :
  length (fold_left (fun d j => <[j := value j]> d) (seq 0 n) d) = length d.
Proof.
  induction n as [|n IH]; [reflexivity|].
  rewrite seq_S, fold_left_app. simpl. rewrite length_insert. exact IH.
Qed.

Lemma fold_insert_lookup (value : nat → R) (n : nat) (d : list R) (p : nat) :
  (n ≤ length d)%nat → (p < n)%nat →
  fold_left (fun d j => <[j := value j]> d) (seq 0 n) d !! p = Some (value p).
Proof.
  revert d p. induction n as [|n IH]; intros d p Hlen Hp; [lia|].
  rewrite seq_S, fold_left_app. simpl.
  destruct (decide (p = n)) as [-> | Hne].
  - apply list_lookup_insert_eq. rewrite fold_insert_length. lia.
  - rewrite list_lookup_insert_ne by congruence. apply IH; lia.
Qed.

(** C2. With [dist_function = "residual_correlation_FSA"] and positive
    entries of [corr_diag], the entry that [distances_funct] writes for the
    candidate [j] at position [p] of the list is
    [sqrt(1 - |rho_ij|^0.1)] with
    [rho_ij = (k(x_i, x_j) - Q[:,i]^T Q[:,j]) / sqrt(corr_diag[i] corr_diag[j])],
    and the coordinates, [corr_diag] and [chol_ip_cross_cov] are returned as
    they were given. *)
Theorem distances_funct_residual_correlation
    (coord_ind_i : Z) (coords_ind_j : list Z) (a : kernel_args) (distances_saved : bool) :
  Forall (fun v => (0 < v)%R) (corr_diag a) →
  (length coords_ind_j ≤ length (distances a))%nat →
  let a' := distances_funct coord_ind_i coords_ind_j a "residual_correlation_FSA" distances_saved in
  (∀ (p : nat) (j : Z), coords_ind_j !! p = Some j →
     distances a' !! p = Some (residual_correlation_distance a coord_ind_i j)) ∧
  length (distances a') = length (distances a) ∧
  coords a' = coords a ∧ corr_diag a' = corr_diag a ∧ chol_ip_cross_cov a' = chol_ip_cross_cov a.
Proof.
  intros Hpos Hlen a'. subst a'. unfold distances_funct. simpl String.eqb. cbv iota zeta.
  simpl coords. simpl corr_diag. simpl chol_ip_cross_cov. simpl distances.
  split; [|split; [|repeat split]].
  - intros p j Hp.
    pose proof (lookup_lt_Some _ _ _ Hp) as Hlt.
    rewrite fold_insert_lookup by assumption.
    rewrite CalcSigma_is_k.
    f_equal. unfold residual_correlation_distance, residual_correlation.
    rewrite !(nth_lookup_Some _ _ _ j Hp).
    erewrite (nth_lookup_Some (map _ (map _ _))); [|rewrite !list_lookup_fmap, Hp; reflexivity].
    erewrite (nth_lookup_Some (map _ coords_ind_j)); [|rewrite list_lookup_fmap, Hp; reflexivity].
    rewrite (dot_comm (znth [] (chol_ip_cross_cov a) j)). reflexivity.
  - apply fold_insert_length.
Qed.

End DistanceKernel.

(** Two points on a line, a constant residual covariance of one half between
    distinct points, no inducing-point part. *)
Definition ex_kernel (x y : list R) : R := (1 / 2)%R.

Definition ex_CalcSigma (dist_ij : list R) (coords_i : list R) (coords_j : list (list R)) : list R :=
  map (ex_kernel coords_i) coords_j.

Definition ex_kernel_args : kernel_args :=
  mkKernelArgs [[0%R]; [1%R]] [1%R; 1%R] [[0%R]; [0%R]] [0%R].

Lemma distances_funct_residual_correlation_witness :
  (∀ (p : nat) (j : Z), [0] !! p = Some j →
     distances (distances_funct ex_CalcSigma 1 [0] ex_kernel_args "residual_correlation_FSA" true) !! p =
     Some (residual_correlation_distance ex_kernel ex_kernel_args 1 j)) ∧
  length (distances (distances_funct ex_CalcSigma 1 [0] ex_kernel_args "residual_correlation_FSA" true)) =
  length (distances ex_kernel_args) ∧
  coords (distances_funct ex_CalcSigma 1 [0] ex_kernel_args "residual_correlation_FSA" true) =
  coords ex_kernel_args ∧
  corr_diag (distances_funct ex_CalcSigma 1 [0] ex_kernel_args "residual_correlation_FSA" true) =
  corr_diag ex_kernel_args ∧
  chol_ip_cross_cov (distances_funct ex_CalcSigma 1 [0] ex_kernel_args "residual_correlation_FSA" true) =
  chol_ip_cross_cov ex_kernel_args.
Proof.
  apply (distances_funct_residual_correlation ex_kernel ex_CalcSigma
           (fun _ _ _ => eq_refl) 1 [0] ex_kernel_args true).
  - simpl. repeat constructor; apply Rlt_0_1.
  - simpl. lia.
Defined.

(** ** The predictive mean when the predicted points come first
    ([CalcPredVecchiaPredictedFirstOrder]) *)

(** Matrices and vectors of Eigen as functions of the indices, with the sizes
    passed where a product sums over them. *)
Definition vec_t : Type := nat → R.
Definition mat_t : Type := nat → nat → R.

Fixpoint sum_n (n : nat) (f : nat → R) : R :=
  match n with
  | O => 0%R
  | S m => (sum_n m f + f m)%R
  end.

Definition transpose (A : mat_t) : mat_t := fun i j => A j i.
Definition asDiagonal (d : vec_t) : mat_t := fun i j => if Nat.eqb i j then d i else 0%R.
Definition mat_mul (inner : nat) (A B : mat_t) : mat_t :=
  fun i j => sum_n inner (fun l => (A i l * B l j)%R).
Definition mat_add (A B : mat_t) : mat_t := fun i j => (A i j + B i j)%R.
Definition mat_vec (inner : nat) (A : mat_t) (x : vec_t) : vec_t :=
  fun i => sum_n inner (fun l => (A i l * x l)%R).
Definition vec_neg (x : vec_t) : vec_t := fun i => (- x i)%R.

(** [x] solves the square system [A x = b] of size [n]. *)
Definition solves (n : nat) (A : mat_t) (x b : vec_t) : Prop :=
  ∀ i, (i < n)%nat → mat_vec n A x i = b i.

Section PredictedFirst.

(** [CholFact.compute(A); CholFact.solve(b)] of Eigen's sparse Cholesky
    factorisation, for a system of the given size. *)
Variable CholFact_solve : nat → mat_t → vec_t → vec_t.

(** The sizes: [num_data_pred_cli] predicted points, [num_data_cli]
    observed ones. [Dp] and [Do] are the values the loop over the points has
    accumulated before it inverts them. *)
Variables (num_data_pred_cli num_data_cli : nat).
Variables (Bp Bop Bo : mat_t) (Dp Do : vec_t) (y_cluster_i : vec_t).

Definition Dp_inv : vec_t := fun i => (1 / Dp i)%R.
Definition Do_inv : vec_t := fun i => (1 / Do i)%R.

Definition cond_prec : mat_t :=
  mat_add
    (mat_mul num_data_pred_cli (mat_mul num_data_pred_cli (transpose Bp) (asDiagonal Dp_inv)) Bp)
    (mat_mul num_data_cli (mat_mul num_data_cli (transpose Bop) (asDiagonal Do_inv)) Bop).

Definition y_aux : vec_t :=
  mat_vec num_data_cli (transpose Bop)
    (mat_vec num_data_cli (asDiagonal Do_inv) (mat_vec num_data_cli Bo y_cluster_i)).

Definition pred_mean : vec_t :=
  vec_neg (CholFact_solve num_data_pred_cli cond_prec y_aux).

End PredictedFirst.

Lemma sum_n_ext (n : nat) (f g : nat → R) :
  (∀ l, (l < n)%nat → f l = g l) → sum_n n f = sum_n n g.
Proof.
  induction n as [|n IH]; intros H; [reflexivity|].
  simpl. rewrite IH, (H n) by (intros; try apply H; lia). reflexivity.
Qed.

Lemma sum_n_zero (n : nat) (f : nat → R) :
  (∀ l, (l < n)%nat → f l = 0%R) → sum_n n f = 0%R.
Proof.
  induction n as [|n IH]; intros H; [reflexivity|].
  simpl. rewrite IH, (H n) by (intros; try apply H; lia). apply Rplus_0_l.
Qed.

Lemma sum_n_opp (n : nat) (f : nat → R) :
  sum_n n (fun l => (- f l)%R) = (- sum_n n f)%R.
Proof. induction n as [|n IH]; simpl; [lra | rewrite IH; lra]. Qed.

(** A sum against a row or a column of a diagonal matrix keeps one term. *)
Lemma sum_n_diag_col (n : nat) (a d : vec_t) (j : nat) :
  (j < n)%nat → sum_n n (fun l => (a l * asDiagonal d l j)%R) = (a j * d j)%R.
Proof.
  unfold asDiagonal. induction n as [|n IH]; intros Hj; [lia|].
  simpl. destruct (decide (j = n)) as [-> | Hne].
  - rewrite Nat.eqb_refl, sum_n_zero; [lra|].
    intros l Hl. destruct (Nat.eqb_spec l n); [lia | lra].
  - rewrite IH by lia. destruct (Nat.eqb_spec n j); [lia | lra].
Qed.

Lemma sum_n_diag_row (n : nat) (d x : vec_t) (i : nat) :
  (i < n)%nat → sum_n n (fun l => (asDiagonal d i l * x l)%R) = (d i * x i)%R.
Proof.
  unfold asDiagonal. induction n as [|n IH]; intros Hi; [lia|].
  simpl. destruct (decide (i = n)) as [-> | Hne].
  - rewrite Nat.eqb_refl, sum_n_zero; [lra|].
    intros l Hl. destruct (Nat.eqb_spec n l); [lia | lra].
  - rewrite IH by lia. destruct (Nat.eqb_spec i n); [lia | lra].
Qed.

Lemma mat_vec_neg (n : nat) (A : mat_t) (x : vec_t) (i : nat) :
  mat_vec n A (vec_neg x) i = (- mat_vec n A x i)%R.
Proof.
  unfold mat_vec, vec_neg. rewrite <- sum_n_opp. apply sum_n_ext. intros; lra.
Qed.

(** C7. The matrix [cond_prec] has the entries of
    [Bp^T Dp^-1 Bp + Bop^T Do^-1 Bop], and when the Cholesky solve returns a
    solution of its system, [pred_mean] solves
    [cond_prec * mu = - Bop^T Do^-1 Bo y]. *)
Theorem pred_mean_solves_precision_system
    (CholFact_solve : nat → mat_t → vec_t → vec_t) (np no : nat)
    (Bp Bop Bo : mat_t) (Dp Do y : vec_t) :
  let P := cond_prec np no Bp Bop Dp Do in
  let mu := pred_mean CholFact_solve np no Bp Bop Bo Dp Do y in
  solves np P (CholFact_solve np P (y_aux no Bop Bo Do y)) (y_aux no Bop Bo Do y) →
  (∀ i j, (i < np)%nat → (j < np)%nat →
     P i j = (sum_n np (fun l => Bp l i * / Dp l * Bp l j) +
              sum_n no (fun l => Bop l i * / Do l * Bop l j))%R) ∧
  solves np P mu
    (fun i => (- sum_n no (fun l => Bop l i * / Do l * sum_n no (fun m => Bo l m * y m)))%R).
Proof.
  intros P mu Hsolve. split.
  - intros i j Hi Hj. subst P. unfold cond_prec, mat_add, mat_mul. f_equal.
    + apply sum_n_ext. intros l Hl. rewrite sum_n_diag_col by assumption.
      unfold transpose, Dp_inv. lra.
    + apply sum_n_ext. intros l Hl. rewrite sum_n_diag_col by assumption.
      unfold transpose, Do_inv. lra.
  - intros i Hi. subst mu. unfold pred_mean. fold P. rewrite mat_vec_neg.
    rewrite (Hsolve i Hi). f_equal.
    unfold y_aux. unfold mat_vec at 1. apply sum_n_ext. intros l Hl.
    unfold mat_vec at 1. rewrite sum_n_diag_row by assumption.
    unfold transpose, Do_inv, mat_vec. lra.
Qed.

(** One predicted and one observed point: the observed one is regressed on
    the predicted one with coefficient one half and conditional variance three
    quarters; the observed value is 2. *)
Definition ex_solve (n : nat) (A : mat_t) (b : vec_t) : vec_t := fun _ => (b O / A O O)%R.
Definition ex_Bp : mat_t := fun _ _ => 1%R.
Definition ex_Bop : mat_t := fun _ _ => (- (1 / 2))%R.
Definition ex_Bo : mat_t := fun _ _ => 1%R.
Definition ex_Dp : vec_t := fun _ => 1%R.
Definition ex_Do : vec_t := fun _ => (3 / 4)%R.
Definition ex_y : vec_t := fun _ => 2%R.

Example ex_cond_prec : cond_prec 1 1 ex_Bp ex_Bop ex_Dp ex_Do O O = (4 / 3)%R.
Proof.
  unfold cond_prec, mat_add, mat_mul, transpose, asDiagonal, Dp_inv, Do_inv,
    ex_Bp, ex_Bop, ex_Dp, ex_Do. simpl. lra.
Qed.

Example ex_y_aux : y_aux 1 ex_Bop ex_Bo ex_Do ex_y O = (- (4 / 3))%R.
Proof.
  unfold y_aux, mat_vec, transpose, asDiagonal, Do_inv, ex_Bop, ex_Bo, ex_Do, ex_y. simpl. lra.
Qed.

Example ex_pred_mean : pred_mean ex_solve 1 1 ex_Bp ex_Bop ex_Bo ex_Dp ex_Do ex_y O = 1%R.
Proof.
  unfold pred_mean, vec_neg, ex_solve. rewrite ex_cond_prec, ex_y_aux. lra.
Qed.

Lemma pred_mean_solves_precision_system_witness :
  (∀ i j, (i < 1)%nat → (j < 1)%nat →
     cond_prec 1 1 ex_Bp ex_Bop ex_Dp ex_Do i j =
     (sum_n 1 (fun l => ex_Bp l i * / ex_Dp l * ex_Bp l j) +
      sum_n 1 (fun l => ex_Bop l i * / ex_Do l * ex_Bop l j))%R) ∧
  solves 1 (cond_prec 1 1 ex_Bp ex_Bop ex_Dp ex_Do)
    (pred_mean ex_solve 1 1 ex_Bp ex_Bop ex_Bo ex_Dp ex_Do ex_y)
    (fun i => (- sum_n 1 (fun l => ex_Bop l i * / ex_Do l * sum_n 1 (fun m => ex_Bo l m * ex_y m)))%R).
Proof.
  apply (pred_mean_solves_precision_system ex_solve 1 1 ex_Bp ex_Bop ex_Bo ex_Dp ex_Do ex_y).
  intros i Hi. assert (i = O) as -> by lia.
  unfold mat_vec, ex_solve. simpl. rewrite ex_cond_prec, ex_y_aux. lra.
Defined.

(** ** The cover-tree query against the brute-force scan *)

(** A symmetric table of distances: the listed pairs, distance 1 (no
    correlation) between all other distinct points. *)
Definition pair_table (t : list (Z * Z * Q)) (a b : Z) : Q :=
  let lo := Z.min a b in
  let hi := Z.max a b in
  match List.find (fun e => (e.1.1 =? lo) && (e.1.2 =? hi)) t with
  | Some e => e.2
  | None => if a =? b then 0%Q else 1%Q
  end.

(** Distances of the form [sqrt(1 - |rho|^0.1)] for the residual correlations
    [rho = (1 - d^2)^10]: about 0.104 between 1 and each of 2, 3 and 1000,
    0.609 between 2 and 3, 0.389 between 3 and 1000, and none elsewhere. The
    points 2 and 1000 are uncorrelated although both are correlated with 3, so
    the triangle inequality fails. *)
Definition ex_skew_dist : Z → Z → Q :=
  pair_table [(1, 2, (9 # 20)%Q); (1, 3, (9 # 20)%Q); (2, 3, (11 # 50)%Q);
              (1, 1000, (9 # 20)%Q); (3, 1000, (3 # 10)%Q)].

(** A metric in which the points 3 and 4 are equally far from the point 1000. *)
Definition ex_tie_dist : Z → Z → Q :=
  pair_table [(1, 4, (3 # 10)%Q); (2, 3, (3 # 10)%Q); (3, 1000, (7 # 10)%Q); (4, 1000, (7 # 10)%Q)].

(** The neighbours of [i] from the cover tree over [rows] points and from the
    brute-force scan over the candidates [0 .. i-1], and the number of levels. *)
Definition compare_searches (dist : Z → Z → Q) (rows i k : Z) (base : Q)
  : option (list Z * list Z * Z) :=
  match CoverTree_kNN dist (Z.to_nat rows) rows base 0 with
  | CT_built t level =>
      Some ((find_kNN_CoverTree dist i k level base (replicate (Z.to_nat k) 0) t).1,
            map snd (brute_force_scan dist i k (replicate (Z.to_nat k) 0) (range 0 i)), level)
  | _ => None
  end.

(** With 1001 points, base 2 and one neighbour, the query for the point 1000
    (the first one beyond the brute-force threshold) returns the point 1 at
    distance 9/20 although the point 3 is at distance 3/10: the node 2 is pruned
    at the second level together with its child 3. With the tied metric the
    query returns the point 4 where the scan returns the point 3. *)
Lemma cover_tree_query_differs_from_brute_force :
  compare_searches ex_skew_dist 1001 1000 1 2 = Some ([1], [3], 4) ∧
  ex_skew_dist 1000 1 = (9 # 20)%Q ∧ ex_skew_dist 1000 3 = (3 # 10)%Q ∧
  compare_searches ex_tie_dist 1001 1000 1 2 = Some ([4], [3], 3) ∧
  ex_tie_dist 1000 4 = ex_tie_dist 1000 3.
Proof. vm_compute. repeat split. Qed.

(** *** The order on distances *)

Definition dbl_le (a b : dbl) : Prop := dbl_ltb b a = false.

Lemma Qltb_true (x y : Q) : Qltb x y = true ↔ (x < y)%Q.
Proof.
  unfold Qltb. rewrite negb_true_iff. split.
  - intros H. apply Qnot_le_lt. intros Hle. apply Qle_bool_iff in Hle. congruence.
  - intros H. destruct (Qle_bool y x) eqn:E; [|reflexivity].
    apply Qle_bool_iff in E. exfalso. exact (Qlt_not_le _ _ H E).
Qed.

Lemma Qltb_false (x y : Q) : Qltb x y = false ↔ (y <= x)%Q.
Proof.
  unfold Qltb. rewrite negb_false_iff. apply Qle_bool_iff.
Qed.

Lemma dbl_le_Fin (x y : Q) : dbl_le (Fin x) (Fin y) ↔ (x <= y)%Q.
Proof. unfold dbl_le. simpl. apply Qltb_false. Qed.

Lemma dbl_le_refl (a : dbl) : dbl_le a a.
Proof. destruct a as [x|]; [apply dbl_le_Fin, Qle_refl | reflexivity]. Qed.

Lemma dbl_le_trans (a b c : dbl) : dbl_le a b → dbl_le b c → dbl_le a c.
Proof.
  destruct a as [x|], b as [y|], c as [z|]; try (intros; reflexivity); try discriminate.
  rewrite !dbl_le_Fin. apply Qle_trans.
Qed.

Lemma dbl_ltb_le (a b : dbl) : dbl_ltb a b = true → dbl_le a b.
Proof.
  destruct a as [x|], b as [y|]; try (intros; reflexivity); try discriminate.
  simpl. rewrite Qltb_true, dbl_le_Fin. apply Qlt_le_weak.
Qed.

Lemma dbl_le_Inf_Fin (x : Q) : ¬ dbl_le Inf (Fin x).
Proof. unfold dbl_le. simpl. discriminate. Qed.

(** *** The insertion sort *)

Definition asc (h : list (dbl * Z)) : Prop :=
  StronglySorted (fun a b : dbl * Z => dbl_le a.1 b.1) h.
Definition desc (h : list (dbl * Z)) : Prop :=
  StronglySorted (fun a b : dbl * Z => dbl_le b.1 a.1) h.

Lemma sift_left_Permutation (x : dbl * Z) (rp : list (dbl * Z)) : sift_left x rp ≡ₚ x :: rp.
Proof.
  induction rp as [|y r IH]; simpl; [reflexivity|].
  destruct (dbl_ltb x.1 y.1); [|reflexivity].
  rewrite IH. apply Permutation_swap.
Qed.

Lemma sift_left_desc (x : dbl * Z) (rp : list (dbl * Z)) : desc rp → desc (sift_left x rp).
Proof.
  unfold desc. induction 1 as [|y r Hs IH Hall]; simpl.
  - repeat constructor.
  - destruct (dbl_ltb x.1 y.1) eqn:E.
    + constructor; [exact IH|].
      rewrite sift_left_Permutation. constructor; [apply dbl_ltb_le, E | exact Hall].
    + constructor; [constructor; assumption|].
      constructor; [exact E|].
      eapply Forall_impl; [exact Hall|]. intros z Hz. simpl in Hz.
      eapply dbl_le_trans; [exact Hz | exact E].
Qed.

Lemma fold_sift_left (a rp : list (dbl * Z)) :
  let r := fold_left (fun rev_prefix x => sift_left x rev_prefix) a rp in
  r ≡ₚ a ++ rp ∧ (desc rp → desc r).
Proof.
  revert rp. induction a as [|x a IH]; intros rp; simpl; [split; [reflexivity | tauto]|].
  destruct (IH (sift_left x rp)) as [H1 H2]. split.
  - rewrite H1, sift_left_Permutation. symmetry. apply Permutation_middle.
  - intros Hd. apply H2, sift_left_desc, Hd.
Qed.

Lemma StronglySorted_rev {A : Type} (R : A → A → Prop) (l : list A) :
  StronglySorted R l → StronglySorted (fun a b => R b a) (rev l).
Proof.
  induction 1 as [|x l Hs IH Hall]; simpl; [constructor|].
  apply StronglySorted_app_2; [|exact IH | repeat constructor].
  intros a b Ha Hb. apply list_elem_of_singleton in Hb. subst b.
  rewrite Forall_forall in Hall. apply Hall. apply list_elem_of_In, in_rev, list_elem_of_In, Ha.
Qed.

Lemma SortVectorsDecreasing_Permutation (a : list (dbl * Z)) : SortVectorsDecreasing a ≡ₚ a.
Proof.
  unfold SortVectorsDecreasing. rewrite <- Permutation_rev.
  destruct (fold_sift_left a []) as [H _]. rewrite H, app_nil_r. reflexivity.
Qed.

Lemma SortVectorsDecreasing_asc (a : list (dbl * Z)) : asc (SortVectorsDecreasing a).
Proof.
  unfold SortVectorsDecreasing, asc.
  destruct (fold_sift_left a []) as [_ H].
  apply (StronglySorted_rev (fun a b : dbl * Z => dbl_le b.1 a.1)). apply H. constructor.
Qed.

(** *** The scan that keeps the [k] closest candidates *)

(** The indices in the slots that hold a candidate. *)
Definition fin_idx (h : list (dbl * Z)) : list Z :=
  omap (fun e : dbl * Z => match e.1 with Fin _ => Some e.2 | Inf => None end) h.

Lemma elem_of_fin_idx (h : list (dbl * Z)) (j : Z) :
  j ∈ fin_idx h ↔ ∃ d, (Fin d, j) ∈ h.
Proof.
  unfold fin_idx. rewrite list_elem_of_omap. split.
  - intros ([[d|] j'] & Hin & Heq); simpl in Heq; [|discriminate].
    injection Heq as ->. eauto.
  - intros (d & Hin). exists (Fin d, j). split; [exact Hin | reflexivity].
Qed.

Lemma fin_idx_cons_Fin (d : Q) (j : Z) (h : list (dbl * Z)) :
  fin_idx ((Fin d, j) :: h) = j :: fin_idx h.
Proof. reflexivity. Qed.

Lemma fin_idx_cons_Inf (j : Z) (h : list (dbl * Z)) : fin_idx ((Inf, j) :: h) = fin_idx h.
Proof. reflexivity. Qed.

Lemma fin_idx_all_fin (h : list (dbl * Z)) :
  (∀ e, e ∈ h → e.1 ≠ Inf) → fin_idx h = map snd h.
Proof.
  induction h as [|[[d|] j] h IH]; intros H; [reflexivity| |].
  - rewrite fin_idx_cons_Fin. simpl. f_equal. apply IH. intros e He. apply H. right. exact He.
  - exfalso. apply (H (Inf, j)); [left | reflexivity].
Qed.

Lemma fin_idx_length_le (h : list (dbl * Z)) : (length (fin_idx h) ≤ length h)%nat.
Proof.
  induction h as [|[[d|] j] h IH]; [reflexivity| |].
  - rewrite fin_idx_cons_Fin. simpl. lia.
  - rewrite fin_idx_cons_Inf. simpl. lia.
Qed.

Lemma fin_idx_length (h : list (dbl * Z)) (e : dbl * Z) :
  e ∈ h → e.1 = Inf → (length (fin_idx h) < length h)%nat.
Proof.
  induction h as [|[[d|] j] h IH]; intros Hin He.
  - inversion Hin.
  - apply elem_of_cons in Hin. destruct Hin as [-> | Hin]; [discriminate|].
    specialize (IH Hin He). rewrite fin_idx_cons_Fin. simpl. lia.
  - pose proof (fin_idx_length_le h). rewrite fin_idx_cons_Inf. simpl. lia.
Qed.

Lemma list_snoc_of_length {A : Type} (l : list A) (n : nat) :
  length l = S n → ∃ l' x, l = l' ++ [x] ∧ length l' = n.
Proof.
  intros H. destruct l as [|y l] using rev_ind; [discriminate|].
  exists l, y. split; [reflexivity|]. rewrite length_app in H. simpl in H. lia.
Qed.

Lemma znth_snoc {A : Type} (d : A) (l : list A) (x : A) (i : Z) :
  i = Z.of_nat (length l) → znth d (l ++ [x]) i = x.
Proof.
  intros ->. unfold znth. destruct (Z.of_nat (length l) <? 0) eqn:E; [apply Z.ltb_lt in E; lia|].
  rewrite Nat2Z.id. apply nth_lookup_Some, list_lookup_middle. reflexivity.
Qed.

Lemma zset_snoc {A : Type} (l : list A) (x y : A) (i : Z) :
  i = Z.of_nat (length l) → zset (l ++ [x]) i y = l ++ [y].
Proof.
  intros ->. unfold zset. destruct (Z.of_nat (length l) <? 0) eqn:E; [apply Z.ltb_lt in E; lia|].
  rewrite Nat2Z.id, insert_app_r_alt by lia. rewrite Nat.sub_diag. reflexivity.
Qed.

Section HeapScan.

Variables (f : Z → Q) (k : Z).
Hypothesis k_pos : 1 ≤ k.

(** The slots after the candidates [c] have been offered: they are sorted,
    hold candidates with their distances, without repetition, and every
    candidate left out is at least as far as every slot. *)
Record heap_inv (c : list Z) (h : list (dbl * Z)) : Prop := mkHeapInv {
  hi_len : length h = Z.to_nat k;
  hi_asc : asc h;
  hi_fin : ∀ e, e ∈ h → e.1 = Inf ∨ (e.1 = Fin (f e.2) ∧ e.2 ∈ c);
  hi_nodup : NoDup (fin_idx h);
  hi_out : ∀ j, j ∈ c → j ∉ fin_idx h → ∀ e, e ∈ h → dbl_le e.1 (Fin (f j))
}.

Lemma heap_inv_init (neighbors_i : list Z) :
  length neighbors_i = Z.to_nat k → heap_inv [] (heap_init k neighbors_i).
Proof.
  intros Hlen.
  assert (Hinf : ∀ e, e ∈ heap_init k neighbors_i → e.1 = Inf).
  { intros [d j] He. apply list_elem_of_In, in_combine_l, list_elem_of_In in He.
    apply elem_of_replicate in He. simpl. tauto. }
  assert (Hnil : fin_idx (heap_init k neighbors_i) = []).
  { revert Hinf. generalize (heap_init k neighbors_i). intros h Hinf.
    induction h as [|[d j] h IH]; [reflexivity|].
    pose proof (Hinf (d, j) ltac:(left)) as Hd. simpl in Hd. subst d.
    rewrite fin_idx_cons_Inf. apply IH. intros e He. apply Hinf. right. exact He. }
  constructor.
  - unfold heap_init. rewrite length_combine, length_replicate. lia.
  - revert Hinf. generalize (heap_init k neighbors_i). intros h Hinf. unfold asc.
    induction h as [|e h IH]; constructor.
    + apply IH. intros e' He'. apply Hinf. right. exact He'.
    + apply Forall_forall. intros e' He'.
      rewrite (Hinf e' ltac:(right; exact He')). destruct e.1; reflexivity.
  - intros e He. left. apply Hinf, He.
  - rewrite Hnil. constructor.
  - intros j Hj. inversion Hj.
Qed.

Lemma heap_offer_inv (c : list Z) (h : list (dbl * Z)) (j : Z) :
  heap_inv c h → j ∉ c → heap_inv (c ++ [j]) (heap_offer k h (f j) j).
Proof.
  intros [Hlen Hasc Hfin Hnd Hout] Hj.
  destruct (list_snoc_of_length h (Z.to_nat k - 1)) as (h' & m & -> & Hlen'); [lia|].
  assert (Hk1 : k - 1 = Z.of_nat (length h')) by lia.
  unfold heap_offer. rewrite (znth_snoc _ h' m _ Hk1), (zset_snoc h' m _ _ Hk1).
  assert (Hm : ∀ e, e ∈ h' ++ [m] → dbl_le e.1 m.1).
  { intros e He. apply elem_of_app in He. destruct He as [He | He].
    - apply (StronglySorted_app_1_elem_of _ h' [m] e m Hasc He). left.
    - apply list_elem_of_singleton in He. subst e. apply dbl_le_refl. }
  assert (Hsub : ∀ x, x ∈ fin_idx h' → x ∈ c).
  { intros x Hx. apply elem_of_fin_idx in Hx. destruct Hx as (d & Hx).
    destruct (Hfin (Fin d, x)) as [H | [_ H]]; [apply elem_of_app; left; exact Hx | discriminate | exact H]. }
  pose proof Hnd as Hnd0.
  unfold fin_idx in Hnd. rewrite omap_app in Hnd. fold (fin_idx h') in Hnd. fold (fin_idx [m]) in Hnd.
  apply NoDup_app in Hnd. destruct Hnd as (Hnd' & _ & _).
  destruct (dbl_ltb (Fin (f j)) m.1) eqn:E.
  - set (x := (Fin (f j), j)).
    assert (Hperm : SortVectorsDecreasing (h' ++ [x]) ≡ₚ x :: h').
    { rewrite SortVectorsDecreasing_Permutation. symmetry. apply Permutation_cons_append. }
    assert (Hfi : fin_idx (SortVectorsDecreasing (h' ++ [x])) ≡ₚ j :: fin_idx h').
    { unfold fin_idx. rewrite Hperm. reflexivity. }
    constructor.
    + rewrite Hperm. simpl. lia.
    + apply SortVectorsDecreasing_asc.
    + intros e He. rewrite Hperm in He. apply elem_of_cons in He. destruct He as [-> | He].
      * right. simpl. split; [reflexivity|]. apply elem_of_app. right. left.
      * destruct (Hfin e) as [H | [H1 H2]]; [apply elem_of_app; left; exact He | left; exact H |].
        right. split; [exact H1|]. apply elem_of_app. left. exact H2.
    + rewrite Hfi. constructor; [|exact Hnd']. intros Hin. apply Hj, Hsub, Hin.
    + intros j' Hj' Hnot e He. rewrite Hfi in Hnot. rewrite Hperm in He.
      apply not_elem_of_cons in Hnot. destruct Hnot as [Hne Hnot].
      apply elem_of_app in Hj'. destruct Hj' as [Hj' | Hj'];
        [|apply list_elem_of_singleton in Hj'; congruence].
      assert (Hmj : dbl_le m.1 (Fin (f j'))).
      { destruct (decide (j' ∈ fin_idx [m])) as [Hin | Hnin].
        - apply elem_of_fin_idx in Hin. destruct Hin as (d & Hin).
          apply list_elem_of_singleton in Hin. subst m.
          destruct (Hfin (Fin d, j')) as [H | [H _]];
            [apply elem_of_app; right; left | discriminate | simpl in H |- *; rewrite H; apply dbl_le_refl].
        - apply Hout; [exact Hj' | | apply elem_of_app; right; left].
          unfold fin_idx. rewrite omap_app. intros Hin. apply elem_of_app in Hin.
          destruct Hin as [Hin | Hin]; [exact (Hnot Hin) | exact (Hnin Hin)]. }
      apply elem_of_cons in He. destruct He as [-> | He].
      * eapply dbl_le_trans; [apply dbl_ltb_le, E | exact Hmj].
      * eapply dbl_le_trans; [apply Hm, elem_of_app; left; exact He | exact Hmj].
  - constructor.
    + exact Hlen.
    + exact Hasc.
    + intros e He. destruct (Hfin e He) as [H | [H1 H2]]; [left; exact H|].
      right. split; [exact H1|]. apply elem_of_app. left. exact H2.
    + exact Hnd0.
    + intros j' Hj' Hnot e He. apply elem_of_app in Hj'. destruct Hj' as [Hj' | Hj'].
      * apply (Hout j' Hj' Hnot e He).
      * apply list_elem_of_singleton in Hj'. subst j'.
        eapply dbl_le_trans; [apply Hm, He | exact E].
Qed.

Lemma fold_heap_offer_inv (c1 c2 : list Z) (h : list (dbl * Z)) :
  NoDup (c1 ++ c2) → heap_inv c1 h →
  heap_inv (c1 ++ c2) (fold_left (fun h jj => heap_offer k h (f jj) jj) c2 h).
Proof.
  revert c1 h. induction c2 as [|j c2 IH]; intros c1 h Hnd Hinv.
  - rewrite app_nil_r. exact Hinv.
  - simpl. rewrite cons_middle, app_assoc in Hnd |- *.
    apply IH; [exact Hnd|]. apply heap_offer_inv; [exact Hinv|].
    apply NoDup_app in Hnd. destruct Hnd as (Hnd & _ & _).
    apply NoDup_app in Hnd. destruct Hnd as (_ & Hd & _).
    intros Hin. apply (Hd j Hin). left.
Qed.

(** Once at least [k] distinct candidates have been offered, the slots hold
    [k] of them and none of the others is closer than any of these. *)
Lemma heap_inv_final (c : list Z) (h : list (dbl * Z)) :
  heap_inv c h → NoDup c → (Z.to_nat k ≤ length c)%nat →
  length (map snd h) = Z.to_nat k ∧ NoDup (map snd h) ∧
  (∀ x, x ∈ map snd h → x ∈ c) ∧
  map fst h = map (fun x => Fin (f x)) (map snd h) ∧
  (∀ x y, x ∈ map snd h → y ∈ c → y ∉ map snd h → (f x <= f y)%Q).
Proof.
  intros [Hlen Hasc Hfin Hnd Hout] Hc Hk.
  assert (Hall : ∀ e, e ∈ h → e.1 ≠ Inf).
  { intros e He Hinf.
    assert (Hsub : ∀ j, j ∈ c → j ∈ fin_idx h).
    { intros j Hj. destruct (decide (j ∈ fin_idx h)) as [Hin | Hnin]; [exact Hin|].
      exfalso. apply (dbl_le_Inf_Fin (f j)). rewrite <- Hinf. apply (Hout j Hj Hnin e He). }
    pose proof (submseteq_length _ _ (NoDup_submseteq _ _ Hc Hsub)) as H1.
    pose proof (fin_idx_length h e He Hinf) as H2. lia. }
  pose proof (fin_idx_all_fin h Hall) as Heq.
  assert (Hval : ∀ e, e ∈ h → e.1 = Fin (f e.2) ∧ e.2 ∈ c).
  { intros e He. destruct (Hfin e He) as [H | H]; [destruct (Hall e He H) | exact H]. }
  rewrite Heq in Hnd.
  split; [rewrite length_map; exact Hlen|]. split; [exact Hnd|]. split; [|split].
  - intros x Hx. apply list_elem_of_fmap in Hx. destruct Hx as (e & -> & He). apply Hval, He.
  - clear -Hval. induction h as [|e h IH]; [reflexivity|].
    simpl. rewrite <- IH by (intros e' He'; apply Hval; right; exact He').
    f_equal. apply Hval. left.
  - intros x y Hx Hy Hny. apply list_elem_of_fmap in Hx. destruct Hx as (e & -> & He).
    apply dbl_le_Fin. rewrite <- (proj1 (Hval e He)).
    apply (Hout y Hy); [|exact He]. rewrite Heq. exact Hny.
Qed.

End HeapScan.

(** The brute-force scan over at least [k] distinct candidates. *)
Lemma brute_force_scan_spec (dist : Z → Z → Q) (i k : Z) (neighbors_i c : list Z) :
  1 ≤ k → length neighbors_i = Z.to_nat k → NoDup c → (Z.to_nat k ≤ length c)%nat →
  let h := brute_force_scan dist i k neighbors_i c in
  length (map snd h) = Z.to_nat k ∧ NoDup (map snd h) ∧
  (∀ x, x ∈ map snd h → x ∈ c) ∧
  map fst h = map (fun x => Fin (dist i x)) (map snd h) ∧
  (∀ x y, x ∈ map snd h → y ∈ c → y ∉ map snd h → (dist i x <= dist i y)%Q).
Proof.
  intros Hk Hlen Hnd Hc. apply (heap_inv_final (dist i) k Hk c); [|exact Hnd | exact Hc].
  unfold brute_force_scan.
  apply (fold_heap_offer_inv (dist i) k Hk [] c); [exact Hnd|].
  apply heap_inv_init; [exact Hk | exact Hlen].
Qed.

(** *** Order statistics of the candidate distances *)

Lemma insertQ_Permutation (x : Q) (l : list Q) : insertQ x l ≡ₚ x :: l.
Proof.
  induction l as [|y r IH]; simpl; [reflexivity|].
  destruct (Qle_bool x y); [reflexivity|]. rewrite IH. apply Permutation_swap.
Qed.

Lemma sortQ_Permutation (l : list Q) : sortQ l ≡ₚ l.
Proof.
  induction l as [|x l IH]; simpl; [reflexivity|].
  rewrite insertQ_Permutation, IH. reflexivity.
Qed.

Lemma insertQ_sorted (x : Q) (l : list Q) :
  StronglySorted Qle l → StronglySorted Qle (insertQ x l).
Proof.
  induction 1 as [|y r Hs IH Hall]; simpl; [repeat constructor|].
  destruct (Qle_bool x y) eqn:E.
  - apply Qle_bool_iff in E. constructor; [constructor; assumption|].
    constructor; [exact E|]. eapply Forall_impl; [exact Hall|].
    intros z Hz. simpl in Hz. eapply Qle_trans; eassumption.
  - constructor; [exact IH|]. rewrite insertQ_Permutation. constructor; [|exact Hall].
    destruct (Qlt_le_dec y x) as [H | H]; [apply Qlt_le_weak, H|].
    apply Qle_bool_iff in H. congruence.
Qed.

Lemma sortQ_sorted (l : list Q) : StronglySorted Qle (sortQ l).
Proof. induction l as [|x l IH]; simpl; [constructor | apply insertQ_sorted, IH]. Qed.

Lemma length_filter_Permutation {A : Type} (f : A → bool) (l l' : list A) :
  l ≡ₚ l' → length (List.filter f l) = length (List.filter f l').
Proof.
  induction 1 as [|x l l' _ IH|x y l|l l' l'' _ IH1 _ IH2]; simpl.
  - reflexivity.
  - destruct (f x); simpl; lia.
  - destruct (f x), (f y); reflexivity.
  - lia.
Qed.

Lemma length_filter_map {A B : Type} (f : B → bool) (g : A → B) (l : list A) :
  length (List.filter f (map g l)) = length (List.filter (fun x => f (g x)) l).
Proof. induction l as [|x l IH]; simpl; [reflexivity|]. destruct (f (g x)); simpl; lia. Qed.

Lemma length_filter_all {A : Type} (f : A → bool) (l : list A) :
  (∀ x, x ∈ l → f x = true) → List.filter f l = l.
Proof.
  induction l as [|x l IH]; intros H; simpl; [reflexivity|].
  rewrite (H x) by left. f_equal. apply IH. intros y Hy. apply H. right. exact Hy.
Qed.

Lemma length_filter_filter {A : Type} (f g1 g2 : A → bool) (l : list A) :
  (∀ x, x ∈ l → f x = true → g1 x = true ∧ g2 x = true) →
  (length (List.filter f l) ≤ length (List.filter g1 (List.filter g2 l)))%nat.
Proof.
  induction l as [|x l IH]; intros H; simpl; [lia|].
  assert (IH' : (length (List.filter f l) ≤ length (List.filter g1 (List.filter g2 l)))%nat).
  { apply IH. intros y Hy. apply H. right. exact Hy. }
  destruct (f x) eqn:E.
  - destruct (H x ltac:(left) E) as [E1 E2]. rewrite E2. simpl. rewrite E1. simpl. lia.
  - destruct (g2 x); simpl; [destruct (g1 x); simpl; lia | lia].
Qed.

(** At least [k] of the distances are not above the [k]-th smallest one. *)
Lemma kth_smallest_count (k : Z) (l : list Q) :
  1 ≤ k ≤ Z.of_nat (length l) →
  (Z.to_nat k ≤ length (List.filter (fun x => Qle_bool x (kth_smallest k l)) l))%nat.
Proof.
  intros Hk. unfold kth_smallest.
  rewrite <- (length_filter_Permutation _ _ _ (sortQ_Permutation l)).
  pose proof (sortQ_sorted l) as Hs.
  pose proof (Permutation_length (sortQ_Permutation l)) as Hlen.
  revert Hs Hlen. generalize (sortQ l). intros s Hs Hlen.
  unfold znth. destruct (k - 1 <? 0) eqn:E; [apply Z.ltb_lt in E; lia|].
  assert (Hn : (Z.to_nat (k - 1) < length s)%nat) by lia.
  destruct (lookup_lt_is_Some_2 s _ Hn) as [v Hv].
  rewrite (nth_lookup_Some _ _ _ _ Hv).
  rewrite <- (take_drop (S (Z.to_nat (k - 1))) s) at 1.
  rewrite List.filter_app, length_app.
  rewrite length_filter_all.
  - rewrite length_take. lia.
  - intros x Hx. apply Qle_bool_iff.
    rewrite (take_S_r _ _ _ Hv) in Hx. apply elem_of_app in Hx. destruct Hx as [Hx | Hx].
    + rewrite <- (take_drop (Z.to_nat (k - 1)) s) in Hs.
      apply (StronglySorted_app_1_elem_of _ _ _ x v Hs Hx).
      rewrite (drop_S _ _ _ Hv). left.
    + apply list_elem_of_singleton in Hx. subst x. apply Qle_refl.
Qed.

Lemma max_element_ge (l : list Q) (x : Q) : x ∈ l → (x <= max_element l)%Q.
Proof.
  assert (H : ∀ r m, (m <= fold_left (fun m y => if Qltb m y then y else m) r m)%Q ∧
                     ∀ y, y ∈ r → (y <= fold_left (fun m y => if Qltb m y then y else m) r m)%Q).
  { induction r as [|z r IH]; intros m; simpl.
    - split; [apply Qle_refl|]. intros y Hy. inversion Hy.
    - destruct (IH (if Qltb m z then z else m)) as [H1 H2].
      assert (Hm : (m <= (if Qltb m z then z else m))%Q ∧ (z <= (if Qltb m z then z else m))%Q).
      { destruct (Qltb m z) eqn:E.
        - apply Qltb_true in E. split; [apply Qlt_le_weak, E | apply Qle_refl].
        - apply Qltb_false in E. split; [apply Qle_refl | exact E]. }
      split; [eapply Qle_trans; [apply Hm | exact H1]|].
      intros y Hy. apply elem_of_cons in Hy. destruct Hy as [-> | Hy].
      + eapply Qle_trans; [apply Hm | exact H1].
      + apply H2, Hy. }
  destruct l as [|y r]; intros Hx; [inversion Hx|].
  simpl. apply elem_of_cons in Hx.
  destruct Hx as [-> | Hx]; [exact (proj1 (H r y)) | exact (proj2 (H r y) x Hx)].
Qed.

(** *** Candidates that can no longer be among the [k] nearest *)

(** [k] members of the candidate list are strictly closer than [D]. *)
Definition dominated (k : Z) (D : Q) (Qc : list (Z * Q)) : Prop :=
  (Z.to_nat k ≤ length (List.filter (fun p : Z * Q => Qltb p.2 D) Qc))%nat.

Lemma dominated_app (k : Z) (D : Q) (Qc new : list (Z * Q)) :
  dominated k D Qc → dominated k D (Qc ++ new).
Proof. unfold dominated. rewrite List.filter_app, length_app. lia. Qed.

Lemma dominated_length (k : Z) (D : Q) (Qc : list (Z * Q)) :
  dominated k D Qc → (Z.to_nat k ≤ length Qc)%nat.
Proof. unfold dominated. pose proof (length_List_filter_le (fun p : Z * Q => Qltb p.2 D) Qc). lia. Qed.

(** Removing the candidates beyond a threshold that is not below the [k]-th
    smallest distance keeps what is dominated dominated, and dominates every
    distance above the [k]-th smallest. *)
Lemma prune_dominated (k : Z) (D T : Q) (Qn : list (Z * Q)) :
  1 ≤ k →
  (Z.to_nat k ≤ length Qn)%nat →
  (kth_smallest k (map snd Qn) <= T)%Q →
  dominated k D Qn ∨ (kth_smallest k (map snd Qn) < D)%Q →
  dominated k D (List.filter (fun p : Z * Q => Qle_bool p.2 T) Qn).
Proof.
  intros Hk Hlen HT Hd. unfold dominated.
  set (v := kth_smallest k (map snd Qn)) in *.
  destruct (Qlt_le_dec v D) as [HvD | HDv].
  - pose proof (kth_smallest_count k (map snd Qn)) as Hc. fold v in Hc.
    rewrite length_map, length_filter_map in Hc.
    etransitivity; [apply Hc; lia|].
    apply length_filter_filter. intros p _ Hp. apply Qle_bool_iff in Hp. split.
    + apply Qltb_true. eapply Qle_lt_trans; eassumption.
    + apply Qle_bool_iff. eapply Qle_trans; eassumption.
  - destruct Hd as [Hd | Hd]; [|exfalso; exact (Qlt_not_le _ _ Hd HDv)].
    etransitivity; [exact Hd|].
    apply length_filter_filter. intros p _ Hp. split; [exact Hp|].
    apply Qltb_true in Hp. apply Qle_bool_iff.
    apply Qlt_le_weak. eapply Qlt_le_trans; [exact Hp|]. eapply Qle_trans; eassumption.
Qed.

(** *** The radii *)

Lemma radius_pos (base : Q) (n : Z) : (1 <= base)%Q → 0 ≤ n → (0 < 1 / base ^ n)%Q.
Proof.
  intros Hb Hn. apply Qlt_shift_div_l.
  - apply Qpower_0_lt. eapply Qlt_le_trans; [|exact Hb]. reflexivity.
  - rewrite Qmult_0_l. reflexivity.
Qed.

Lemma radius_decreasing (base : Q) (n : Z) :
  (1 <= base)%Q → 0 ≤ n → (1 / base ^ (n + 1) <= 1 / base ^ n)%Q.
Proof.
  intros Hb Hn.
  assert (Hb0 : (0 < base)%Q) by (eapply Qlt_le_trans; [|exact Hb]; reflexivity).
  assert (Hp : (0 < base ^ n)%Q) by (apply Qpower_0_lt, Hb0).
  assert (Hp1 : (0 < base ^ (n + 1))%Q) by (apply Qpower_0_lt, Hb0).
  assert (Hle : (base ^ n <= base ^ (n + 1))%Q) by (apply Qpower_le_compat_l; [lia | exact Hb]).
  apply Qle_shift_div_r; [exact Hp1|].
  setoid_replace (1 / base ^ n * base ^ (n + 1))%Q with (base ^ (n + 1) / base ^ n)%Q
    using relation Qeq by (field; intros H; rewrite H in Hp; discriminate).
  apply Qle_shift_div_l; [exact Hp|]. rewrite Qmult_1_l. exact Hle.
Qed.

(** ** The shape of the cover tree *)

(** The children of a node: its entry without the node itself. *)
Definition children (ct : int_map) (p : Z) : list Z := tail (map_at ct p).

(** A path from the root along the child links. *)
Definition is_path (ct : int_map) (start : Z) (pth : list Z) : Prop :=
  pth !! 0%nat = Some start ∧
  ∀ (t : nat) (a b : Z), pth !! t = Some a → pth !! S t = Some b → b ∈ children ct a.

(** Every node of the path below the root has the point [x] within the
    radius of its level, or is [x]. *)
Definition within (dist : Z → Z → Q) (base : Q) (x : Z) (pth : list Z) : Prop :=
  ∀ (t : nat) (a : Z), pth !! t = Some a → (1 ≤ t)%nat →
    a = x ∨ (dist a x <= 1 / base ^ Z.of_nat t)%Q.

Lemma is_path_root (ct : int_map) (start : Z) : is_path ct start [start].
Proof. split; [reflexivity|]. intros t a b _ H. destruct t; discriminate. Qed.

Lemma is_path_mono (ct ct' : int_map) (start : Z) (pth : list Z) :
  (∀ a b, b ∈ children ct a → b ∈ children ct' a) →
  is_path ct start pth → is_path ct' start pth.
Proof. intros Hsub [H0 Hstep]. split; [exact H0|]. intros t a b Ha Hb. eapply Hsub, Hstep; eassumption. Qed.

Lemma is_path_snoc (ct : int_map) (start : Z) (pth : list Z) (p q : Z) :
  is_path ct start pth → last pth = Some p → q ∈ children ct p →
  is_path ct start (pth ++ [q]).
Proof.
  intros [H0 Hstep] Hlast Hq.
  assert (Hlen : (0 < length pth)%nat) by (apply lookup_lt_is_Some; eauto).
  split; [rewrite lookup_app_l by exact Hlen; exact H0|].
  intros t a b Ha Hb.
  apply lookup_snoc_Some in Hb. destruct Hb as [[Hlt Hb] | [Heq <-]].
  - rewrite lookup_app_l in Ha by lia. eapply Hstep; eassumption.
  - rewrite lookup_app_l in Ha by lia.
    rewrite last_lookup in Hlast. replace (pred (length pth)) with t in Hlast by lia.
    congruence.
Qed.

Lemma is_path_prefix (ct : int_map) (start : Z) (pth : list Z) (q : Z) :
  pth ≠ [] → is_path ct start (pth ++ [q]) → is_path ct start pth.
Proof.
  intros Hne [H0 Hstep].
  assert (Hlen : (0 < length pth)%nat) by (destruct pth; [congruence | simpl; lia]).
  split; [rewrite lookup_app_l in H0 by exact Hlen; exact H0|].
  intros t a b Ha Hb. apply (Hstep t).
  - rewrite lookup_app_l; [exact Ha|]. apply lookup_lt_is_Some; eauto.
  - rewrite lookup_app_l; [exact Hb|]. apply lookup_lt_is_Some; eauto.
Qed.

Lemma within_snoc (dist : Z → Z → Q) (base : Q) (x q : Z) (pth : list Z) :
  within dist base x pth →
  q = x ∨ (dist q x <= 1 / base ^ Z.of_nat (length pth))%Q →
  within dist base x (pth ++ [q]).
Proof.
  intros Hw Hq t a Ha Ht.
  apply lookup_snoc_Some in Ha. destruct Ha as [[Hlt Ha] | [Heq Ha]].
  - apply (Hw t a Ha Ht).
  - subst t a. exact Hq.
Qed.

Lemma children_lookup (ct : int_map) (p x : Z) :
  x ∈ children ct p → ∃ l, ct !! p = Some l ∧ x ∈ tail l.
Proof.
  unfold children, map_at. destruct (ct !! p) as [l|]; simpl; [eauto|].
  intros H. inversion H.
Qed.

Lemma children_of_lookup (ct : int_map) (p : Z) (l : list Z) :
  ct !! p = Some l → children ct p = tail l.
Proof. intros H. unfold children, map_at. rewrite H. reflexivity. Qed.

Section CoverTreePaths.

Variable dist : Z → Z → Q.
Variables (start rows : Z) (base : Q).
Hypothesis start_nonneg : 0 ≤ start.

(** The state at the head of the loop after [level] levels: the entries
    have the node first and then its children in increasing order, a node is
    the child of one parent, and every node is reached from the root by a path
    on which it, and the points still waiting below it, are within the radii. *)
Record path_inv (level : Z) (ct cpo : int_map) : Prop := mkPathInv {
  pi_level : 0 ≤ level;
  pi_shape : ∀ key l, ct !! key = Some l → key ≠ -1 →
    ∃ cs, l = key :: cs ∧ StronglySorted Z.lt (key :: cs) ∧
          ∀ c, c ∈ cs → is_Some (ct !! c) ∨ is_Some (cpo !! (c - start));
  pi_parent : ∀ p p' x, x ∈ children ct p → x ∈ children ct p' → p = p';
  pi_placed : ∀ x, is_Some (ct !! x) → x ≠ -1 →
    ∃ pth, is_path ct start pth ∧ last pth = Some x ∧
           Z.of_nat (length pth) ≤ level ∧ within dist base x pth;
  pi_front : ∀ p, is_Some (cpo !! p) →
    ∃ pth, is_path ct start pth ∧ last pth = Some (p + start) ∧
           Z.of_nat (length pth) = level + 1 ∧
           ∀ x, x = p ∨ x ∈ map_at cpo p → within dist base (x + start) pth
}.

Lemma path_inv_init : path_inv 0 {[ -1 := [start] ]} {[ 0 := range 1 rows ]}.
Proof.
  assert (Hch : ∀ p x, x ∈ children ({[ -1 := [start] ]} : int_map) p → False).
  { intros p x Hx. apply children_lookup in Hx. destruct Hx as (l & Hl & Hx).
    apply lookup_singleton_Some in Hl. destruct Hl as [_ <-]. inversion Hx. }
  constructor.
  - lia.
  - intros key l Hl Hne. apply lookup_singleton_Some in Hl. destruct Hl as [<- _]. congruence.
  - intros p p' x Hx. destruct (Hch p x Hx).
  - intros x [l Hl] Hne. apply lookup_singleton_Some in Hl. destruct Hl as [<- _]. congruence.
  - intros p [l Hl]. apply lookup_singleton_Some in Hl. destruct Hl as [<- _].
    exists [start]. split; [apply is_path_root|]. split; [simpl; f_equal; lia|].
    split; [reflexivity|]. intros x _ t a Ha Ht. destruct t; [lia | discriminate].
Qed.

Section Level.

Variables (level : Z) (ct cpo : int_map).
Hypothesis Hinv : tree_inv start rows ct cpo.
Hypothesis Hpi : path_inv level ct cpo.

Let R : Q := (1 / base ^ (level + 1))%Q.
Let ct' : int_map := level_ct dist start R cpo (keys_in_order cpo) ct.
Let cpo' : int_map := level_cp dist start R cpo (keys_in_order cpo) ∅.

Lemma level_ct_lookup_inv (key : Z) (l : list Z) :
  ct' !! key = Some l →
  ct !! key = Some l ∨
  ∃ p, is_Some (cpo !! p) ∧ key = p + start ∧
       l = (p + start) :: map (fun q => q + start) (split_of dist start R cpo p).*1.
Proof.
  intros Hl. destruct (cpo !! (key - start)) as [C|] eqn:E.
  - right. exists (key - start). assert (Hp : is_Some (cpo !! (key - start))) by eauto.
    split; [exact Hp|]. split; [lia|].
    pose proof (level_ct_lookup_parent dist start R ct cpo (key - start) Hp) as H.
    replace (key - start + start) with key in H by lia.
    unfold ct' in Hl. rewrite H in Hl. injection Hl as <-.
    replace (key - start + start) with key by lia. reflexivity.
  - left. rewrite <- Hl. symmetry. apply level_ct_lookup_other.
    intros p [C Hp] ->. replace (p + start - start) with p in E by lia. congruence.
Qed.

Lemma children_level_mono (a b : Z) : b ∈ children ct a → b ∈ children ct' a.
Proof.
  intros Hb. apply children_lookup in Hb. destruct Hb as (l & Hl & Hb).
  rewrite (children_of_lookup ct' a l); [exact Hb|].
  apply (level_ct_preserved dist start rows R ct cpo Hinv), Hl.
Qed.

Lemma children_level_inv (a b : Z) :
  b ∈ children ct' a →
  b ∈ children ct a ∨
  ∃ p q C, a = p + start ∧ b = q + start ∧ (q, C) ∈ split_of dist start R cpo p.
Proof.
  intros Hb. apply children_lookup in Hb. destruct Hb as (l & Hl & Hb).
  apply level_ct_lookup_inv in Hl. destruct Hl as [Hl | (p & Hp & -> & ->)].
  - left. rewrite (children_of_lookup ct a l Hl). exact Hb.
  - right. simpl in Hb. apply list_elem_of_fmap in Hb. destruct Hb as (q & -> & Hq).
    apply list_elem_of_fmap in Hq. destruct Hq as ([q' C] & -> & Hq).
    exists p, q', C. simpl. tauto.
Qed.

Lemma children_sample (p q : Z) (C : list Z) :
  (q, C) ∈ split_of dist start R cpo p → q + start ∈ children ct' (p + start).
Proof.
  intros Hq.
  assert (Hp : is_Some (cpo !! p)).
  { apply (sample_in_pending dist start rows R ct cpo Hinv), elem_of_map_at in Hq.
    destruct Hq as (l & Hl & _). eauto. }
  rewrite (children_of_lookup ct' (p + start) _ (level_ct_lookup_parent dist start R ct cpo p Hp)).
  simpl. apply list_elem_of_fmap. exists q. split; [reflexivity|].
  apply list_elem_of_fmap. exists (q, C). split; [reflexivity | exact Hq].
Qed.

Lemma path_inv_step : path_inv (level + 1) ct' cpo'.
Proof.
  destruct Hpi as [Hlevel Hshape Hparent Hplaced Hfront].
  assert (Hold : ∀ p x, x ∈ children ct p →
            is_Some (ct !! x) ∨ is_Some (cpo !! (x - start))).
  { intros p x Hx. apply children_lookup in Hx. destruct Hx as (l & Hl & Hx).
    destruct (decide (p = -1)) as [-> | Hne].
    - rewrite (inv_root _ _ _ _ Hinv) in Hl. injection Hl as <-. inversion Hx.
    - destruct (Hshape p l Hl Hne) as (cs & -> & _ & Hcs). apply Hcs, Hx. }
  assert (Hnew : ∀ p q C, (q, C) ∈ split_of dist start R cpo p →
            ct !! (q + start) = None ∧ cpo !! q = None).
  { intros p q C Hq. apply (sample_in_pending dist start rows R ct cpo Hinv) in Hq.
    apply (inv_pend _ _ _ _ Hinv) in Hq. tauto. }
  constructor.
  - lia.
  - intros key l Hl Hne. apply level_ct_lookup_inv in Hl. destruct Hl as [Hl | (p & Hp & -> & ->)].
    + destruct (Hshape key l Hl Hne) as (cs & -> & Hs & Hcs).
      exists cs. split; [reflexivity|]. split; [exact Hs|].
      intros c Hc. left. destruct (Hcs c Hc) as [[l' Hl'] | Hf].
      * unfold ct'. rewrite (level_ct_preserved dist start rows R ct cpo Hinv c l' Hl'). eauto.
      * pose proof (level_ct_lookup_parent dist start R ct cpo (c - start) Hf) as H.
        replace (c - start + start) with c in H by lia. unfold ct'. rewrite H. eauto.
    + destruct (split_of_props dist start rows R ct cpo Hinv p) as (P1 & P2 & _).
      exists (map (fun q => q + start) (split_of dist start R cpo p).*1).
      split; [reflexivity|]. split.
      * constructor.
        { apply (StronglySorted_fmap (fun q => q + start) Z.lt Z.lt); [intros; lia | exact P1]. }
        apply Forall_forall. intros c Hc. apply list_elem_of_fmap in Hc.
        destruct Hc as (q & -> & Hq). apply list_elem_of_fmap in Hq.
        destruct Hq as ([q' C] & -> & Hq). simpl.
        apply P2 in Hq. destruct Hq as (Hq & _). apply (inv_pend _ _ _ _ Hinv) in Hq. lia.
      * intros c Hc. right. apply list_elem_of_fmap in Hc.
        destruct Hc as (q & -> & Hq). apply list_elem_of_fmap in Hq.
        destruct Hq as ([q' C] & -> & Hq). simpl.
        replace (q' + start - start) with q' by lia. exists C.
        apply (level_cp_lookup dist start rows R ct cpo Hinv). eauto.
  - intros p1 p2 x H1 H2.
    apply children_level_inv in H1, H2.
    destruct H1 as [H1 | (q1 & s1 & C1 & -> & -> & H1)],
             H2 as [H2 | (q2 & s2 & C2 & E2 & E2' & H2)].
    + exact (Hparent p1 p2 x H1 H2).
    + exfalso. subst x p2. destruct (Hnew _ _ _ H2) as [N1 N2].
      destruct (Hold _ _ H1) as [[l Hl] | [l Hl]]; [congruence|].
      replace (s2 + start - start) with s2 in Hl by lia. congruence.
    + exfalso. destruct (Hnew _ _ _ H1) as [N1 N2].
      destruct (Hold _ _ H2) as [[l Hl] | [l Hl]]; [congruence|].
      replace (s1 + start - start) with s1 in Hl by lia. congruence.
    + assert (s1 = s2) by lia. subst s2 p2.
      apply (sample_in_pending dist start rows R ct cpo Hinv) in H1, H2.
      f_equal. exact (inv_disj _ _ _ _ Hinv q1 q2 s1 H1 H2).
  - intros x [l Hl] Hne. apply level_ct_lookup_inv in Hl. destruct Hl as [Hl | (p & Hp & -> & _)].
    + destruct (Hplaced x ltac:(eauto) Hne) as (pth & Hpath & Hlast & Hlen & Hw).
      exists pth. split; [eapply is_path_mono; [apply children_level_mono | exact Hpath]|].
      split; [exact Hlast|]. split; [lia | exact Hw].
    + destruct (Hfront p Hp) as (pth & Hpath & Hlast & Hlen & Hw).
      exists pth. split; [eapply is_path_mono; [apply children_level_mono | exact Hpath]|].
      split; [exact Hlast|]. split; [lia|]. apply Hw. left. reflexivity.
  - intros q [C HC]. pose proof HC as HC'.
    apply (level_cp_lookup dist start rows R ct cpo Hinv) in HC. destruct HC as (p & HC).
    destruct (split_of_props dist start rows R ct cpo Hinv p) as (_ & P2 & _).
    destruct (P2 q C HC) as (Hq & _ & HCx).
    assert (Hp : is_Some (cpo !! p)).
    { apply elem_of_map_at in Hq. destruct Hq as (l & Hl & _). eauto. }
    destruct (Hfront p Hp) as (pth & Hpath & Hlast & Hlen & Hw).
    exists (pth ++ [q + start]).
    split; [|split; [apply last_snoc|split]].
    + eapply is_path_snoc; [|exact Hlast|].
      * eapply is_path_mono; [apply children_level_mono | exact Hpath].
      * eapply children_sample, HC.
    + rewrite length_app. simpl. lia.
    + intros x Hx. apply within_snoc.
      * apply Hw. right. destruct Hx as [-> | Hx]; [exact Hq|].
        unfold map_at in Hx. fold cpo' in HC'. rewrite HC' in Hx. simpl in Hx.
        apply HCx in Hx. tauto.
      * destruct Hx as [-> | Hx]; [left; reflexivity|]. right.
        unfold map_at in Hx. fold cpo' in HC'. rewrite HC' in Hx. simpl in Hx.
        apply HCx in Hx. destruct Hx as (_ & _ & Hc & _).
        unfold covers in Hc. apply Qle_bool_iff in Hc.
        replace (Z.of_nat (length pth)) with (level + 1) by lia. exact Hc.
Qed.

End Level.

Lemma CoverTree_levels_paths (n : nat) (ct cpo : int_map) (level : Z)
    (cover_tree : int_map) (levels : Z) :
  tree_inv start rows ct cpo → path_inv level ct cpo →
  CoverTree_levels dist n rows base start ct cpo level = CT_built cover_tree levels →
  ∃ cpo', tree_inv start rows cover_tree cpo' ∧ path_inv levels cover_tree cpo' ∧
          Z.of_nat (size cover_tree) - 1 = rows.
Proof.
  revert ct cpo level. induction n as [|n IH]; intros ct cpo level Hinv Hpi Hrun.
  - simpl in Hrun. destruct (Z.of_nat (size ct) - 1 =? rows) eqn:E; [|discriminate].
    injection Hrun as <- <-. apply Z.eqb_eq in E. eauto.
  - cbn [CoverTree_levels] in Hrun.
    destruct (Z.of_nat (size ct) - 1 =? rows) eqn:E.
    + injection Hrun as <- <-. apply Z.eqb_eq in E. eauto.
    + cbv zeta in Hrun. rewrite (cover_level_spec dist start rows _ ct cpo Hinv) in Hrun.
      eapply IH; [| |exact Hrun].
      * apply tree_inv_step, Hinv.
      * apply path_inv_step; assumption.
Qed.

(** What a query uses of the tree that [CoverTree_kNN] returns. *)
Record cover_tree_wf (cover_tree : int_map) (levels : Z) : Prop := mkCoverTreeWf {
  wf_rows : 1 ≤ rows;
  wf_root : cover_tree !! (-1) = Some [start];
  wf_shape : ∀ key, start ≤ key < start + rows →
    ∃ cs, cover_tree !! key = Some (key :: cs) ∧ StronglySorted Z.lt (key :: cs) ∧
          ∀ c, c ∈ cs → start ≤ c < start + rows;
  wf_children : ∀ p x, x ∈ children cover_tree p → start ≤ p < start + rows;
  wf_parent : ∀ p p' x, x ∈ children cover_tree p → x ∈ children cover_tree p' → p = p';
  wf_path : ∀ x, start ≤ x < start + rows →
    ∃ pth, is_path cover_tree start pth ∧ last pth = Some x ∧
           Z.of_nat (length pth) ≤ levels ∧ within dist base x pth
}.

Lemma CoverTree_kNN_wf (fuel : nat) (cover_tree : int_map) (levels : Z) :
  CoverTree_kNN dist fuel rows base start = CT_built cover_tree levels →
  cover_tree_wf cover_tree levels.
Proof.
  unfold CoverTree_kNN. destruct (rows <=? 0) eqn:E; [discriminate|].
  apply Z.leb_gt in E. intros Hrun.
  destruct (CoverTree_levels_paths fuel _ _ 0 cover_tree levels
              (tree_inv_init dist start rows start_nonneg ltac:(lia)) path_inv_init Hrun)
    as (cpo & Hinv & Hpi & Hsize).
  pose proof (proj1 (tree_complete_iff dist start rows start_nonneg cover_tree cpo ltac:(lia) Hinv) Hsize)
    as Hkeys.
  destruct Hpi as [Hlevel Hshape Hparent Hplaced Hfront].
  assert (Hseg : ∀ p x, x ∈ children cover_tree p → start ≤ p < start + rows).
  { intros p x Hx. apply children_lookup in Hx. destruct Hx as (l & Hl & Hx).
    destruct (proj1 (Hkeys p) ltac:(eauto)) as [-> | Hp]; [|exact Hp].
    rewrite (inv_root _ _ _ _ Hinv) in Hl. injection Hl as <-. inversion Hx. }
  constructor.
  - lia.
  - apply (inv_root _ _ _ _ Hinv).
  - intros key Hkey. destruct (proj2 (Hkeys key) ltac:(right; exact Hkey)) as [l Hl].
    destruct (Hshape key l Hl ltac:(lia)) as (cs & -> & Hs & Hcs).
    exists cs. split; [exact Hl|]. split; [exact Hs|].
    intros c Hc.
    assert (Hlt : key < c).
    { apply StronglySorted_inv in Hs. destruct Hs as [_ Hall].
      rewrite Forall_forall in Hall. apply Hall, Hc. }
    destruct (Hcs c Hc) as [Hin | Hf].
    + apply Hkeys in Hin. lia.
    + apply (inv_front _ _ _ _ Hinv) in Hf. lia.
  - exact Hseg.
  - exact Hparent.
  - intros x Hx. apply Hplaced; [|lia]. apply Hkeys. right. exact Hx.
Qed.

End CoverTreePaths.

(** ** The query on a tree of [CoverTree_kNN] *)

Lemma NoDup_List_filter {A : Type} (f : A → bool) (l : list A) :
  NoDup l → NoDup (List.filter f l).
Proof.
  induction 1 as [|x l Hx Hnd IH]; simpl; [constructor|].
  destruct (f x); [|exact IH]. constructor; [|exact IH].
  intros Hin. apply elem_of_List_filter in Hin. tauto.
Qed.

Lemma NoDup_fst_List_filter {A B : Type} (f : A * B → bool) (l : list (A * B)) :
  NoDup l.*1 → NoDup (List.filter f l).*1.
Proof.
  induction l as [|x l IH]; simpl; intros Hnd; [constructor|].
  apply NoDup_cons in Hnd. destruct Hnd as [Hx Hnd].
  destruct (f x); [|apply IH, Hnd]. simpl. constructor; [|apply IH, Hnd].
  intros Hin. apply Hx. apply list_elem_of_fmap in Hin. destruct Hin as (y & -> & Hy).
  apply elem_of_List_filter in Hy. apply list_elem_of_fmap. exists y. tauto.
Qed.

Lemma filter_pairs (f : Z → Q) (g : Z * Q → bool) (l : list Z) :
  map fst (List.filter g (map (fun jj => (jj, f jj)) l)) =
  List.filter (fun jj => g (jj, f jj)) l.
Proof.
  induction l as [|x l IH]; simpl; [reflexivity|].
  destruct (g (x, f x)); simpl; rewrite IH; reflexivity.
Qed.

(** On an entry of the tree, the scan of the children below [i] is a filter. *)
Lemma children_below_filter (i j : Z) (cs : list Z) :
  StronglySorted Z.lt (j :: cs) →
  children_below i j cs = List.filter (fun c => c <? i) cs.
Proof.
  induction cs as [|c r IH]; intros Hs; [reflexivity|].
  apply StronglySorted_inv in Hs. destruct Hs as [Hs Hall].
  apply Forall_cons in Hall. destruct Hall as [Hc Hr].
  apply StronglySorted_inv in Hs. destruct Hs as [Hs' Hall'].
  simpl. destruct (c <? i) eqn:E.
  - destruct (c =? j) eqn:E'; [apply Z.eqb_eq in E'; lia|].
    f_equal. apply IH. constructor; assumption.
  - symmetry. apply Z.ltb_ge in E. clear -Hall' E.
    induction r as [|y r IH]; [reflexivity|].
    apply Forall_cons in Hall'. destruct Hall' as [Hy Hr].
    simpl. destruct (y <? i) eqn:E'; [apply Z.ltb_lt in E'; lia|]. apply IH, Hr.
Qed.

Lemma fold_left_znth {A B : Type} (F : A → B → A) (d : B) (l : list B) (a : A) :
  fold_left (fun h jj => F h (znth d l jj)) (range 0 (Z.of_nat (length l))) a = fold_left F l a.
Proof.
  revert a. induction l as [|x l IH] using rev_ind; intros a; [reflexivity|].
  rewrite length_app. simpl length.
  replace (Z.of_nat (length l + 1)) with (Z.of_nat (length l) + 1) by lia.
  rewrite range_snoc by lia. rewrite !fold_left_app. simpl.
  rewrite (znth_snoc d l x _ eq_refl). f_equal.
  rewrite <- IH. clear IH.
  assert (H : ∀ js a, (∀ jj, jj ∈ js → 0 ≤ jj < Z.of_nat (length l)) →
            fold_left (fun h jj => F h (znth d (l ++ [x]) jj)) js a =
            fold_left (fun h jj => F h (znth d l jj)) js a).
  { induction js as [|jj js IHjs]; intros a' Hjs; [reflexivity|].
    simpl. rewrite IHjs by (intros; apply Hjs; right; assumption).
    do 2 f_equal. unfold znth. specialize (Hjs jj ltac:(left)).
    destruct (jj <? 0); [reflexivity|]. apply app_nth1. lia. }
  apply H. intros jj Hjj. apply elem_of_range in Hjj. lia.
Qed.

Lemma fold_left_pairs (f : Z → Q) (k : Z) (Qc : list (Z * Q)) (h0 : list (dbl * Z)) :
  (∀ j d, (j, d) ∈ Qc → d = f j) →
  fold_left (fun h (p : Z * Q) => heap_offer k h p.2 p.1) Qc h0 =
  fold_left (fun h jj => heap_offer k h (f jj) jj) Qc.*1 h0.
Proof.
  revert h0. induction Qc as [|[j d] Qc IH]; intros h0 Hval; [reflexivity|].
  simpl. rewrite (Hval j d ltac:(left)). apply IH. intros j' d' H. apply Hval. right. exact H.
Qed.

(** The list [N] holds [k] distinct candidates, and no candidate outside of
    it is strictly closer than one inside. *)
Definition is_kNN (f : Z → Q) (k : Z) (cand N : list Z) : Prop :=
  length N = Z.to_nat k ∧ NoDup N ∧ (∀ x, x ∈ N → x ∈ cand) ∧
  ∀ x y, x ∈ N → y ∈ cand → y ∉ N → (f x <= f y)%Q.

Lemma brute_force_scan_kNN (dist : Z → Z → Q) (i k : Z) (neighbors_i c : list Z) :
  1 ≤ k → length neighbors_i = Z.to_nat k → NoDup c → (Z.to_nat k ≤ length c)%nat →
  is_kNN (dist i) k c (map snd (brute_force_scan dist i k neighbors_i c)).
Proof.
  intros Hk Hlen Hnd Hc.
  destruct (brute_force_scan_spec dist i k neighbors_i c Hk Hlen Hnd Hc) as (H1 & H2 & H3 & _ & H5).
  repeat split; assumption.
Qed.

(** A point with [k] candidates strictly closer is not closer than any of the
    [k] nearest candidates. *)
Lemma kNN_dominated (f : Z → Q) (k : Z) (c N : list Z) (y : Z) :
  NoDup c → is_kNN f k c N →
  dominated k (f y) (map (fun jj => (jj, f jj)) c) →
  ∀ x, x ∈ N → (f x <= f y)%Q.
Proof.
  intros Hc (Hlen & Hnd & Hsub & Hnear) Hdom x Hx.
  destruct (Qlt_le_dec (f y) (f x)) as [Hlt | Hle]; [|exact Hle]. exfalso.
  unfold dominated in Hdom. rewrite length_filter_map in Hdom. simpl in Hdom.
  set (Dl := List.filter (fun jj => Qltb (f jj) (f y)) c) in *.
  assert (HD : ∀ q, q ∈ Dl → q ∈ c ∧ (f q < f y)%Q).
  { intros q Hq. apply elem_of_List_filter in Hq. rewrite Qltb_true in Hq. exact Hq. }
  assert (Hin : ∀ q, q ∈ x :: Dl → q ∈ N).
  { intros q Hq. apply elem_of_cons in Hq. destruct Hq as [-> | Hq]; [exact Hx|].
    destruct (HD q Hq) as [Hqc Hqy].
    destruct (decide (q ∈ N)) as [H | H]; [exact H|]. exfalso.
    pose proof (Hnear x q Hx Hqc H) as Hxq. Lqa.lra. }
  assert (Hnd' : NoDup (x :: Dl)).
  { constructor; [|apply NoDup_List_filter, Hc].
    intros Hx'. apply HD in Hx'. destruct Hx' as [_ Hx']. Lqa.lra. }
  pose proof (submseteq_length _ _ (NoDup_submseteq _ _ Hnd' Hin)) as H. simpl in H. lia.
Qed.

(** When the distances to the candidates are pairwise distinct, the [k]
    nearest candidates are determined. *)
Lemma kNN_unique (f : Z → Q) (k : Z) (c N B : list Z) :
  (∀ x y, x ∈ c → y ∈ c → (f x == f y)%Q → x = y) →
  is_kNN f k c N → is_kNN f k c B → N ≡ₚ B.
Proof.
  intros Hinj (HlenN & HndN & HsubN & HnearN) (HlenB & HndB & HsubB & HnearB).
  symmetry. apply submseteq_length_Permutation; [|lia].
  apply NoDup_submseteq; [exact HndB|].
  intros b Hb. destruct (decide (b ∈ N)) as [H | H]; [exact H|]. exfalso.
  assert (Hall : ∀ x, x ∈ N → x ∈ B).
  { intros x Hx. destruct (decide (x ∈ B)) as [HxB | HxB]; [exact HxB|]. exfalso.
    pose proof (HnearN x b Hx (HsubB b Hb) H) as H1.
    pose proof (HnearB b x Hb (HsubN x Hx) HxB) as H2.
    assert (x = b) by (apply Hinj; [apply HsubN, Hx | apply HsubB, Hb | Lqa.lra]).
    subst x. contradiction. }
  assert (Hin : ∀ q, q ∈ b :: N → q ∈ B).
  { intros q Hq. apply elem_of_cons in Hq. destruct Hq as [-> | Hq]; [exact Hb | apply Hall, Hq]. }
  assert (Hnd' : NoDup (b :: N)) by (constructor; assumption).
  pose proof (submseteq_length _ _ (NoDup_submseteq _ _ Hnd' Hin)) as Hl. simpl in Hl. lia.
Qed.

Section CoverTreeQuery.

Variable dist : Z → Z → Q.
Variables (start rows : Z) (base : Q).
Variables (cover_tree : int_map) (levels : Z).
Variables (i k : Z).
Hypothesis start_nonneg : 0 ≤ start.
Hypothesis Hwf : cover_tree_wf dist start rows base cover_tree levels.

Lemma child_gt (a x : Z) :
  x ∈ children cover_tree a →
  start ≤ a < start + rows ∧ a < x ∧ start ≤ x < start + rows.
Proof.
  intros Hx. pose proof (wf_children _ _ _ _ _ _ Hwf a x Hx) as Ha.
  destruct (wf_shape _ _ _ _ _ _ Hwf a Ha) as (cs & Hl & Hs & Hcs).
  rewrite (children_of_lookup _ _ _ Hl) in Hx. simpl in Hx.
  split; [exact Ha|]. split; [|apply Hcs, Hx].
  apply StronglySorted_inv in Hs. destruct Hs as [_ Hall].
  rewrite Forall_forall in Hall. apply Hall, Hx.
Qed.

Lemma children_below_spec (j : Z) :
  start ≤ j < start + rows → j < i →
  children_below i j (map_at cover_tree j) =
  List.filter (fun c => c <? i) (children cover_tree j).
Proof.
  intros Hj Hji. destruct (wf_shape _ _ _ _ _ _ Hwf j Hj) as (cs & Hl & Hs & _).
  rewrite (children_of_lookup _ _ _ Hl). unfold map_at. rewrite Hl. simpl.
  apply Z.ltb_lt in Hji. rewrite Hji, Z.eqb_refl.
  apply children_below_filter, Hs.
Qed.

Lemma NoDup_children (j : Z) : NoDup (children cover_tree j).
Proof.
  destruct (decide (start ≤ j < start + rows)) as [Hj | Hj].
  - destruct (wf_shape _ _ _ _ _ _ Hwf j Hj) as (cs & Hl & Hs & _).
    rewrite (children_of_lookup _ _ _ Hl). simpl.
    apply StronglySorted_inv in Hs. apply StronglySorted_lt_NoDup, Hs.
  - destruct (children cover_tree j) as [|x l] eqn:E; [constructor|].
    exfalso. apply Hj. apply (wf_children _ _ _ _ _ _ Hwf j x). rewrite E. left.
Qed.

(** *** Paths *)

Lemma path_lookup_lt (pth : list Z) :
  is_path cover_tree start pth →
  ∀ (t' t : nat) (a b : Z), (t < t')%nat → pth !! t = Some a → pth !! t' = Some b → a < b.
Proof.
  intros [H0 Hstep]. induction t' as [|t' IH]; intros t a b Hlt Ha Hb; [lia|].
  assert (Ht' : is_Some (pth !! t')).
  { apply lookup_lt_is_Some. apply lookup_lt_Some in Hb. lia. }
  destruct Ht' as [c Hc].
  pose proof (child_gt c b (Hstep t' c b Hc Hb)) as (_ & Hcb & _).
  destruct (decide (t = t')) as [-> | Hne].
  - congruence.
  - specialize (IH t a c ltac:(lia) Ha Hc). lia.
Qed.

Lemma path_node_range (pth : list Z) (t : nat) (a : Z) :
  is_path cover_tree start pth → pth !! t = Some a → start ≤ a < start + rows.
Proof.
  intros Hp Ha. destruct t as [|t].
  - destruct Hp as [H0 _]. pose proof (wf_rows _ _ _ _ _ _ Hwf). rewrite H0 in Ha. injection Ha as <-. lia.
  - assert (Ht : is_Some (pth !! t)).
    { apply lookup_lt_is_Some. apply lookup_lt_Some in Ha. lia. }
    destruct Ht as [c Hc]. destruct Hp as [_ Hstep].
    apply (child_gt c a (Hstep t c a Hc Ha)).
Qed.

Lemma path_last_lookup (pth : list Z) (x : Z) :
  last pth = Some x → pth !! pred (length pth) = Some x ∧ (0 < length pth)%nat.
Proof.
  intros Hl. rewrite last_lookup in Hl. split; [exact Hl|].
  destruct pth; [discriminate | simpl; lia].
Qed.

(** A node is reached by one path only. *)
Lemma path_length_unique (pth pth' : list Z) (x : Z) :
  is_path cover_tree start pth → last pth = Some x →
  is_path cover_tree start pth' → last pth' = Some x →
  length pth = length pth'.
Proof.
  revert pth' x. induction pth as [|y p0 IH] using rev_ind; intros pth' x Hp Hl Hp' Hl';
    [discriminate|].
  rewrite last_snoc in Hl. injection Hl as ->.
  apply last_Some in Hl'. destruct Hl' as (p0' & ->).
  rewrite !length_app. simpl. f_equal.
  assert (Hroot : ∀ q a, is_path cover_tree start (q ++ [x]) → last q = Some a →
            a < x ∧ start ≤ a ∧ x ∈ children cover_tree a).
  { intros q a Hq Ha. apply path_last_lookup in Ha. destruct Ha as [Ha Hlen].
    assert (Hx : (q ++ [x]) !! S (pred (length q)) = Some x).
    { replace (S (pred (length q))) with (length q) by lia. apply list_lookup_middle. reflexivity. }
    assert (Ha' : (q ++ [x]) !! pred (length q) = Some a).
    { rewrite lookup_app_l by lia. exact Ha. }
    pose proof (proj2 Hq _ _ _ Ha' Hx) as Hc. pose proof (child_gt a x Hc). tauto. }
  assert (Hhead : ∀ q, is_path cover_tree start (q ++ [x]) → q = [] → x = start).
  { intros q [H0 _] ->. simpl in H0. congruence. }
  destruct (last p0) as [a|] eqn:Ea, (last p0') as [a'|] eqn:Ea'.
  - destruct (Hroot p0 a Hp Ea) as (_ & _ & Hc).
    destruct (Hroot p0' a' Hp' Ea') as (_ & _ & Hc').
    assert (a = a') by (eapply (wf_parent _ _ _ _ _ _ Hwf); eassumption). subst a'.
    apply (IH p0' a).
    + eapply is_path_prefix; [|exact Hp]. intros ->. discriminate.
    + reflexivity.
    + eapply is_path_prefix; [|exact Hp']. intros ->. discriminate.
    + exact Ea'.
  - exfalso. apply last_None in Ea'. pose proof (Hhead p0' Hp' Ea').
    destruct (Hroot p0 a Hp Ea). lia.
  - exfalso. apply last_None in Ea. pose proof (Hhead p0 Hp Ea).
    destruct (Hroot p0' a' Hp' Ea'). lia.
  - apply last_None in Ea, Ea'. subst. reflexivity.
Qed.

(** The node [a] is at depth [d]. *)
Definition node_at (d : nat) (a : Z) : Prop :=
  ∃ pth, is_path cover_tree start pth ∧ last pth = Some a ∧ length pth = S d.

Lemma node_at_unique (d d' : nat) (a : Z) : node_at d a → node_at d' a → d = d'.
Proof.
  intros (p & Hp & Hl & Hlen) (p' & Hp' & Hl' & Hlen').
  pose proof (path_length_unique p p' a Hp Hl Hp' Hl'). lia.
Qed.

Lemma node_at_root : node_at 0 start.
Proof. exists [start]. split; [apply is_path_root|]. split; reflexivity. Qed.

Lemma node_at_child (d : nat) (a c : Z) :
  node_at d a → c ∈ children cover_tree a → node_at (S d) c.
Proof.
  intros (p & Hp & Hl & Hlen) Hc. exists (p ++ [c]).
  split; [eapply is_path_snoc; eassumption|]. split; [apply last_snoc|].
  rewrite length_app. simpl. lia.
Qed.

(** *** One level of the query *)

(** The nodes of the next level: the children below [i] of the nodes kept. *)
Definition expand_front (diff : list Z) : list Z :=
  flat_map (fun j => children_below i j (map_at cover_tree j)) diff.

Definition pair_dist (jj : Z) : Z * Q := (jj, dist i jj).

Lemma fst_pair_dist (l : list Z) : (map pair_dist l).*1 = l.
Proof. induction l as [|x l IH]; simpl; [reflexivity|]. f_equal. exact IH. Qed.

Lemma elem_of_expand_front (diff : list Z) (c : Z) :
  (∀ a, a ∈ diff → start ≤ a < start + rows ∧ a < i) →
  c ∈ expand_front diff ↔ ∃ a, a ∈ diff ∧ c ∈ children cover_tree a ∧ c < i.
Proof.
  intros Hd. unfold expand_front. rewrite list_elem_of_In, in_flat_map. split.
  - intros (a & Ha & Hc). apply list_elem_of_In in Ha, Hc.
    destruct (Hd a Ha) as [H1 H2]. rewrite (children_below_spec a H1 H2) in Hc.
    apply elem_of_List_filter in Hc. destruct Hc as [Hc Hlt]. apply Z.ltb_lt in Hlt. eauto.
  - intros (a & Ha & Hc & Hlt). exists a. split; [apply list_elem_of_In, Ha|].
    apply list_elem_of_In. destruct (Hd a Ha) as [H1 H2]. rewrite (children_below_spec a H1 H2).
    apply elem_of_List_filter. split; [exact Hc | apply Z.ltb_lt, Hlt].
Qed.

Lemma NoDup_expand_front (diff : list Z) :
  NoDup diff → (∀ a, a ∈ diff → start ≤ a < start + rows ∧ a < i) →
  NoDup (expand_front diff).
Proof.
  induction 1 as [|a l Ha Hnd IH]; intros Hd; [constructor|].
  unfold expand_front. simpl. fold (expand_front l).
  assert (Hd' : ∀ a', a' ∈ l → start ≤ a' < start + rows ∧ a' < i).
  { intros a' Ha'. apply Hd. right. exact Ha'. }
  destruct (Hd a ltac:(left)) as [H1 H2].
  apply NoDup_app. split; [|split; [|apply IH, Hd']].
  - rewrite (children_below_spec a H1 H2). apply NoDup_List_filter, NoDup_children.
  - intros c Hc Hc'. rewrite (children_below_spec a H1 H2) in Hc.
    apply elem_of_List_filter in Hc. destruct Hc as [Hc _].
    apply (elem_of_expand_front l c Hd') in Hc'. destruct Hc' as (a' & Ha' & Hc' & _).
    assert (a = a') by (eapply (wf_parent _ _ _ _ _ _ Hwf); eassumption).
    subst a'. contradiction.
Qed.

(** The state after the level [ii]: the candidates are nodes below [i] of
    depth at most [ii] with their distances, the nodes to expand are those of
    depth [ii] that were kept, and every point below [i] is among the
    candidates, or under a node to expand, or has [k] candidates strictly
    closer to [i]. *)
Record query_inv (ii : Z) (st : knn_state) : Prop := mkQueryInv {
  qi_size : Q_before_size st = Z.of_nat (length (Q_cand st));
  qi_val : ∀ j d, (j, d) ∈ Q_cand st →
    d = dist i j ∧ j < i ∧ ∃ dj, node_at dj j ∧ Z.of_nat dj ≤ ii;
  qi_nodup : NoDup (Q_cand st).*1;
  qi_front_nodup : NoDup (diff_rev st);
  qi_front : ∀ a, a ∈ diff_rev st →
    a < i ∧ node_at (Z.to_nat ii) a ∧ (a, dist i a) ∈ Q_cand st;
  qi_complete : ∀ x pth, x < i → is_path cover_tree start pth → last pth = Some x →
    within dist base x pth →
    dominated k (dist i x) (Q_cand st) ∨
    (Z.of_nat (length pth) ≤ ii + 1 ∧ x ∈ (Q_cand st).*1) ∨
    (ii + 1 < Z.of_nat (length pth) ∧ ∃ a, pth !! Z.to_nat ii = Some a ∧ a ∈ diff_rev st)
}.

Definition expand (st : knn_state) : knn_state :=
  let new := expand_front (diff_rev st) in
  let Qn := Q_cand st ++ map pair_dist new in
  mkKnnState Qn new (Z.of_nat (length Qn)).

Lemma node_at_range (d : nat) (a : Z) : node_at d a → start ≤ a < start + rows.
Proof.
  intros (p & Hp & Hl & _). apply path_last_lookup in Hl. destruct Hl as [Hl _].
  exact (path_node_range p _ a Hp Hl).
Qed.

Lemma expand_inv (ii : Z) (st : knn_state) :
  1 ≤ ii → query_inv (ii - 1) st → query_inv ii (expand st).
Proof.
  intros Hii [Hsize Hval Hnd Hfnd Hfront Hcomp].
  assert (Hd : ∀ a, a ∈ diff_rev st → start ≤ a < start + rows ∧ a < i).
  { intros a Ha. destruct (Hfront a Ha) as (H1 & H2 & _).
    split; [exact (node_at_range _ _ H2) | exact H1]. }
  assert (Hnew : ∀ c, c ∈ expand_front (diff_rev st) →
            c < i ∧ node_at (Z.to_nat ii) c).
  { intros c Hc. apply (elem_of_expand_front _ c Hd) in Hc.
    destruct Hc as (a & Ha & Hc & Hlt). split; [exact Hlt|].
    destruct (Hfront a Ha) as (_ & H2 & _).
    replace (Z.to_nat ii) with (S (Z.to_nat (ii - 1))) by lia.
    exact (node_at_child _ a c H2 Hc). }
  unfold expand. constructor; simpl.
  - reflexivity.
  - intros j d Hj. apply elem_of_app in Hj. destruct Hj as [Hj | Hj].
    + destruct (Hval j d Hj) as (H1 & H2 & dj & H3 & H4).
      split; [exact H1|]. split; [exact H2|]. exists dj. split; [exact H3 | lia].
    + apply list_elem_of_fmap in Hj. destruct Hj as (c & Heq & Hc). injection Heq as -> ->.
      destruct (Hnew c Hc) as [H1 H2]. split; [reflexivity|]. split; [exact H1|].
      exists (Z.to_nat ii). split; [exact H2 | lia].
  - rewrite fmap_app, fst_pair_dist. apply NoDup_app. split; [exact Hnd|]. split.
    + intros j Hj Hj'. apply list_elem_of_fmap in Hj. destruct Hj as ([j' d] & -> & Hj).
      destruct (Hval j' d Hj) as (_ & _ & dj & H3 & H4). simpl in Hj'.
      destruct (Hnew j' Hj') as [_ H2].
      pose proof (node_at_unique _ _ _ H3 H2). lia.
    + apply NoDup_expand_front; assumption.
  - apply NoDup_expand_front; assumption.
  - intros c Hc. destruct (Hnew c Hc) as [H1 H2]. split; [exact H1|]. split; [exact H2|].
    apply elem_of_app. right. apply list_elem_of_fmap. exists c. split; [reflexivity | exact Hc].
  - intros x pth Hx Hp Hl Hw.
    destruct (Hcomp x pth Hx Hp Hl Hw) as [Hdom | [[Hlen Hin] | (Hlen & a & Ha & Hadiff)]].
    + left. apply dominated_app, Hdom.
    + right. left. split; [lia|]. rewrite fmap_app. apply elem_of_app. left. exact Hin.
    + assert (Hb : is_Some (pth !! Z.to_nat ii)) by (apply lookup_lt_is_Some; lia).
      destruct Hb as [b Hb].
      assert (Hab : b ∈ children cover_tree a).
      { apply (proj2 Hp (Z.to_nat (ii - 1)) a b Ha).
        replace (S (Z.to_nat (ii - 1))) with (Z.to_nat ii) by lia. exact Hb. }
      destruct (path_last_lookup pth x Hl) as [Hlast _].
      assert (Hbx : b ≤ x).
      { destruct (decide (Z.to_nat ii = pred (length pth))) as [E | E].
        - rewrite E in Hb. assert (b = x) by congruence. lia.
        - pose proof (path_lookup_lt pth Hp (pred (length pth)) (Z.to_nat ii) b x
                        ltac:(lia) Hb Hlast). lia. }
      assert (Hbnew : b ∈ expand_front (diff_rev st)).
      { apply (elem_of_expand_front _ b Hd). exists a. split; [exact Hadiff|].
        split; [exact Hab | lia]. }
      right. destruct (decide (Z.of_nat (length pth) = ii + 1)) as [E | E].
      * left. split; [lia|]. rewrite fmap_app, fst_pair_dist. apply elem_of_app. right.
        replace (Z.to_nat ii) with (pred (length pth)) in Hb by lia.
        assert (b = x) by congruence. subst b. exact Hbnew.
      * right. split; [lia|]. exists b. split; [exact Hb | exact Hbnew].
Qed.

(** *** Pruning *)

Hypothesis Hbase : (1 <= base)%Q.
Hypothesis Hk : 1 ≤ k.
Hypothesis Htri : ∀ p x, start ≤ p < x → x < i → x < start + rows →
  (dist i p <= dist i x + dist p x)%Q.

Definition prune (T : Q) (st : knn_state) : knn_state :=
  let keep := fun p : Z * Q => Qle_bool p.2 T in
  let Q_interim := List.filter keep (Q_cand st) in
  mkKnnState Q_interim (List.filter (fun jj => keep (pair_dist jj)) (diff_rev st))
    (Z.of_nat (length Q_interim)).

Lemma prune_inv (ii : Z) (T : Q) (st : knn_state) :
  1 ≤ ii → query_inv ii st →
  (Z.of_nat (length (Q_cand st)) < k → ∀ p, p ∈ Q_cand st → Qle_bool p.2 T = true) →
  (k ≤ Z.of_nat (length (Q_cand st)) →
   (kth_smallest k (map snd (Q_cand st)) + 1 / base ^ ii <= T)%Q) →
  query_inv ii (prune T st).
Proof.
  intros Hii [Hsize Hval Hnd Hfnd Hfront Hcomp] HT1 HT2.
  set (v := kth_smallest k (map snd (Q_cand st))) in *.
  pose proof (radius_pos base ii Hbase ltac:(lia)) as Hr.
  set (r := (1 / base ^ ii)%Q) in *.
  assert (Hdom : ∀ D, dominated k D (Q_cand st) ∨
                      (k ≤ Z.of_nat (length (Q_cand st)) ∧ (v < D)%Q) →
                 dominated k D (List.filter (fun p : Z * Q => Qle_bool p.2 T) (Q_cand st))).
  { intros D HD.
    assert (Hlen : k ≤ Z.of_nat (length (Q_cand st))).
    { destruct HD as [HD | [HD _]]; [|exact HD]. apply dominated_length in HD. lia. }
    specialize (HT2 Hlen).
    apply prune_dominated; [exact Hk | lia | (fold v; clearbody v r; Lqa.lra) |].
    destruct HD as [HD | [_ HD]]; [left; exact HD | right; exact HD]. }
  assert (Hpruned : ∀ p, p ∈ Q_cand st → Qle_bool p.2 T = false →
            k ≤ Z.of_nat (length (Q_cand st)) ∧ (v < p.2)%Q).
  { intros p Hp Hkeep.
    destruct (Z_lt_le_dec (Z.of_nat (length (Q_cand st))) k) as [Hlt | Hle].
    - rewrite (HT1 Hlt p Hp) in Hkeep. discriminate.
    - split; [lia|]. specialize (HT2 Hle).
      assert (HTp : (T < p.2)%Q).
      { apply Qnot_le_lt. intros H. apply Qle_bool_iff in H. congruence. }
      (fold v; clearbody v r; Lqa.lra). }
  unfold prune. constructor; simpl.
  - reflexivity.
  - intros j d Hj. apply elem_of_List_filter in Hj. apply Hval. tauto.
  - apply NoDup_fst_List_filter, Hnd.
  - apply NoDup_List_filter, Hfnd.
  - intros a Ha. apply elem_of_List_filter in Ha. destruct Ha as [Ha Hkeep].
    destruct (Hfront a Ha) as (H1 & H2 & H3).
    split; [exact H1|]. split; [exact H2|]. apply elem_of_List_filter. tauto.
  - intros x pth Hx Hp Hl Hw.
    destruct (Hcomp x pth Hx Hp Hl Hw) as [Hd | [[Hlen Hin] | (Hlen & b & Hb & Hbdiff)]].
    + left. apply Hdom. left. exact Hd.
    + apply list_elem_of_fmap in Hin. destruct Hin as ([x' d] & -> & Hin). simpl in *.
      destruct (Hval x' d Hin) as (-> & _).
      destruct (Qle_bool (dist i x') T) eqn:E.
      * right. left. split; [exact Hlen|]. apply list_elem_of_fmap.
        exists (x', dist i x'). split; [reflexivity|]. apply elem_of_List_filter. tauto.
      * left. apply Hdom. right. apply (Hpruned (x', dist i x') Hin E).
    + destruct (Qle_bool (dist i b) T) eqn:E.
      * right. right. split; [exact Hlen|]. exists b. split; [exact Hb|].
        apply elem_of_List_filter. tauto.
      * left. apply Hdom. right.
        destruct (Hfront b Hbdiff) as (_ & _ & Hbin).
        destruct (Hpruned (b, dist i b) Hbin E) as [Hklen Hvb]. simpl in Hvb.
        split; [exact Hklen|].
        specialize (HT2 Hklen).
        assert (HTb : (T < dist i b)%Q).
        { apply Qnot_le_lt. intros H. apply Qle_bool_iff in H. congruence. }
        destruct (Hw (Z.to_nat ii) b Hb ltac:(lia)) as [-> | Hbx]; [(fold v; clearbody v r; Lqa.lra)|].
        rewrite Z2Nat.id in Hbx by lia. fold r in Hbx.
        destruct (path_last_lookup pth x Hl) as [Hlast _].
        pose proof (path_lookup_lt pth Hp (pred (length pth)) (Z.to_nat ii) b x
                      ltac:(lia) Hb Hlast) as Hlt.
        pose proof (path_node_range pth _ b Hp Hb) as Hbr.
        pose proof (path_node_range pth _ x Hp Hlast) as Hxr.
        pose proof (Htri b x ltac:(lia) Hx ltac:(lia)) as Htr.
        (fold v; clearbody v r; Lqa.lra).
Qed.

(** Once the last level is done, or when no node is left to expand, every
    point below [i] is a candidate or has [k] candidates strictly closer. *)
Record query_done (Qc : list (Z * Q)) : Prop := mkQueryDone {
  qd_val : ∀ j d, (j, d) ∈ Qc → d = dist i j ∧ start ≤ j < start + rows ∧ j < i;
  qd_nodup : NoDup Qc.*1;
  qd_complete : ∀ x, start ≤ x < start + rows → x < i →
    dominated k (dist i x) Qc ∨ x ∈ Qc.*1
}.

Lemma inv_done (ii : Z) (st : knn_state) :
  query_inv ii st → diff_rev st = [] ∨ ii = levels - 1 → query_done (Q_cand st).
Proof.
  intros [Hsize Hval Hnd Hfnd Hfront Hcomp] Hstop. constructor.
  - intros j d Hj. destruct (Hval j d Hj) as (H1 & H2 & dj & H3 & _).
    split; [exact H1|]. split; [exact (node_at_range _ _ H3) | exact H2].
  - exact Hnd.
  - intros x Hxr Hx.
    destruct (wf_path _ _ _ _ _ _ Hwf x Hxr) as (pth & Hp & Hl & Hlen & Hw).
    destruct (Hcomp x pth Hx Hp Hl Hw) as [Hd | [[_ Hin] | (Hlen' & a & _ & Ha)]].
    + left. exact Hd.
    + right. exact Hin.
    + exfalso. destruct Hstop as [E | E]; [rewrite E in Ha; inversion Ha | lia].
Qed.

(** *** The loop over the levels *)

(** [dist_k_Q_cor] at a level beyond the first one. *)
Definition threshold (ii : Z) (Qn : list (Z * Q)) : Q :=
  ((if Z.of_nat (length Qn) <? k then max_element (map snd Qn)
    else kth_smallest k (map snd Qn)) + 1 / base ^ (ii - 1))%Q.

Lemma query_level_next (ii : Z) (st : knn_state) :
  2 ≤ ii → Q_before_size st = Z.of_nat (length (Q_cand st)) →
  query_level dist i k levels base cover_tree start ii st =
  (let e := expand st in
   let early_stop := (Z.of_nat (length (diff_rev e)) =? 0) || (ii =? levels - 1) in
   if Qle_bool 1 (threshold ii (Q_cand e))
   then (mkKnnState (Q_cand e) (if early_stop then [] else diff_rev e)
           (Z.of_nat (length (Q_cand e))), early_stop)
   else (prune (threshold ii (Q_cand e)) e, early_stop)).
Proof.
  intros Hii Hsize. unfold query_level, expand, prune, threshold. cbv zeta.
  assert (E1 : (ii =? 1) = false) by (apply Z.eqb_neq; lia).
  assert (E2 : (1 <? ii) = true) by (apply Z.ltb_lt; lia).
  rewrite E1, E2. simpl app. fold (expand_front (diff_rev st)).
  cbn [Q_cand diff_rev Q_before_size].
  destruct (Qle_bool 1 _); [reflexivity|].
  rewrite Hsize, Nat2Z.id, drop_app_length, filter_pairs. reflexivity.
Qed.

Lemma query_level_first :
  query_level dist i k levels base cover_tree start 1 (mkKnnState [] [start] 1) =
  (let e := expand (mkKnnState [pair_dist start] [start] 1) in
   let early_stop := 1 =? levels - 1 in
   (mkKnnState (Q_cand e) (if early_stop then [] else diff_rev e)
      (Z.of_nat (length (Q_cand e))), early_stop)).
Proof.
  unfold query_level, expand. cbv zeta. cbn [Q_cand diff_rev Q_before_size].
  rewrite Z.eqb_refl, Z.ltb_irrefl. simpl app.
  fold (expand_front [start]).
  replace (Qle_bool 1 1) with true by reflexivity. cbv iota.
  reflexivity.
Qed.

Lemma threshold_prune (ii : Z) (st : knn_state) :
  2 ≤ ii → query_inv ii st → query_inv ii (prune (threshold ii (Q_cand st)) st).
Proof.
  intros Hii Hinv. apply prune_inv; [lia | exact Hinv | |].
  - intros Hlt p Hp. unfold threshold. apply Z.ltb_lt in Hlt. rewrite Hlt.
    apply Qle_bool_iff.
    pose proof (radius_pos base (ii - 1) Hbase ltac:(lia)) as Hr.
    assert (Hm : (p.2 <= max_element (map snd (Q_cand st)))%Q).
    { apply max_element_ge. apply list_elem_of_fmap. exists p. tauto. }
    revert Hr Hm. generalize (1 / base ^ (ii - 1))%Q (max_element (map snd (Q_cand st))).
    intros r m Hr Hm. Lqa.lra.
  - intros Hle. unfold threshold. apply Z.ltb_ge in Hle. rewrite Hle.
    pose proof (radius_decreasing base (ii - 1) Hbase ltac:(lia)) as Hr.
    replace (ii - 1 + 1) with ii in Hr by lia.
    revert Hr. generalize (1 / base ^ (ii - 1))%Q (1 / base ^ ii)%Q
      (kth_smallest k (map snd (Q_cand st))).
    intros r r' v Hr. Lqa.lra.
Qed.

Definition query_result (st : knn_state) : Prop :=
  Q_before_size st = Z.of_nat (length (Q_cand st)) ∧ query_done (Q_cand st).

Lemma query_levels_done (n : nat) (ii : Z) (st : knn_state) :
  2 ≤ ii < levels → Z.of_nat n = levels - ii → query_inv (ii - 1) st →
  query_result (query_levels dist i k levels base cover_tree start (range ii levels) st).
Proof.
  revert ii st. induction n as [|n IH]; intros ii st Hii Hn Hinv; [lia|].
  rewrite range_cons by lia. cbn [query_levels].
  rewrite (query_level_next ii st ltac:(lia) (qi_size _ _ Hinv)). cbv zeta.
  pose proof (expand_inv ii st ltac:(lia) Hinv) as Hexp.
  set (e := expand st) in *.
  destruct ((Z.of_nat (length (diff_rev e)) =? 0) || (ii =? levels - 1)) eqn:Es.
  - assert (Hstop : ∀ l : list Z, (diff_rev e = [] → l = []) → l = [] ∨ ii = levels - 1).
    { intros l Hl. apply orb_true_iff in Es. destruct Es as [Es | Es].
      - left. apply Hl. apply Z.eqb_eq in Es. destruct (diff_rev e); [reflexivity | simpl in Es; lia].
      - right. apply Z.eqb_eq, Es. }
    destruct (Qle_bool 1 (threshold ii (Q_cand e))).
    + split; [reflexivity|]. simpl. apply (inv_done ii e Hexp). apply Hstop. tauto.
    + pose proof (threshold_prune ii e ltac:(lia) Hexp) as Hpr.
      split; [apply (qi_size _ _ Hpr)|]. apply (inv_done ii _ Hpr).
      apply Hstop. intros E. unfold prune. cbn [diff_rev]. rewrite E. reflexivity.
  - apply orb_false_iff in Es. destruct Es as [_ Es]. apply Z.eqb_neq in Es.
    destruct (Qle_bool 1 (threshold ii (Q_cand e))).
    + apply (IH (ii + 1)); [lia | lia|].
      replace (ii + 1 - 1) with ii by lia.
      destruct Hexp as [H1 H2 H3 H4 H5 H6]. constructor; assumption.
    + apply (IH (ii + 1)); [lia | lia|].
      replace (ii + 1 - 1) with ii by lia.
      apply threshold_prune; [lia | exact Hexp].
Qed.

Lemma query_inv_root :
  start < i → query_inv 0 (mkKnnState [pair_dist start] [start] 1).
Proof.
  intros Hi. constructor; simpl.
  - reflexivity.
  - intros j d Hj. apply list_elem_of_singleton in Hj. injection Hj as -> ->.
    split; [reflexivity|]. split; [exact Hi|]. exists 0%nat. split; [apply node_at_root | lia].
  - repeat constructor. intros H. inversion H.
  - repeat constructor. intros H. inversion H.
  - intros a Ha. apply list_elem_of_singleton in Ha. subst a.
    split; [exact Hi|]. split; [apply node_at_root | left].
  - intros x pth Hx Hp Hl Hw. right.
    destruct (path_last_lookup pth x Hl) as [Hlast Hlen].
    destruct (decide (length pth = 1%nat)) as [E | E].
    + left. split; [lia|]. rewrite E in Hlast. simpl in Hlast.
      destruct Hp as [H0 _]. assert (x = start) by congruence. subst x. left.
    + right. split; [lia|]. exists start. split; [apply Hp | left].
Qed.

Lemma query_levels_from_root :
  2 ≤ levels → start < i →
  query_result (query_levels dist i k levels base cover_tree start (range 1 levels)
                  (mkKnnState [] [start] 1)).
Proof.
  intros Hlev Hi. rewrite range_cons by lia. cbn [query_levels].
  rewrite query_level_first. cbv zeta.
  pose proof (expand_inv 1 _ ltac:(lia) (query_inv_root Hi)) as Hexp.
  set (e := expand (mkKnnState [pair_dist start] [start] 1)) in *.
  destruct (1 =? levels - 1) eqn:Es.
  - apply Z.eqb_eq in Es. split; [reflexivity|]. simpl.
    apply (inv_done 1 e Hexp). right. exact Es.
  - apply Z.eqb_neq in Es.
    apply (query_levels_done (Z.to_nat (levels - 2)) 2); [lia | lia|].
    destruct Hexp as [H1 H2 H3 H4 H5 H6]. constructor; assumption.
Qed.

(** *** The result of the query *)

(** The query scans a list of candidates that holds every point below [i]
    which does not have [k] listed candidates strictly closer. *)
Lemma find_kNN_CoverTree_candidates (neighbors_i : list Z) :
  2 ≤ levels → start < i →
  length neighbors_i = Z.to_nat k →
  k ≤ Z.min i (start + rows) - start →
  ∃ c, NoDup c ∧ (Z.to_nat k ≤ length c)%nat ∧
       (∀ x, x ∈ c → start ≤ x < Z.min i (start + rows)) ∧
       (∀ x, start ≤ x < Z.min i (start + rows) →
          dominated k (dist i x) (map (fun jj => (jj, dist i jj)) c) ∨ x ∈ c) ∧
       find_kNN_CoverTree dist i k levels base neighbors_i cover_tree =
       (map snd (brute_force_scan dist i k neighbors_i c),
        map fst (brute_force_scan dist i k neighbors_i c)).
Proof.
  intros Hlev Hi Hlen Hcand.
  destruct (query_levels_from_root Hlev Hi) as [Hsize [Hval Hnd Hcomp]].
  unfold find_kNN_CoverTree. cbv zeta.
  assert (Hroot : znth 0 (map_at cover_tree (-1)) 0 = start).
  { unfold map_at. rewrite (wf_root _ _ _ _ _ _ Hwf). reflexivity. }
  rewrite Hroot.
  set (st := query_levels dist i k levels base cover_tree start (range 1 levels)
               (mkKnnState [] [start] 1)) in *.
  assert (HQ : Q_cand st = map (fun jj => (jj, dist i jj)) (Q_cand st).*1).
  { clear -Hval. induction (Q_cand st) as [|[j d] l IH]; [reflexivity|].
    simpl. rewrite (proj1 (Hval j d ltac:(left))). f_equal.
    apply IH. intros j' d' H. apply Hval. right. exact H. }
  assert (Hk' : (Z.to_nat k ≤ length (Q_cand st).*1)%nat).
  { rewrite length_fmap.
    destruct (le_lt_dec (Z.to_nat k) (length (Q_cand st))) as [H | H]; [exact H|]. exfalso.
    assert (Hall : ∀ x, x ∈ range start (Z.min i (start + rows)) → x ∈ (Q_cand st).*1).
    { intros x Hx. apply elem_of_range in Hx.
      destruct (Hcomp x ltac:(lia) ltac:(lia)) as [Hd | Hin]; [|exact Hin].
      apply dominated_length in Hd. lia. }
    assert (Hnr : NoDup (range start (Z.min i (start + rows)))) by apply NoDup_seqZ.
    pose proof (submseteq_length _ _ (NoDup_submseteq _ _ Hnr Hall)) as Hl.
    rewrite length_range, length_fmap in Hl. lia. }
  exists (Q_cand st).*1.
  split; [exact Hnd|]. split; [exact Hk'|]. split; [|split].
  - intros x Hx. apply list_elem_of_fmap in Hx. destruct Hx as ([j d] & -> & Hj).
    apply Hval in Hj. simpl. lia.
  - intros x Hx. rewrite <- HQ. apply Hcomp; lia.
  - rewrite length_fmap in Hk'.
    assert (E : (k <=? Q_before_size st) = true) by (apply Z.leb_le; lia).
    rewrite E, Hsize.
    rewrite (fold_left_znth (fun h (p : Z * Q) => heap_offer k h p.2 p.1)).
    rewrite (fold_left_pairs (dist i)) by (intros j d H; apply Hval, H).
    fold (brute_force_scan dist i k neighbors_i (Q_cand st).*1).
    unfold heap_neighbors. rewrite drop_ge by lia. rewrite app_nil_r. reflexivity.
Qed.

End CoverTreeQuery.

(** C1. For a tree that [CoverTree_kNN] built over the points [0 .. rows-1]
    with a base of at least one, and a distance that satisfies the triangle
    inequality [d(i,p) <= d(i,x) + d(p,x)] on the points below [i], the
    neighbours that [find_kNN_CoverTree] returns for [i] are [k] distinct
    candidates such that no other candidate is strictly closer to [i]; when
    the distances from [i] to the candidates are pairwise distinct, they are
    the neighbours that the brute-force scan over the candidates selects. *)
Theorem find_kNN_CoverTree_nearest (dist : Z → Z → Q) (base : Q) (fuel : nat) (rows i k : Z)
    (neighbors_i : list Z) (cover_tree : int_map) (levels : Z) :
  CoverTree_kNN dist fuel rows base 0 = CT_built cover_tree levels →
  (1 <= base)%Q →
  (∀ p x, 0 ≤ p < x → x < i → x < rows → (dist i p <= dist i x + dist p x)%Q) →
  2 ≤ rows → 1 ≤ k ≤ Z.min i rows → length neighbors_i = Z.to_nat k →
  let cand := range 0 (Z.min i rows) in
  let N := (find_kNN_CoverTree dist i k levels base neighbors_i cover_tree).1 in
  is_kNN (dist i) k cand N ∧
  ((∀ x y, x ∈ cand → y ∈ cand → (dist i x == dist i y)%Q → x = y) →
   N ≡ₚ map snd (brute_force_scan dist i k neighbors_i cand)).
Proof.
  intros Hrun Hbase Htri Hrows Hk Hlen cand N.
  pose proof (CoverTree_kNN_wf dist 0 rows base ltac:(lia) fuel cover_tree levels Hrun) as Hwf.
  assert (Hlev : 2 ≤ levels).
  { destruct (wf_path _ _ _ _ _ _ Hwf 1 ltac:(lia)) as (pth & [H0 _] & Hl & Hle & _).
    rewrite last_lookup in Hl. destruct pth as [|a [|b pth]]; simpl in *; [discriminate| |lia].
    congruence. }
  destruct (find_kNN_CoverTree_candidates dist 0 rows base cover_tree levels i k Hwf Hbase
              ltac:(lia) ltac:(intros p x ? ? ?; apply Htri; lia) neighbors_i Hlev ltac:(lia) Hlen
              ltac:(lia))
    as (c & Hc & Hkc & Hsub & Hcomp & Heq).
  pose proof (brute_force_scan_kNN dist i k neighbors_i c ltac:(lia) Hlen Hc Hkc) as HNc.
  assert (HN : N = map snd (brute_force_scan dist i k neighbors_i c)).
  { unfold N. rewrite Heq. reflexivity. }
  rewrite <- HN in HNc. clearbody N. clear HN Heq.
  assert (Hknn : is_kNN (dist i) k cand N).
  { destruct HNc as (H1 & H2 & H3 & H4).
    split; [exact H1|]. split; [exact H2|]. split.
    - intros x Hx. apply elem_of_range. replace (Z.min i rows) with (Z.min i (0 + rows)) by (f_equal; lia).
      apply Hsub, H3, Hx.
    - intros x y Hx Hy Hny. apply elem_of_range in Hy.
      destruct (Hcomp y ltac:(replace (0 + rows) with rows by lia; exact Hy)) as [Hd | Hin].
      + exact (kNN_dominated (dist i) k c N y Hc (conj H1 (conj H2 (conj H3 H4))) Hd x Hx).
      + exact (H4 x y Hx Hin Hny). }
  split; [exact Hknn|].
  intros Hinj. apply (kNN_unique (dist i) k cand); [exact Hinj | exact Hknn|].
  apply brute_force_scan_kNN; [lia | exact Hlen | apply NoDup_seqZ|].
  unfold cand. rewrite length_range. lia.
Qed.

(** Eight points on a line, one eighth apart, base 2. *)
Definition ex_segment_dist (i j : Z) : Q := (Z.abs (i - j) # 8)%Q.

Definition ex_tree : int_map :=
  match CoverTree_kNN ex_segment_dist 8 8 2 0 with
  | CT_built t _ => t
  | _ => ∅
  end.

Definition ex_levels : Z :=
  match CoverTree_kNN ex_segment_dist 8 8 2 0 with
  | CT_built _ level => level
  | _ => 0
  end.

Example ex_segment_tree :
  map (map_at ex_tree) [-1; 0; 1; 2; 3; 4; 5; 6; 7] =
  [[0]; [0; 1; 6]; [1; 2; 5]; [2; 3]; [3; 4]; [4]; [5]; [6; 7]; [7]] ∧ ex_levels = 5.
Proof. vm_compute. split; reflexivity. Qed.

Example ex_segment_query :
  find_kNN_CoverTree ex_segment_dist 7 2 ex_levels 2 [0; 0] ex_tree =
  ([6; 5], [Fin (1 # 8); Fin (2 # 8)]).
Proof. vm_compute. reflexivity. Qed.

Lemma find_kNN_CoverTree_nearest_witness :
  is_kNN (ex_segment_dist 7) 2 (range 0 (Z.min 7 8))
    (find_kNN_CoverTree ex_segment_dist 7 2 ex_levels 2 [0; 0] ex_tree).1 ∧
  ((∀ x y, x ∈ range 0 (Z.min 7 8) → y ∈ range 0 (Z.min 7 8) →
      (ex_segment_dist 7 x == ex_segment_dist 7 y)%Q → x = y) →
   (find_kNN_CoverTree ex_segment_dist 7 2 ex_levels 2 [0; 0] ex_tree).1 ≡ₚ
   map snd (brute_force_scan ex_segment_dist 7 2 [0; 0] (range 0 (Z.min 7 8)))).
Proof.
  apply (find_kNN_CoverTree_nearest ex_segment_dist 2 8 8 7 2 [0; 0] ex_tree ex_levels).
  - vm_compute. reflexivity.
  - unfold Qle. simpl. lia.
  - intros p x Hp Hx _. unfold ex_segment_dist, Qle, Qplus. simpl. lia.
  - lia.
  - lia.
  - reflexivity.
Defined.

(** ** Further properties of the tree that [CoverTree_kNN] returns *)

(** Two samples of one parent are farther apart than the radius: the later
    one was left uncovered by the earlier one. *)
Lemma split_cover_separated (dist : Z → Z → Q) (start : Z) (fuel : nat) (R : Q) (U : list Z) :
  StronglySorted Z.lt U → (length U ≤ fuel)%nat →
  ∀ q C q' C', (q, C) ∈ split_cover dist start fuel R U →
    (q', C') ∈ split_cover dist start fuel R U → q < q' →
    covers dist start R q q' = false.
Proof.
  revert U. induction fuel as [|fuel IH]; intros U Hs Hlen q C q' C' Hq Hq' Hlt.
  - destruct U; inversion Hq.
  - destruct U as [|q0 rest]; [inversion Hq|].
    pose proof (StronglySorted_inv Hs) as [Hs' Hall]. rewrite Forall_forall in Hall.
    cbn [split_cover] in Hq, Hq'.
    set (rest' := List.filter (fun x => negb (covers dist start R q0 x)) rest) in *.
    assert (Hs'' : StronglySorted Z.lt rest') by (apply StronglySorted_List_filter, Hs').
    assert (Hlen' : (length rest' ≤ fuel)%nat).
    { pose proof (length_List_filter_le (fun x => negb (covers dist start R q0 x)) rest).
      simpl in Hlen. unfold rest'. lia. }
    assert (Hin : ∀ s D, (s, D) ∈ split_cover dist start fuel R rest' →
              s ∈ rest ∧ covers dist start R q0 s = false).
    { intros s D HsD.
      destruct (split_cover_props dist start fuel R rest' Hs'' Hlen') as (_ & P2 & _).
      apply P2 in HsD. destruct HsD as (HsD & _).
      apply elem_of_List_filter in HsD. destruct HsD as [H1 H2].
      split; [exact H1|]. destruct (covers dist start R q0 s); [discriminate | reflexivity]. }
    apply elem_of_cons in Hq, Hq'.
    destruct Hq as [Eq | Hq], Hq' as [Eq' | Hq'].
    + injection Eq as -> _. injection Eq' as -> _. lia.
    + injection Eq as -> _. apply (Hin q' C' Hq').
    + injection Eq' as -> _. apply Hin in Hq. destruct Hq as [Hq _]. specialize (Hall q Hq). lia.
    + exact (IH rest' Hs'' Hlen' q C q' C' Hq Hq' Hlt).
Qed.

Section CoverTreeLevels.

Variable dist : Z → Z → Q.
Variables (start rows : Z) (base : Q).
Hypothesis start_nonneg : 0 ≤ start.

(** Every level adds at least one entry, so the number of levels is at most
    the number of entries that were missing. *)
Lemma CoverTree_levels_bound (n : nat) (ct cpo : int_map) (level : Z)
    (cover_tree : int_map) (levels : Z) :
  0 ≤ rows → tree_inv start rows ct cpo →
  CoverTree_levels dist n rows base start ct cpo level = CT_built cover_tree levels →
  level ≤ levels ∧ levels - level ≤ rows + 1 - Z.of_nat (size ct) ∧
  (Z.of_nat (size ct) - 1 ≠ rows → level < levels).
Proof.
  intros Hrows. revert ct cpo level. induction n as [|n IH]; intros ct cpo level Hinv Hrun.
  - simpl in Hrun. destruct (Z.of_nat (size ct) - 1 =? rows) eqn:E; [|discriminate].
    injection Hrun as <- <-. apply Z.eqb_eq in E. lia.
  - cbn [CoverTree_levels] in Hrun.
    destruct (Z.of_nat (size ct) - 1 =? rows) eqn:E.
    + injection Hrun as <- <-. apply Z.eqb_eq in E. lia.
    + apply Z.eqb_neq in E. cbv zeta in Hrun.
      rewrite (cover_level_spec dist start rows _ ct cpo Hinv) in Hrun.
      pose proof (tree_inv_step dist start rows (1 / base ^ (level + 1))%Q ct cpo Hinv) as Hinv'.
      pose proof (level_ct_size dist start rows (1 / base ^ (level + 1))%Q ct cpo Hinv) as Hsize.
      pose proof (keys_nonempty_if_incomplete dist start rows start_nonneg ct cpo Hrows Hinv E) as Hks.
      destruct (IH _ _ _ Hinv' Hrun) as (H1 & H2 & _). lia.
Qed.

Lemma CoverTree_kNN_levels (fuel : nat) (cover_tree : int_map) (levels : Z) :
  CoverTree_kNN dist fuel rows base start = CT_built cover_tree levels →
  1 ≤ levels ≤ rows.
Proof.
  unfold CoverTree_kNN. destruct (rows <=? 0) eqn:E; [discriminate|].
  apply Z.leb_gt in E. intros Hrun.
  destruct (CoverTree_levels_bound fuel _ _ 0 cover_tree levels ltac:(lia)
              (tree_inv_init dist start rows start_nonneg ltac:(lia)) Hrun) as (H1 & H2 & H3).
  rewrite map_size_singleton in H2, H3. lia.
Qed.

(** The children of a node were sampled at the radius of the node's depth:
    a later child is not within that radius of an earlier one. *)
Definition sep_inv (ct : int_map) : Prop :=
  ∀ p c c', c ∈ children ct p → c' ∈ children ct p → c < c' →
    ∃ pth, is_path ct start pth ∧ last pth = Some p ∧
           ¬ (dist c c' <= 1 / base ^ Z.of_nat (length pth))%Q.

Lemma sep_inv_init : sep_inv {[ -1 := [start] ]}.
Proof.
  intros p c c' Hc. apply children_lookup in Hc. destruct Hc as (l & Hl & Hc).
  apply lookup_singleton_Some in Hl. destruct Hl as [_ <-]. inversion Hc.
Qed.

Lemma sep_inv_step (level : Z) (ct cpo : int_map) :
  tree_inv start rows ct cpo → path_inv dist start base level ct cpo → sep_inv ct →
  sep_inv (level_ct dist start (1 / base ^ (level + 1))%Q cpo (keys_in_order cpo) ct).
Proof.
  intros Hinv Hpi Hsep p c c' Hc Hc' Hlt.
  set (R := (1 / base ^ (level + 1))%Q) in *.
  pose proof (children_level_mono dist start rows base level ct cpo Hinv) as Hmono.
  fold R in Hmono.
  destruct (ct !! p) as [l|] eqn:El.
  - assert (Hsame : children (level_ct dist start R cpo (keys_in_order cpo) ct) p = children ct p).
    { rewrite (children_of_lookup ct p l El).
      apply children_of_lookup, (level_ct_preserved dist start rows R ct cpo Hinv), El. }
    rewrite Hsame in Hc, Hc'.
    destruct (Hsep p c c' Hc Hc' Hlt) as (pth & Hp & Hl & Hd).
    exists pth. split; [eapply is_path_mono; [exact Hmono | exact Hp]|]. tauto.
  - apply (children_level_inv dist start base level ct cpo) in Hc, Hc'.
    fold R in Hc, Hc'.
    assert (Hno : ∀ x, x ∈ children ct p → False).
    { intros x Hx. apply children_lookup in Hx. destruct Hx as (l & Hl & _). congruence. }
    destruct Hc as [Hc | (p1 & q & C & -> & -> & Hq)]; [destruct (Hno _ Hc)|].
    destruct Hc' as [Hc' | (p2 & q' & C' & Ep & -> & Hq')]; [destruct (Hno _ Hc')|].
    assert (p2 = p1) by lia. subst p2.
    assert (Hp1 : is_Some (cpo !! p1)).
    { apply (sample_in_pending dist start rows R ct cpo Hinv), elem_of_map_at in Hq.
      destruct Hq as (l & Hl & _). eauto. }
    destruct (pi_front _ _ _ _ _ _ Hpi p1 Hp1) as (pth & Hp & Hl & Hlen & _).
    exists pth. split; [eapply is_path_mono; [exact Hmono | exact Hp]|]. split; [exact Hl|].
    replace (Z.of_nat (length pth)) with (level + 1) by lia. fold R.
    pose proof (split_cover_separated dist start _ R (map_at cpo p1)
                  (inv_sorted _ _ _ _ Hinv p1) (Nat.le_refl _) q C q' C' Hq Hq' ltac:(lia)) as Hs.
    unfold covers in Hs. intros Hle. apply Qle_bool_iff in Hle. congruence.
Qed.

Lemma CoverTree_levels_separated (n : nat) (ct cpo : int_map) (level : Z)
    (cover_tree : int_map) (levels : Z) :
  tree_inv start rows ct cpo → path_inv dist start base level ct cpo → sep_inv ct →
  CoverTree_levels dist n rows base start ct cpo level = CT_built cover_tree levels →
  sep_inv cover_tree.
Proof.
  revert ct cpo level. induction n as [|n IH]; intros ct cpo level Hinv Hpi Hsep Hrun.
  - simpl in Hrun. destruct (Z.of_nat (size ct) - 1 =? rows) eqn:E; [|discriminate].
    injection Hrun as <- <-. exact Hsep.
  - cbn [CoverTree_levels] in Hrun.
    destruct (Z.of_nat (size ct) - 1 =? rows) eqn:E.
    + injection Hrun as <- <-. exact Hsep.
    + cbv zeta in Hrun. rewrite (cover_level_spec dist start rows _ ct cpo Hinv) in Hrun.
      eapply IH; [| | |exact Hrun].
      * apply tree_inv_step, Hinv.
      * apply (path_inv_step dist start rows base); assumption.
      * apply sep_inv_step; assumption.
Qed.

Lemma CoverTree_kNN_sep (fuel : nat) (cover_tree : int_map) (levels : Z) :
  CoverTree_kNN dist fuel rows base start = CT_built cover_tree levels →
  sep_inv cover_tree.
Proof.
  unfold CoverTree_kNN. destruct (rows <=? 0) eqn:E; [discriminate|].
  apply Z.leb_gt in E. intros Hrun.
  exact (CoverTree_levels_separated fuel _ _ 0 cover_tree levels
           (tree_inv_init dist start rows start_nonneg ltac:(lia))
           (path_inv_init dist start rows base) sep_inv_init Hrun).
Qed.

End CoverTreeLevels.

(** X1. In a tree that [CoverTree_kNN] returns, the entry of every point of
    the segment starts with the point itself and continues with its children
    in strictly increasing order; every child is a later point of the
    segment. *)
Theorem CoverTree_kNN_entry_shape (dist : Z → Z → Q) (base : Q) (start rows : Z) (fuel : nat)
    (cover_tree : int_map) (levels : Z) :
  0 ≤ start →
  CoverTree_kNN dist fuel rows base start = CT_built cover_tree levels →
  ∀ key, start ≤ key < start + rows →
    ∃ cs, cover_tree !! key = Some (key :: cs) ∧ StronglySorted Z.lt cs ∧
          ∀ c, c ∈ cs → key < c < start + rows.
Proof.
  intros Hstart Hrun key Hkey.
  pose proof (CoverTree_kNN_wf dist start rows base Hstart fuel cover_tree levels Hrun) as Hwf.
  destruct (wf_shape _ _ _ _ _ _ Hwf key Hkey) as (cs & Hl & Hs & Hcs).
  exists cs. split; [exact Hl|].
  apply StronglySorted_inv in Hs. destruct Hs as [Hs Hall]. split; [exact Hs|].
  intros c Hc. rewrite Forall_forall in Hall. specialize (Hall c Hc). specialize (Hcs c Hc). lia.
Qed.

Lemma CoverTree_kNN_entry_shape_witness :
  ∃ cs, ex_tree !! 1 = Some (1 :: cs) ∧ StronglySorted Z.lt cs ∧ ∀ c, c ∈ cs → 1 < c < 0 + 8.
Proof.
  apply (CoverTree_kNN_entry_shape ex_segment_dist 2 0 8 8 ex_tree ex_levels).
  - lia.
  - vm_compute. reflexivity.
  - lia.
Defined.

(** X2. In a tree that [CoverTree_kNN] returns, the first point of the
    segment is the child of no node, and every other point of the segment is
    a child of exactly one node, which is an earlier point of the segment. *)
Theorem CoverTree_kNN_unique_parent (dist : Z → Z → Q) (base : Q) (start rows : Z) (fuel : nat)
    (cover_tree : int_map) (levels : Z) :
  0 ≤ start →
  CoverTree_kNN dist fuel rows base start = CT_built cover_tree levels →
  (∀ p, start ∉ children cover_tree p) ∧
  ∀ x, start < x < start + rows →
    ∃ p, start ≤ p < x ∧ x ∈ children cover_tree p ∧
         ∀ p', x ∈ children cover_tree p' → p' = p.
Proof.
  intros Hstart Hrun.
  pose proof (CoverTree_kNN_wf dist start rows base Hstart fuel cover_tree levels Hrun) as Hwf.
  split.
  - intros p Hp. pose proof (child_gt dist start rows base cover_tree levels Hwf p start Hp). lia.
  - intros x Hx.
    destruct (wf_path _ _ _ _ _ _ Hwf x ltac:(lia)) as (pth & Hp & Hl & _ & _).
    apply last_Some in Hl. destruct Hl as (p0 & ->).
    destruct (last p0) as [p|] eqn:Ep.
    + apply path_last_lookup in Ep. destruct Ep as [Ep Hlen].
      assert (Hc : x ∈ children cover_tree p).
      { apply (proj2 Hp (pred (length p0))).
        - rewrite lookup_app_l by lia. exact Ep.
        - replace (S (pred (length p0))) with (length p0) by lia.
          apply list_lookup_middle. reflexivity. }
      exists p. pose proof (child_gt dist start rows base cover_tree levels Hwf p x Hc).
      split; [lia|]. split; [exact Hc|].
      intros p' Hc'. exact (wf_parent _ _ _ _ _ _ Hwf p' p x Hc' Hc).
    + apply last_None in Ep. subst p0. destruct Hp as [H0 _]. simpl in H0.
      injection H0 as ->. lia.
Qed.

Lemma CoverTree_kNN_unique_parent_witness :
  (∀ p, 0 ∉ children ex_tree p) ∧
  ∀ x, 0 < x < 0 + 8 →
    ∃ p, 0 ≤ p < x ∧ x ∈ children ex_tree p ∧ ∀ p', x ∈ children ex_tree p' → p' = p.
Proof.
  apply (CoverTree_kNN_unique_parent ex_segment_dist 2 0 8 8 ex_tree ex_levels).
  - lia.
  - vm_compute. reflexivity.
Defined.

(** X3. In a tree that [CoverTree_kNN] returns, every point of the segment
    is reached from the first point by a path along the child links that has
    at most [levels] nodes, and the node at depth [t >= 1] of that path is
    within the distance [1 / base^t] of the point. *)
Theorem CoverTree_kNN_cover_paths (dist : Z → Z → Q) (base : Q) (start rows : Z) (fuel : nat)
    (cover_tree : int_map) (levels : Z) :
  0 ≤ start →
  CoverTree_kNN dist fuel rows base start = CT_built cover_tree levels →
  ∀ x, start ≤ x < start + rows →
    ∃ pth, pth !! 0%nat = Some start ∧ last pth = Some x ∧
           Z.of_nat (length pth) ≤ levels ∧
           (∀ (t : nat) a b, pth !! t = Some a → pth !! S t = Some b →
              b ∈ children cover_tree a) ∧
           (∀ (t : nat) a, pth !! t = Some a → (1 ≤ t)%nat → a ≠ x →
              (dist a x <= 1 / base ^ Z.of_nat t)%Q).
Proof.
  intros Hstart Hrun x Hx.
  pose proof (CoverTree_kNN_wf dist start rows base Hstart fuel cover_tree levels Hrun) as Hwf.
  destruct (wf_path _ _ _ _ _ _ Hwf x Hx) as (pth & [H0 Hstep] & Hl & Hlen & Hw).
  exists pth. split; [exact H0|]. split; [exact Hl|]. split; [exact Hlen|]. split; [exact Hstep|].
  intros t a Ha Ht Hne. destruct (Hw t a Ha Ht) as [E | H]; [contradiction | exact H].
Qed.

Lemma CoverTree_kNN_cover_paths_witness :
  ∃ pth, pth !! 0%nat = Some 0 ∧ last pth = Some 4 ∧
         Z.of_nat (length pth) ≤ ex_levels ∧
         (∀ (t : nat) a b, pth !! t = Some a → pth !! S t = Some b → b ∈ children ex_tree a) ∧
         (∀ (t : nat) a, pth !! t = Some a → (1 ≤ t)%nat → a ≠ 4 →
            (ex_segment_dist a 4 <= 1 / 2 ^ Z.of_nat t)%Q).
Proof.
  apply (CoverTree_kNN_cover_paths ex_segment_dist 2 0 8 8 ex_tree ex_levels).
  - lia.
  - vm_compute. reflexivity.
  - lia.
Defined.

(** X4. The number of levels that [CoverTree_kNN] returns is at least one
    and at most the number of points of the segment. *)
Theorem CoverTree_kNN_levels_bound (dist : Z → Z → Q) (base : Q) (start rows : Z) (fuel : nat)
    (cover_tree : int_map) (levels : Z) :
  0 ≤ start →
  CoverTree_kNN dist fuel rows base start = CT_built cover_tree levels →
  1 ≤ levels ≤ rows.
Proof.
  intros Hstart Hrun.
  exact (CoverTree_kNN_levels dist start rows base Hstart fuel cover_tree levels Hrun).
Qed.

Lemma CoverTree_kNN_levels_bound_witness : 1 ≤ ex_levels ≤ 8.
Proof.
  apply (CoverTree_kNN_levels_bound ex_segment_dist 2 0 8 8 ex_tree ex_levels).
  - lia.
  - vm_compute. reflexivity.
Defined.

(** X5. In a tree that [CoverTree_kNN] returns, two children of one node are
    farther apart than the radius at which they were sampled: for a node
    reached by a path of [n] nodes, the distance from an earlier child to a
    later child exceeds [1 / base^n]. *)
Theorem CoverTree_kNN_siblings_separated (dist : Z → Z → Q) (base : Q) (start rows : Z)
    (fuel : nat) (cover_tree : int_map) (levels : Z) :
  0 ≤ start →
  CoverTree_kNN dist fuel rows base start = CT_built cover_tree levels →
  ∀ pth p c c', is_path cover_tree start pth → last pth = Some p →
    c ∈ children cover_tree p → c' ∈ children cover_tree p → c < c' →
    (1 / base ^ Z.of_nat (length pth) < dist c c')%Q.
Proof.
  intros Hstart Hrun pth p c c' Hp Hl Hc Hc' Hlt.
  pose proof (CoverTree_kNN_wf dist start rows base Hstart fuel cover_tree levels Hrun) as Hwf.
  destruct (CoverTree_kNN_sep dist start rows base Hstart fuel cover_tree levels Hrun p c c' Hc Hc' Hlt)
    as (pth' & Hp' & Hl' & Hd).
  rewrite (path_length_unique dist start rows base cover_tree levels Hwf pth pth' p Hp Hl Hp' Hl').
  apply Qnot_le_lt, Hd.
Qed.

Lemma CoverTree_kNN_siblings_separated_witness :
  (1 / 2 ^ Z.of_nat (length [0; 1]) < ex_segment_dist 2 5)%Q.
Proof.
  refine (CoverTree_kNN_siblings_separated ex_segment_dist 2 0 8 8 ex_tree ex_levels _ _
            [0; 1] 1 2 5 _ _ _ _ _).
  - lia.
  - vm_compute. reflexivity.
  - split; [reflexivity|]. intros t a b Ha Hb.
    destruct t as [|[|t]]; simpl in Ha, Hb; [|discriminate|discriminate].
    injection Ha as <-. injection Hb as <-. vm_compute. left.
  - reflexivity.
  - vm_compute. left.
  - vm_compute. right. left.
  - lia.
Defined.

(** ** The query for an arbitrary distance *)

(** The slots of a scan over at least [k] distinct candidates are in
    ascending order of distance. *)
Lemma brute_force_scan_asc (dist : Z → Z → Q) (i k : Z) (neighbors_i c : list Z) :
  1 ≤ k → length neighbors_i = Z.to_nat k → NoDup c →
  asc (brute_force_scan dist i k neighbors_i c).
Proof.
  intros Hk Hlen Hnd. unfold brute_force_scan.
  apply (hi_asc (dist i) k c).
  apply (fold_heap_offer_inv (dist i) k Hk [] c); [exact Hnd|].
  apply heap_inv_init; [exact Hk | exact Hlen].
Qed.

Section CoverTreeQuerySound.

Variable dist : Z → Z → Q.
Variables (start rows : Z) (base : Q).
Variables (cover_tree : int_map) (levels : Z).
Variables (i k : Z).
Hypothesis Hwf : cover_tree_wf dist start rows base cover_tree levels.

(** What holds of the state after the level [ii] for every distance, metric
    or not: the candidates are distinct nodes below [i] with their distances,
    and the nodes to expand are distinct candidates of depth [ii]. *)
Record query_sound (ii : Z) (st : knn_state) : Prop := mkQuerySound {
  qs_size : Q_before_size st = Z.of_nat (length (Q_cand st));
  qs_val : ∀ j d, (j, d) ∈ Q_cand st →
    d = dist i j ∧ j < i ∧ ∃ dj, node_at start cover_tree dj j ∧ Z.of_nat dj ≤ ii;
  qs_nodup : NoDup (Q_cand st).*1;
  qs_front_nodup : NoDup (diff_rev st);
  qs_front : ∀ a, a ∈ diff_rev st →
    a < i ∧ node_at start cover_tree (Z.to_nat ii) a ∧ (a, dist i a) ∈ Q_cand st
}.

Lemma expand_sound (ii : Z) (st : knn_state) :
  1 ≤ ii → query_sound (ii - 1) st → query_sound ii (expand dist cover_tree i st).
Proof.
  intros Hii [Hsize Hval Hnd Hfnd Hfront].
  assert (Hd : ∀ a, a ∈ diff_rev st → start ≤ a < start + rows ∧ a < i).
  { intros a Ha. destruct (Hfront a Ha) as (H1 & H2 & _).
    split; [exact (node_at_range dist start rows base cover_tree levels Hwf _ _ H2) | exact H1]. }
  assert (Hnew : ∀ c, c ∈ expand_front cover_tree i (diff_rev st) →
            c < i ∧ node_at start cover_tree (Z.to_nat ii) c).
  { intros c Hc. apply (elem_of_expand_front dist start rows base cover_tree levels i Hwf _ c Hd) in Hc.
    destruct Hc as (a & Ha & Hc & Hlt). split; [exact Hlt|].
    destruct (Hfront a Ha) as (_ & H2 & _).
    replace (Z.to_nat ii) with (S (Z.to_nat (ii - 1))) by lia.
    exact (node_at_child start cover_tree _ a c H2 Hc). }
  unfold expand. constructor; simpl.
  - reflexivity.
  - intros j d Hj. apply elem_of_app in Hj. destruct Hj as [Hj | Hj].
    + destruct (Hval j d Hj) as (H1 & H2 & dj & H3 & H4).
      split; [exact H1|]. split; [exact H2|]. exists dj. split; [exact H3 | lia].
    + apply list_elem_of_fmap in Hj. destruct Hj as (c & Heq & Hc). injection Heq as -> ->.
      destruct (Hnew c Hc) as [H1 H2]. split; [reflexivity|]. split; [exact H1|].
      exists (Z.to_nat ii). split; [exact H2 | lia].
  - rewrite fmap_app, fst_pair_dist. apply NoDup_app. split; [exact Hnd|]. split.
    + intros j Hj Hj'. apply list_elem_of_fmap in Hj. destruct Hj as ([j' d] & -> & Hj).
      destruct (Hval j' d Hj) as (_ & _ & dj & H3 & H4). simpl in Hj'.
      destruct (Hnew j' Hj') as [_ H2].
      pose proof (node_at_unique dist start rows base cover_tree levels Hwf _ _ _ H3 H2). lia.
    + apply (NoDup_expand_front dist start rows base cover_tree levels i Hwf); assumption.
  - apply (NoDup_expand_front dist start rows base cover_tree levels i Hwf); assumption.
  - intros c Hc. destruct (Hnew c Hc) as [H1 H2]. split; [exact H1|]. split; [exact H2|].
    apply elem_of_app. right. apply list_elem_of_fmap. exists c. split; [reflexivity | exact Hc].
Qed.

Lemma prune_sound (ii : Z) (T : Q) (st : knn_state) :
  query_sound ii st → query_sound ii (prune dist i T st).
Proof.
  intros [Hsize Hval Hnd Hfnd Hfront]. unfold prune. constructor; simpl.
  - reflexivity.
  - intros j d Hj. apply elem_of_List_filter in Hj. apply Hval. tauto.
  - apply NoDup_fst_List_filter, Hnd.
  - apply NoDup_List_filter, Hfnd.
  - intros a Ha. apply elem_of_List_filter in Ha. destruct Ha as [Ha Hkeep].
    destruct (Hfront a Ha) as (H1 & H2 & H3).
    split; [exact H1|]. split; [exact H2|]. apply elem_of_List_filter. tauto.
Qed.

Lemma stop_sound (ii : Z) (st : knn_state) (b : bool) :
  query_sound ii st →
  query_sound ii (mkKnnState (Q_cand st) (if b then [] else diff_rev st)
                    (Z.of_nat (length (Q_cand st)))).
Proof.
  intros [Hsize Hval Hnd Hfnd Hfront]. constructor; simpl.
  - reflexivity.
  - exact Hval.
  - exact Hnd.
  - destruct b; [constructor | exact Hfnd].
  - intros a Ha. destruct b; [inversion Ha | apply Hfront, Ha].
Qed.

(** The candidates that the loop over the levels leaves. *)
Definition candidates_sound (st : knn_state) : Prop :=
  Q_before_size st = Z.of_nat (length (Q_cand st)) ∧
  NoDup (Q_cand st).*1 ∧
  ∀ j d, (j, d) ∈ Q_cand st → d = dist i j ∧ start ≤ j < start + rows ∧ j < i.

Lemma sound_candidates (ii : Z) (st : knn_state) : query_sound ii st → candidates_sound st.
Proof.
  intros [Hsize Hval Hnd _ _]. split; [exact Hsize|]. split; [exact Hnd|].
  intros j d Hj. destruct (Hval j d Hj) as (H1 & H2 & dj & H3 & _).
  split; [exact H1|]. split; [|exact H2].
  exact (node_at_range dist start rows base cover_tree levels Hwf _ _ H3).
Qed.

Lemma query_levels_sound (n : nat) (ii : Z) (st : knn_state) :
  2 ≤ ii → Z.of_nat n = levels - ii → query_sound (ii - 1) st →
  candidates_sound (query_levels dist i k levels base cover_tree start (range ii levels) st).
Proof.
  revert ii st. induction n as [|n IH]; intros ii st Hii Hn Hinv.
  - rewrite range_nil by lia. simpl. exact (sound_candidates _ _ Hinv).
  - rewrite range_cons by lia. cbn [query_levels].
    rewrite (query_level_next dist start base cover_tree levels i k ii st ltac:(lia) (qs_size _ _ Hinv)).
    cbv zeta.
    pose proof (expand_sound ii st ltac:(lia) Hinv) as Hexp.
    set (e := expand dist cover_tree i st) in *.
    set (b := (Z.of_nat (length (diff_rev e)) =? 0) || (ii =? levels - 1)).
    pose proof (stop_sound ii e b Hexp) as Hstop.
    pose proof (prune_sound ii (threshold base k ii (Q_cand e)) e Hexp) as Hpr.
    destruct (Qle_bool 1 (threshold base k ii (Q_cand e))).
    + destruct b.
      * exact (sound_candidates _ _ Hstop).
      * apply (IH (ii + 1)); [lia | lia|]. replace (ii + 1 - 1) with ii by lia. exact Hstop.
    + destruct b.
      * exact (sound_candidates _ _ Hpr).
      * apply (IH (ii + 1)); [lia | lia|]. replace (ii + 1 - 1) with ii by lia. exact Hpr.
Qed.

Lemma query_sound_root :
  start < i → query_sound 0 (mkKnnState [pair_dist dist i start] [start] 1).
Proof.
  intros Hi. constructor; simpl.
  - reflexivity.
  - intros j d Hj. apply list_elem_of_singleton in Hj. injection Hj as -> ->.
    split; [reflexivity|]. split; [exact Hi|]. exists 0%nat. split; [apply node_at_root | lia].
  - repeat constructor. intros H. inversion H.
  - repeat constructor. intros H. inversion H.
  - intros a Ha. apply list_elem_of_singleton in Ha. subst a.
    split; [exact Hi|]. split; [apply node_at_root | left].
Qed.

Lemma query_levels_sound_from_root :
  2 ≤ levels → start < i →
  candidates_sound (query_levels dist i k levels base cover_tree start (range 1 levels)
                      (mkKnnState [] [start] 1)).
Proof.
  intros Hlev Hi. rewrite range_cons by lia. cbn [query_levels].
  rewrite query_level_first. cbv zeta.
  pose proof (expand_sound 1 _ ltac:(lia) (query_sound_root Hi)) as Hexp.
  set (e := expand dist cover_tree i (mkKnnState [pair_dist dist i start] [start] 1)) in *.
  pose proof (stop_sound 1 e (1 =? levels - 1) Hexp) as Hstop.
  destruct (1 =? levels - 1) eqn:Es.
  - exact (sound_candidates _ _ Hstop).
  - apply Z.eqb_neq in Es.
    apply (query_levels_sound (Z.to_nat (levels - 2)) 2); [lia | lia | exact Hstop].
Qed.

(** The query is a scan over distinct points below [i]: the candidates that
    the levels left when there are at least [k] of them, all the points below
    [i] otherwise. *)
Lemma find_kNN_CoverTree_scan (neighbors_i : list Z) :
  2 ≤ levels → 0 ≤ start < i → 1 ≤ k ≤ i →
  length neighbors_i = Z.to_nat k →
  ∃ c, NoDup c ∧ (Z.to_nat k ≤ length c)%nat ∧
       (∀ x, x ∈ c → 0 ≤ x < i) ∧
       find_kNN_CoverTree dist i k levels base neighbors_i cover_tree =
       (map snd (brute_force_scan dist i k neighbors_i c),
        map fst (brute_force_scan dist i k neighbors_i c)).
Proof.
  intros Hlev Hi Hk Hlen.
  destruct (query_levels_sound_from_root Hlev ltac:(lia)) as (Hsize & Hnd & Hval).
  unfold find_kNN_CoverTree. cbv zeta.
  assert (Hroot : znth 0 (map_at cover_tree (-1)) 0 = start).
  { unfold map_at. rewrite (wf_root _ _ _ _ _ _ Hwf). reflexivity. }
  rewrite Hroot.
  set (st := query_levels dist i k levels base cover_tree start (range 1 levels)
               (mkKnnState [] [start] 1)) in *.
  assert (Hdrop : ∀ h : list (dbl * Z), heap_neighbors k h neighbors_i = map snd h).
  { intros h. unfold heap_neighbors. rewrite drop_ge by lia. apply app_nil_r. }
  rewrite Hdrop.
  destruct (k <=? Q_before_size st) eqn:E.
  - apply Z.leb_le in E. exists (Q_cand st).*1.
    split; [exact Hnd|]. split; [rewrite length_fmap; lia|]. split.
    + intros x Hx. apply list_elem_of_fmap in Hx. destruct Hx as ([j d] & -> & Hj).
      apply Hval in Hj. simpl. lia.
    + rewrite Hsize.
      rewrite (fold_left_znth (fun h (p : Z * Q) => heap_offer k h p.2 p.1)).
      rewrite (fold_left_pairs (dist i)) by (intros j d H; apply Hval, H).
      reflexivity.
  - exists (range 0 i). split; [apply NoDup_seqZ|]. split; [rewrite length_range; lia|].
    split; [intros x Hx; apply elem_of_range in Hx; exact Hx | reflexivity].
Qed.

End CoverTreeQuerySound.

Lemma asc_sorted_dist (f : Z → Q) (h : list (dbl * Z)) :
  asc h → map fst h = map (fun x => Fin (f x)) (map snd h) →
  StronglySorted Qle (map f (map snd h)).
Proof.
  unfold asc. induction 1 as [|e h Hs IH Hall]; intros Heq; [constructor|].
  simpl in Heq. injection Heq as He Heq. simpl. constructor; [apply IH, Heq|].
  apply Forall_forall. intros d Hd.
  apply list_elem_of_fmap in Hd. destruct Hd as (x & -> & Hx).
  apply list_elem_of_fmap in Hx. destruct Hx as (e' & -> & He').
  rewrite Forall_forall in Hall. specialize (Hall e' He').
  assert (He'1 : e'.1 = Fin (f e'.2)).
  { clear -Heq He'. induction h as [|a h IH]; [inversion He'|].
    simpl in Heq. injection Heq as Ha Heq.
    apply elem_of_cons in He'. destruct He' as [-> | He']; [exact Ha | apply IH; assumption]. }
  rewrite He, He'1 in Hall. apply dbl_le_Fin, Hall.
Qed.

(** X6. For every distance whose values are numbers (no NaN; it need not be
    a metric) and every base: on a tree that [CoverTree_kNN] built over at
    least two points [0 .. rows-1] the query [find_kNN_CoverTree] for a point
    [i] and [1 <= k <= i] returns [k] distinct points below [i], and
    [dist_of_neighbors_i] holds their distances to [i], in ascending order. *)
Theorem find_kNN_CoverTree_sound (dist : Z → Z → Q) (base : Q) (fuel : nat) (rows i k : Z)
    (neighbors_i : list Z) (cover_tree : int_map) (levels : Z) :
  CoverTree_kNN dist fuel rows base 0 = CT_built cover_tree levels →
  2 ≤ rows → 1 ≤ k ≤ i → length neighbors_i = Z.to_nat k →
  let r := find_kNN_CoverTree dist i k levels base neighbors_i cover_tree in
  length r.1 = Z.to_nat k ∧ NoDup r.1 ∧ (∀ x, x ∈ r.1 → 0 ≤ x < i) ∧
  r.2 = map (fun x => Fin (dist i x)) r.1 ∧
  StronglySorted Qle (map (dist i) r.1).
Proof.
  intros Hrun Hrows Hk Hlen r.
  pose proof (CoverTree_kNN_wf dist 0 rows base ltac:(lia) fuel cover_tree levels Hrun) as Hwf.
  assert (Hlev : 2 ≤ levels).
  { destruct (wf_path _ _ _ _ _ _ Hwf 1 ltac:(lia)) as (pth & [H0 _] & Hl & Hle & _).
    rewrite last_lookup in Hl. destruct pth as [|a [|b pth]]; simpl in *; [discriminate| |lia].
    congruence. }
  destruct (find_kNN_CoverTree_scan dist 0 rows base cover_tree levels i k Hwf neighbors_i
              Hlev ltac:(lia) Hk Hlen) as (c & Hc & Hkc & Hsub & Heq).
  unfold r. rewrite Heq. cbn [fst snd].
  destruct (brute_force_scan_spec dist i k neighbors_i c ltac:(lia) Hlen Hc Hkc)
    as (H1 & H2 & H3 & H4 & _).
  split; [exact H1|]. split; [exact H2|]. split; [intros x Hx; apply Hsub, H3, Hx|].
  split; [exact H4|].
  apply asc_sorted_dist; [|exact H4].
  apply brute_force_scan_asc; [lia | exact Hlen | exact Hc].
Qed.

(** Five points with the distances of [ex_skew_dist], which is no metric. *)
Definition ex_skew_tree : int_map :=
  match CoverTree_kNN ex_skew_dist 5 5 2 0 with
  | CT_built t _ => t
  | _ => ∅
  end.

Definition ex_skew_levels : Z :=
  match CoverTree_kNN ex_skew_dist 5 5 2 0 with
  | CT_built _ level => level
  | _ => 0
  end.

Lemma find_kNN_CoverTree_sound_witness :
  let r := find_kNN_CoverTree ex_skew_dist 4 2 ex_skew_levels 2 [0; 0] ex_skew_tree in
  length r.1 = Z.to_nat 2 ∧ NoDup r.1 ∧ (∀ x, x ∈ r.1 → 0 ≤ x < 4) ∧
  r.2 = map (fun x => Fin (ex_skew_dist 4 x)) r.1 ∧
  StronglySorted Qle (map (ex_skew_dist 4) r.1).
Proof.
  apply (find_kNN_CoverTree_sound ex_skew_dist 2 5 5 4 2 [0; 0] ex_skew_tree ex_skew_levels).
  - vm_compute. reflexivity.
  - lia.
  - lia.
  - reflexivity.
Defined.

(** *** The levels leave at least [k] candidates *)

Lemma is_path_take (ct : int_map) (start : Z) (pth : list Z) (n : nat) :
  (0 < n)%nat → is_path ct start pth → is_path ct start (take n pth).
Proof.
  intros Hn [H0 Hstep]. split.
  - rewrite lookup_take_lt by lia. exact H0.
  - intros t a b Ha Hb.
    apply lookup_take_Some in Ha, Hb. destruct Ha as [Ha _], Hb as [Hb _].
    exact (Hstep t a b Ha Hb).
Qed.

Lemma node_at_lookup (ct : int_map) (start : Z) (pth : list Z) (t : nat) (a : Z) :
  is_path ct start pth → pth !! t = Some a → node_at start ct t a.
Proof.
  intros Hp Ha. exists (take (S t) pth).
  pose proof (lookup_lt_Some _ _ _ Ha) as Hlt.
  split; [apply is_path_take; [lia | exact Hp]|]. split.
  - rewrite last_lookup, length_take, lookup_take_lt by lia.
    replace (pred (S t `min` length pth)) with t by lia. exact Ha.
  - rewrite length_take. lia.
Qed.

Section CoverTreeQueryEnough.

Variable dist : Z → Z → Q.
Variables (start rows : Z) (base : Q).
Variables (cover_tree : int_map) (levels : Z).
Variables (i k : Z).
Hypothesis Hwf : cover_tree_wf dist start rows base cover_tree levels.
Hypothesis Hbase : (1 <= base)%Q.
Hypothesis Hk : 1 ≤ k.
Hypothesis Hcand : k ≤ Z.min i (start + rows) - start.

(** Nothing has been removed so far: every node below [i] of depth at most
    [ii] is a candidate, and those of depth [ii] are the nodes to expand. *)
Definition full (ii : Z) (st : knn_state) : Prop :=
  (∀ x (dx : nat), node_at start cover_tree dx x → x < i → Z.of_nat dx ≤ ii →
     x ∈ (Q_cand st).*1) ∧
  (∀ x, node_at start cover_tree (Z.to_nat ii) x → x < i → x ∈ diff_rev st).

Definition enough (ii : Z) (st : knn_state) : Prop :=
  k ≤ Z.of_nat (length (Q_cand st)) ∨ full ii st.

Lemma node_at_parent (d : nat) (x : Z) :
  node_at start cover_tree (S d) x →
  ∃ a, node_at start cover_tree d a ∧ x ∈ children cover_tree a.
Proof.
  intros (pth & Hp & Hl & Hlen).
  destruct (path_last_lookup pth x Hl) as [Hlast _].
  assert (Ha : is_Some (pth !! d)) by (apply lookup_lt_is_Some; lia).
  destruct Ha as [a Ha]. exists a. split; [exact (node_at_lookup _ _ _ _ _ Hp Ha)|].
  apply (proj2 Hp d a x Ha). replace (S d) with (pred (length pth)) by lia. exact Hlast.
Qed.

Lemma expand_enough (ii : Z) (st : knn_state) :
  1 ≤ ii → query_sound dist start cover_tree i (ii - 1) st →
  enough (ii - 1) st → enough ii (expand dist cover_tree i st).
Proof.
  intros Hii Hs [Hlen | [Hq Hd]].
  - left. unfold expand. simpl. rewrite length_app. lia.
  - right.
    assert (Hdr : ∀ a, a ∈ diff_rev st → start ≤ a < start + rows ∧ a < i).
    { intros a Ha. destruct (qs_front _ _ _ _ _ _ Hs a Ha) as (H1 & H2 & _).
      split; [exact (node_at_range dist start rows base cover_tree levels Hwf _ _ H2) | exact H1]. }
    assert (Hnew : ∀ x, node_at start cover_tree (Z.to_nat ii) x → x < i →
              x ∈ expand_front cover_tree i (diff_rev st)).
    { intros x Hx Hxi. replace (Z.to_nat ii) with (S (Z.to_nat (ii - 1))) in Hx by lia.
      destruct (node_at_parent _ x Hx) as (a & Ha & Hc).
      pose proof (child_gt dist start rows base cover_tree levels Hwf a x Hc) as (_ & Hax & _).
      apply (elem_of_expand_front dist start rows base cover_tree levels i Hwf _ x Hdr).
      exists a. split; [apply Hd; [exact Ha | lia]|]. split; [exact Hc | exact Hxi]. }
    split.
    + intros x dx Hx Hxi Hdx. unfold expand. simpl.
      rewrite fmap_app, fst_pair_dist. apply elem_of_app.
      destruct (decide (Z.of_nat dx ≤ ii - 1)) as [Hle | Hgt].
      * left. exact (Hq x dx Hx Hxi Hle).
      * right. apply Hnew; [|exact Hxi]. replace (Z.to_nat ii) with dx by lia. exact Hx.
    + exact Hnew.
Qed.

Lemma prune_enough (ii : Z) (st : knn_state) :
  2 ≤ ii → query_sound dist start cover_tree i ii st →
  enough ii st → enough ii (prune dist i (threshold base k ii (Q_cand st)) st).
Proof.
  intros Hii Hs He. unfold threshold.
  pose proof (radius_pos base (ii - 1) Hbase ltac:(lia)) as Hr.
  destruct (Z.of_nat (length (Q_cand st)) <? k) eqn:E.
  - apply Z.ltb_lt in E. destruct He as [Hlen | Hfull]; [lia|]. right.
    assert (Hall : ∀ p, p ∈ Q_cand st →
              Qle_bool p.2 (max_element (map snd (Q_cand st)) + 1 / base ^ (ii - 1)) = true).
    { intros p Hp. apply Qle_bool_iff.
      assert (Hm : (p.2 <= max_element (map snd (Q_cand st)))%Q).
      { apply max_element_ge. apply list_elem_of_fmap. exists p. tauto. }
      revert Hr Hm. generalize (1 / base ^ (ii - 1))%Q (max_element (map snd (Q_cand st))).
      intros r m Hr Hm. Lqa.lra. }
    unfold prune, full. cbn [Q_cand diff_rev].
    rewrite (length_filter_all _ (Q_cand st) Hall).
    rewrite length_filter_all; [exact Hfull|].
    intros a Ha. destruct (qs_front _ _ _ _ _ _ Hs a Ha) as (_ & _ & Hin).
    exact (Hall _ Hin).
  - apply Z.ltb_ge in E. left. unfold prune. cbn [Q_cand].
    pose proof (kth_smallest_count k (map snd (Q_cand st))) as Hc.
    rewrite length_map, length_filter_map in Hc. specialize (Hc ltac:(lia)).
    set (v := kth_smallest k (map snd (Q_cand st))) in *.
    assert (Hle : (length (List.filter (fun x : Z * Q => Qle_bool x.2 v) (Q_cand st)) ≤
                   length (List.filter (fun p : Z * Q => Qle_bool p.2 (v + 1 / base ^ (ii - 1)))
                             (List.filter (fun _ => true) (Q_cand st))))%nat).
    { apply length_filter_filter. intros p _ Hp. split; [|reflexivity].
      apply Qle_bool_iff in Hp. apply Qle_bool_iff.
      revert Hr Hp. generalize (1 / base ^ (ii - 1))%Q. clearbody v. intros r Hr Hp. Lqa.lra. }
    rewrite (length_filter_all (fun _ => true)) in Hle by reflexivity. lia.
Qed.

(** When nothing has been removed and no node is left to expand, or the last
    level is done, every point below [i] is a candidate. *)
Lemma full_all (ii : Z) (st : knn_state) :
  0 ≤ ii → full ii st → diff_rev st = [] ∨ levels - 1 ≤ ii →
  ∀ x, start ≤ x < start + rows → x < i → x ∈ (Q_cand st).*1.
Proof.
  intros Hii [Hq Hd] Hstop x Hx Hxi.
  destruct (wf_path _ _ _ _ _ _ Hwf x Hx) as (pth & Hp & Hl & Hlen & _).
  destruct (path_last_lookup pth x Hl) as [Hlast Hpos].
  destruct (decide (Z.of_nat (pred (length pth)) ≤ ii)) as [Hle | Hgt].
  - exact (Hq x _ (node_at_lookup _ _ _ _ _ Hp Hlast) Hxi Hle).
  - exfalso. destruct Hstop as [E | E]; [|lia].
    assert (Hb : is_Some (pth !! Z.to_nat ii)) by (apply lookup_lt_is_Some; lia).
    destruct Hb as [b Hb].
    pose proof (path_lookup_lt dist start rows base cover_tree levels Hwf pth Hp
                  (pred (length pth)) (Z.to_nat ii) b x ltac:(lia) Hb Hlast) as Hlt.
    pose proof (Hd b (node_at_lookup _ _ _ _ _ Hp Hb) ltac:(lia)) as Hin.
    rewrite E in Hin. inversion Hin.
Qed.

Lemma all_enough (Qc : list (Z * Q)) :
  (∀ x, start ≤ x < start + rows → x < i → x ∈ Qc.*1) → k ≤ Z.of_nat (length Qc).
Proof.
  intros Hall.
  assert (Hsub : ∀ x, x ∈ range start (Z.min i (start + rows)) → x ∈ Qc.*1).
  { intros x Hx. apply elem_of_range in Hx. apply Hall; lia. }
  assert (Hnr : NoDup (range start (Z.min i (start + rows)))) by apply NoDup_seqZ.
  pose proof (submseteq_length _ _ (NoDup_submseteq _ _ Hnr Hsub)) as Hl.
  rewrite length_range, length_fmap in Hl. lia.
Qed.

Lemma enough_stop (ii : Z) (st : knn_state) :
  0 ≤ ii → enough ii st → diff_rev st = [] ∨ levels - 1 ≤ ii →
  k ≤ Z.of_nat (length (Q_cand st)).
Proof.
  intros Hii [Hlen | Hfull] Hstop; [exact Hlen|].
  apply all_enough, (full_all ii st Hii Hfull Hstop).
Qed.

Lemma early_stop_cases (ii : Z) (e : knn_state) :
  (Z.of_nat (length (diff_rev e)) =? 0) || (ii =? levels - 1) = true →
  diff_rev e = [] ∨ levels - 1 ≤ ii.
Proof.
  intros Es. apply orb_true_iff in Es. destruct Es as [Es | Es].
  - left. apply Z.eqb_eq in Es. destruct (diff_rev e); [reflexivity | simpl in Es; lia].
  - right. apply Z.eqb_eq in Es. lia.
Qed.

Lemma query_levels_enough (n : nat) (ii : Z) (st : knn_state) :
  2 ≤ ii → Z.of_nat n = levels - ii →
  query_sound dist start cover_tree i (ii - 1) st → enough (ii - 1) st →
  k ≤ Z.of_nat (length (Q_cand
        (query_levels dist i k levels base cover_tree start (range ii levels) st))).
Proof.
  revert ii st. induction n as [|n IH]; intros ii st Hii Hn Hs He.
  - rewrite range_nil by lia. simpl. apply (enough_stop (ii - 1)); [lia | exact He | right; lia].
  - rewrite range_cons by lia. cbn [query_levels].
    rewrite (query_level_next dist start base cover_tree levels i k ii st ltac:(lia) (qs_size _ _ _ _ _ _ Hs)).
    cbv zeta.
    pose proof (expand_sound dist start rows base cover_tree levels i Hwf ii st ltac:(lia) Hs) as Hexp.
    pose proof (expand_enough ii st ltac:(lia) Hs He) as Hee.
    set (e := expand dist cover_tree i st) in *.
    pose proof (prune_sound dist start cover_tree i ii (threshold base k ii (Q_cand e)) e Hexp) as Hpr.
    pose proof (prune_enough ii e Hii Hexp Hee) as Hpe.
    destruct ((Z.of_nat (length (diff_rev e)) =? 0) || (ii =? levels - 1)) eqn:Es.
    + apply early_stop_cases in Es.
      destruct (Qle_bool 1 (threshold base k ii (Q_cand e))).
      * simpl. apply (enough_stop ii e); [lia | exact Hee | exact Es].
      * apply (enough_stop ii); [lia | exact Hpe|].
        destruct Es as [E | E]; [left | right; exact E].
        unfold prune. cbn [diff_rev]. rewrite E. reflexivity.
    + destruct (Qle_bool 1 (threshold base k ii (Q_cand e))).
      * apply (IH (ii + 1)); [lia | lia | |]; replace (ii + 1 - 1) with ii by lia.
        { exact (stop_sound dist start cover_tree i ii e false Hexp). }
        { exact Hee. }
      * apply (IH (ii + 1)); [lia | lia | |]; replace (ii + 1 - 1) with ii by lia;
          assumption.
Qed.

Lemma enough_root : enough 0 (mkKnnState [pair_dist dist i start] [start] 1).
Proof.
  right.
  assert (H0 : ∀ x, node_at start cover_tree 0 x → x = start).
  { intros x (pth & [Hp _] & Hl & Hlen).
    rewrite last_lookup, Hlen in Hl. simpl in Hl. congruence. }
  split.
  - intros x dx Hx _ Hdx. assert (dx = 0%nat) by lia. subst dx.
    rewrite (H0 x Hx). left.
  - intros x Hx _. rewrite (H0 x Hx). left.
Qed.

Lemma query_levels_enough_from_root :
  2 ≤ levels → start < i →
  k ≤ Z.of_nat (length (Q_cand
        (query_levels dist i k levels base cover_tree start (range 1 levels)
           (mkKnnState [] [start] 1)))).
Proof.
  intros Hlev Hi. rewrite range_cons by lia. cbn [query_levels].
  rewrite query_level_first. cbv zeta.
  pose proof (expand_sound dist start rows base cover_tree levels i Hwf 1 _ ltac:(lia)
                (query_sound_root dist start cover_tree i Hi)) as Hexp.
  pose proof (expand_enough 1 _ ltac:(lia) (query_sound_root dist start cover_tree i Hi) enough_root)
    as Hee.
  set (e := expand dist cover_tree i (mkKnnState [pair_dist dist i start] [start] 1)) in *.
  destruct (1 =? levels - 1) eqn:Es.
  - apply Z.eqb_eq in Es. simpl. apply (enough_stop 1 e); [lia | exact Hee | right; lia].
  - apply Z.eqb_neq in Es.
    apply (query_levels_enough (Z.to_nat (levels - 2)) 2); [lia | lia | |].
    + exact (stop_sound dist start cover_tree i 1 e false Hexp).
    + exact Hee.
Qed.

(** With at least [k] points of the tree below [i], the query is a scan
    over distinct points of the tree below [i]. *)
Lemma find_kNN_CoverTree_scan_tree (neighbors_i : list Z) :
  2 ≤ levels → start < i → length neighbors_i = Z.to_nat k →
  ∃ c, NoDup c ∧ (Z.to_nat k ≤ length c)%nat ∧
       (∀ x, x ∈ c → start ≤ x < Z.min i (start + rows)) ∧
       find_kNN_CoverTree dist i k levels base neighbors_i cover_tree =
       (map snd (brute_force_scan dist i k neighbors_i c),
        map fst (brute_force_scan dist i k neighbors_i c)).
Proof.
  intros Hlev Hi Hlen.
  destruct (query_levels_sound_from_root dist start rows base cover_tree levels i k Hwf Hlev Hi)
    as (Hsize & Hnd & Hval).
  pose proof (query_levels_enough_from_root Hlev Hi) as Hen.
  unfold find_kNN_CoverTree. cbv zeta.
  assert (Hroot : znth 0 (map_at cover_tree (-1)) 0 = start).
  { unfold map_at. rewrite (wf_root _ _ _ _ _ _ Hwf). reflexivity. }
  rewrite Hroot.
  set (st := query_levels dist i k levels base cover_tree start (range 1 levels)
               (mkKnnState [] [start] 1)) in *.
  assert (E : (k <=? Q_before_size st) = true) by (apply Z.leb_le; lia).
  rewrite E. exists (Q_cand st).*1.
  split; [exact Hnd|]. split; [rewrite length_fmap; lia|]. split.
  - intros x Hx. apply list_elem_of_fmap in Hx. destruct Hx as ([j d] & -> & Hj).
    apply Hval in Hj. simpl. lia.
  - rewrite Hsize.
    rewrite (fold_left_znth (fun h (p : Z * Q) => heap_offer k h p.2 p.1)).
    rewrite (fold_left_pairs (dist i)) by (intros j d H; apply Hval, H).
    unfold heap_neighbors. rewrite drop_ge by lia. rewrite app_nil_r. reflexivity.
Qed.

End CoverTreeQueryEnough.

(** X7. For every distance whose values are numbers (no NaN; it need not be
    a metric): with a base of at least one, a tree that [CoverTree_kNN] built
    over at least two points [0 .. rows-1] and at least [k] points of the
    tree below [i], the query [find_kNN_CoverTree] takes its neighbours among
    the points of the tree. Every neighbour is below both [i] and [rows]; for
    a point [i] beyond the tree, no point outside the tree is a neighbour. *)
Theorem find_kNN_CoverTree_within_tree (dist : Z → Z → Q) (base : Q) (fuel : nat) (rows i k : Z)
    (neighbors_i : list Z) (cover_tree : int_map) (levels : Z) :
  CoverTree_kNN dist fuel rows base 0 = CT_built cover_tree levels →
  (1 <= base)%Q → 2 ≤ rows → 1 ≤ k ≤ Z.min i rows → length neighbors_i = Z.to_nat k →
  ∀ x, x ∈ (find_kNN_CoverTree dist i k levels base neighbors_i cover_tree).1 →
    0 ≤ x < Z.min i rows.
Proof.
  intros Hrun Hbase Hrows Hk Hlen x Hx.
  pose proof (CoverTree_kNN_wf dist 0 rows base ltac:(lia) fuel cover_tree levels Hrun) as Hwf.
  assert (Hlev : 2 ≤ levels).
  { destruct (wf_path _ _ _ _ _ _ Hwf 1 ltac:(lia)) as (pth & [H0 _] & Hl & Hle & _).
    rewrite last_lookup in Hl. destruct pth as [|a [|b pth]]; simpl in *; [discriminate| |lia].
    congruence. }
  destruct (find_kNN_CoverTree_scan_tree dist 0 rows base cover_tree levels i k Hwf Hbase
              ltac:(lia) ltac:(lia) neighbors_i Hlev ltac:(lia) Hlen) as (c & Hc & Hkc & Hsub & Heq).
  rewrite Heq in Hx. cbn [fst] in Hx.
  destruct (brute_force_scan_spec dist i k neighbors_i c ltac:(lia) Hlen Hc Hkc)
    as (_ & _ & H3 & _).
  replace (Z.min i rows) with (Z.min i (0 + rows)) by (f_equal; lia).
  apply Hsub, H3, Hx.
Qed.

Lemma find_kNN_CoverTree_within_tree_witness :
  Forall (fun x => 0 ≤ x < Z.min 7 5)
    (find_kNN_CoverTree ex_skew_dist 7 2 ex_skew_levels 2 [0; 0] ex_skew_tree).1.
Proof.
  apply Forall_forall.
  apply (find_kNN_CoverTree_within_tree ex_skew_dist 2 5 5 7 2 [0; 0] ex_skew_tree ex_skew_levels).
  - vm_compute. reflexivity.
  - unfold Qle. simpl. lia.
  - lia.
  - lia.
  - reflexivity.
Defined.

(** ** The neighbour rows that the search leaves *)

Lemma zset_znth_id {A : Type} (d : A) (l : list A) (i : Z) : zset l i (znth d l i) = l.
Proof.
  unfold zset, znth. destruct (i <? 0); [reflexivity|].
  destruct (l !! Z.to_nat i) as [x|] eqn:E.
  - rewrite (nth_lookup_Some _ _ _ _ E). apply list_insert_id, E.
  - apply list_insert_ge. apply lookup_ge_None, E.
Qed.

(** A loop that rewrites the row [i - s] at each index [i] it visits. *)
Lemma fold_rows_spec {S : Type} (proj : S → list (list Z)) (step : S → Z → S) (s : Z)
    (g : Z → list Z → list Z) :
  (∀ st i, proj (step st i) = zset (proj st) (i - s) (g i (znth [] (proj st) (i - s)))) →
  ∀ idx st, NoDup idx →
    length (proj (fold_left step idx st)) = length (proj st) ∧
    ∀ j, 0 ≤ j - s < Z.of_nat (length (proj st)) →
      znth [] (proj (fold_left step idx st)) (j - s) =
      if decide (j ∈ idx) then g j (znth [] (proj st) (j - s)) else znth [] (proj st) (j - s).
Proof.
  intros Hstep idx. induction idx as [|i idx IH]; intros st Hnd.
  - split; [reflexivity|]. intros j _. reflexivity.
  - apply NoDup_cons in Hnd. destruct Hnd as [Hi Hnd]. simpl fold_left.
    destruct (IH (step st i) Hnd) as [Hlen Hrow].
    assert (Hl : length (proj (step st i)) = length (proj st)).
    { rewrite Hstep. apply length_zset. }
    split; [rewrite Hlen; exact Hl|].
    intros j Hj. rewrite Hrow by (rewrite Hl; exact Hj).
    destruct (decide (j = i)) as [-> | Hne].
    + destruct (decide (i ∈ idx)) as [H | _]; [contradiction|].
      destruct (decide (i ∈ i :: idx)) as [_ | H]; [|exfalso; apply H; left].
      rewrite Hstep. apply znth_zset_eq. exact Hj.
    + assert (Hrow' : znth [] (proj (step st i)) (j - s) = znth [] (proj st) (j - s)).
      { rewrite Hstep. apply znth_zset_ne. lia. }
      rewrite Hrow'.
      destruct (decide (j ∈ idx)) as [H | H], (decide (j ∈ i :: idx)) as [H' | H'];
        try reflexivity.
      * exfalso. apply H'. right. exact H.
      * exfalso. apply elem_of_cons in H'. destruct H' as [-> | H']; [congruence | contradiction].
Qed.

Lemma length_resize_int (n : Z) (v : list Z) : length (resize_int n v) = Z.to_nat n.
Proof. unfold resize_int. rewrite length_app, length_take, length_replicate. lia. Qed.

(** The row of the point [i] after the first loop (lines 761-787). *)
Definition init_row (num_neighbors i : Z) (row : list Z) : list Z :=
  if (0 <? i) && (i <=? num_neighbors) then range 0 i
  else if num_neighbors <? i then resize_int num_neighbors row
  else row.

(** The row that the brute-force loop and the cover-tree loop write. *)
Definition brute_force_row (dist : Z → Z → Q) (num_neighbors max_ind_nn i : Z) (row : list Z)
  : list Z :=
  heap_neighbors num_neighbors
    (brute_force_scan dist i num_neighbors row (range 0 (Z.min i max_ind_nn))) row.

Definition cover_tree_row (dist : Z → Z → Q) (num_neighbors level : Z) (base : Q)
    (cover_tree : int_map) (i : Z) (row : list Z) : list Z :=
  (find_kNN_CoverTree dist i num_neighbors level base row cover_tree).1.

Section SearchRows.

Variables (dist coord_dist : Z → Z → Q) (EPSILON_NUMBERS : Q).

Lemma init_step_nn (k s : Z) (check save : bool) (st : nn_state) (i : Z) :
  (init_step coord_dist EPSILON_NUMBERS k s check save st i).1.1 =
  zset st.1.1 (i - s) (init_row k i (znth [] st.1.1 (i - s))).
Proof.
  destruct st as [[nn d] h]. unfold init_step, init_row.
  destruct ((0 <? i) && (i <=? k)); [reflexivity|].
  destruct (k <? i); [reflexivity|]. simpl. symmetry. apply zset_znth_id.
Qed.

Lemma save_obs_distances_nn (k s : Z) (check save : bool) (st : nn_state) (i : Z) :
  (save_obs_distances coord_dist EPSILON_NUMBERS k s check save st i).1.1 = st.1.1.
Proof. destruct st as [[nn d] h]. reflexivity. Qed.

Lemma brute_force_step_nn (k s max_ind_nn : Z) (check save : bool) (st : nn_state) (i : Z) :
  (brute_force_step dist coord_dist EPSILON_NUMBERS k s max_ind_nn check save st i).1.1 =
  zset st.1.1 (i - s) (brute_force_row dist k max_ind_nn i (znth [] st.1.1 (i - s))).
Proof. destruct st as [[nn d] h]. reflexivity. Qed.

Lemma cover_tree_step_nn (k s level : Z) (base : Q) (ct : int_map) (check save : bool)
    (st : nn_state) (i : Z) :
  (cover_tree_step dist coord_dist EPSILON_NUMBERS k s level base ct check save st i).1.1 =
  zset st.1.1 (i - s) (cover_tree_row dist k level base ct i (znth [] st.1.1 (i - s))).
Proof. destruct st as [[nn d] h]. reflexivity. Qed.

Lemma NoDup_brute_force_indices (n k s : Z) (p : bool) : NoDup (brute_force_indices n k s p).
Proof. unfold brute_force_indices. destruct (k <? n); [apply NoDup_seqZ | constructor]. Qed.

Lemma NoDup_cover_tree_indices (n k s : Z) (p : bool) : NoDup (cover_tree_indices n k s p).
Proof.
  unfold cover_tree_indices. destruct (k <? n); [|constructor]. cbv zeta.
  destruct (_ <? n); [apply NoDup_seqZ | constructor].
Qed.

(** The indices of the two search loops: disjoint, beyond the first [k]
    points, and together all the points beyond [k] that the call handles. *)
Lemma search_indices (n k s : Z) (p : bool) (i : Z) :
  (i ∈ brute_force_indices n k s p → k < i ∧ s ≤ i < n ∧ i ∉ cover_tree_indices n k s p) ∧
  (i ∈ cover_tree_indices n k s p → k ≤ i < n) ∧
  (k < i → s ≤ i < n → i ∈ brute_force_indices n k s p ∨ i ∈ cover_tree_indices n k s p).
Proof.
  unfold brute_force_indices, cover_tree_indices, brute_force_threshold_of, first_search_index.
  destruct (k <? n) eqn:E; cbv zeta.
  - apply Z.ltb_lt in E.
    set (f := if s <=? k then k + 1 else s).
    assert (Hf : k < f ∧ s ≤ f) by (unfold f; destruct (Z.leb_spec s k); lia).
    set (t := if p then Z.min n (Z.max (f + 500) k) else Z.min n (Z.max 1000 k)).
    assert (Ht : k ≤ t ≤ n) by (unfold t; destruct p; lia).
    assert (Hfi : k < i → s ≤ i → f ≤ i) by (unfold f; destruct (Z.leb_spec s k); lia).
    destruct (t <? n) eqn:Et; rewrite ?elem_of_range.
    + apply Z.ltb_lt in Et. split; [|split]; [| lia | lia].
      intros [H1 H2]. split; [lia|]. split; [lia|]. intros [H3 H4]. lia.
    + apply Z.ltb_ge in Et. split; [|split].
      * intros [H1 H2]. split; [lia|]. split; [lia|]. apply not_elem_of_nil.
      * intros H. inversion H.
      * intros Hk Hi. left. lia.
  - apply Z.ltb_ge in E. split; [|split]; try (intros H; inversion H; fail).
    intros Hk Hi. lia.
Qed.

Lemma CoverTree_kNN_builds (base : Q) (start rows : Z) :
  0 ≤ start → 1 ≤ rows →
  ∃ cover_tree level, CoverTree_kNN dist (Z.to_nat rows) rows base start = CT_built cover_tree level.
Proof.
  intros Hstart Hrows. unfold CoverTree_kNN.
  destruct (rows <=? 0) eqn:E; [apply Z.leb_le in E; lia|].
  assert (Hrows0 : 0 ≤ rows) by lia.
  destruct (CoverTree_levels_terminates dist start rows Hstart base (Z.to_nat rows) _ _ 0 Hrows0
              (tree_inv_init dist start rows Hstart Hrows)) as (ct & cpo & level & H1 & _).
  { rewrite map_size_singleton. lia. }
  eauto.
Qed.

(** The call returns, and each row is what the loop that handles the point
    makes of the row the first loop left. *)
Lemma search_rows (num_data num_neighbors : Z)
    (neighbors0 : list (list Z)) (dist_obs0 : list (list Q)) (dist_between0 : list (list (list Q)))
    (start_at end_search_at : Z) (check save_distances : bool) (base : Q)
    (prediction cond_on_all : bool) (num_data_obs : Z) :
  let k := clamp_num_neighbors num_neighbors (default_end_search_at num_data end_search_at) in
  let max_ind_nn := if cond_on_all then num_data else num_data_obs in
  let rows := if prediction && negb cond_on_all then num_data_obs else num_data in
  Z.of_nat (length neighbors0) = num_data - start_at →
  (save_distances = true →
   Z.of_nat (length dist_obs0) = num_data - start_at ∧
   Z.of_nat (length dist_between0) = num_data - start_at) →
  (cover_tree_indices num_data k start_at prediction ≠ [] → 1 ≤ rows) →
  ∃ out cover_tree level,
    find_nearest_neighbors_Vecchia_FSA_fast dist coord_dist EPSILON_NUMBERS num_data num_neighbors
      neighbors0 dist_obs0 dist_between0 start_at end_search_at check save_distances
      base prediction cond_on_all num_data_obs = Search_done out ∧
    (cover_tree_indices num_data k start_at prediction ≠ [] →
     CoverTree_kNN dist (Z.to_nat rows) rows base 0 = CT_built cover_tree level) ∧
    length (neighbors out) = length neighbors0 ∧
    ∀ i, start_at ≤ i < num_data →
      let row1 := init_row k i (znth [] neighbors0 (i - start_at)) in
      znth [] (neighbors out) (i - start_at) =
      if decide (i ∈ brute_force_indices num_data k start_at prediction)
      then brute_force_row dist k max_ind_nn i row1
      else if decide (i ∈ cover_tree_indices num_data k start_at prediction)
           then cover_tree_row dist k level base cover_tree i row1
           else row1.
Proof.
  intros k max_ind_nn rows Hlen Hsave Htree.
  unfold find_nearest_neighbors_Vecchia_FSA_fast.
  assert (E1 : (Z.of_nat (length neighbors0) =? num_data - start_at) = true) by (apply Z.eqb_eq, Hlen).
  rewrite E1. cbn [negb].
  assert (E2 : save_distances && negb (Z.of_nat (length dist_obs0) =? num_data - start_at) = false).
  { destruct save_distances; [|reflexivity]. destruct (Hsave eq_refl) as [H _].
    apply Z.eqb_eq in H. rewrite H. reflexivity. }
  assert (E3 : save_distances && negb (Z.of_nat (length dist_between0) =? num_data - start_at) = false).
  { destruct save_distances; [|reflexivity]. destruct (Hsave eq_refl) as [_ H].
    apply Z.eqb_eq in H. rewrite H. reflexivity. }
  rewrite E2, E3. cbv zeta. fold k. fold max_ind_nn. fold rows.
  set (st0 := (neighbors0, dist_obs0, false) : nn_state).
  set (st1 := fold_left (init_step coord_dist EPSILON_NUMBERS k start_at check save_distances)
                (range start_at num_data) st0).
  set (bf := brute_force_indices num_data k start_at prediction) in *.
  set (ct := cover_tree_indices num_data k start_at prediction) in *.
  set (st2 := fold_left (brute_force_step dist coord_dist EPSILON_NUMBERS k start_at max_ind_nn
                           check save_distances) bf st1).
  destruct (fold_rows_spec (fun st : nn_state => st.1.1) _ start_at (init_row k)
              (init_step_nn k start_at check save_distances) (range start_at num_data) st0
              (NoDup_seqZ _ _)) as [L1 R1].
  fold st1 in L1, R1.
  destruct (fold_rows_spec (fun st : nn_state => st.1.1) _ start_at (brute_force_row dist k max_ind_nn)
              (brute_force_step_nn k start_at max_ind_nn check save_distances) bf st1
              (NoDup_brute_force_indices _ _ _ _)) as [L2 R2].
  fold st2 in L2, R2. cbn beta in L1, R1, L2, R2. simpl in L1, R1.
  assert (Hrow1 : ∀ i, start_at ≤ i < num_data →
            znth [] st1.1.1 (i - start_at) = init_row k i (znth [] neighbors0 (i - start_at))).
  { intros i Hi. rewrite R1 by lia.
    destruct (decide (i ∈ range start_at num_data)) as [_ | H]; [reflexivity|].
    exfalso. apply H, elem_of_range. lia. }
  assert (Hfinish : ∀ (st3 : nn_state) log2, ∃ out,
            (let '(nn, d_obs, has_dup) := st3 in
             let first_i := if start_at =? 0 then 1 else start_at in
             let '(d_between, has_dup') :=
               fold_left (between_step coord_dist EPSILON_NUMBERS start_at check save_distances nn)
                 (range first_i num_data) (dist_between0, has_dup) in
             Search_done (mkNNOutput nn d_obs d_between (if check then has_dup' else false)
                            (clamp_log num_neighbors (default_end_search_at num_data end_search_at)
                             ++ log2))) = Search_done out ∧
            neighbors out = st3.1.1).
  { intros [[nn d_obs] has_dup] log2. cbv zeta.
    destruct (fold_left (between_step _ _ _ _ _ _) _ _) as [d_between has_dup'].
    eexists. split; reflexivity. }
  destruct ct as [|i0 idx] eqn:Ect.
  - destruct (Hfinish st2 []) as (out & Hout & Hnn).
    exists out, ∅, 0. split; [exact Hout|]. split; [intros H; congruence|].
    rewrite Hnn. split; [lia|].
    intros i Hi. rewrite R2 by lia. rewrite (Hrow1 i Hi).
    destruct (decide (i ∈ bf)); [reflexivity|].
    destruct (decide (i ∈ [])) as [H | _]; [inversion H | reflexivity].
  - destruct (CoverTree_kNN_builds base 0 rows ltac:(lia) (Htree ltac:(discriminate)))
      as (cover_tree & level & Hbuilt).
    rewrite Hbuilt.
    set (st3 := fold_left (cover_tree_step dist coord_dist EPSILON_NUMBERS k start_at level base
                             cover_tree check save_distances) (i0 :: idx) st2).
    destruct (fold_rows_spec (fun st : nn_state => st.1.1) _ start_at
                (cover_tree_row dist k level base cover_tree)
                (cover_tree_step_nn k start_at level base cover_tree check save_distances)
                (i0 :: idx) st2) as [L3 R3].
    { rewrite <- Ect. apply NoDup_cover_tree_indices. }
    fold st3 in L3, R3. cbn beta in L3, R3.
    destruct (Hfinish st3 [(" time until CoverTrees for kNN = %g ", []);
                           ("num threads %i %i %i", [1; num_data; 0])]) as (out & Hout & Hnn).
    exists out, cover_tree, level. split; [exact Hout|]. split; [intros _; reflexivity|].
    rewrite Hnn. split; [lia|].
    intros i Hi. rewrite R3 by lia. rewrite R2 by lia. rewrite (Hrow1 i Hi).
    destruct (search_indices num_data k start_at prediction i) as (Hbf & _ & _).
    destruct (decide (i ∈ bf)) as [Hin | Hnin].
    + destruct (Hbf Hin) as (_ & _ & Hno).
      fold ct in Hno. rewrite Ect in Hno.
      destruct (decide (i ∈ i0 :: idx)) as [H | _]; [contradiction | reflexivity].
    + reflexivity.
Qed.

End SearchRows.

Lemma cover_tree_wf_levels (dist : Z → Z → Q) (rows : Z) (base : Q) (cover_tree : int_map)
    (levels : Z) :
  cover_tree_wf dist 0 rows base cover_tree levels → 2 ≤ rows → 2 ≤ levels.
Proof.
  intros Hwf Hrows.
  destruct (wf_path _ _ _ _ _ _ Hwf 1 ltac:(lia)) as (pth & [H0 _] & Hl & Hle & _).
  rewrite last_lookup in Hl. destruct pth as [|a [|b pth]]; simpl in *; [discriminate| |lia].
  congruence.
Qed.

Lemma init_row_length (k i : Z) (row : list Z) :
  0 < i → 1 ≤ k → k ≤ i → length (init_row k i row) = Z.to_nat k.
Proof.
  intros Hi Hk Hki. unfold init_row.
  destruct (Z.ltb_spec 0 i); [|lia]. destruct (Z.leb_spec i k); simpl.
  - rewrite length_range. lia.
  - destruct (Z.ltb_spec k i); [|lia]. apply length_resize_int.
Qed.

Lemma init_row_first (k i : Z) (row : list Z) :
  0 < i → i ≤ k → init_row k i row = range 0 i.
Proof.
  intros Hi Hki. unfold init_row.
  destruct (Z.ltb_spec 0 i); [|lia]. destruct (Z.leb_spec i k); [reflexivity | lia].
Qed.

(** The row of a scan over at least [k] distinct candidates. *)
Lemma scan_row (dist : Z → Z → Q) (i k : Z) (row c : list Z) :
  1 ≤ k → length row = Z.to_nat k → NoDup c → (Z.to_nat k ≤ length c)%nat →
  let N := map snd (brute_force_scan dist i k row c) in
  length N = Z.to_nat k ∧ NoDup N ∧ ∀ x, x ∈ N → x ∈ c.
Proof.
  intros Hk Hlen Hc Hkc.
  destruct (brute_force_scan_spec dist i k row c Hk Hlen Hc Hkc) as (H1 & H2 & H3 & _).
  split; [exact H1|]. split; [exact H2 | exact H3].
Qed.

Lemma brute_force_row_scan (dist : Z → Z → Q) (k max_ind_nn i : Z) (row : list Z) :
  length row = Z.to_nat k →
  brute_force_row dist k max_ind_nn i row =
  map snd (brute_force_scan dist i k row (range 0 (Z.min i max_ind_nn))).
Proof.
  intros Hlen. unfold brute_force_row, heap_neighbors.
  rewrite drop_ge by lia. apply app_nil_r.
Qed.

(** *** Which search handles which point *)



(** X8. In a call with one thread (a build without OpenMP, or
    [omp_get_max_threads() = 1]) on distances that are numbers (no NaN;
    metric or not): when [start_at] is not negative, the CHECKs on the sizes
    hold, the clamped number of neighbours [k] is at least one and at most
    the number of points that may be neighbours, the cover-tree loop starts
    at a point the call handles and its tree has at least two points, the
    search returns, and for every point [i > 0] it handles the row of
    neighbours holds [min(i, k)] distinct points, all of them before [i]. *)
Theorem search_neighbors_are_earlier_points
    (dist coord_dist : Z → Z → Q) (EPSILON_NUMBERS : Q) (num_data num_neighbors : Z)
    (neighbors0 : list (list Z)) (dist_obs0 : list (list Q)) (dist_between0 : list (list (list Q)))
    (start_at end_search_at : Z) (check save_distances : bool) (base : Q)
    (prediction cond_on_all : bool) (num_data_obs : Z) :
  let k := clamp_num_neighbors num_neighbors (default_end_search_at num_data end_search_at) in
  let max_ind_nn := if cond_on_all then num_data else num_data_obs in
  let rows := if prediction && negb cond_on_all then num_data_obs else num_data in
  0 ≤ start_at →
  Z.of_nat (length neighbors0) = num_data - start_at →
  (save_distances = true →
   Z.of_nat (length dist_obs0) = num_data - start_at ∧
   Z.of_nat (length dist_between0) = num_data - start_at) →
  1 ≤ k ≤ max_ind_nn →
  start_at ≤ brute_force_threshold_of num_data k (first_search_index start_at k) prediction →
  (cover_tree_indices num_data k start_at prediction ≠ [] → 2 ≤ rows) →
  ∃ out,
    find_nearest_neighbors_Vecchia_FSA_fast dist coord_dist EPSILON_NUMBERS num_data num_neighbors
      neighbors0 dist_obs0 dist_between0 start_at end_search_at check save_distances
      base prediction cond_on_all num_data_obs = Search_done out ∧
    length (neighbors out) = length neighbors0 ∧
    ∀ i, 0 < i → start_at ≤ i < num_data →
      let N := znth [] (neighbors out) (i - start_at) in
      length N = Z.to_nat (Z.min i k) ∧ NoDup N ∧ ∀ x, x ∈ N → 0 ≤ x < i.
Proof.
  intros k max_ind_nn rows Hstart Hlen Hsave Hk _ Htree.
  destruct (search_rows dist coord_dist EPSILON_NUMBERS num_data num_neighbors neighbors0
              dist_obs0 dist_between0 start_at end_search_at check save_distances base
              prediction cond_on_all num_data_obs Hlen Hsave)
    as (out & cover_tree & level & Hout & Hbuilt & Hlen' & Hrows).
  { intros H. specialize (Htree H). fold rows. lia. }
  fold k in Hbuilt, Hrows. fold max_ind_nn in Hrows. fold rows in Hbuilt.
  exists out. split; [exact Hout|]. split; [exact Hlen'|].
  intros i Hi0 Hi N. unfold N. rewrite (Hrows i Hi). clear N.
  destruct (search_indices num_data k start_at prediction i) as (Hbf & Hct & Hall).
  set (row1 := init_row k i (znth [] neighbors0 (i - start_at))).
  destruct (decide (i ∈ brute_force_indices num_data k start_at prediction)) as [Hin | Hnin].
  - destruct (Hbf Hin) as (Hki & _ & _).
    assert (Hl1 : length row1 = Z.to_nat k) by (apply init_row_length; lia).
    rewrite (brute_force_row_scan dist k max_ind_nn i row1 Hl1).
    destruct (scan_row dist i k row1 (range 0 (Z.min i max_ind_nn)) ltac:(lia) Hl1
                (NoDup_seqZ _ _) ltac:(rewrite length_range; lia)) as (H1 & H2 & H3).
    split; [rewrite H1; lia|]. split; [exact H2|].
    intros x Hx. apply H3, elem_of_range in Hx. lia.
  - destruct (decide (i ∈ cover_tree_indices num_data k start_at prediction)) as [Hin | Hnin'].
    + destruct (Hct Hin) as [Hki _].
      assert (Hne : cover_tree_indices num_data k start_at prediction ≠ []).
      { intros E. rewrite E in Hin. inversion Hin. }
      specialize (Hbuilt Hne). specialize (Htree Hne). fold rows in Htree.
      pose proof (CoverTree_kNN_wf dist 0 rows base ltac:(lia) _ cover_tree level Hbuilt) as Hwf.
      assert (Hl1 : length row1 = Z.to_nat k) by (apply init_row_length; lia).
      destruct (find_kNN_CoverTree_scan dist 0 rows base cover_tree level i k Hwf row1
                  (cover_tree_wf_levels dist rows base cover_tree level Hwf Htree)
                  ltac:(lia) ltac:(lia) Hl1) as (c & Hc & Hkc & Hsub & Heq).
      unfold cover_tree_row. rewrite Heq. cbn [fst].
      destruct (scan_row dist i k row1 c ltac:(lia) Hl1 Hc Hkc) as (H1 & H2 & H3).
      split; [rewrite H1; lia|]. split; [exact H2|].
      intros x Hx. apply Hsub, H3, Hx.
    + assert (Hik : i ≤ k).
      { destruct (Z_le_gt_dec i k) as [H | H]; [exact H|].
        destruct (Hall ltac:(lia) Hi); contradiction. }
      unfold row1. rewrite (init_row_first k i _ Hi0 Hik).
      split; [rewrite length_range; lia|]. split; [apply NoDup_seqZ|].
      intros x Hx. apply elem_of_range in Hx. exact Hx.
Qed.

(** 1002 points and two neighbours: the brute-force loop handles the points
    3 to 999 and the cover-tree loop the points 1000 and 1001. *)
Lemma search_neighbors_are_earlier_points_witness :
  cover_tree_indices 1002 (clamp_num_neighbors 2 (default_end_search_at 1002 (-1))) 0 false
  = [1000; 1001] ∧
  ∃ out,
    find_nearest_neighbors_Vecchia_FSA_fast ex_skew_dist ex_line_dist (1 # 100000) 1002 2
      (replicate 1002 []) [] [] 0 (-1) false false 2 false true 1002 = Search_done out ∧
    length (neighbors out) = length (replicate 1002 ([] : list Z)) ∧
    ∀ i, 0 < i → 0 ≤ i < 1002 →
      let N := znth [] (neighbors out) (i - 0) in
      length N = Z.to_nat (Z.min i (clamp_num_neighbors 2 (default_end_search_at 1002 (-1)))) ∧
      NoDup N ∧ ∀ x, x ∈ N → 0 ≤ x < i.
Proof.
  split; [vm_compute; reflexivity|].
  apply (search_neighbors_are_earlier_points ex_skew_dist ex_line_dist (1 # 100000) 1002 2
           (replicate 1002 []) [] [] 0 (-1) false false 2 false true 1002).
  - lia.
  - vm_compute. reflexivity.
  - intros H. discriminate.
  - vm_compute. split; discriminate.
  - vm_compute. discriminate.
  - intros _. simpl. lia.
Defined.

(** X9. In a prediction call with one thread (a build without OpenMP, or
    [omp_get_max_threads() = 1]) that does not condition on all points
    ([prediction = true], [cond_on_all = false]), on distances that are
    numbers (no NaN; metric or not): when [start_at] is not negative, the
    CHECKs on the sizes hold, the base is at least one, the clamped number of
    neighbours [k] is between one and the number of observed points, and the
    tree has at least two points when the cover-tree loop runs, the search
    returns and every neighbour of every point [i > 0] the call handles is an
    observed point: its index is below [num_data_obs]. *)
Theorem prediction_neighbors_are_observed
    (dist coord_dist : Z → Z → Q) (EPSILON_NUMBERS : Q) (num_data num_neighbors : Z)
    (neighbors0 : list (list Z)) (dist_obs0 : list (list Q)) (dist_between0 : list (list (list Q)))
    (start_at end_search_at : Z) (check save_distances : bool) (base : Q) (num_data_obs : Z) :
  let k := clamp_num_neighbors num_neighbors (default_end_search_at num_data end_search_at) in
  0 ≤ start_at →
  Z.of_nat (length neighbors0) = num_data - start_at →
  (save_distances = true →
   Z.of_nat (length dist_obs0) = num_data - start_at ∧
   Z.of_nat (length dist_between0) = num_data - start_at) →
  (1 <= base)%Q →
  1 ≤ k ≤ num_data_obs →
  (cover_tree_indices num_data k start_at true ≠ [] → 2 ≤ num_data_obs) →
  ∃ out,
    find_nearest_neighbors_Vecchia_FSA_fast dist coord_dist EPSILON_NUMBERS num_data num_neighbors
      neighbors0 dist_obs0 dist_between0 start_at end_search_at check save_distances
      base true false num_data_obs = Search_done out ∧
    ∀ i, 0 < i → start_at ≤ i < num_data →
      ∀ x, x ∈ znth [] (neighbors out) (i - start_at) → 0 ≤ x < Z.min i num_data_obs.
Proof.
  intros k Hstart Hlen Hsave Hbase Hk Htree.
  destruct (search_rows dist coord_dist EPSILON_NUMBERS num_data num_neighbors neighbors0
              dist_obs0 dist_between0 start_at end_search_at check save_distances base
              true false num_data_obs Hlen Hsave)
    as (out & cover_tree & level & Hout & Hbuilt & _ & Hrows).
  { intros H. specialize (Htree H). simpl. lia. }
  fold k in Hbuilt, Hrows. cbn [andb negb] in Hbuilt, Hrows.
  exists out. split; [exact Hout|].
  intros i Hi0 Hi x. rewrite (Hrows i Hi).
  destruct (search_indices num_data k start_at true i) as (Hbf & Hct & Hall).
  set (row1 := init_row k i (znth [] neighbors0 (i - start_at))).
  destruct (decide (i ∈ brute_force_indices num_data k start_at true)) as [Hin | Hnin].
  - destruct (Hbf Hin) as (Hki & _ & _).
    assert (Hl1 : length row1 = Z.to_nat k) by (apply init_row_length; lia).
    rewrite (brute_force_row_scan dist k num_data_obs i row1 Hl1).
    destruct (scan_row dist i k row1 (range 0 (Z.min i num_data_obs)) ltac:(lia) Hl1
                (NoDup_seqZ _ _) ltac:(rewrite length_range; lia)) as (_ & _ & H3).
    intros Hx. apply H3, elem_of_range in Hx. exact Hx.
  - destruct (decide (i ∈ cover_tree_indices num_data k start_at true)) as [Hin | Hnin'].
    + destruct (Hct Hin) as [Hki _].
      assert (Hne : cover_tree_indices num_data k start_at true ≠ []).
      { intros E. rewrite E in Hin. inversion Hin. }
      specialize (Hbuilt Hne). specialize (Htree Hne).
      pose proof (CoverTree_kNN_wf dist 0 num_data_obs base ltac:(lia) _ cover_tree level Hbuilt)
        as Hwf.
      assert (Hl1 : length row1 = Z.to_nat k) by (apply init_row_length; lia).
      destruct (find_kNN_CoverTree_scan_tree dist 0 num_data_obs base cover_tree level i k Hwf
                  Hbase ltac:(lia) ltac:(lia) row1
                  (cover_tree_wf_levels dist num_data_obs base cover_tree level Hwf Htree)
                  ltac:(lia) Hl1) as (c & Hc & Hkc & Hsub & Heq).
      unfold cover_tree_row. rewrite Heq. cbn [fst].
      destruct (scan_row dist i k row1 c ltac:(lia) Hl1 Hc Hkc) as (_ & _ & H3).
      intros Hx. apply H3, Hsub in Hx. lia.
    + assert (Hik : i ≤ k).
      { destruct (Z_le_gt_dec i k) as [H | H]; [exact H|].
        destruct (Hall ltac:(lia) Hi); contradiction. }
      unfold row1. rewrite (init_row_first k i _ Hi0 Hik).
      intros Hx. apply elem_of_range in Hx. lia.
Qed.

(** Five observed points and 507 prediction points, twelve neighbours asked
    for (five after the clamp): the cover-tree loop handles the points 506 to
    511. *)
Lemma prediction_neighbors_are_observed_witness :
  cover_tree_indices 512 (clamp_num_neighbors 12 (default_end_search_at 512 4)) 5 true
  = range 506 512 ∧
  ∃ out,
    find_nearest_neighbors_Vecchia_FSA_fast ex_skew_dist ex_line_dist (1 # 100000) 512 12
      (replicate 507 []) [] [] 5 4 false false 2 true false 5 = Search_done out ∧
    ∀ i, 0 < i → 5 ≤ i < 512 →
      ∀ x, x ∈ znth [] (neighbors out) (i - 5) → 0 ≤ x < Z.min i 5.
Proof.
  split; [vm_compute; reflexivity|].
  apply (prediction_neighbors_are_observed ex_skew_dist ex_line_dist (1 # 100000) 512 12
           (replicate 507 []) [] [] 5 4 false false 2 5).
  - lia.
  - vm_compute. reflexivity.
  - intros H. discriminate.
  - unfold Qle. simpl. lia.
  - vm_compute. split; discriminate.
  - intros _. lia.
Defined.

(** ** Updating the neighbours ([UpdateNearestNeighbors]) *)

(** Outcome of [UpdateNearestNeighbors]: the by-reference arguments and the
    lines written with [Log::REInfo]; a failed [CHECK]; or the search ended
    without a result ([std::length_error], loop bound of the model). *)
Inductive update_outcome (St : Type) : Type :=
| Updated (st : St) (log : list (string * list Z))
| Update_check_failed (what : string)
| Update_length_error
| Update_out_of_fuel.
Arguments Updated {St} _ _.
Arguments Update_check_failed {St} _.
Arguments Update_length_error {St}.
Arguments Update_out_of_fuel {St}.

(** Lines 1420-1429: the rows below [min(num_re, num_neighbors)]; the
    triplets are overwritten in place at the running counters. *)
Definition rewrite_first_rows (n_first : Z) (nn : list (list Z))
    (tB tBg : list (Triplet_t Q)) : list (Triplet_t Q) * list (Triplet_t Q) * Z * Z :=
  fold_left (fun (st : list (Triplet_t Q) * list (Triplet_t Q) * Z * Z) (i : Z) =>
      let nn_i := znth [] nn i in
      let '(tB1, tBg1, ctr1, ctr_grad1) :=
        fold_left (fun (st : list (Triplet_t Q) * list (Triplet_t Q) * Z * Z) (j : Z) =>
            let '(tB, tBg, ctr, ctr_grad) := st in
            (zset tB ctr (Triplet i (znth 0 nn_i j) 0%Q),
             zset tBg ctr_grad (Triplet i (znth 0 nn_i j) 0%Q),
             ctr + 1, ctr_grad + 1))
          (range 0 (Z.of_nat (length nn_i))) st in
      (zset tB1 ctr1 (Triplet i i 1%Q), tBg1, ctr1 + 1, ctr_grad1))
    (range 0 n_first) (tB, tBg, 0, 0).

(** Lines 1430-1440: the rows from [num_neighbors] on, at computed
    positions; [None] is a failed [CHECK] on the size of a row. *)
Definition rewrite_other_rows (num_neighbors num_re : Z) (nn : list (list Z))
    (ctr ctr_grad : Z) (tB tBg : list (Triplet_t Q))
  : option (list (Triplet_t Q) * list (Triplet_t Q)) :=
  if num_neighbors <? num_re then
    fold_left (fun (acc : option (list (Triplet_t Q) * list (Triplet_t Q))) (i : Z) =>
        match acc with
        | None => None
        | Some st =>
            let nn_i := znth [] nn i in
            if negb (Z.of_nat (length nn_i) =? num_neighbors) then None
            else
              let '(tB1, tBg1) :=
                fold_left (fun (st : list (Triplet_t Q) * list (Triplet_t Q)) (j : Z) =>
                    let '(tB, tBg) := st in
                    (zset tB (ctr + (i - num_neighbors) * (num_neighbors + 1) + j)
                       (Triplet i (znth 0 nn_i j) 0%Q),
                     zset tBg (ctr_grad + (i - num_neighbors) * num_neighbors + j)
                       (Triplet i (znth 0 nn_i j) 0%Q)))
                  (range 0 num_neighbors) st in
              Some (zset tB1 (ctr + (i - num_neighbors) * (num_neighbors + 1) + num_neighbors)
                      (Triplet i i 1%Q), tBg1)
        end)
      (range num_neighbors num_re) (Some (tB, tBg))
  else Some (tB, tBg).

Section UpdateNeighbors.

(** The covariance module [RECompGP] with the observers used here, and the
    random generator. *)
Variable RECompGP : Type.
Variable RNG_t : Type.
Variable GetNumUniqueREs : RECompGP → Z.
Variable ShouldSaveDistances : RECompGP → bool.

(** The entries that [distances_funct] and the Euclidean norm give on the
    coordinates of a component, and [EPSILON_NUMBERS]. *)
Variables dist_of coord_dist_of : RECompGP → Z → Z → Q.
Variable EPSILON_NUMBERS : Q.

(** [find_nearest_neighbors_Vecchia_fast] is only declared in this header.
    Here it is called on the coordinates of the component with [num_re],
    [num_neighbors], the neighbour vectors, dummies for the distances, 0, -1,
    no check for duplicates, the selection, the generator and no saving of
    distances; it returns the neighbour vectors and the generator. *)
Variable find_nearest_neighbors_Vecchia_fast :
  RECompGP → Z → Z → list (list Z) → string → RNG_t → list (list Z) * RNG_t.

Abbreviation comps := (REComponents Q RECompGP RNG_t).

(** Lines 1394-1404: the component whose coordinates are used. *)
Definition update_re_comp (gp_approx vecchia_neighbor_selection : string)
    (re_comps_resid_cluster_i : list RECompGP) (ind_intercept_gp : Z) (dflt : RECompGP)
    (st : comps) : RECompGP :=
  if (gp_approx =? "full_scale_vecchia")%string
     && (vecchia_neighbor_selection =? "residual_correlation")%string
  then znth dflt re_comps_resid_cluster_i ind_intercept_gp
  else znth dflt (re_comps_cluster_i st) ind_intercept_gp.

(** Lines 1419-1440 on the state. *)
Definition rewrite_triplets (num_neighbors num_re : Z) (st : comps)
    (log : list (string * list Z)) : update_outcome comps :=
  let nn := nearest_neighbors_cluster_i st in
  let '(tB1, tBg1, ctr, ctr_grad) :=
    rewrite_first_rows (Z.min num_re num_neighbors) nn
      (entries_init_B_cluster_i st) (entries_init_B_grad_cluster_i st) in
  match rewrite_other_rows num_neighbors num_re nn ctr ctr_grad tB1 tBg1 with
  | None => Update_check_failed "(int)nearest_neighbors_cluster_i[i].size() == num_neighbors"
  | Some (tB2, tBg2) =>
      Updated (mkREComponents (data_indices_per_cluster st) (re_comps_cluster_i st) nn
                 (dist_obs_neighbors_cluster_i st) (dist_between_neighbors_cluster_i st)
                 tB2 tBg2 (z_outer_z_obs_neighbors_cluster_i st)
                 (only_one_GP_calculations_on_RE_scale st) (has_duplicates_coords st) (rng st))
              log
  end.

(** The whole function. [re_comps_resid_cluster_i] is only read. *)
Definition UpdateNearestNeighbors (st : comps) (num_neighbors : Z)
    (vecchia_neighbor_selection : string) (ind_intercept_gp : Z) (gp_approx : string)
    (re_comps_resid_cluster_i : list RECompGP) (base : Q) (dflt : RECompGP)
  : update_outcome comps :=
  let re_comp :=
    update_re_comp gp_approx vecchia_neighbor_selection re_comps_resid_cluster_i
      ind_intercept_gp dflt st in
  if negb (gp_approx =? "full_scale_vecchia")%string && ShouldSaveDistances re_comp then
    Update_check_failed "re_comp->ShouldSaveDistances() == false"
  else
    let num_re := GetNumUniqueREs re_comp in
    if negb (Z.of_nat (length (nearest_neighbors_cluster_i st)) =? num_re) then
      Update_check_failed "(int)nearest_neighbors_cluster_i.size() == num_re"
    else if (gp_approx =? "full_scale_vecchia")%string
            && (vecchia_neighbor_selection =? "residual_correlation")%string then
      match find_nearest_neighbors_Vecchia_FSA_fast (dist_of re_comp) (coord_dist_of re_comp)
              EPSILON_NUMBERS num_re num_neighbors (nearest_neighbors_cluster_i st)
              (dist_obs_neighbors_cluster_i st) (dist_between_neighbors_cluster_i st)
              0 (-1) false (ShouldSaveDistances re_comp) base false false num_re with
      | Search_done out =>
          rewrite_triplets num_neighbors num_re
            (mkREComponents (data_indices_per_cluster st) (re_comps_cluster_i st)
               (neighbors out) (dist_obs_neighbors out) (dist_between_neighbors out)
               (entries_init_B_cluster_i st) (entries_init_B_grad_cluster_i st)
               (z_outer_z_obs_neighbors_cluster_i st)
               (only_one_GP_calculations_on_RE_scale st) (has_duplicates_coords st) (rng st))
            (info_log out)
      | Search_check_failed what => Update_check_failed what
      | Search_length_error => Update_length_error
      | Search_out_of_fuel => Update_out_of_fuel
      end
    else
      let '(nn, g) :=
        find_nearest_neighbors_Vecchia_fast re_comp num_re num_neighbors
          (nearest_neighbors_cluster_i st) vecchia_neighbor_selection (rng st) in
      rewrite_triplets num_neighbors num_re
        (mkREComponents (data_indices_per_cluster st) (re_comps_cluster_i st) nn
           (dist_obs_neighbors_cluster_i st) (dist_between_neighbors_cluster_i st)
           (entries_init_B_cluster_i st) (entries_init_B_grad_cluster_i st)
           (z_outer_z_obs_neighbors_cluster_i st)
           (only_one_GP_calculations_on_RE_scale st) (has_duplicates_coords st) g)
        [].

End UpdateNeighbors.

(** *** Writing a run of entries in place *)

(** The list [l] with the entries from position [c] on replaced by [new]. *)
Definition splice {A : Type} (l : list A) (c : nat) (new : list A) : list A :=
  take c l ++ new ++ drop (c + length new) l.

Lemma splice_nil {A : Type} (l : list A) (c : nat) : splice l c [] = l.
Proof. unfold splice. simpl. rewrite Nat.add_0_r. apply take_drop. Qed.

Lemma length_splice {A : Type} (l : list A) (c : nat) (new : list A) :
  (c + length new ≤ length l)%nat → length (splice l c new) = length l.
Proof. intros H. unfold splice. rewrite !length_app, length_take, length_drop. lia. Qed.

Lemma splice_all {A : Type} (l : list A) (new : list A) :
  length new = length l → splice l 0 new = new.
Proof.
  intros H. unfold splice. simpl. rewrite drop_ge by lia. apply app_nil_r.
Qed.

Lemma zset_splice {A : Type} (l : list A) (c : nat) (new : list A) (p : Z) (x : A) :
  p = Z.of_nat (c + length new) → (c + length new < length l)%nat →
  zset (splice l c new) p x = splice l c (new ++ [x]).
Proof.
  intros -> Hlt. unfold zset, splice.
  destruct (Z.of_nat (c + length new) <? 0) eqn:E; [apply Z.ltb_lt in E; lia|].
  rewrite Nat2Z.id.
  rewrite insert_app_r_alt by (rewrite length_take; lia).
  rewrite length_take. replace (c + length new - c `min` length l)%nat with (length new) by lia.
  rewrite insert_app_r_alt by lia. rewrite Nat.sub_diag.
  rewrite length_app. simpl. rewrite <- app_assoc. f_equal. f_equal.
  destruct (drop (c + length new) l) as [|y r] eqn:Ed.
  - exfalso. pose proof (length_drop l (c + length new)) as Hl. rewrite Ed in Hl. simpl in Hl. lia.
  - simpl. f_equal.
    replace (c + (length new + 1))%nat with (S (c + length new)) by lia.
    pose proof (drop_drop l 1 (c + length new)) as Hd.
    rewrite Ed in Hd. simpl in Hd. rewrite drop_0 in Hd.
    replace (c + length new + 1)%nat with (S (c + length new)) in Hd by lia.
    exact Hd.
Qed.

Lemma map_znth_range {A : Type} (d : A) (l : list A) :
  map (znth d l) (range 0 (Z.of_nat (length l))) = l.
Proof.
  induction l as [|x l IH] using rev_ind; [reflexivity|].
  rewrite length_app. simpl length.
  replace (Z.of_nat (length l + 1)) with (Z.of_nat (length l) + 1) by lia.
  rewrite range_snoc by lia. rewrite map_app. simpl.
  rewrite (znth_snoc d l x _ eq_refl). f_equal.
  rewrite <- IH at 3. apply map_ext_in. intros j Hj.
  apply list_elem_of_In, elem_of_range in Hj.
  unfold znth. destruct (j <? 0); [reflexivity|]. apply app_nth1. lia.
Qed.

(** *** The triplets after the update *)

(** The triplets of the row [i] of [B] and of its gradients. *)
Definition rowB (nn : list (list Z)) (i : Z) : list (Triplet_t Q) :=
  map (fun j => Triplet i j 0%Q) (znth [] nn i) ++ [Triplet i i 1%Q].
Definition rowG (nn : list (list Z)) (i : Z) : list (Triplet_t Q) :=
  map (fun j => Triplet i j 0%Q) (znth [] nn i).

Lemma init_B_triplets_rows (n : Z) (nn : list (list Z)) :
  init_B_triplets Q 0%Q 1%Q n nn = (flat_map (rowB nn) (range 0 n), flat_map (rowG nn) (range 0 n)).
Proof. reflexivity. Qed.

Lemma flat_map_one {A B : Type} (f : A → list B) (x : A) : flat_map f [x] = f x.
Proof. simpl. apply app_nil_r. Qed.

Section Rewrite.

Variables (tB0 tBg0 : list (Triplet_t Q)).

(** The state of the first loop: the counters are the numbers of triplets
    written so far. *)
Definition written (P G : list (Triplet_t Q))
  : list (Triplet_t Q) * list (Triplet_t Q) * Z * Z :=
  (splice tB0 0 P, splice tBg0 0 G, Z.of_nat (length P), Z.of_nat (length G)).

Lemma write_cols (i : Z) (cols : list Z) (P G : list (Triplet_t Q)) :
  (length P + length cols ≤ length tB0)%nat →
  (length G + length cols ≤ length tBg0)%nat →
  fold_left (fun (st : list (Triplet_t Q) * list (Triplet_t Q) * Z * Z) (x : Z) =>
      let '(tB, tBg, ctr, ctr_grad) := st in
      (zset tB ctr (Triplet i x 0%Q), zset tBg ctr_grad (Triplet i x 0%Q),
       ctr + 1, ctr_grad + 1)) cols (written P G) =
  written (P ++ map (fun j => Triplet i j 0%Q) cols) (G ++ map (fun j => Triplet i j 0%Q) cols).
Proof.
  revert P G. induction cols as [|x cols IH]; intros P G HP HG.
  - simpl. rewrite !app_nil_r. reflexivity.
  - simpl in HP, HG. cbn [fold_left]. unfold written at 1.
    rewrite (zset_splice tB0 0 P _ _ eq_refl) by (simpl; lia).
    rewrite (zset_splice tBg0 0 G _ _ eq_refl) by (simpl; lia).
    replace (Z.of_nat (length P) + 1) with (Z.of_nat (length (P ++ [Triplet i x 0%Q])))
      by (rewrite length_app; simpl; lia).
    replace (Z.of_nat (length G) + 1) with (Z.of_nat (length (G ++ [Triplet i x 0%Q])))
      by (rewrite length_app; simpl; lia).
    fold (written (P ++ [Triplet i x 0%Q]) (G ++ [Triplet i x 0%Q])).
    rewrite IH by (rewrite length_app; simpl; lia).
    simpl map. rewrite <- !app_assoc. reflexivity.
Qed.

Lemma write_first_rows (nn : list (list Z)) (rows : list Z) (P G : list (Triplet_t Q)) :
  (length P + length (flat_map (rowB nn) rows) ≤ length tB0)%nat →
  (length G + length (flat_map (rowG nn) rows) ≤ length tBg0)%nat →
  fold_left (fun (st : list (Triplet_t Q) * list (Triplet_t Q) * Z * Z) (i : Z) =>
      let nn_i := znth [] nn i in
      let '(tB1, tBg1, ctr1, ctr_grad1) :=
        fold_left (fun (st : list (Triplet_t Q) * list (Triplet_t Q) * Z * Z) (j : Z) =>
            let '(tB, tBg, ctr, ctr_grad) := st in
            (zset tB ctr (Triplet i (znth 0 nn_i j) 0%Q),
             zset tBg ctr_grad (Triplet i (znth 0 nn_i j) 0%Q),
             ctr + 1, ctr_grad + 1))
          (range 0 (Z.of_nat (length nn_i))) st in
      (zset tB1 ctr1 (Triplet i i 1%Q), tBg1, ctr1 + 1, ctr_grad1))
    rows (written P G) =
  written (P ++ flat_map (rowB nn) rows) (G ++ flat_map (rowG nn) rows).
Proof.
  revert P G. induction rows as [|i rows IH]; intros P G HP HG.
  - simpl. rewrite !app_nil_r. reflexivity.
  - cbn [flat_map] in HP, HG. rewrite length_app in HP, HG.
    unfold rowB in HP at 1. unfold rowG in HG at 1.
    rewrite length_app, length_map in HP. rewrite length_map in HG. simpl in HP.
    cbn [fold_left]. cbv zeta.
    assert (Hin : fold_left (fun (st : list (Triplet_t Q) * list (Triplet_t Q) * Z * Z) (j : Z) =>
                let '(tB, tBg, ctr, ctr_grad) := st in
                (zset tB ctr (Triplet i (znth 0 (znth [] nn i) j) 0%Q),
                 zset tBg ctr_grad (Triplet i (znth 0 (znth [] nn i) j) 0%Q),
                 ctr + 1, ctr_grad + 1))
              (range 0 (Z.of_nat (length (znth [] nn i)))) (written P G) =
            written (P ++ rowG nn i) (G ++ rowG nn i)).
    { etransitivity.
      - apply (fold_left_compose
                 (fun (st : list (Triplet_t Q) * list (Triplet_t Q) * Z * Z) (x : Z) =>
                    let '(tB, tBg, ctr, ctr_grad) := st in
                    (zset tB ctr (Triplet i x 0%Q), zset tBg ctr_grad (Triplet i x 0%Q),
                     ctr + 1, ctr_grad + 1))
                 (znth 0 (znth [] nn i))).
      - rewrite map_znth_range. apply write_cols; lia. }
    assert (Hstep : (let '(tB1, tBg1, ctr1, ctr_grad1) := written (P ++ rowG nn i) (G ++ rowG nn i) in
                     (zset tB1 ctr1 (Triplet i i 1%Q), tBg1, ctr1 + 1, ctr_grad1)) =
                    written ((P ++ rowG nn i) ++ [Triplet i i 1%Q]) (G ++ rowG nn i)).
    { unfold written. cbv iota beta.
      rewrite (zset_splice tB0 0 (P ++ rowG nn i) _ _ eq_refl)
        by (rewrite length_app; unfold rowG; rewrite length_map; simpl; lia).
      f_equal. f_equal. rewrite !length_app. simpl. lia. }
    rewrite Hin, Hstep, IH.
    + cbn [flat_map]. unfold rowB, rowG. rewrite <- !app_assoc. reflexivity.
    + rewrite !length_app. unfold rowG. rewrite length_map. simpl. lia.
    + rewrite !length_app. unfold rowG at 1. rewrite length_map. lia.
Qed.

Lemma rewrite_first_rows_spec (n_first : Z) (nn : list (list Z)) :
  (length (flat_map (rowB nn) (range 0 n_first)) ≤ length tB0)%nat →
  (length (flat_map (rowG nn) (range 0 n_first)) ≤ length tBg0)%nat →
  rewrite_first_rows n_first nn tB0 tBg0 =
  written (flat_map (rowB nn) (range 0 n_first)) (flat_map (rowG nn) (range 0 n_first)).
Proof.
  intros HP HG. unfold rewrite_first_rows.
  replace (tB0, tBg0, 0, 0) with (written [] []).
  - apply (write_first_rows nn (range 0 n_first) [] []); simpl; assumption.
  - unfold written. rewrite !splice_nil. reflexivity.
Qed.

(** One row of the second loop, at the positions the code computes. *)
Lemma write_cols_at (i : Z) (cols : list Z) (P G : list (Triplet_t Q)) (c cg : Z) (n : nat) :
  c = Z.of_nat (length P) → cg = Z.of_nat (length G) → (n ≤ length cols)%nat →
  (length P + n ≤ length tB0)%nat → (length G + n ≤ length tBg0)%nat →
  fold_left (fun (st : list (Triplet_t Q) * list (Triplet_t Q)) (j : Z) =>
      let '(tB, tBg) := st in
      (zset tB (c + j) (Triplet i (znth 0 cols j) 0%Q),
       zset tBg (cg + j) (Triplet i (znth 0 cols j) 0%Q)))
    (range 0 (Z.of_nat n)) (splice tB0 0 P, splice tBg0 0 G) =
  (splice tB0 0 (P ++ map (fun j => Triplet i j 0%Q) (take n cols)),
   splice tBg0 0 (G ++ map (fun j => Triplet i j 0%Q) (take n cols))).
Proof.
  intros -> ->. induction n as [|n IH]; intros Hn HP HG.
  - simpl. rewrite !app_nil_r. reflexivity.
  - replace (Z.of_nat (S n)) with (Z.of_nat n + 1) by lia.
    rewrite range_snoc by lia. rewrite fold_left_app, IH by lia. cbn [fold_left].
    destruct (lookup_lt_is_Some_2 cols n ltac:(lia)) as [x Hx].
    assert (Hz : znth 0 cols (Z.of_nat n) = x).
    { unfold znth. destruct (Z.of_nat n <? 0) eqn:E; [apply Z.ltb_lt in E; lia|].
      rewrite Nat2Z.id. apply nth_lookup_Some, Hx. }
    rewrite Hz, (take_S_r _ _ _ Hx), map_app. simpl map.
    assert (Hl : length (take n cols) = n) by (rewrite length_take; lia).
    rewrite (zset_splice tB0 0 (P ++ map (fun j => Triplet i j 0%Q) (take n cols)))
      by (rewrite ?length_app, ?length_map, ?Hl; simpl; lia).
    rewrite (zset_splice tBg0 0 (G ++ map (fun j => Triplet i j 0%Q) (take n cols)))
      by (rewrite ?length_app, ?length_map, ?Hl; simpl; lia).
    rewrite <- !app_assoc. reflexivity.
Qed.

Lemma write_other_rows (k : Z) (nn : list (list Z)) (P G : list (Triplet_t Q)) (m : nat) :
  0 ≤ k →
  (∀ i, k ≤ i < k + Z.of_nat m → Z.of_nat (length (znth [] nn i)) = k) →
  (length P + m * (Z.to_nat k + 1) ≤ length tB0)%nat →
  (length G + m * Z.to_nat k ≤ length tBg0)%nat →
  length (flat_map (rowB nn) (range k (k + Z.of_nat m))) = (m * (Z.to_nat k + 1))%nat ∧
  length (flat_map (rowG nn) (range k (k + Z.of_nat m))) = (m * Z.to_nat k)%nat ∧
  fold_left (fun (acc : option (list (Triplet_t Q) * list (Triplet_t Q))) (i : Z) =>
      match acc with
      | None => None
      | Some st =>
          let nn_i := znth [] nn i in
          if negb (Z.of_nat (length nn_i) =? k) then None
          else
            let '(tB1, tBg1) :=
              fold_left (fun (st : list (Triplet_t Q) * list (Triplet_t Q)) (j : Z) =>
                  let '(tB, tBg) := st in
                  (zset tB (Z.of_nat (length P) + (i - k) * (k + 1) + j)
                     (Triplet i (znth 0 nn_i j) 0%Q),
                   zset tBg (Z.of_nat (length G) + (i - k) * k + j)
                     (Triplet i (znth 0 nn_i j) 0%Q)))
                (range 0 k) st in
            Some (zset tB1 (Z.of_nat (length P) + (i - k) * (k + 1) + k) (Triplet i i 1%Q), tBg1)
      end)
    (range k (k + Z.of_nat m)) (Some (splice tB0 0 P, splice tBg0 0 G)) =
  Some (splice tB0 0 (P ++ flat_map (rowB nn) (range k (k + Z.of_nat m))),
        splice tBg0 0 (G ++ flat_map (rowG nn) (range k (k + Z.of_nat m)))).
Proof.
  intros Hk. induction m as [|m IH]; intros Hrows HP HG.
  - replace (k + Z.of_nat 0) with k by lia. rewrite range_nil by lia. simpl.
    rewrite !app_nil_r. split; [reflexivity|]. split; reflexivity.
  - destruct IH as (LB & LG & IH); [intros i Hi; apply Hrows; lia | lia | lia |].
    replace (k + Z.of_nat (S m)) with (k + Z.of_nat m + 1) by lia.
    rewrite range_snoc by lia.
    rewrite !flat_map_app, !length_app, LB, LG, !flat_map_one.
    rewrite fold_left_app, IH.
    set (i := k + Z.of_nat m) in *.
    assert (Hi : Z.of_nat (length (znth [] nn i)) = k) by (apply Hrows; unfold i; lia).
    assert (HlB : length (rowB nn i) = (Z.to_nat k + 1)%nat).
    { unfold rowB. rewrite length_app, length_map. simpl. lia. }
    assert (HlG : length (rowG nn i) = Z.to_nat k).
    { unfold rowG. rewrite length_map. lia. }
    split; [rewrite HlB; lia|]. split; [rewrite HlG; lia|].
    cbn [fold_left]. cbv zeta.
    apply Z.eqb_eq in Hi. rewrite Hi. cbn [negb]. apply Z.eqb_eq in Hi.
    set (PB := P ++ flat_map (rowB nn) (range k i)).
    set (PG := G ++ flat_map (rowG nn) (range k i)).
    assert (HPB : Z.of_nat (length P) + (i - k) * (k + 1) = Z.of_nat (length PB)).
    { unfold PB. rewrite length_app, LB. unfold i. nia. }
    assert (HPG : Z.of_nat (length G) + (i - k) * k = Z.of_nat (length PG)).
    { unfold PG. rewrite length_app, LG. unfold i. nia. }
    rewrite HPB, HPG.
    pose proof (write_cols_at i (znth [] nn i) PB PG _ _ (Z.to_nat k) eq_refl eq_refl) as Hw.
    rewrite Z2Nat.id in Hw by lia. rewrite Hw; clear Hw.
    + rewrite firstn_all2 by lia.
      rewrite (zset_splice tB0 0 (PB ++ rowG nn i)).
      * unfold rowB, rowG, PB, PG. rewrite <- !app_assoc. reflexivity.
      * rewrite length_app, HlG. lia.
      * simpl. rewrite length_app, HlG. unfold PB. rewrite length_app, LB. lia.
    + lia.
    + unfold PB. rewrite length_app, LB. lia.
    + unfold PG. rewrite length_app, LG. lia.
Qed.

End Rewrite.

Lemma range_app (a b c : Z) : a ≤ b ≤ c → range a b ++ range b c = range a c.
Proof.
  intros H. unfold range. replace (c - a) with ((b - a) + (c - b)) by lia.
  rewrite seqZ_app by lia. do 2 f_equal. lia.
Qed.

Lemma length_other_rows (k : Z) (nn : list (list Z)) (m : nat) :
  0 ≤ k →
  (∀ i, k ≤ i < k + Z.of_nat m → Z.of_nat (length (znth [] nn i)) = k) →
  length (flat_map (rowB nn) (range k (k + Z.of_nat m))) = (m * (Z.to_nat k + 1))%nat ∧
  length (flat_map (rowG nn) (range k (k + Z.of_nat m))) = (m * Z.to_nat k)%nat.
Proof.
  intros Hk. induction m as [|m IH]; intros Hrows.
  - replace (k + Z.of_nat 0) with k by lia. rewrite range_nil by lia. split; reflexivity.
  - destruct IH as [LB LG]; [intros i Hi; apply Hrows; lia|].
    replace (k + Z.of_nat (S m)) with (k + Z.of_nat m + 1) by lia.
    rewrite range_snoc by lia. rewrite !flat_map_app, !length_app, LB, LG, !flat_map_one.
    pose proof (Hrows (k + Z.of_nat m) ltac:(lia)) as Hi.
    unfold rowB, rowG. rewrite length_app, !length_map. simpl. lia.
Qed.

Lemma fold_option_fail {A B : Type} (F : option A → B → option A) (l1 : list B) (x : B)
    (l2 : list B) (init : option A) :
  (∀ b, F None b = None) → (∀ a, F (Some a) x = None) →
  fold_left F (l1 ++ x :: l2) init = None.
Proof.
  intros HN Hx. rewrite fold_left_app. cbn [fold_left].
  assert (E : F (fold_left F l1 init) x = None).
  { destruct (fold_left F l1 init); [apply Hx | apply HN]. }
  rewrite E. clear E Hx. induction l2 as [|b l2 IH]; [reflexivity|]. simpl. rewrite HN. exact IH.
Qed.

(** A row from [num_neighbors] on whose size is not [num_neighbors] makes
    the second loop end at its [CHECK]. *)
Lemma rewrite_other_rows_check (k num_re : Z) (nn : list (list Z)) (ctr ctr_grad : Z)
    (tB tBg : list (Triplet_t Q)) (i : Z) :
  k ≤ i < num_re → Z.of_nat (length (znth [] nn i)) ≠ k →
  rewrite_other_rows k num_re nn ctr ctr_grad tB tBg = None.
Proof.
  intros Hi Hbad. unfold rewrite_other_rows.
  destruct (Z.ltb_spec k num_re); [|lia].
  rewrite <- (range_app k i num_re) by lia. rewrite (range_cons i num_re) by lia.
  apply fold_option_fail.
  - reflexivity.
  - intros a. cbv zeta. apply Z.eqb_neq in Hbad. rewrite Hbad. reflexivity.
Qed.

Lemma rewrite_triplets_spec (RECompGP RNG_t : Type) (k num_re : Z)
    (st : REComponents Q RECompGP RNG_t) (log : list (string * list Z)) :
  0 ≤ k → 0 ≤ num_re →
  let nn := nearest_neighbors_cluster_i st in
  (∀ i, k ≤ i < num_re → Z.of_nat (length (znth [] nn i)) = k) →
  length (entries_init_B_cluster_i st) = length (init_B_triplets Q 0%Q 1%Q num_re nn).1 →
  length (entries_init_B_grad_cluster_i st) = length (init_B_triplets Q 0%Q 1%Q num_re nn).2 →
  rewrite_triplets RECompGP RNG_t k num_re st log =
  Updated (mkREComponents (data_indices_per_cluster st) (re_comps_cluster_i st) nn
             (dist_obs_neighbors_cluster_i st) (dist_between_neighbors_cluster_i st)
             (init_B_triplets Q 0%Q 1%Q num_re nn).1 (init_B_triplets Q 0%Q 1%Q num_re nn).2
             (z_outer_z_obs_neighbors_cluster_i st)
             (only_one_GP_calculations_on_RE_scale st) (has_duplicates_coords st) (rng st))
          log.
Proof.
  intros Hk Hn nn Hrows HB HG. rewrite init_B_triplets_rows in *. cbn [fst snd] in *.
  unfold rewrite_triplets. fold nn. unfold rewrite_other_rows.
  destruct (Z.ltb_spec k num_re) as [Hlt | Hge].
  - replace (Z.min num_re k) with k by lia.
    assert (Hsplit : range 0 num_re = range 0 k ++ range k num_re).
    { symmetry. apply range_app. lia. }
    rewrite Hsplit, !flat_map_app in *. rewrite length_app in HB, HG.
    rewrite rewrite_first_rows_spec by lia. unfold written.
    set (P := flat_map (rowB nn) (range 0 k)) in *.
    set (G := flat_map (rowG nn) (range 0 k)) in *.
    set (m := Z.to_nat (num_re - k)).
    replace num_re with (k + Z.of_nat m) in * by (unfold m; lia).
    destruct (length_other_rows k nn m Hk Hrows) as [LB LG].
    destruct (write_other_rows (entries_init_B_cluster_i st) (entries_init_B_grad_cluster_i st)
                k nn P G m Hk Hrows ltac:(lia) ltac:(lia)) as (_ & _ & Hw).
    cbv zeta in Hw. rewrite Hw.
    rewrite (splice_all (entries_init_B_cluster_i st)) by (rewrite length_app; lia).
    rewrite (splice_all (entries_init_B_grad_cluster_i st)) by (rewrite length_app; lia).
    reflexivity.
  - replace (Z.min num_re k) with num_re by lia.
    rewrite rewrite_first_rows_spec by lia. unfold written.
    rewrite (splice_all (entries_init_B_cluster_i st)) by lia.
    rewrite (splice_all (entries_init_B_grad_cluster_i st)) by lia.
    reflexivity.
Qed.

Lemma length_pattern_ext (n : Z) (nn nn' : list (list Z)) :
  (∀ i, 0 ≤ i < n → length (znth [] nn i) = length (znth [] nn' i)) →
  length (init_B_triplets Q 0%Q 1%Q n nn).1 = length (init_B_triplets Q 0%Q 1%Q n nn').1 ∧
  length (init_B_triplets Q 0%Q 1%Q n nn).2 = length (init_B_triplets Q 0%Q 1%Q n nn').2.
Proof.
  intros H. rewrite !init_B_triplets_rows. cbn [fst snd].
  assert (Hin : ∀ i, i ∈ range 0 n → length (znth [] nn i) = length (znth [] nn' i)).
  { intros i Hi. apply H, elem_of_range, Hi. }
  clear H. induction (range 0 n) as [|i l IH]; [split; reflexivity|].
  destruct IH as [IH1 IH2]; [intros j Hj; apply Hin; right; exact Hj|].
  cbn [flat_map]. rewrite !length_app, IH1, IH2. unfold rowB, rowG.
  rewrite !length_app, !length_map, (Hin i ltac:(left)). split; reflexivity.
Qed.

(** The row that the search leaves for the point [i]: [min(i, k)] distinct
    earlier points. *)
Lemma searched_row_shape (dist : Z → Z → Q) (n k s : Z) (p : bool) (max_ind_nn rows : Z)
    (base : Q) (cover_tree : int_map) (level : Z) (row0 : list Z) (i : Z) :
  1 ≤ k ≤ max_ind_nn → 0 < i → s ≤ i < n →
  (cover_tree_indices n k s p ≠ [] →
   2 ≤ rows ∧ CoverTree_kNN dist (Z.to_nat rows) rows base 0 = CT_built cover_tree level) →
  let row1 := init_row k i row0 in
  let N := if decide (i ∈ brute_force_indices n k s p)
           then brute_force_row dist k max_ind_nn i row1
           else if decide (i ∈ cover_tree_indices n k s p)
                then cover_tree_row dist k level base cover_tree i row1
                else row1 in
  length N = Z.to_nat (Z.min i k) ∧ NoDup N ∧ ∀ x, x ∈ N → 0 ≤ x < i.
Proof.
  intros Hk Hi0 Hi Htree row1 N. unfold N. clear N.
  destruct (search_indices n k s p i) as (Hbf & Hct & Hall).
  destruct (decide (i ∈ brute_force_indices n k s p)) as [Hin | Hnin].
  - destruct (Hbf Hin) as (Hki & _ & _).
    assert (Hl1 : length row1 = Z.to_nat k) by (apply init_row_length; lia).
    rewrite (brute_force_row_scan dist k max_ind_nn i row1 Hl1).
    destruct (scan_row dist i k row1 (range 0 (Z.min i max_ind_nn)) ltac:(lia) Hl1
                (NoDup_seqZ _ _) ltac:(rewrite length_range; lia)) as (H1 & H2 & H3).
    split; [rewrite H1; lia|]. split; [exact H2|].
    intros x Hx. apply H3, elem_of_range in Hx. lia.
  - destruct (decide (i ∈ cover_tree_indices n k s p)) as [Hin | Hnin'].
    + destruct (Hct Hin) as [Hki _].
      assert (Hne : cover_tree_indices n k s p ≠ []).
      { intros E. rewrite E in Hin. inversion Hin. }
      destruct (Htree Hne) as [Hrows Hbuilt].
      pose proof (CoverTree_kNN_wf dist 0 rows base ltac:(lia) _ cover_tree level Hbuilt) as Hwf.
      assert (Hl1 : length row1 = Z.to_nat k) by (apply init_row_length; lia).
      destruct (find_kNN_CoverTree_scan dist 0 rows base cover_tree level i k Hwf row1
                  (cover_tree_wf_levels dist rows base cover_tree level Hwf Hrows)
                  ltac:(lia) ltac:(lia) Hl1) as (c & Hc & Hkc & Hsub & Heq).
      unfold cover_tree_row. rewrite Heq. cbn [fst].
      destruct (scan_row dist i k row1 c ltac:(lia) Hl1 Hc Hkc) as (H1 & H2 & H3).
      split; [rewrite H1; lia|]. split; [exact H2|].
      intros x Hx. apply Hsub, H3, Hx.
    + assert (Hik : i ≤ k).
      { destruct (Z_le_gt_dec i k) as [H | H]; [exact H|].
        destruct (Hall ltac:(lia) Hi); contradiction. }
      unfold row1. rewrite (init_row_first k i _ Hi0 Hik).
      split; [rewrite length_range; lia|]. split; [apply NoDup_seqZ|].
      intros x Hx. apply elem_of_range in Hx. exact Hx.
Qed.

Section UpdateProperties.

Variable RECompGP : Type.
Variable RNG_t : Type.
Variable GetNumUniqueREs : RECompGP → Z.
Variable ShouldSaveDistances : RECompGP → bool.
Variables dist_of coord_dist_of : RECompGP → Z → Z → Q.
Variable EPSILON_NUMBERS : Q.
Variable find_nearest_neighbors_Vecchia_fast :
  RECompGP → Z → Z → list (list Z) → string → RNG_t → list (list Z) * RNG_t.

Let Update := UpdateNearestNeighbors RECompGP RNG_t GetNumUniqueREs ShouldSaveDistances
                dist_of coord_dist_of EPSILON_NUMBERS find_nearest_neighbors_Vecchia_fast.

(** X10. When the neighbours are not selected by residual correlation under
    the full-scale approximation, and the two CHECKs at the start hold,
    [UpdateNearestNeighbors] takes the neighbours from
    [find_nearest_neighbors_Vecchia_fast]. If every row from [num_neighbors]
    on has [num_neighbors] entries and the two triplet lists have the sizes
    of the new sparsity pattern, the lists are overwritten with exactly the
    triplets that [CreateREComponentsVecchia] pushes for these neighbours; if
    a row from [num_neighbors] on has another size, the call ends with the
    failed CHECK on that size. *)
Theorem UpdateNearestNeighbors_rewrites_triplets
    (st : REComponents Q RECompGP RNG_t) (num_neighbors : Z)
    (vecchia_neighbor_selection : string) (ind_intercept_gp : Z) (gp_approx : string)
    (re_comps_resid_cluster_i : list RECompGP) (base : Q) (dflt : RECompGP) :
  let re_comp := znth dflt (re_comps_cluster_i st) ind_intercept_gp in
  let num_re := GetNumUniqueREs re_comp in
  let r := find_nearest_neighbors_Vecchia_fast re_comp num_re num_neighbors
             (nearest_neighbors_cluster_i st) vecchia_neighbor_selection (rng st) in
  let pattern := init_B_triplets Q 0%Q 1%Q num_re r.1 in
  (gp_approx =? "full_scale_vecchia")%string
    && (vecchia_neighbor_selection =? "residual_correlation")%string = false →
  (gp_approx ≠ "full_scale_vecchia" → ShouldSaveDistances re_comp = false) →
  Z.of_nat (length (nearest_neighbors_cluster_i st)) = num_re →
  0 ≤ num_neighbors →
  ((∀ i, num_neighbors ≤ i < num_re → Z.of_nat (length (znth [] r.1 i)) = num_neighbors) →
   length (entries_init_B_cluster_i st) = length pattern.1 →
   length (entries_init_B_grad_cluster_i st) = length pattern.2 →
   Update st num_neighbors vecchia_neighbor_selection ind_intercept_gp gp_approx
     re_comps_resid_cluster_i base dflt =
   Updated (mkREComponents (data_indices_per_cluster st) (re_comps_cluster_i st) r.1
              (dist_obs_neighbors_cluster_i st) (dist_between_neighbors_cluster_i st)
              pattern.1 pattern.2 (z_outer_z_obs_neighbors_cluster_i st)
              (only_one_GP_calculations_on_RE_scale st) (has_duplicates_coords st) r.2) []) ∧
  ((∃ i, num_neighbors ≤ i < num_re ∧ Z.of_nat (length (znth [] r.1 i)) ≠ num_neighbors) →
   Update st num_neighbors vecchia_neighbor_selection ind_intercept_gp gp_approx
     re_comps_resid_cluster_i base dflt =
   Update_check_failed "(int)nearest_neighbors_cluster_i[i].size() == num_neighbors").
Proof.
  intros re_comp num_re r pattern Hfsa Hsave Hlen Hk.
  assert (Hstart : Update st num_neighbors vecchia_neighbor_selection ind_intercept_gp gp_approx
                     re_comps_resid_cluster_i base dflt =
                   rewrite_triplets RECompGP RNG_t num_neighbors num_re
                     (mkREComponents (data_indices_per_cluster st) (re_comps_cluster_i st) r.1
                        (dist_obs_neighbors_cluster_i st) (dist_between_neighbors_cluster_i st)
                        (entries_init_B_cluster_i st) (entries_init_B_grad_cluster_i st)
                        (z_outer_z_obs_neighbors_cluster_i st)
                        (only_one_GP_calculations_on_RE_scale st) (has_duplicates_coords st) r.2)
                     []).
  { unfold Update, UpdateNearestNeighbors, update_re_comp. rewrite Hfsa. cbv zeta.
    fold re_comp. fold num_re.
    assert (E1 : negb (gp_approx =? "full_scale_vecchia")%string && ShouldSaveDistances re_comp
                 = false).
    { destruct (String.eqb_spec gp_approx "full_scale_vecchia") as [E | E]; [reflexivity|].
      rewrite (Hsave E). reflexivity. }
    rewrite E1. apply Z.eqb_eq in Hlen. rewrite Hlen. cbn [negb].
    fold r. destruct r as [nn g]. reflexivity. }
  rewrite Hstart. split.
  - intros Hrows HB HG.
    rewrite (rewrite_triplets_spec RECompGP RNG_t num_neighbors num_re _ [] Hk); try assumption.
    + reflexivity.
    + rewrite <- Hlen. lia.
  - intros (i & Hi & Hbad). unfold rewrite_triplets. cbn [nearest_neighbors_cluster_i].
    destruct (rewrite_first_rows _ _ _ _) as [[[tB1 tBg1] ctr] ctr_grad].
    rewrite (rewrite_other_rows_check num_neighbors num_re r.1 ctr ctr_grad tB1 tBg1 i Hi Hbad).
    reflexivity.
Qed.

End UpdateProperties.

(** X11. Under the full-scale approximation with neighbours selected by
    residual correlation, when the search runs with one thread (a build
    without OpenMP, or [omp_get_max_threads() = 1]) on distances that are
    numbers (no NaN): for a component with at least two points, at least one
    neighbour requested, neighbour rows of the sizes [min(i, num_neighbors)]
    and triplet lists of the sizes of their sparsity pattern,
    [UpdateNearestNeighbors] returns: the first row is untouched, every other
    row [i] holds [min(i, num_neighbors)] distinct points before [i], and the
    two triplet lists are exactly the triplets that [CreateREComponentsVecchia]
    pushes for the new neighbours, in lists of unchanged sizes. *)
Theorem UpdateNearestNeighbors_residual_correlation
    (RECompGP RNG_t : Type) (GetNumUniqueREs : RECompGP → Z)
    (ShouldSaveDistances : RECompGP → bool) (dist_of coord_dist_of : RECompGP → Z → Z → Q)
    (EPSILON_NUMBERS : Q)
    (find_nearest_neighbors_Vecchia_fast :
       RECompGP → Z → Z → list (list Z) → string → RNG_t → list (list Z) * RNG_t)
    (st : REComponents Q RECompGP RNG_t) (num_neighbors : Z) (ind_intercept_gp : Z)
    (re_comps_resid_cluster_i : list RECompGP) (base : Q) (dflt : RECompGP) :
  let re_comp := znth dflt re_comps_resid_cluster_i ind_intercept_gp in
  let num_re := GetNumUniqueREs re_comp in
  let nn := nearest_neighbors_cluster_i st in
  2 ≤ num_re → 1 ≤ num_neighbors →
  Z.of_nat (length nn) = num_re →
  (ShouldSaveDistances re_comp = true →
   Z.of_nat (length (dist_obs_neighbors_cluster_i st)) = num_re ∧
   Z.of_nat (length (dist_between_neighbors_cluster_i st)) = num_re) →
  (∀ i, 0 < i < num_re → length (znth [] nn i) = Z.to_nat (Z.min i num_neighbors)) →
  length (entries_init_B_cluster_i st) = length (init_B_triplets Q 0%Q 1%Q num_re nn).1 →
  length (entries_init_B_grad_cluster_i st) = length (init_B_triplets Q 0%Q 1%Q num_re nn).2 →
  ∃ st' log,
    UpdateNearestNeighbors RECompGP RNG_t GetNumUniqueREs ShouldSaveDistances
      dist_of coord_dist_of EPSILON_NUMBERS find_nearest_neighbors_Vecchia_fast
      st num_neighbors "residual_correlation" ind_intercept_gp "full_scale_vecchia"
      re_comps_resid_cluster_i base dflt = Updated st' log ∧
    let nn' := nearest_neighbors_cluster_i st' in
    znth [] nn' 0 = znth [] nn 0 ∧
    (∀ i, 0 < i < num_re →
       length (znth [] nn' i) = Z.to_nat (Z.min i num_neighbors) ∧
       NoDup (znth [] nn' i) ∧ ∀ x, x ∈ znth [] nn' i → 0 ≤ x < i) ∧
    entries_init_B_cluster_i st' = (init_B_triplets Q 0%Q 1%Q num_re nn').1 ∧
    entries_init_B_grad_cluster_i st' = (init_B_triplets Q 0%Q 1%Q num_re nn').2 ∧
    length (entries_init_B_cluster_i st') = length (entries_init_B_cluster_i st) ∧
    length (entries_init_B_grad_cluster_i st') = length (entries_init_B_grad_cluster_i st).
Proof.
  intros re_comp num_re nn Hn Hk Hlen Hsave Hsizes HB HG.
  unfold UpdateNearestNeighbors, update_re_comp.
  replace (("full_scale_vecchia" =? "full_scale_vecchia")%string) with true by reflexivity.
  replace (("residual_correlation" =? "residual_correlation")%string) with true by reflexivity.
  cbn [andb negb]. cbv zeta. fold re_comp. fold num_re. fold nn.
  assert (E : (Z.of_nat (length nn) =? num_re) = true) by (apply Z.eqb_eq, Hlen).
  rewrite E. cbn [negb].
  set (k := clamp_num_neighbors num_neighbors (default_end_search_at num_re (-1))).
  assert (Hkc : k = Z.min num_neighbors (num_re - 1)).
  { unfold k, clamp_num_neighbors, default_end_search_at.
    change (-1 <? 0) with true. cbv iota.
    destruct (Z.ltb_spec (num_re - 2 + 1) num_neighbors); lia. }
  destruct (search_rows (dist_of re_comp) (coord_dist_of re_comp) EPSILON_NUMBERS num_re
              num_neighbors nn (dist_obs_neighbors_cluster_i st)
              (dist_between_neighbors_cluster_i st) 0 (-1) false (ShouldSaveDistances re_comp)
              base false false num_re)
    as (out & cover_tree & level & Hout & Hbuilt & Hlen' & Hrows).
  { lia. }
  { intros Hs. destruct (Hsave Hs) as [H1 H2]. lia. }
  { intros _. simpl. lia. }
  fold k in Hbuilt, Hrows. cbn [andb negb] in Hbuilt.
  rewrite Hout.
  set (nn' := neighbors out) in *.
  assert (Hrow0 : znth [] nn' 0 = znth [] nn 0).
  { specialize (Hrows 0 ltac:(lia)). replace (0 - 0) with 0 in Hrows by lia.
    rewrite Hrows.
    destruct (search_indices num_re k 0 false 0) as (Hbf & Hct & _).
    destruct (decide (0 ∈ brute_force_indices num_re k 0 false)) as [H | _];
      [apply Hbf in H; lia|].
    destruct (decide (0 ∈ cover_tree_indices num_re k 0 false)) as [H | _];
      [apply Hct in H; lia|].
    unfold init_row. change (0 <? 0) with false. cbn [andb].
    destruct (Z.ltb_spec k 0); [lia | reflexivity]. }
  assert (Hshape : ∀ i, 0 < i < num_re →
            length (znth [] nn' i) = Z.to_nat (Z.min i num_neighbors) ∧
            NoDup (znth [] nn' i) ∧ ∀ x, x ∈ znth [] nn' i → 0 ≤ x < i).
  { intros i Hi. specialize (Hrows i ltac:(lia)). replace (i - 0) with i in Hrows by lia.
    rewrite Hrows.
    destruct (searched_row_shape (dist_of re_comp) num_re k 0 false num_re num_re base
                cover_tree level (znth [] nn i) i ltac:(lia) ltac:(lia) ltac:(lia))
      as (H1 & H2 & H3).
    { intros Hne. split; [lia | exact (Hbuilt Hne)]. }
    split; [rewrite H1; f_equal; lia|]. split; [exact H2 | exact H3]. }
  assert (Hsame : ∀ i, 0 ≤ i < num_re → length (znth [] nn i) = length (znth [] nn' i)).
  { intros i Hi. destruct (decide (i = 0)) as [-> | Hne]; [rewrite Hrow0; reflexivity|].
    rewrite (Hsizes i ltac:(lia)). symmetry. apply Hshape. lia. }
  destruct (length_pattern_ext num_re nn nn' Hsame) as [LB LG].
  eexists. exists (info_log out). split.
  - apply rewrite_triplets_spec; cbn [nearest_neighbors_cluster_i entries_init_B_cluster_i
                                       entries_init_B_grad_cluster_i].
    + lia.
    + lia.
    + intros i Hi. fold nn'. destruct (Hshape i ltac:(lia)) as (H1 & _). rewrite H1. lia.
    + fold nn'. rewrite <- LB. exact HB.
    + fold nn'. rewrite <- LG. exact HG.
  - cbn [nearest_neighbors_cluster_i entries_init_B_cluster_i entries_init_B_grad_cluster_i].
    fold nn'. split; [exact Hrow0|]. split; [exact Hshape|]. split; [reflexivity|].
    split; [reflexivity|]. split; [rewrite <- LB; symmetry; exact HB|].
    rewrite <- LG. symmetry. exact HG.
Qed.

(** A component with three points, one neighbour each: the covariance module
    is the unit type, and the search that is only declared in the header
    returns fixed rows. *)
Definition ex_update_st : REComponents Q unit unit :=
  mkREComponents [0; 1; 2] [tt] [[]; [0]; [0]] [] []
    (replicate 5 (Triplet 0 0 0%Q)) (replicate 2 (Triplet 0 0 0%Q)) [] false false tt.

Definition ex_update (gp_approx vecchia_neighbor_selection : string)
  : update_outcome (REComponents Q unit unit) :=
  UpdateNearestNeighbors unit unit (fun _ => 3) (fun _ => false)
    (fun _ => ex_skew_dist) (fun _ => ex_line_dist) (1 # 100000)
    (fun _ _ _ _ _ g => ([[]; [0]; [1]], g))
    ex_update_st 1 vecchia_neighbor_selection 0 gp_approx [tt] 2 tt.

Example ex_update_vecchia :
  ex_update "vecchia" "nearest" =
  Updated (mkREComponents [0; 1; 2] [tt] [[]; [0]; [1]] [] []
             [Triplet 0 0 1%Q; Triplet 1 0 0%Q; Triplet 1 1 1%Q; Triplet 2 1 0%Q; Triplet 2 2 1%Q]
             [Triplet 1 0 0%Q; Triplet 2 1 0%Q] [] false false tt) [].
Proof. vm_compute. reflexivity. Qed.

Lemma UpdateNearestNeighbors_rewrites_triplets_witness :
  ((∀ i, 1 ≤ i < 3 → Z.of_nat (length (znth [] [[]; [0]; [1]] i)) = 1) →
   length (entries_init_B_cluster_i ex_update_st) =
   length (init_B_triplets Q 0%Q 1%Q 3 [[]; [0]; [1]]).1 →
   length (entries_init_B_grad_cluster_i ex_update_st) =
   length (init_B_triplets Q 0%Q 1%Q 3 [[]; [0]; [1]]).2 →
   ex_update "vecchia" "nearest" =
   Updated (mkREComponents [0; 1; 2] [tt] [[]; [0]; [1]] [] []
              (init_B_triplets Q 0%Q 1%Q 3 [[]; [0]; [1]]).1
              (init_B_triplets Q 0%Q 1%Q 3 [[]; [0]; [1]]).2 [] false false tt) []) ∧
  ((∃ i, 1 ≤ i < 3 ∧ Z.of_nat (length (znth [] [[]; [0]; [1]] i)) ≠ 1) →
   ex_update "vecchia" "nearest" =
   Update_check_failed "(int)nearest_neighbors_cluster_i[i].size() == num_neighbors").
Proof.
  apply (UpdateNearestNeighbors_rewrites_triplets unit unit (fun _ => 3) (fun _ => false)
           (fun _ => ex_skew_dist) (fun _ => ex_line_dist) (1 # 100000)
           (fun _ _ _ _ _ g => ([[]; [0]; [1]], g))
           ex_update_st 1 "nearest" 0 "vecchia" [tt] 2 tt).
  - reflexivity.
  - reflexivity.
  - reflexivity.
  - lia.
Defined.

Lemma UpdateNearestNeighbors_residual_correlation_witness :
  ∃ st' log,
    ex_update "full_scale_vecchia" "residual_correlation" = Updated st' log ∧
    znth [] (nearest_neighbors_cluster_i st') 0 =
    znth [] (nearest_neighbors_cluster_i ex_update_st) 0 ∧
    (∀ i, 0 < i < 3 →
       length (znth [] (nearest_neighbors_cluster_i st') i) = Z.to_nat (Z.min i 1) ∧
       NoDup (znth [] (nearest_neighbors_cluster_i st') i) ∧
       ∀ x, x ∈ znth [] (nearest_neighbors_cluster_i st') i → 0 ≤ x < i) ∧
    entries_init_B_cluster_i st' =
    (init_B_triplets Q 0%Q 1%Q 3 (nearest_neighbors_cluster_i st')).1 ∧
    entries_init_B_grad_cluster_i st' =
    (init_B_triplets Q 0%Q 1%Q 3 (nearest_neighbors_cluster_i st')).2 ∧
    length (entries_init_B_cluster_i st') = length (entries_init_B_cluster_i ex_update_st) ∧
    length (entries_init_B_grad_cluster_i st') =
    length (entries_init_B_grad_cluster_i ex_update_st).
Proof.
  apply (UpdateNearestNeighbors_residual_correlation unit unit (fun _ => 3) (fun _ => false)
           (fun _ => ex_skew_dist) (fun _ => ex_line_dist) (1 # 100000)
           (fun _ _ _ _ _ g => ([[]; [0]; [1]], g))
           ex_update_st 1 0 [tt] 2 tt).
  - lia.
  - lia.
  - reflexivity.
  - intros H. discriminate.
  - intros i Hi. assert (Hc : i = 1 ∨ i = 2) by lia. destruct Hc as [-> | ->]; reflexivity.
  - reflexivity.
  - reflexivity.
Defined.

(** ** The factors [Bpo] and [Bp] of the prediction
    ([CalcPredVecchiaObservedFirstOrder]) *)

Section PredObservedFirst.

Variable double : Type.
Variables dzero done : double.
Variable dadd dsub : double → double → double.
(** The row [A_i] that Eigen's LLT solve returns for the prediction point [i]. *)
Variable A_i : Z → list double.

(** [m.coeffRef(i, j) -= v]: the coefficient is created with the value zero
    when it is not stored. *)
Definition coeffRef_sub (m : gmap (Z * Z) double) (i j : Z) (v : double) : gmap (Z * Z) double :=
  <[(i, j) := dsub (coeff double dzero m i j) v]> m.

(** Lines 1996-2008: the triplets of [Bpo] and of [Bp]. A neighbour below
    [num_re_cli] is an observed point, the others are prediction points. *)
Definition pred_B_triplets (num_re_cli num_re_pred_cli : Z) (nn : list (list Z))
  : list (Triplet_t double) * list (Triplet_t double) :=
  fold_left (fun (st : list (Triplet_t double) * list (Triplet_t double)) (i : Z) =>
      let nn_i := znth [] nn i in
      fold_left (fun (st : list (Triplet_t double) * list (Triplet_t double)) (inn : Z) =>
          let c := znth 0 nn_i inn in
          if c <? num_re_cli then (st.1 ++ [Triplet i c dzero], st.2)
          else (st.1, st.2 ++ [Triplet i (c - num_re_cli) dzero]))
        (range 0 (Z.of_nat (length nn_i))) (st.1, st.2 ++ [Triplet i i done]))
    (range 0 num_re_pred_cli) ([], []).

(** Lines 2089-2096 for one prediction point. *)
Definition pred_B_row (num_re_cli : Z) (nn : list (list Z))
    (st : gmap (Z * Z) double * gmap (Z * Z) double) (i : Z)
  : gmap (Z * Z) double * gmap (Z * Z) double :=
  let nn_i := znth [] nn i in
  fold_left (fun (st : gmap (Z * Z) double * gmap (Z * Z) double) (inn : Z) =>
      let c := znth 0 nn_i inn in
      if c <? num_re_cli then (coeffRef_sub st.1 i c (znth dzero (A_i i) inn), st.2)
      else (st.1, coeffRef_sub st.2 i (c - num_re_cli) (znth dzero (A_i i) inn)))
    (range 0 (Z.of_nat (length nn_i))) st.

(** [Bpo] and [Bp] after the loop over the prediction points (lines
    2009-2013 and 2089-2096). *)
Definition CalcPredVecchiaObservedFirstOrder_B (num_re_cli num_re_pred_cli : Z)
    (nn : list (list Z)) : gmap (Z * Z) double * gmap (Z * Z) double :=
  let t := pred_B_triplets num_re_cli num_re_pred_cli nn in
  fold_left (pred_B_row num_re_cli nn) (range 0 num_re_pred_cli)
    (setFromTriplets double dadd t.1, setFromTriplets double dadd t.2).

(** With observed neighbours only, the triplets of [Bp] are its diagonal. *)
Lemma pred_B_triplets_observed (num_re_cli : Z) (nn : list (list Z)) (rows : list Z)
    (st : list (Triplet_t double) * list (Triplet_t double)) :
  (∀ i x, i ∈ rows → x ∈ znth [] nn i → x < num_re_cli) →
  (fold_left (fun (st : list (Triplet_t double) * list (Triplet_t double)) (i : Z) =>
      let nn_i := znth [] nn i in
      fold_left (fun (st : list (Triplet_t double) * list (Triplet_t double)) (inn : Z) =>
          let c := znth 0 nn_i inn in
          if c <? num_re_cli then (st.1 ++ [Triplet i c dzero], st.2)
          else (st.1, st.2 ++ [Triplet i (c - num_re_cli) dzero]))
        (range 0 (Z.of_nat (length nn_i))) (st.1, st.2 ++ [Triplet i i done]))
    rows st).2 = st.2 ++ map (fun i => Triplet i i done) rows.
Proof.
  revert st. induction rows as [|i rows IH]; intros st Hobs.
  - simpl. rewrite app_nil_r. reflexivity.
  - cbn [fold_left map]. rewrite IH by (intros i' x Hi'; apply Hobs; right; exact Hi').
    cbv zeta.
    assert (Hin : ∀ inn, inn ∈ range 0 (Z.of_nat (length (znth [] nn i))) →
              znth 0 (znth [] nn i) inn < num_re_cli).
    { intros inn Hinn. apply elem_of_range in Hinn.
      apply (Hobs i); [left | apply znth_elem_of; lia]. }
    assert (Hrow : ∀ l (s : list (Triplet_t double) * list (Triplet_t double)),
              (∀ inn, inn ∈ l → znth 0 (znth [] nn i) inn < num_re_cli) →
              (fold_left (fun (st : list (Triplet_t double) * list (Triplet_t double)) (inn : Z) =>
                   if znth 0 (znth [] nn i) inn <? num_re_cli
                   then (st.1 ++ [Triplet i (znth 0 (znth [] nn i) inn) dzero], st.2)
                   else (st.1, st.2 ++ [Triplet i (znth 0 (znth [] nn i) inn - num_re_cli) dzero]))
                 l s).2 = s.2).
    { induction l as [|inn l IHl]; intros s Hl; [reflexivity|].
      cbn [fold_left]. rewrite IHl by (intros inn' H'; apply Hl; right; exact H').
      destruct (Z.ltb_spec (znth 0 (znth [] nn i) inn) num_re_cli) as [_ | Hge]; [reflexivity|].
      specialize (Hl inn ltac:(left)). lia. }
    rewrite (Hrow _ _ Hin). cbn [snd]. rewrite <- app_assoc. reflexivity.
Qed.

Lemma pred_B_row_observed (num_re_cli : Z) (nn : list (list Z)) (rows : list Z)
    (st : gmap (Z * Z) double * gmap (Z * Z) double) :
  (∀ i x, i ∈ rows → x ∈ znth [] nn i → x < num_re_cli) →
  (fold_left (pred_B_row num_re_cli nn) rows st).2 = st.2.
Proof.
  revert st. induction rows as [|i rows IH]; intros st Hobs; [reflexivity|].
  cbn [fold_left]. rewrite IH by (intros i' x Hi'; apply Hobs; right; exact Hi').
  unfold pred_B_row. cbv zeta.
  assert (Hin : ∀ inn, inn ∈ range 0 (Z.of_nat (length (znth [] nn i))) →
            znth 0 (znth [] nn i) inn < num_re_cli).
  { intros inn Hinn. apply elem_of_range in Hinn.
    apply (Hobs i); [left | apply znth_elem_of; lia]. }
  revert st Hin. generalize (range 0 (Z.of_nat (length (znth [] nn i)))).
  intros l. induction l as [|inn l IHl]; intros st Hl; [reflexivity|].
  cbn [fold_left]. rewrite IHl by (intros inn' H'; apply Hl; right; exact H').
  destruct (Z.ltb_spec (znth 0 (znth [] nn i) inn) num_re_cli) as [_ | Hge]; [reflexivity|].
  specialize (Hl inn ltac:(left)). lia.
Qed.

(** The matrix of the triplets [(i, i, 1)], [0 <= i < n]. *)
Lemma setFromTriplets_diag (n : nat) :
  let B := setFromTriplets double dadd (map (fun i => Triplet i i done) (range 0 (Z.of_nat n))) in
  (∀ i, 0 ≤ i < Z.of_nat n → B !! (i, i) = Some done) ∧
  (∀ i j, is_Some (B !! (i, j)) → j = i ∧ 0 ≤ i < Z.of_nat n).
Proof.
  unfold setFromTriplets. induction n as [|n IH].
  - simpl. split; [lia|]. intros i j H. rewrite lookup_empty in H. destruct H; discriminate.
  - rewrite Nat2Z.inj_succ, <- Z.add_1_r, range_snoc by lia.
    rewrite map_app, fold_left_app. simpl map. simpl fold_left.
    destruct IH as [IHd IHo].
    set (B0 := fold_left (add_triplet double dadd) _ ∅) in *.
    split.
    + intros i Hi. unfold add_triplet. cbn [t_row t_col t_value].
      destruct (decide (i = Z.of_nat n)) as [-> | Hne].
      * rewrite lookup_insert_eq.
        destruct (B0 !! (Z.of_nat n, Z.of_nat n)) eqn:E; [|reflexivity].
        destruct (IHo (Z.of_nat n) (Z.of_nat n) ltac:(eauto)). lia.
      * rewrite lookup_insert_ne by congruence. apply IHd. lia.
    + intros i j H. destruct (decide ((Z.of_nat n, Z.of_nat n) = (i, j))) as [E | Hne].
      * injection E as <- <-. split; [reflexivity | lia].
      * unfold add_triplet in H. cbn [t_row t_col t_value] in H.
        rewrite (lookup_insert_ne B0 _ _ _ Hne) in H.
        destruct (IHo i j H). split; [assumption | lia].
Qed.

Lemma CalcPredVecchiaObservedFirstOrder_Bp_diag (num_re_cli num_re_pred_cli : Z)
    (nn : list (list Z)) :
  0 ≤ num_re_pred_cli →
  (∀ i x, 0 ≤ i < num_re_pred_cli → x ∈ znth [] nn i → x < num_re_cli) →
  let Bp := (CalcPredVecchiaObservedFirstOrder_B num_re_cli num_re_pred_cli nn).2 in
  (∀ i, 0 ≤ i < num_re_pred_cli → Bp !! (i, i) = Some done) ∧
  (∀ i j, is_Some (Bp !! (i, j)) → j = i ∧ 0 ≤ i < num_re_pred_cli).
Proof.
  intros Hn Hobs. unfold CalcPredVecchiaObservedFirstOrder_B. cbv zeta.
  assert (Hobs' : ∀ i x, i ∈ range 0 num_re_pred_cli → x ∈ znth [] nn i → x < num_re_cli).
  { intros i x Hi. apply Hobs, elem_of_range, Hi. }
  rewrite pred_B_row_observed by exact Hobs'. cbn [snd].
  unfold pred_B_triplets. rewrite pred_B_triplets_observed by exact Hobs'. cbn [snd app].
  rewrite <- (Z2Nat.id num_re_pred_cli) by exact Hn.
  apply setFromTriplets_diag.
Qed.


(** *** The two factors as sequences of writes *)

Definition sub_op (m : gmap (Z * Z) double) (o : Z * Z * double) : gmap (Z * Z) double :=
  coeffRef_sub m o.1.1 o.1.2 o.2.

Definition to_trip (o : Z * Z * double) : Triplet_t double := Triplet o.1.1 o.1.2 dzero.

Definition t_key (t : Triplet_t double) : Z * Z := (t_row t, t_col t).

Lemma add_triplets_other (ts : list (Triplet_t double)) (m : gmap (Z * Z) double) (k : Z * Z) :
  k ∉ map t_key ts → fold_left (add_triplet double dadd) ts m !! k = m !! k.
Proof.
  revert m. induction ts as [|a ts IH]; intros m H; [reflexivity|].
  simpl in H. apply not_elem_of_cons in H as [Hne H].
  cbn [fold_left]. rewrite IH by exact H. unfold add_triplet.
  apply lookup_insert_ne. intros E. apply Hne. rewrite <- E. reflexivity.
Qed.

Lemma add_triplets_once (ts : list (Triplet_t double)) (m : gmap (Z * Z) double)
    (t : Triplet_t double) :
  NoDup (map t_key ts) → t ∈ ts → m !! t_key t = None →
  fold_left (add_triplet double dadd) ts m !! t_key t = Some (t_value t).
Proof.
  revert m. induction ts as [|a ts IH]; intros m Hnd Hin Hm; [inversion Hin|].
  simpl in Hnd. apply NoDup_cons in Hnd as [Ha Hnd]. cbn [fold_left].
  apply elem_of_cons in Hin as [-> | Hin].
  - rewrite add_triplets_other by exact Ha. unfold add_triplet.
    unfold t_key in *. rewrite lookup_insert_eq, Hm. reflexivity.
  - apply IH; [exact Hnd | exact Hin|]. unfold add_triplet. rewrite lookup_insert_ne; [exact Hm|].
    intros E. apply Ha. change (t_row a, t_col a) with (t_key a) in E. rewrite E.
    apply list_elem_of_In, in_map, list_elem_of_In, Hin.
Qed.

Lemma add_triplets_keys (ts : list (Triplet_t double)) (m : gmap (Z * Z) double) (k : Z * Z) :
  is_Some (fold_left (add_triplet double dadd) ts m !! k) → is_Some (m !! k) ∨ k ∈ map t_key ts.
Proof.
  revert m. induction ts as [|a ts IH]; intros m H; [left; exact H|].
  cbn [fold_left] in H. apply IH in H as [H | H]; [|right; simpl; right; exact H].
  destruct (decide (t_key a = k)) as [<- | Hne]; [right; simpl; left|].
  left. unfold add_triplet in H. rewrite lookup_insert_ne in H by exact Hne. exact H.
Qed.

Lemma fold_sub_other (ops : list (Z * Z * double)) (m : gmap (Z * Z) double) (k : Z * Z) :
  k ∉ map fst ops → fold_left sub_op ops m !! k = m !! k.
Proof.
  revert m. induction ops as [|[[i j] a] ops IH]; intros m H; [reflexivity|].
  simpl in H. apply not_elem_of_cons in H as [Hne H].
  cbn [fold_left]. rewrite IH by exact H. unfold sub_op, coeffRef_sub. simpl.
  apply lookup_insert_ne. congruence.
Qed.

Lemma fold_sub_once (ops : list (Z * Z * double)) (m : gmap (Z * Z) double) (o : Z * Z * double) :
  NoDup (map fst ops) → o ∈ ops →
  fold_left sub_op ops m !! o.1 = Some (dsub (coeff double dzero m o.1.1 o.1.2) o.2).
Proof.
  revert m. induction ops as [|a ops IH]; intros m Hnd Hin; [inversion Hin|].
  simpl in Hnd. apply NoDup_cons in Hnd as [Ha Hnd]. cbn [fold_left].
  apply elem_of_cons in Hin as [-> | Hin].
  - rewrite fold_sub_other by exact Ha. destruct a as [[i j] v].
    unfold sub_op, coeffRef_sub. simpl. apply lookup_insert_eq.
  - rewrite IH by assumption. f_equal. f_equal.
    assert (Hne : a.1 ≠ o.1).
    { intros E. apply Ha. rewrite E. apply list_elem_of_In, in_map, list_elem_of_In, Hin. }
    destruct a as [[i j] v], o as [[i' j'] v']. simpl in *.
    unfold coeff, sub_op, coeffRef_sub. simpl. rewrite lookup_insert_ne by exact Hne. reflexivity.
Qed.

Lemma fold_sub_keys (ops : list (Z * Z * double)) (m : gmap (Z * Z) double) (k : Z * Z) :
  is_Some (fold_left sub_op ops m !! k) → is_Some (m !! k) ∨ k ∈ map fst ops.
Proof.
  revert m. induction ops as [|a ops IH]; intros m H; [left; exact H|].
  cbn [fold_left] in H. apply IH in H as [H | H]; [|right; simpl; right; exact H].
  destruct (decide (a.1 = k)) as [<- | Hne]; [right; simpl; left|].
  left. destruct a as [[i j] v]. unfold sub_op, coeffRef_sub in H. simpl in *.
  rewrite lookup_insert_ne in H by exact Hne. exact H.
Qed.

(** The writes of the point [i] whose neighbour satisfies [P], at the
    column [g] of the neighbour. *)
Definition row_ops (P : Z → bool) (g : Z → Z) (nn : list (list Z)) (i : Z)
  : list (Z * Z * double) :=
  flat_map (fun inn => let c := znth 0 (znth [] nn i) inn in
                       if P c then [(i, g c, znth dzero (A_i i) inn)] else [])
           (range 0 (Z.of_nat (length (znth [] nn i)))).

Lemma row_ops_keys (P : Z → bool) (g : Z → Z) (nn : list (list Z)) (i : Z) :
  map fst (row_ops P g nn i)
  = flat_map (fun c => if P c then [(i, g c)] else []) (znth [] nn i).
Proof.
  unfold row_ops. rewrite <- (map_znth_range 0 (znth [] nn i)) at 2.
  induction (range 0 (Z.of_nat (length (znth [] nn i)))) as [|inn l IH]; [reflexivity|].
  cbn [flat_map map]. rewrite map_app, IH.
  destruct (P (znth 0 (znth [] nn i) inn)); reflexivity.
Qed.

Lemma cond_keys_elem (P : Z → bool) (g : Z → Z) (i : Z) (l : list Z) (k : Z * Z) :
  k ∈ flat_map (fun c => if P c then [(i, g c)] else []) l
  ↔ ∃ c, c ∈ l ∧ P c = true ∧ k = (i, g c).
Proof.
  rewrite list_elem_of_In, in_flat_map. split.
  - intros (c & Hc & Hk). exists c. rewrite list_elem_of_In. split; [exact Hc|].
    destruct (P c); [|destruct Hk]. destruct Hk as [<- | []]. split; reflexivity.
  - intros (c & Hc & HP & ->). exists c. rewrite <- list_elem_of_In. split; [exact Hc|].
    rewrite HP. left. reflexivity.
Qed.

Lemma cond_keys_NoDup (P : Z → bool) (g : Z → Z) (i : Z) (l : list Z) :
  (∀ c c', g c = g c' → c = c') → NoDup l →
  NoDup (flat_map (fun c => if P c then [(i, g c)] else []) l).
Proof.
  intros Hg. induction l as [|c l IH]; intros Hnd; [constructor|].
  apply NoDup_cons in Hnd as [Hc Hnd]. cbn [flat_map].
  destruct (P c) eqn:E; [|apply IH, Hnd].
  cbn [app]. apply NoDup_cons. split; [|apply IH, Hnd].
  intros H. apply cond_keys_elem in H as (c' & Hc' & _ & Heq).
  injection Heq as Heq. apply Hg in Heq. subst c'. contradiction.
Qed.

Lemma row_ops_in (P : Z → bool) (g : Z → Z) (nn : list (list Z)) (i inn : Z) :
  0 ≤ inn < Z.of_nat (length (znth [] nn i)) →
  P (znth 0 (znth [] nn i) inn) = true →
  (i, g (znth 0 (znth [] nn i) inn), znth dzero (A_i i) inn) ∈ row_ops P g nn i.
Proof.
  intros Hinn HP. unfold row_ops. rewrite list_elem_of_In, in_flat_map.
  exists inn. split; [apply list_elem_of_In, elem_of_range; lia|].
  cbv zeta. rewrite HP. left. reflexivity.
Qed.

Lemma all_ops_keys_elem (P : Z → bool) (g : Z → Z) (nn : list (list Z)) (rows : list Z)
    (k : Z * Z) :
  k ∈ map fst (flat_map (row_ops P g nn) rows)
  ↔ k.1 ∈ rows ∧ ∃ c, c ∈ znth [] nn k.1 ∧ P c = true ∧ k.2 = g c.
Proof.
  induction rows as [|i rows IH].
  - simpl. split; [intros H; inversion H | intros [H _]; inversion H].
  - cbn [flat_map]. rewrite map_app, elem_of_app, IH, row_ops_keys, cond_keys_elem, elem_of_cons.
    split.
    + intros [(c & Hc & HP & ->) | (Hk & H)].
      * simpl. split; [left; reflexivity|]. exists c. auto.
      * split; [right; exact Hk | exact H].
    + intros ([Hk1 | Hk] & c & Hc & HP & Hg).
      * left. exists c. destruct k as [k1 k2]. simpl in *. subst k1 k2. auto.
      * right. split; [exact Hk|]. exists c. auto.
Qed.

Lemma all_ops_keys_NoDup (P : Z → bool) (g : Z → Z) (nn : list (list Z)) (rows : list Z) :
  (∀ c c', g c = g c' → c = c') → NoDup rows → (∀ i, i ∈ rows → NoDup (znth [] nn i)) →
  NoDup (map fst (flat_map (row_ops P g nn) rows)).
Proof.
  intros Hg. induction rows as [|i rows IH]; intros Hnd Hrows; [constructor|].
  apply NoDup_cons in Hnd as [Hi Hnd]. cbn [flat_map]. rewrite map_app.
  apply NoDup_app. split; [|split].
  - rewrite row_ops_keys. apply cond_keys_NoDup; [exact Hg|]. apply Hrows. left.
  - intros k Hk Hk'. rewrite row_ops_keys in Hk.
    apply cond_keys_elem in Hk as (c & _ & _ & ->).
    apply all_ops_keys_elem in Hk' as [Hk' _]. simpl in Hk'. contradiction.
  - apply IH; [exact Hnd|]. intros j Hj. apply Hrows. right. exact Hj.
Qed.

(** The triplets of [Bp]: the diagonal entry of a point, then its
    neighbours among the prediction points. *)
Definition diag_trips (P : Z → bool) (g : Z → Z) (nn : list (list Z)) (rows : list Z)
  : list (Triplet_t double) :=
  flat_map (fun i => Triplet i i done :: map to_trip (row_ops P g nn i)) rows.

Lemma map_key_to_trip (ops : list (Z * Z * double)) : map t_key (map to_trip ops) = map fst ops.
Proof.
  induction ops as [|[[i j] a] ops IH]; [reflexivity|]. simpl. rewrite IH. reflexivity.
Qed.

Lemma diag_trips_keys_elem (P : Z → bool) (g : Z → Z) (nn : list (list Z)) (rows : list Z)
    (k : Z * Z) :
  k ∈ map t_key (diag_trips P g nn rows)
  ↔ k.1 ∈ rows ∧ (k.2 = k.1 ∨ ∃ c, c ∈ znth [] nn k.1 ∧ P c = true ∧ k.2 = g c).
Proof.
  unfold diag_trips. induction rows as [|i rows IH].
  - simpl. split; [intros H; inversion H | intros [H _]; inversion H].
  - cbn [flat_map]. rewrite map_app, elem_of_app, IH. cbn [map].
    rewrite map_key_to_trip, elem_of_cons, row_ops_keys, cond_keys_elem, elem_of_cons.
    unfold t_key. simpl. split.
    + intros [[-> | (c & Hc & HP & ->)] | (Hk & H)].
      * simpl. split; [left; reflexivity | left; reflexivity].
      * simpl. split; [left; reflexivity|]. right. exists c. auto.
      * split; [right; exact Hk | exact H].
    + intros ([Hk1 | Hk] & H).
      * left. destruct k as [k1 k2]. simpl in *. subst k1.
        destruct H as [-> | (c & Hc & HP & ->)].
        -- left. reflexivity.
        -- right. exists c. auto.
      * right. split; [exact Hk | exact H].
Qed.

Lemma diag_trips_keys_NoDup (P : Z → bool) (g : Z → Z) (nn : list (list Z)) (rows : list Z) :
  (∀ c c', g c = g c' → c = c') → NoDup rows →
  (∀ i, i ∈ rows → NoDup (znth [] nn i) ∧ ∀ c, c ∈ znth [] nn i → P c = true → g c ≠ i) →
  NoDup (map t_key (diag_trips P g nn rows)).
Proof.
  intros Hg. induction rows as [|i rows IH]; intros Hnd Hrows; [constructor|].
  apply NoDup_cons in Hnd as [Hi Hnd]. unfold diag_trips. cbn [flat_map]. rewrite map_app.
  destruct (Hrows i ltac:(left)) as [Hndi Hdi].
  apply NoDup_app. split; [|split].
  - cbn [map]. rewrite map_key_to_trip, row_ops_keys. apply NoDup_cons. split.
    + unfold t_key. simpl. intros H. apply cond_keys_elem in H as (c & Hc & HP & Heq).
      injection Heq as Heq. apply (Hdi c Hc HP). congruence.
    + apply cond_keys_NoDup; assumption.
  - intros k Hk Hk'. apply diag_trips_keys_elem in Hk' as [Hk' _].
    cbn [map] in Hk. rewrite map_key_to_trip, row_ops_keys in Hk.
    apply elem_of_cons in Hk as [-> | Hk].
    + simpl in Hk'. contradiction.
    + apply cond_keys_elem in Hk as (c & _ & _ & ->). simpl in Hk'. contradiction.
  - apply IH; [exact Hnd|]. intros j Hj. apply Hrows. right. exact Hj.
Qed.

Definition is_obs (num_re_cli : Z) (c : Z) : bool := c <? num_re_cli.
Definition is_pred (num_re_cli : Z) (c : Z) : bool := negb (c <? num_re_cli).

Lemma pred_B_rows_split (num_re_cli : Z) (nn : list (list Z)) (rows : list Z)
    (st : gmap (Z * Z) double * gmap (Z * Z) double) :
  fold_left (pred_B_row num_re_cli nn) rows st
  = (fold_left sub_op (flat_map (row_ops (is_obs num_re_cli) (fun c => c) nn) rows) st.1,
     fold_left sub_op
       (flat_map (row_ops (is_pred num_re_cli) (fun c => c - num_re_cli) nn) rows) st.2).
Proof.
  revert st. induction rows as [|i rows IH]; intros st; [destruct st; reflexivity|].
  cbn [fold_left flat_map]. rewrite IH, !fold_left_app. clear IH.
  assert (Hrow : pred_B_row num_re_cli nn st i
                 = (fold_left sub_op (row_ops (is_obs num_re_cli) (fun c => c) nn i) st.1,
                    fold_left sub_op
                      (row_ops (is_pred num_re_cli) (fun c => c - num_re_cli) nn i) st.2)).
  { unfold pred_B_row, row_ops. cbv zeta.
    generalize (range 0 (Z.of_nat (length (znth [] nn i)))). intros l. revert st.
    induction l as [|inn l IHl]; intros st; [destruct st; reflexivity|].
    cbn [fold_left flat_map]. rewrite IHl, !fold_left_app. unfold is_obs, is_pred.
    destruct (znth 0 (znth [] nn i) inn <? num_re_cli); reflexivity. }
  rewrite Hrow. reflexivity.
Qed.

Lemma pred_B_triplets_split (num_re_cli num_re_pred_cli : Z) (nn : list (list Z)) :
  pred_B_triplets num_re_cli num_re_pred_cli nn
  = (map to_trip (flat_map (row_ops (is_obs num_re_cli) (fun c => c) nn)
                           (range 0 num_re_pred_cli)),
     diag_trips (is_pred num_re_cli) (fun c => c - num_re_cli) nn (range 0 num_re_pred_cli)).
Proof.
  unfold pred_B_triplets, diag_trips.
  change (map to_trip (flat_map (row_ops (is_obs num_re_cli) (fun c => c) nn)
                                (range 0 num_re_pred_cli)))
    with (([] : list (Triplet_t double), [] : list (Triplet_t double)).1
          ++ map to_trip (flat_map (row_ops (is_obs num_re_cli) (fun c => c) nn)
                                   (range 0 num_re_pred_cli))).
  change (flat_map (fun i => Triplet i i done
                       :: map to_trip (row_ops (is_pred num_re_cli) (fun c => c - num_re_cli) nn i))
                   (range 0 num_re_pred_cli))
    with (([] : list (Triplet_t double), [] : list (Triplet_t double)).2
          ++ flat_map (fun i => Triplet i i done
                         :: map to_trip (row_ops (is_pred num_re_cli)
                                                 (fun c => c - num_re_cli) nn i))
                      (range 0 num_re_pred_cli)).
  generalize (([] : list (Triplet_t double), [] : list (Triplet_t double))).
  generalize (range 0 num_re_pred_cli). intros rows.
  induction rows as [|i rows IH]; intros st.
  - simpl. rewrite !app_nil_r. destruct st; reflexivity.
  - cbn [fold_left flat_map]. rewrite IH. clear IH. cbv zeta.
    assert (Hrow : ∀ l (s : list (Triplet_t double) * list (Triplet_t double)),
              fold_left (fun (st : list (Triplet_t double) * list (Triplet_t double)) (inn : Z) =>
                   if znth 0 (znth [] nn i) inn <? num_re_cli
                   then (st.1 ++ [Triplet i (znth 0 (znth [] nn i) inn) dzero], st.2)
                   else (st.1, st.2 ++ [Triplet i (znth 0 (znth [] nn i) inn - num_re_cli) dzero]))
                 l s
              = (s.1 ++ map to_trip
                   (flat_map (fun inn => let c := znth 0 (znth [] nn i) inn in
                        if is_obs num_re_cli c then [(i, c, znth dzero (A_i i) inn)] else []) l),
                 s.2 ++ map to_trip
                   (flat_map (fun inn => let c := znth 0 (znth [] nn i) inn in
                        if is_pred num_re_cli c
                        then [(i, c - num_re_cli, znth dzero (A_i i) inn)] else []) l))).
    { induction l as [|inn l IHl]; intros s.
      - simpl. rewrite !app_nil_r. destruct s; reflexivity.
      - cbn [fold_left flat_map]. rewrite IHl. cbv zeta. unfold is_obs, is_pred.
        destruct (znth 0 (znth [] nn i) inn <? num_re_cli); cbn [fst snd negb app map];
          rewrite <- ?app_assoc; reflexivity. }
    rewrite Hrow. cbn [fst snd]. unfold row_ops. rewrite map_app, <- !app_assoc.
    reflexivity.
Qed.


Lemma row_ops_to_trip_diag (P : Z → bool) (g : Z → Z) (nn : list (list Z)) (rows : list Z)
    (i : Z) (o : Z * Z * double) :
  i ∈ rows → o ∈ row_ops P g nn i → to_trip o ∈ diag_trips P g nn rows.
Proof.
  intros Hi Ho. unfold diag_trips. apply list_elem_of_In, in_flat_map. exists i.
  split; [apply list_elem_of_In, Hi|]. right. apply in_map, list_elem_of_In, Ho.
Qed.

Lemma row_ops_all (P : Z → bool) (g : Z → Z) (nn : list (list Z)) (rows : list Z)
    (i : Z) (o : Z * Z * double) :
  i ∈ rows → o ∈ row_ops P g nn i → o ∈ flat_map (row_ops P g nn) rows.
Proof.
  intros Hi Ho. apply list_elem_of_In, in_flat_map. exists i.
  split; apply list_elem_of_In; assumption.
Qed.

Section Factors.

Variables num_re_cli num_re_pred_cli : Z.
Variable nn : list (list Z).
(** What the search leaves: the neighbours of the prediction point [i], the
    point [num_re_cli + i] of all points, are distinct earlier points. *)
Hypothesis Hnn : ∀ i, 0 ≤ i < num_re_pred_cli →
  NoDup (znth [] nn i) ∧ ∀ x, x ∈ znth [] nn i → 0 ≤ x < num_re_cli + i.

Let rows := range 0 num_re_pred_cli.
Let opsO := flat_map (row_ops (is_obs num_re_cli) (fun c => c) nn) rows.
Let opsP := flat_map (row_ops (is_pred num_re_cli) (fun c => c - num_re_cli) nn) rows.
Let tripsP := diag_trips (is_pred num_re_cli) (fun c => c - num_re_cli) nn rows.

Lemma CalcPredVecchiaObservedFirstOrder_B_ops :
  CalcPredVecchiaObservedFirstOrder_B num_re_cli num_re_pred_cli nn
  = (fold_left sub_op opsO (setFromTriplets double dadd (map to_trip opsO)),
     fold_left sub_op opsP (setFromTriplets double dadd tripsP)).
Proof.
  unfold CalcPredVecchiaObservedFirstOrder_B. cbv zeta.
  rewrite pred_B_triplets_split, pred_B_rows_split. reflexivity.
Qed.

Lemma opsO_NoDup : NoDup (map fst opsO).
Proof.
  apply all_ops_keys_NoDup; [auto | apply NoDup_seqZ|].
  intros i Hi. apply elem_of_range in Hi. apply Hnn, Hi.
Qed.

Lemma opsP_NoDup : NoDup (map fst opsP).
Proof.
  apply all_ops_keys_NoDup; [intros; lia | apply NoDup_seqZ|].
  intros i Hi. apply elem_of_range in Hi. apply Hnn, Hi.
Qed.

Lemma tripsP_NoDup : NoDup (map t_key tripsP).
Proof.
  apply diag_trips_keys_NoDup; [intros; lia | apply NoDup_seqZ|].
  intros i Hi. apply elem_of_range in Hi. destruct (Hnn i Hi) as [Hnd Hlt].
  split; [exact Hnd|]. intros c Hc _. specialize (Hlt c Hc). lia.
Qed.

Lemma Bp_diagonal (i : Z) :
  0 ≤ i < num_re_pred_cli →
  (CalcPredVecchiaObservedFirstOrder_B num_re_cli num_re_pred_cli nn).2 !! (i, i) = Some done.
Proof.
  intros Hi. rewrite CalcPredVecchiaObservedFirstOrder_B_ops. cbn [snd].
  rewrite fold_sub_other.
  - apply (add_triplets_once tripsP ∅ (Triplet i i done) tripsP_NoDup);
      [|apply lookup_empty].
    unfold tripsP, diag_trips. apply list_elem_of_In, in_flat_map. exists i.
    split; [apply list_elem_of_In, elem_of_range, Hi | left; reflexivity].
  - intros H. apply all_ops_keys_elem in H as (_ & c & Hc & _ & Heq). simpl in *.
    destruct (Hnn i Hi) as [_ Hlt]. specialize (Hlt c Hc). lia.
Qed.

Lemma Bp_support (i j : Z) :
  is_Some ((CalcPredVecchiaObservedFirstOrder_B num_re_cli num_re_pred_cli nn).2 !! (i, j)) →
  0 ≤ j ≤ i ∧ i < num_re_pred_cli.
Proof.
  rewrite CalcPredVecchiaObservedFirstOrder_B_ops. cbn [snd]. intros H.
  assert (Hk : (i, j) ∈ map t_key tripsP ∨ (i, j) ∈ map fst opsP).
  { apply fold_sub_keys in H as [H | H]; [|right; exact H].
    apply add_triplets_keys in H as [H | H]; [|left; exact H].
    rewrite lookup_empty in H. destruct H; discriminate. }
  assert (Hc : i ∈ rows ∧ (j = i ∨ ∃ c, c ∈ znth [] nn i ∧ is_pred num_re_cli c = true
                                     ∧ j = c - num_re_cli)).
  { destruct Hk as [Hk | Hk].
    - apply diag_trips_keys_elem in Hk. exact Hk.
    - apply all_ops_keys_elem in Hk as [Hi Hc]. split; [exact Hi | right; exact Hc]. }
  destruct Hc as [Hi Hc]. apply elem_of_range in Hi.
  destruct Hc as [-> | (c & Hc & HP & ->)]; [lia|].
  destruct (Hnn i Hi) as [_ Hlt]. specialize (Hlt c Hc).
  unfold is_pred in HP. destruct (Z.ltb_spec c num_re_cli); [discriminate | lia].
Qed.

Lemma Bpo_support (i j : Z) :
  is_Some ((CalcPredVecchiaObservedFirstOrder_B num_re_cli num_re_pred_cli nn).1 !! (i, j)) →
  0 ≤ i < num_re_pred_cli ∧ 0 ≤ j < num_re_cli ∧ j ∈ znth [] nn i.
Proof.
  rewrite CalcPredVecchiaObservedFirstOrder_B_ops. cbn [fst]. intros H.
  assert (Hk : (i, j) ∈ map fst opsO).
  { apply fold_sub_keys in H as [H | H]; [|exact H].
    apply add_triplets_keys in H as [H | H]; [|rewrite map_key_to_trip in H; exact H].
    rewrite lookup_empty in H. destruct H; discriminate. }
  apply all_ops_keys_elem in Hk as (Hi & c & Hc & HP & Heq). simpl in *. subst j.
  apply elem_of_range in Hi. destruct (Hnn i Hi) as [_ Hlt]. specialize (Hlt c Hc).
  unfold is_obs in HP. destruct (Z.ltb_spec c num_re_cli); [|discriminate].
  split; [exact Hi|]. split; [lia | exact Hc].
Qed.

Lemma Bpo_value (i inn : Z) :
  0 ≤ i < num_re_pred_cli → 0 ≤ inn < Z.of_nat (length (znth [] nn i)) →
  znth 0 (znth [] nn i) inn < num_re_cli →
  (CalcPredVecchiaObservedFirstOrder_B num_re_cli num_re_pred_cli nn).1
    !! (i, znth 0 (znth [] nn i) inn) = Some (dsub dzero (znth dzero (A_i i) inn)).
Proof.
  intros Hi Hinn Hc. rewrite CalcPredVecchiaObservedFirstOrder_B_ops. cbn [fst].
  set (o := (i, znth 0 (znth [] nn i) inn, znth dzero (A_i i) inn)).
  assert (Ho : o ∈ row_ops (is_obs num_re_cli) (fun c => c) nn i).
  { apply (row_ops_in (is_obs num_re_cli) (fun c => c)); [exact Hinn|].
    unfold is_obs. apply Z.ltb_lt, Hc. }
  assert (Hi' : i ∈ rows) by (apply elem_of_range, Hi).
  pose proof (fold_sub_once opsO (setFromTriplets double dadd (map to_trip opsO)) o
                opsO_NoDup (row_ops_all _ _ _ _ _ _ Hi' Ho)) as H.
  cbn [fst snd o] in H. rewrite H. f_equal. f_equal.
  assert (Ht : setFromTriplets double dadd (map to_trip opsO)
               !! (i, znth 0 (znth [] nn i) inn) = Some dzero);
    [|unfold coeff; rewrite Ht; reflexivity].
  apply (add_triplets_once (map to_trip opsO) ∅ (to_trip o)).
  - rewrite map_key_to_trip. exact opsO_NoDup.
  - apply list_elem_of_In, in_map, list_elem_of_In, (row_ops_all _ _ _ _ _ _ Hi' Ho).
  - apply lookup_empty.
Qed.

Lemma Bp_value (i inn : Z) :
  0 ≤ i < num_re_pred_cli → 0 ≤ inn < Z.of_nat (length (znth [] nn i)) →
  num_re_cli ≤ znth 0 (znth [] nn i) inn →
  (CalcPredVecchiaObservedFirstOrder_B num_re_cli num_re_pred_cli nn).2
    !! (i, znth 0 (znth [] nn i) inn - num_re_cli)
  = Some (dsub dzero (znth dzero (A_i i) inn)).
Proof.
  intros Hi Hinn Hc. rewrite CalcPredVecchiaObservedFirstOrder_B_ops. cbn [snd].
  set (o := (i, znth 0 (znth [] nn i) inn - num_re_cli, znth dzero (A_i i) inn)).
  assert (Ho : o ∈ row_ops (is_pred num_re_cli) (fun c => c - num_re_cli) nn i).
  { apply (row_ops_in (is_pred num_re_cli) (fun c => c - num_re_cli)); [exact Hinn|].
    unfold is_pred. apply negb_true_iff, Z.ltb_ge, Hc. }
  assert (Hi' : i ∈ rows) by (apply elem_of_range, Hi).
  pose proof (fold_sub_once opsP (setFromTriplets double dadd tripsP) o
                opsP_NoDup (row_ops_all _ _ _ _ _ _ Hi' Ho)) as H.
  cbn [fst snd o] in H. rewrite H. f_equal. f_equal.
  assert (Ht : setFromTriplets double dadd tripsP
               !! (i, znth 0 (znth [] nn i) inn - num_re_cli) = Some dzero);
    [|unfold coeff; rewrite Ht; reflexivity].
  apply (add_triplets_once tripsP ∅ (to_trip o)).
  - exact tripsP_NoDup.
  - apply (row_ops_to_trip_diag _ _ _ _ i); assumption.
  - apply lookup_empty.
Qed.

End Factors.

End PredObservedFirst.

(** The rows of a prediction search that conditions on the observed points
    only hold observed points. *)
Lemma search_rows_observed
    (dist coord_dist : Z → Z → Q) (EPSILON_NUMBERS : Q) (num_data num_neighbors : Z)
    (neighbors0 : list (list Z)) (dist_obs0 : list (list Q)) (dist_between0 : list (list (list Q)))
    (start_at end_search_at : Z) (check save_distances : bool) (base : Q) (num_data_obs : Z) :
  let k := clamp_num_neighbors num_neighbors (default_end_search_at num_data end_search_at) in
  Z.of_nat (length neighbors0) = num_data - start_at →
  (save_distances = true →
   Z.of_nat (length dist_obs0) = num_data - start_at ∧
   Z.of_nat (length dist_between0) = num_data - start_at) →
  (1 <= base)%Q →
  1 ≤ k ≤ num_data_obs →
  (cover_tree_indices num_data k start_at true ≠ [] → 2 ≤ num_data_obs) →
  ∃ out,
    find_nearest_neighbors_Vecchia_FSA_fast dist coord_dist EPSILON_NUMBERS num_data num_neighbors
      neighbors0 dist_obs0 dist_between0 start_at end_search_at check save_distances
      base true false num_data_obs = Search_done out ∧
    ∀ i, 0 < i → start_at ≤ i < num_data →
      ∀ x, x ∈ znth [] (neighbors out) (i - start_at) → 0 ≤ x < Z.min i num_data_obs.
Proof.
  intros k Hlen Hsave Hbase Hk Htree.
  destruct (search_rows dist coord_dist EPSILON_NUMBERS num_data num_neighbors neighbors0
              dist_obs0 dist_between0 start_at end_search_at check save_distances base
              true false num_data_obs Hlen Hsave)
    as (out & cover_tree & level & Hout & Hbuilt & _ & Hrows).
  { intros H. specialize (Htree H). simpl. lia. }
  fold k in Hbuilt, Hrows. cbn [andb negb] in Hbuilt, Hrows.
  exists out. split; [exact Hout|].
  intros i Hi0 Hi x. rewrite (Hrows i Hi).
  destruct (search_indices num_data k start_at true i) as (Hbf & Hct & Hall).
  set (row1 := init_row k i (znth [] neighbors0 (i - start_at))).
  destruct (decide (i ∈ brute_force_indices num_data k start_at true)) as [Hin | Hnin].
  - destruct (Hbf Hin) as (Hki & _ & _).
    assert (Hl1 : length row1 = Z.to_nat k) by (apply init_row_length; lia).
    rewrite (brute_force_row_scan dist k num_data_obs i row1 Hl1).
    destruct (scan_row dist i k row1 (range 0 (Z.min i num_data_obs)) ltac:(lia) Hl1
                (NoDup_seqZ _ _) ltac:(rewrite length_range; lia)) as (_ & _ & H3).
    intros Hx. apply H3, elem_of_range in Hx. exact Hx.
  - destruct (decide (i ∈ cover_tree_indices num_data k start_at true)) as [Hin | Hnin'].
    + destruct (Hct Hin) as [Hki _].
      assert (Hne : cover_tree_indices num_data k start_at true ≠ []).
      { intros E. rewrite E in Hin. inversion Hin. }
      specialize (Hbuilt Hne). specialize (Htree Hne).
      pose proof (CoverTree_kNN_wf dist 0 num_data_obs base ltac:(lia) _ cover_tree level Hbuilt)
        as Hwf.
      assert (Hl1 : length row1 = Z.to_nat k) by (apply init_row_length; lia).
      destruct (find_kNN_CoverTree_scan_tree dist 0 num_data_obs base cover_tree level i k Hwf
                  Hbase ltac:(lia) ltac:(lia) row1
                  (cover_tree_wf_levels dist num_data_obs base cover_tree level Hwf Htree)
                  ltac:(lia) Hl1) as (c & Hc & Hkc & Hsub & Heq).
      unfold cover_tree_row. rewrite Heq. cbn [fst].
      destruct (scan_row dist i k row1 c ltac:(lia) Hl1 Hc Hkc) as (_ & _ & H3).
      intros Hx. apply H3, Hsub in Hx. lia.
    + assert (Hik : i ≤ k).
      { destruct (Z_le_gt_dec i k) as [H | H]; [exact H|].
        destruct (Hall ltac:(lia) Hi); contradiction. }
      unfold row1. rewrite (init_row_first k i _ Hi0 Hik).
      intros Hx. apply elem_of_range in Hx. lia.
Qed.

(** Lines 1927-1931 and 1944-1952: the neighbour search of
    [CalcPredVecchiaObservedFirstOrder] under the full-scale approximation
    with neighbours selected by residual correlation. The three vectors are
    constructed with [num_re_pred_cli] empty elements. *)
Definition CalcPredVecchiaObservedFirstOrder_search
    (dist coord_dist : Z → Z → Q) (EPSILON_NUMBERS : Q)
    (num_re_cli num_re_pred_cli num_neighbors_pred : Z)
    (CondObsOnly gauss_likelihood distances_saved : bool) (base : Q) : search_outcome :=
  let n := Z.to_nat num_re_pred_cli in
  if CondObsOnly then
    find_nearest_neighbors_Vecchia_FSA_fast dist coord_dist EPSILON_NUMBERS
      (num_re_cli + num_re_pred_cli) num_neighbors_pred
      (replicate n []) (replicate n []) (replicate n [])
      num_re_cli (num_re_cli - 1) false distances_saved base true false num_re_cli
  else
    find_nearest_neighbors_Vecchia_FSA_fast dist coord_dist EPSILON_NUMBERS
      (num_re_cli + num_re_pred_cli) num_neighbors_pred
      (replicate n []) (replicate n []) (replicate n [])
      num_re_cli (-1) (negb gauss_likelihood) distances_saved base true true num_re_cli.

(** X12. When the prediction conditions on the observed points only
    ([CondObsOnly]) and the search runs with one thread (a build without
    OpenMP, or [omp_get_max_threads() = 1]) on distances that are numbers (no
    NaN): with at least two observed points, at least one neighbour asked for
    and a base of at least one, the search returns and the factor [Bp] built
    from its neighbours is the identity: it stores the value one on its
    diagonal and nothing else. (The code skips the solve with [Bp] and takes
    [Dp] as the covariance in this case.) *)
Theorem CondObsOnly_Bp_is_identity
    (dist coord_dist : Z → Z → Q) (EPSILON_NUMBERS : Q)
    (num_re_cli num_re_pred_cli num_neighbors_pred : Z)
    (gauss_likelihood distances_saved : bool) (base : Q)
    (double : Type) (dzero done : double) (dadd dsub : double → double → double)
    (A_i : Z → list double) :
  2 ≤ num_re_cli → 0 ≤ num_re_pred_cli → 1 ≤ num_neighbors_pred → (1 <= base)%Q →
  ∃ out,
    CalcPredVecchiaObservedFirstOrder_search dist coord_dist EPSILON_NUMBERS
      num_re_cli num_re_pred_cli num_neighbors_pred true gauss_likelihood distances_saved base
    = Search_done out ∧
    let Bp := (CalcPredVecchiaObservedFirstOrder_B double dzero done dadd dsub A_i
                 num_re_cli num_re_pred_cli (neighbors out)).2 in
    (∀ i, 0 ≤ i < num_re_pred_cli → Bp !! (i, i) = Some done) ∧
    (∀ i j, is_Some (Bp !! (i, j)) → j = i ∧ 0 ≤ i < num_re_pred_cli).
Proof.
  intros Hobs Hpred Hnn Hbase. unfold CalcPredVecchiaObservedFirstOrder_search.
  assert (Hk : 1 ≤ clamp_num_neighbors num_neighbors_pred
                     (default_end_search_at (num_re_cli + num_re_pred_cli) (num_re_cli - 1))
               ≤ num_re_cli).
  { unfold clamp_num_neighbors, default_end_search_at.
    destruct (Z.ltb_spec (num_re_cli - 1) 0); [lia|].
    destruct (Z.ltb_spec (num_re_cli - 1 + 1) num_neighbors_pred); lia. }
  destruct (search_rows_observed dist coord_dist EPSILON_NUMBERS (num_re_cli + num_re_pred_cli)
              num_neighbors_pred (replicate (Z.to_nat num_re_pred_cli) [])
              (replicate (Z.to_nat num_re_pred_cli) []) (replicate (Z.to_nat num_re_pred_cli) [])
              num_re_cli (num_re_cli - 1) false distances_saved base num_re_cli)
    as (out & Hout & Hrows).
  - rewrite length_replicate. lia.
  - intros _. rewrite !length_replicate. lia.
  - exact Hbase.
  - exact Hk.
  - intros _. exact Hobs.
  - exists out. split; [exact Hout|].
    apply CalcPredVecchiaObservedFirstOrder_Bp_diag; [exact Hpred|].
    intros i x Hi Hx.
    specialize (Hrows (num_re_cli + i) ltac:(lia) ltac:(lia) x).
    replace (num_re_cli + i - num_re_cli) with i in Hrows by lia.
    specialize (Hrows Hx). lia.
Qed.

Lemma CondObsOnly_Bp_is_identity_witness :
  ∃ out,
    CalcPredVecchiaObservedFirstOrder_search ex_skew_dist ex_line_dist (1 # 100000)
      5 3 2 true true false 2 = Search_done out ∧
    let Bp := (CalcPredVecchiaObservedFirstOrder_B Q 0%Q 1%Q Qplus Qminus
                 (fun i => map (fun x => inject_Z (i + x)) (range 1 3))
                 5 3 (neighbors out)).2 in
    (∀ i, 0 ≤ i < 3 → Bp !! (i, i) = Some 1%Q) ∧
    (∀ i j, is_Some (Bp !! (i, j)) → j = i ∧ 0 ≤ i < 3).
Proof.
  apply (CondObsOnly_Bp_is_identity ex_skew_dist ex_line_dist (1 # 100000) 5 3 2 true false 2
           Q 0%Q 1%Q Qplus Qminus (fun i => map (fun x => inject_Z (i + x)) (range 1 3))).
  - lia.
  - lia.
  - lia.
  - unfold Qle. simpl. lia.
Defined.

Definition ex_pred_nn : list (list Z) := [[0; 1]; [5; 2]].

Definition ex_pred_A (i : Z) : list Q := map (fun x => inject_Z (i + x)) (range 1 3).

Lemma ex_pred_nn_earlier (i : Z) :
  0 ≤ i < 2 →
  NoDup (znth [] ex_pred_nn i) ∧ ∀ x, x ∈ znth [] ex_pred_nn i → 0 ≤ x < 5 + i.
Proof.
  intros Hi. assert (i = 0 ∨ i = 1) as [-> | ->] by lia.
  - change (znth [] ex_pred_nn 0) with [0; 1]. split.
    + apply NoDup_ListNoDup. repeat constructor; simpl; lia.
    + intros x Hx. repeat (apply elem_of_cons in Hx as [-> | Hx]; [lia|]). inversion Hx.
  - change (znth [] ex_pred_nn 1) with [5; 2]. split.
    + apply NoDup_ListNoDup. repeat constructor; simpl; lia.
    + intros x Hx. repeat (apply elem_of_cons in Hx as [-> | Hx]; [lia|]). inversion Hx.
Qed.

(** X13. When the neighbours of every prediction point are distinct earlier
    points (what the search returns), the factor [Bp] is unit lower
    triangular: it stores the value one at every diagonal position and has
    no entry above the diagonal or outside its rows; and [Bpo] has entries
    only at the observed neighbours of a prediction point. *)
Theorem CalcPredVecchiaObservedFirstOrder_Bp_unit_lower_triangular
    (double : Type) (dzero done : double) (dadd dsub : double → double → double)
    (A_i : Z → list double) (num_re_cli num_re_pred_cli : Z) (nn : list (list Z)) :
  (∀ i, 0 ≤ i < num_re_pred_cli →
     NoDup (znth [] nn i) ∧ ∀ x, x ∈ znth [] nn i → 0 ≤ x < num_re_cli + i) →
  let B := CalcPredVecchiaObservedFirstOrder_B double dzero done dadd dsub A_i
             num_re_cli num_re_pred_cli nn in
  (∀ i, 0 ≤ i < num_re_pred_cli → B.2 !! (i, i) = Some done) ∧
  (∀ i j, is_Some (B.2 !! (i, j)) → 0 ≤ j ≤ i ∧ i < num_re_pred_cli) ∧
  (∀ i j, is_Some (B.1 !! (i, j)) →
     0 ≤ i < num_re_pred_cli ∧ 0 ≤ j < num_re_cli ∧ j ∈ znth [] nn i).
Proof.
  intros Hnn B. unfold B. split; [|split].
  - intros i Hi. apply Bp_diagonal; assumption.
  - intros i j H. apply (Bp_support double dzero done dadd dsub A_i num_re_cli num_re_pred_cli nn Hnn).
    exact H.
  - intros i j H. apply (Bpo_support double dzero done dadd dsub A_i num_re_cli num_re_pred_cli nn Hnn).
    exact H.
Qed.

Lemma CalcPredVecchiaObservedFirstOrder_Bp_unit_lower_triangular_witness :
  let B := CalcPredVecchiaObservedFirstOrder_B Q 0%Q 1%Q Qplus Qminus ex_pred_A 5 2 ex_pred_nn in
  (∀ i, 0 ≤ i < 2 → B.2 !! (i, i) = Some 1%Q) ∧
  (∀ i j, is_Some (B.2 !! (i, j)) → 0 ≤ j ≤ i ∧ i < 2) ∧
  (∀ i j, is_Some (B.1 !! (i, j)) → 0 ≤ i < 2 ∧ 0 ≤ j < 5 ∧ j ∈ znth [] ex_pred_nn i).
Proof.
  apply (CalcPredVecchiaObservedFirstOrder_Bp_unit_lower_triangular Q 0%Q 1%Q Qplus Qminus
           ex_pred_A 5 2 ex_pred_nn).
  exact ex_pred_nn_earlier.
Defined.

(** X14. When the neighbours of every prediction point are distinct earlier
    points, the entry of the factors at a neighbour is zero minus the
    coefficient of [A_i]: for the neighbour number [inn] of the prediction
    point [i], [Bpo(i, c)] when the neighbour [c] is an observed point and
    [Bp(i, c - num_re_cli)] when it is a prediction point is
    [0 - A_i(0, inn)]. *)
Theorem CalcPredVecchiaObservedFirstOrder_B_values
    (double : Type) (dzero done : double) (dadd dsub : double → double → double)
    (A_i : Z → list double) (num_re_cli num_re_pred_cli : Z) (nn : list (list Z))
    (i inn : Z) :
  (∀ i, 0 ≤ i < num_re_pred_cli →
     NoDup (znth [] nn i) ∧ ∀ x, x ∈ znth [] nn i → 0 ≤ x < num_re_cli + i) →
  0 ≤ i < num_re_pred_cli → 0 ≤ inn < Z.of_nat (length (znth [] nn i)) →
  let B := CalcPredVecchiaObservedFirstOrder_B double dzero done dadd dsub A_i
             num_re_cli num_re_pred_cli nn in
  let c := znth 0 (znth [] nn i) inn in
  if c <? num_re_cli
  then B.1 !! (i, c) = Some (dsub dzero (znth dzero (A_i i) inn))
  else B.2 !! (i, c - num_re_cli) = Some (dsub dzero (znth dzero (A_i i) inn)).
Proof.
  intros Hnn Hi Hinn B c. unfold B, c.
  destruct (Z.ltb_spec (znth 0 (znth [] nn i) inn) num_re_cli) as [Hc | Hc].
  - apply Bpo_value; assumption.
  - apply Bp_value; assumption.
Qed.

Lemma CalcPredVecchiaObservedFirstOrder_B_values_witness :
  let B := CalcPredVecchiaObservedFirstOrder_B Q 0%Q 1%Q Qplus Qminus ex_pred_A 5 2 ex_pred_nn in
  let c := znth 0 (znth [] ex_pred_nn 1) 0 in
  if c <? 5
  then B.1 !! (1, c) = Some (0 - znth 0 (ex_pred_A 1) 0)%Q
  else B.2 !! (1, c - 5) = Some (0 - znth 0 (ex_pred_A 1) 0)%Q.
Proof.
  apply (CalcPredVecchiaObservedFirstOrder_B_values Q 0%Q 1%Q Qplus Qminus
           ex_pred_A 5 2 ex_pred_nn 1 0).
  - exact ex_pred_nn_earlier.
  - lia.
  - simpl. lia.
Defined.

(** ** The coefficients of [B] ([CalcCovFactorVecchia]) *)

Lemma znth_NoDup_inj (l : list Z) (a b : Z) :
  NoDup l → 0 ≤ a < Z.of_nat (length l) → 0 ≤ b < Z.of_nat (length l) →
  znth 0 l a = znth 0 l b → a = b.
Proof.
  intros Hnd Ha Hb. unfold znth.
  destruct (Z.ltb_spec a 0); [lia|]. destruct (Z.ltb_spec b 0); [lia|].
  rewrite !nth_lookup.
  destruct (lookup_lt_is_Some_2 l (Z.to_nat a) ltac:(lia)) as [x Hx].
  destruct (lookup_lt_is_Some_2 l (Z.to_nat b) ltac:(lia)) as [y Hy].
  rewrite Hx, Hy. simpl. intros ->.
  pose proof (NoDup_lookup l _ _ _ Hnd Hx Hy). lia.
Qed.

Section CovFactorBValues.

Variable double : Type.
Variables dzero : double.
Variable dadd : double → double → double.
Variable dneg : double → double.
Variable A_i : Z → list double.

Lemma set_B_row_value (nn : list (list Z)) (B : gmap (Z * Z) double) (i inn : Z) :
  0 < i → NoDup (znth [] nn i) → 0 ≤ inn < Z.of_nat (length (znth [] nn i)) →
  set_B_row double dzero dneg A_i nn B i !! (i, znth 0 (znth [] nn i) inn)
  = Some (dneg (znth dzero (A_i i) inn)).
Proof.
  intros Hi Hnd Hinn. unfold set_B_row.
  destruct (Z.ltb_spec 0 i) as [_ | H]; [|lia]. cbv zeta.
  assert (Hin : inn ∈ range 0 (Z.of_nat (length (znth [] nn i))))
    by (apply elem_of_range; exact Hinn).
  assert (Hsub : ∀ x, x ∈ range 0 (Z.of_nat (length (znth [] nn i))) →
                   0 ≤ x < Z.of_nat (length (znth [] nn i)))
    by (intros x Hx; apply elem_of_range in Hx; exact Hx).
  revert Hin Hsub. generalize (range 0 (Z.of_nat (length (znth [] nn i)))).
  intros l. induction l as [|x l IH] using rev_ind; intros Hin Hsub; [inversion Hin|].
  rewrite fold_left_app. cbn [fold_left]. unfold coeffRef_set at 1.
  destruct (decide (x = inn)) as [-> | Hne]; [apply lookup_insert_eq|].
  rewrite lookup_insert_ne.
  - apply IH.
    + apply elem_of_app in Hin as [Hin | Hin]; [exact Hin|].
      apply list_elem_of_singleton in Hin. congruence.
    + intros y Hy. apply Hsub, elem_of_app. left. exact Hy.
  - intros E. injection E as E. apply Hne.
    apply (znth_NoDup_inj (znth [] nn i)); [exact Hnd | | exact Hinn | exact E].
    apply Hsub, elem_of_app. right. left.
Qed.

Lemma fold_set_B_row_notin (nn : list (list Z)) (rows : list Z) (B : gmap (Z * Z) double)
    (κ : Z * Z) :
  κ.1 ∉ rows → fold_left (set_B_row double dzero dneg A_i nn) rows B !! κ = B !! κ.
Proof.
  revert B. induction rows as [|i rows IH]; intros B H; [reflexivity|].
  apply not_elem_of_cons in H as [Hne H]. cbn [fold_left]. rewrite IH by exact H.
  apply set_B_row_other. left. exact Hne.
Qed.

End CovFactorBValues.

(** X15. Whatever triplets initialise [B]: for a point [0 < i < n] whose
    neighbours are distinct, the coefficient of [B] at row [i] and at the
    column of its neighbour number [inn] is stored and is the negated
    coefficient [inn] of [A_i]; and the row of the point 0 is the one the
    triplets gave. *)
Theorem CalcCovFactorVecchia_B_values
    (double : Type) (dzero : double) (dadd : double → double → double)
    (dneg : double → double) (A_i : Z → list double)
    (n : Z) (entries : list (Triplet_t double)) (nn : list (list Z)) (i inn : Z) :
  0 < i < n → NoDup (znth [] nn i) → 0 ≤ inn < Z.of_nat (length (znth [] nn i)) →
  let B := CalcCovFactorVecchia_B double dzero dadd dneg A_i n entries nn in
  B !! (i, znth 0 (znth [] nn i) inn) = Some (dneg (znth dzero (A_i i) inn)) ∧
  ∀ j, B !! (0, j) = setFromTriplets double dadd entries !! (0, j).
Proof.
  intros Hi Hnd Hinn B. unfold B, CalcCovFactorVecchia_B. split.
  - rewrite <- (range_app 0 i n) by lia. rewrite (range_cons i n) by lia.
    rewrite fold_left_app. cbn [fold_left].
    rewrite fold_set_B_row_notin by (cbn [fst]; rewrite elem_of_range; lia).
    apply set_B_row_value; [lia | exact Hnd | exact Hinn].
  - intros j. generalize (setFromTriplets double dadd entries).
    induction (range 0 n) as [|r rows IH]; intros B1; [reflexivity|].
    cbn [fold_left]. rewrite IH.
    destruct (decide (r = 0)) as [-> | Hr]; [reflexivity|].
    apply set_B_row_other. left. simpl. congruence.
Qed.

Lemma CalcCovFactorVecchia_B_values_witness :
  let B := CalcCovFactorVecchia_B Q 0%Q Qplus Qopp ex_pred_A 3
             (init_B_triplets Q 0%Q 1%Q 3 [[]; [0]; [1; 0]]).1 [[]; [0]; [1; 0]] in
  B !! (2, znth 0 (znth [] [[]; [0]; [1; 0]] 2) 1) = Some (- znth 0 (ex_pred_A 2) 1)%Q ∧
  ∀ j, B !! (0, j)
       = setFromTriplets Q Qplus (init_B_triplets Q 0%Q 1%Q 3 [[]; [0]; [1; 0]]).1 !! (0, j).
Proof.
  apply (CalcCovFactorVecchia_B_values Q 0%Q Qplus Qopp ex_pred_A 3
           (init_B_triplets Q 0%Q 1%Q 3 [[]; [0]; [1; 0]]).1 [[]; [0]; [1; 0]] 2 1).
  - lia.
  - change (znth [] [[]; [0]; [1; 0]] 2) with [1; 0].
    apply NoDup_ListNoDup. repeat constructor; simpl; lia.
  - simpl. lia.
Defined.

(** ** Duplicates and the order of the coordinates ([CreateREComponentsVecchia]) *)

Lemma znth_map_in_range {A B : Type} (da : A) (db : B) (f : A → B) (l : list A) (s : Z) :
  0 ≤ s < Z.of_nat (length l) → znth db (map f l) s = f (znth da l s).
Proof.
  intros H. unfold znth. destruct (Z.ltb_spec s 0); [lia|].
  rewrite (nth_indep _ db (f da)) by (rewrite length_map; lia). apply map_nth.
Qed.

Section CreateREComponentsProperties.

Variable double : Type.
Variables dzero done : double.
Variable dmul : double → double → double.
Variable lpNorm2_diff : list double → list double → double.
Variable lt_EPSILON_NUMBERS : double → bool.
Variable RECompGP : Type.
Variable new_RECompGP : list (list double) → REConfig double → bool → RECompGP.
Variable new_RECompGP_rand_coef : list double → REConfig double → double → RECompGP.
Variable GetNumUniqueREs : RECompGP → Z.
Variable GetCoords : RECompGP → list (list double).
Variable ShouldSaveDistances : RECompGP → bool.
Variable IsSpaceTimeModel : RECompGP → bool.
Variable GetTaperMu : RECompGP → double.
Variable RNG_t : Type.
Variable std_shuffle : list Z → RNG_t → list Z * RNG_t.
Variable SortIndeces : list double → list Z.
Variable find_nearest_neighbors_Vecchia_fast :
  list (list double) → Z → Z → Z → Z → bool → string → RNG_t → bool →
  list (list Z) * list (list double) * list (list (list double)) * bool * RNG_t.

Let Create := CreateREComponentsVecchia double dzero done dmul lpNorm2_diff lt_EPSILON_NUMBERS
                RECompGP new_RECompGP new_RECompGP_rand_coef GetNumUniqueREs GetCoords
                ShouldSaveDistances IsSpaceTimeModel GetTaperMu RNG_t std_shuffle SortIndeces
                find_nearest_neighbors_Vecchia_fast.

(** Two points closer than [EPSILON_NUMBERS]. *)
Definition close_points (coords : list (list double)) (j i : Z) : bool :=
  lt_EPSILON_NUMBERS (lpNorm2_diff (znth [] coords j) (znth [] coords i)).

Lemma init_point_small_flag (check save : bool) (coords : list (list double)) (i : Z)
    (js : list Z) (d : list double) (h : bool) :
  (fold_left (fun (a : list double * bool) (j : Z) =>
    let '(d_obs, has_dup) := a in
    let dist_ij :=
      if save || (check && negb has_dup)
      then lpNorm2_diff (znth [] coords j) (znth [] coords i) else dzero in
    let d_obs' := if save then zset d_obs j dist_ij else d_obs in
    let has_dup' :=
      if check && negb has_dup then (if lt_EPSILON_NUMBERS dist_ij then true else has_dup)
      else has_dup in
    (d_obs', has_dup')) js (d, h)).2
  = h || (check && existsb (fun j => close_points coords j i) js).
Proof.
  revert d h. induction js as [|j js IH]; intros d h.
  - simpl. rewrite andb_false_r, orb_false_r. reflexivity.
  - cbn [fold_left existsb]. cbv zeta. rewrite IH. unfold close_points.
    destruct check, h; cbn [andb negb orb]; try reflexivity.
    rewrite orb_true_r. destruct (lt_EPSILON_NUMBERS _); reflexivity.
Qed.

Definition close_to_earlier (k : Z) (coords : list (list double)) (i : Z) : bool :=
  (0 <? i) && (i <=? k) && existsb (fun j => close_points coords j i) (range 0 i).

Lemma init_neighbors_flag (k : Z) (check save : bool) (coords : list (list double))
    (rows : list Z) (st : list (list Z) * list (list double) * bool) :
  (fold_left (init_neighbors_step double dzero lpNorm2_diff lt_EPSILON_NUMBERS k check save coords)
             rows st).2
  = st.2 || (check && existsb (close_to_earlier k coords) rows).
Proof.
  revert st. induction rows as [|i rows IH]; intros st.
  - simpl. rewrite andb_false_r, orb_false_r. reflexivity.
  - cbn [fold_left existsb]. rewrite IH. destruct st as [[nn d] h].
    unfold init_neighbors_step, close_to_earlier.
    destruct ((0 <? i) && (i <=? k)) eqn:E.
    + unfold init_point_small.
      pose proof (init_point_small_flag check save coords i (range 0 i)
                    (if save then replicate (Z.to_nat i) dzero else znth [] d i) h) as Hf.
      destruct (fold_left _ (range 0 i) _) as [d_i h'] eqn:Ef. cbn [snd] in Hf |- *.
      rewrite Hf. cbn [andb].
      destruct h, check, (existsb (fun j => close_points coords j i) (range 0 i));
        cbn [andb orb]; reflexivity.
    + cbn [andb orb]. destruct (k <? i); reflexivity.
Qed.

(** The flag the initialisation loop leaves: only the first [k + 1] points
    are compared with the points before them. *)
Lemma init_neighbors_duplicates (n k : Z) (check save : bool) (coords : list (list double))
    (nn0 : list (list Z)) (d0 : list (list double)) :
  (init_neighbors double dzero lpNorm2_diff lt_EPSILON_NUMBERS n k check save coords
     (nn0, d0, false)).2 = true
  ↔ check = true ∧ ∃ i j, 0 ≤ j < i ∧ i ≤ k ∧ i < n ∧ close_points coords j i = true.
Proof.
  unfold init_neighbors. rewrite init_neighbors_flag. cbn [snd orb].
  rewrite andb_true_iff, existsb_exists. split.
  - intros [Hc (i & Hi & H)]. split; [exact Hc|].
    apply list_elem_of_In, elem_of_range in Hi. unfold close_to_earlier in H.
    apply andb_true_iff in H as [H1 H2]. apply andb_true_iff in H1 as [H0 H1].
    apply existsb_exists in H2 as (j & Hj & H2).
    apply list_elem_of_In, elem_of_range in Hj.
    exists i, j. apply Z.leb_le in H1. repeat split; try lia. exact H2.
  - intros [Hc (i & j & Hj & Hk & Hn & H)]. split; [exact Hc|].
    exists i. split; [apply list_elem_of_In, elem_of_range; lia|].
    unfold close_to_earlier.
    rewrite (proj2 (Z.ltb_lt 0 i)) by lia. rewrite (proj2 (Z.leb_le i k)) by lia. cbn [andb].
    apply existsb_exists. exists j. split; [apply list_elem_of_In, elem_of_range; lia | exact H].
Qed.

Lemma add_rand_coef_re_comps (cfg : REConfig double) (re_comp : RECompGP) (js : list Z)
    (st : REComponents double RECompGP RNG_t) :
  ∃ extra,
    re_comps_cluster_i (fold_left (add_rand_coef double dzero dmul RECompGP new_RECompGP_rand_coef
                                     GetTaperMu RNG_t cfg re_comp) js st)
    = re_comps_cluster_i st ++ extra.
Proof.
  revert st. induction js as [|j js IH]; intros st.
  - exists []. simpl. rewrite app_nil_r. reflexivity.
  - cbn [fold_left]. destruct (IH (add_rand_coef double dzero dmul RECompGP new_RECompGP_rand_coef
                                     GetTaperMu RNG_t cfg re_comp st j)) as [extra H].
    rewrite H. unfold add_rand_coef at 1. cbn [re_comps_cluster_i].
    eexists. rewrite <- app_assoc. reflexivity.
Qed.

(** The rows of the coordinates after the time ordering are the gathered
    coordinates of the reordered data indices. *)
Lemma time_order_gather (cfg : REConfig double) (ids : list Z) :
  (is_time_ordering double cfg = true →
   Forall (fun s => 0 ≤ s < Z.of_nat (length ids))
          (SortIndeces (map (fun r => znth dzero r 0) (gather_coords double dzero cfg ids)))) →
  (time_order double dzero SortIndeces cfg (gather_coords double dzero cfg ids) ids).1
  = gather_coords double dzero cfg
      (time_order double dzero SortIndeces cfg (gather_coords double dzero cfg ids) ids).2.
Proof.
  intros H. unfold time_order. destruct (is_time_ordering double cfg); [|reflexivity].
  specialize (H eq_refl). cbv zeta. cbn [fst snd].
  induction H as [|s l Hs _ IH]; [reflexivity|].
  cbn [map]. unfold gather_coords at 3. cbn [map]. fold (gather_coords double dzero cfg).
  f_equal; [|exact IH].
  unfold gather_coords. apply (znth_map_in_range 0). exact Hs.
Qed.


Let selected := selected_re_comp double dzero RECompGP new_RECompGP RNG_t std_shuffle SortIndeces.

(** X16. When [SortIndeces] returns positions of the vector it sorts, the
    component of the intercept process that [CreateREComponentsVecchia]
    appends is built on the coordinates of the data indices in the order the
    function leaves them in [data_indices_per_cluster]: row [i] of its
    coordinates belongs to the data point [data_indices_per_cluster[i]],
    also after the shuffle and the ordering by time, and in every outcome. *)
Theorem CreateREComponentsVecchia_coords_follow_data_indices
    (cfg : REConfig double) (resid : list RECompGP) (st0 : REComponents double RECompGP RNG_t)
    (dflt : RECompGP) :
  let ids1 := (pre_shuffle double RNG_t std_shuffle cfg (data_indices_per_cluster st0) (rng st0)).1 in
  (is_time_ordering double cfg = true →
   Forall (fun s => 0 ≤ s < Z.of_nat (length ids1))
          (SortIndeces (map (fun r => znth dzero r 0) (gather_coords double dzero cfg ids1)))) →
  let st := final_state double RECompGP RNG_t (Create cfg resid st0) in
  znth dflt (re_comps_cluster_i st) (Z.of_nat (length (re_comps_cluster_i st0)))
  = new_RECompGP (gather_coords double dzero cfg (data_indices_per_cluster st)) cfg
      ((num_gp_total cfg =? 1) && (num_comps_total cfg =? 1) && negb (gauss_likelihood cfg)).
Proof.
  intros ids1 Hsort st. subst st ids1.
  pose proof (CreateREComponentsVecchia_data_indices double dzero done dmul lpNorm2_diff
                lt_EPSILON_NUMBERS RECompGP new_RECompGP new_RECompGP_rand_coef GetNumUniqueREs
                GetCoords ShouldSaveDistances IsSpaceTimeModel GetTaperMu RNG_t std_shuffle
                SortIndeces find_nearest_neighbors_Vecchia_fast cfg resid st0) as Hids.
  cbv zeta in Hids. fold Create in Hids. rewrite Hids. clear Hids.
  rewrite <- (time_order_gather cfg _ Hsort).
  unfold Create, CreateREComponentsVecchia.
  destruct (pre_shuffle double RNG_t std_shuffle cfg (data_indices_per_cluster st0) (rng st0))
    as [ids1 g1]. cbn [fst].
  destruct (time_order double dzero SortIndeces cfg (gather_coords double dzero cfg ids1) ids1)
    as [gp_coords_mat ids2]. cbn [fst]. cbv zeta.
  assert (Hz : ∀ extra,
            znth dflt ((re_comps_cluster_i st0
                        ++ [new_RECompGP gp_coords_mat cfg
                              ((num_gp_total cfg =? 1) && (num_comps_total cfg =? 1)
                               && negb (gauss_likelihood cfg))]) ++ extra)
                 (Z.of_nat (length (re_comps_cluster_i st0)))
            = new_RECompGP gp_coords_mat cfg
                ((num_gp_total cfg =? 1) && (num_comps_total cfg =? 1)
                 && negb (gauss_likelihood cfg))).
  { intros extra. unfold znth. destruct (Z.ltb_spec (Z.of_nat (length (re_comps_cluster_i st0))) 0);
      [lia|]. rewrite Nat2Z.id, <- app_assoc. apply nth_middle. }
  repeat match goal with
  | |- context [let '(_, _) := ?e in _] => destruct e
  | |- context [if ?b then _ else _] => destruct b
  end; cbn [final_state re_comps_cluster_i];
  try (rewrite <- (app_nil_r (_ ++ [_])); apply Hz);
  match goal with
  | |- context [fold_left (add_rand_coef _ _ _ _ _ _ _ _ ?rc) ?js ?st] =>
      destruct (add_rand_coef_re_comps cfg rc js st) as [extra He]; rewrite He;
      cbn [re_comps_cluster_i]; apply Hz
  end.
Qed.

(** X17. With neighbours selected by residual correlation, and no fatal
    error for the time ordering, [CreateREComponentsVecchia] ends with the
    fatal error for duplicates exactly when duplicates are checked, the
    likelihood is not Gaussian, and either the flag [has_duplicates_coords]
    was already set or one of the first [num_neighbors + 1] points is closer
    than [EPSILON_NUMBERS] to a point before it. Points beyond the first
    [num_neighbors + 1] are not compared here. *)
Theorem CreateREComponentsVecchia_duplicates_fatal
    (cfg : REConfig double) (resid : list RECompGP) (st0 : REComponents double RECompGP RNG_t) :
  vecchia_neighbor_selection cfg = "residual_correlation"%string →
  is_time_ordering double cfg && negb (IsSpaceTimeModel (selected cfg resid st0)) = false →
  ((∃ st, Create cfg resid st0 = REFatal msg_duplicates st)
   ↔ check_has_duplicates cfg = true ∧ gauss_likelihood cfg = false ∧
     (has_duplicates_coords st0 = true ∨
      ∃ i j, 0 ≤ j < i ∧ i ≤ num_neighbors cfg ∧ i < num_data cfg ∧
             close_points (GetCoords (selected cfg resid st0)) j i = true)).
Proof.
  intros Hsel Htime. unfold selected, selected_re_comp in *.
  unfold Create, CreateREComponentsVecchia.
  destruct (pre_shuffle double RNG_t std_shuffle cfg (data_indices_per_cluster st0) (rng st0))
    as [ids1 g1].
  destruct (time_order double dzero SortIndeces cfg (gather_coords double dzero cfg ids1) ids1)
    as [gp_coords_mat ids2]. cbv zeta in *.
  set (re_comp := select_re_comp double RECompGP cfg _ resid _ _) in *.
  rewrite Hsel. rewrite String.eqb_refl. cbn [negb].
  pose proof (init_neighbors_duplicates (num_data cfg) (num_neighbors cfg)
                (check_has_duplicates cfg) (ShouldSaveDistances re_comp) (GetCoords re_comp)
                (replicate (Z.to_nat (GetNumUniqueREs re_comp)) [])
                (replicate (Z.to_nat (GetNumUniqueREs re_comp)) [])) as Hdup.
  destruct (init_neighbors double dzero lpNorm2_diff lt_EPSILON_NUMBERS _ _ _ _ _ _)
    as [[nn d_obs] has_dup]. cbn [snd] in Hdup.
  rewrite Htime.
  destruct (check_has_duplicates cfg) eqn:Ec; cbn [andb].
  - destruct (gauss_likelihood cfg) eqn:Eg; cbn [andb negb].
    + split.
      * intros [st H]. exfalso.
        destruct (init_B_triplets double dzero done _ nn) as [tB tBg].
        destruct (0 <? num_gp_rand_coef cfg); [|discriminate].
        destruct (negb (ShouldSaveDistances re_comp)); [|discriminate].
        injection H as H _. discriminate H.
      * intros (_ & H & _). discriminate.
    + destruct (has_duplicates_coords st0 || has_dup) eqn:Ed.
      * split; [|intros _; eexists; reflexivity].
        intros _. split; [reflexivity|]. split; [reflexivity|].
        apply orb_true_iff in Ed as [Ed | Ed]; [left; exact Ed|].
        right. apply Hdup in Ed as [_ H]. exact H.
      * apply orb_false_iff in Ed as [Ed1 Ed2]. split.
        -- intros [st H]. exfalso.
           destruct (init_B_triplets double dzero done _ nn) as [tB tBg].
           destruct (0 <? num_gp_rand_coef cfg); [|discriminate].
           destruct (negb (ShouldSaveDistances re_comp)); [|discriminate].
           injection H as H _. discriminate H.
        -- intros (_ & _ & [H | H]); [congruence|].
           assert (has_dup = true) by (apply Hdup; split; [reflexivity | exact H]). congruence.
  - split.
    + intros [st H]. exfalso.
      destruct (init_B_triplets double dzero done _ nn) as [tB tBg].
      destruct (0 <? num_gp_rand_coef cfg); [|discriminate].
      destruct (negb (ShouldSaveDistances re_comp)); [|discriminate].
      injection H as H _. discriminate H.
    + intros (H & _). discriminate.
Qed.

End CreateREComponentsProperties.

(** An instance for the two properties: numbers read as integers, a
    covariance module that is the matrix of its coordinates, the distance
    between two rows the absolute difference of their first entries, and a
    sort that swaps two points. *)
Definition ex_time_cfg : REConfig Z :=
  mkREConfig 2 1 [7; 3] [] "time" 1 "residual_correlation" true 0 1 1 false
             "exponential" 0 0 0 false "vecchia".

Definition ex_st0_coords : REComponents Z (list (list Z)) unit :=
  mkREComponents [0; 1] [] [] [] [] [] [] [] false false tt.

Definition ex_coords_Create (cfg : REConfig Z) (st0 : REComponents Z (list (list Z)) unit)
  : result (REComponents Z (list (list Z)) unit) :=
  CreateREComponentsVecchia Z 0 1 Z.mul
    (fun a b => Z.abs (znth 0 a 0 - znth 0 b 0)) (fun d => d <? 1)
    (list (list Z)) (fun c _ _ => c) (fun _ _ _ => [])
    (fun c => Z.of_nat (length c)) (fun c => c) (fun _ => true) (fun _ => true) (fun _ => 0)
    unit (fun l g => (rev l, g)) (fun _ => [1; 0])
    (fun _ _ _ _ _ _ _ g _ => ([], [], [], false, g)) cfg [] st0.

Lemma CreateREComponentsVecchia_coords_follow_data_indices_witness :
  let st := final_state Z (list (list Z)) unit (ex_coords_Create ex_time_cfg ex_st0_coords) in
  znth [] (re_comps_cluster_i st) 0
  = gather_coords Z 0 ex_time_cfg (data_indices_per_cluster st).
Proof.
  unfold ex_coords_Create.
  apply (CreateREComponentsVecchia_coords_follow_data_indices Z 0 1 Z.mul
           (fun a b => Z.abs (znth 0 a 0 - znth 0 b 0)) (fun d => d <? 1)
           (list (list Z)) (fun c _ _ => c) (fun _ _ _ => [])
           (fun c => Z.of_nat (length c)) (fun c => c) (fun _ => true) (fun _ => true)
           (fun _ => 0) unit (fun l g => (rev l, g)) (fun _ => [1; 0])
           (fun _ _ _ _ _ _ _ g _ => ([], [], [], false, g)) ex_time_cfg [] ex_st0_coords []).
  intros _. simpl. repeat constructor; lia.
Defined.

Definition ex_dup_cfg : REConfig Z :=
  mkREConfig 2 1 [5; 5] [] "none" 1 "residual_correlation" true 0 1 1 false
             "exponential" 0 0 0 false "vecchia".

Example ex_dup_fatal :
  ∃ st, ex_coords_Create ex_dup_cfg ex_st0_coords = REFatal msg_duplicates st.
Proof. vm_compute. eexists. reflexivity. Qed.

Lemma CreateREComponentsVecchia_duplicates_fatal_witness :
  (∃ st, ex_coords_Create ex_dup_cfg ex_st0_coords = REFatal msg_duplicates st)
  ↔ check_has_duplicates ex_dup_cfg = true ∧ gauss_likelihood ex_dup_cfg = false ∧
    (has_duplicates_coords ex_st0_coords = true ∨
     ∃ i j, 0 ≤ j < i ∧ i ≤ num_neighbors ex_dup_cfg ∧ i < num_data ex_dup_cfg ∧
            close_points Z (fun a b => Z.abs (znth 0 a 0 - znth 0 b 0)) (fun d => d <? 1)
              (selected_re_comp Z 0 (list (list Z)) (fun c _ _ => c) unit
                 (fun l g => (rev l, g)) (fun _ => [1; 0]) ex_dup_cfg [] ex_st0_coords)
              j i = true).
Proof.
  unfold ex_coords_Create.
  apply (CreateREComponentsVecchia_duplicates_fatal Z 0 1 Z.mul
           (fun a b => Z.abs (znth 0 a 0 - znth 0 b 0)) (fun d => d <? 1)
           (list (list Z)) (fun c _ _ => c) (fun _ _ _ => [])
           (fun c => Z.of_nat (length c)) (fun c => c) (fun _ => true) (fun _ => true)
           (fun _ => 0) unit (fun l g => (rev l, g)) (fun _ => [1; 0])
           (fun _ _ _ _ _ _ _ g _ => ([], [], [], false, g)) ex_dup_cfg [] ex_st0_coords).
  - reflexivity.
  - reflexivity.
Defined.

(** ** The distances the search saves *)




Section SearchDistances.

Variables (dist coord_dist : Z → Z → Q) (EPSILON_NUMBERS : Q).













End SearchDistances.




(** ** The duplicate flag of the search *)

(** A loop that rewrites the row [i - s] at each index [i] it visits and
    threads a flag: a property of the flag that every step keeps, given the
    row the step finds, holds at the end. *)
Lemma fold_flag_inv {S : Type} (pn : S → list (list Z)) (ph : S → bool) (step : S → Z → S)
    (s : Z) (g : Z → list Z → list Z) (R : Z → list Z) (OK : bool → Prop) (len : nat) :
  (∀ st i, pn (step st i) = zset (pn st) (i - s) (g i (znth [] (pn st) (i - s)))) →
  ∀ idx, NoDup idx →
  (∀ st i, i ∈ idx → znth [] (pn st) (i - s) = R i → length (pn st) = len →
     OK (ph st) → OK (ph (step st i))) →
  ∀ st, (∀ i, i ∈ idx → znth [] (pn st) (i - s) = R i) → length (pn st) = len →
    OK (ph st) → OK (ph (fold_left step idx st)).
Proof.
  intros Hstep idx. induction idx as [|i idx IH]; intros Hnd Hok st Hrows Hlen H; [exact H|].
  apply NoDup_cons in Hnd as [Hi Hnd]. cbn [fold_left]. apply IH.
  - exact Hnd.
  - intros st' j Hj. apply Hok. right. exact Hj.
  - intros j Hj. rewrite Hstep, znth_zset_ne.
    + apply Hrows. right. exact Hj.
    + intros E. apply Hi. replace i with j by lia. exact Hj.
  - rewrite Hstep, length_zset. exact Hlen.
  - apply Hok; [left | apply Hrows; left | exact Hlen | exact H].
Qed.

Lemma fold_left_over_map {A B C : Type} (f : A → B → A) (g : C → B) (l : list C) (a : A) :
  fold_left f (map g l) a = fold_left (fun a x => f a (g x)) l a.
Proof. revert a. induction l as [|x l IH]; intros a; [reflexivity | apply IH]. Qed.

Lemma cover_tree_indices_from (n k s : Z) (p : bool) (i : Z) :
  i ∈ cover_tree_indices n k s p →
  brute_force_threshold_of n k (first_search_index s k) p ≤ i.
Proof.
  unfold cover_tree_indices. destruct (k <? n); [|intros H; inversion H]. cbv zeta.
  destruct (_ <? n); [|intros H; inversion H]. intros H. apply elem_of_range in H. lia.
Qed.

Section SearchFlag.

Variables (dist coord_dist : Z → Z → Q) (EPSILON_NUMBERS : Q).
Variable num_data : Z.

(** Two different points of the data closer than [EPSILON_NUMBERS]. *)
Definition close_pair : Prop :=
  ∃ a b, a ≠ b ∧ 0 ≤ a < num_data ∧ 0 ≤ b < num_data ∧
         (coord_dist a b < EPSILON_NUMBERS)%Q.

Definition flag_sound (h : bool) : Prop := h = true → close_pair.

Lemma dup_step_sound (check h : bool) (a b : Z) :
  a ≠ b → 0 ≤ a < num_data → 0 ≤ b < num_data →
  flag_sound h → flag_sound (dup_step EPSILON_NUMBERS check h (coord_dist a b)).
Proof.
  intros Hne Ha Hb Hh. unfold dup_step.
  destruct (check && negb h); [|exact Hh].
  destruct (Qltb (coord_dist a b) EPSILON_NUMBERS) eqn:E; [|exact Hh].
  intros _. exists a, b. apply Qltb_true in E. auto.
Qed.

Lemma fold_dup_step_sound {A : Type} (check : bool) (f : A → Z * Z) (l : list A) (h : bool) :
  (∀ x, x ∈ l → (f x).1 ≠ (f x).2 ∧ 0 ≤ (f x).1 < num_data ∧ 0 ≤ (f x).2 < num_data) →
  flag_sound h →
  flag_sound (fold_left (fun h x => dup_step EPSILON_NUMBERS check h
                                      (coord_dist (f x).1 (f x).2)) l h).
Proof.
  revert h. induction l as [|x l IH]; intros h Hl Hh; [exact Hh|].
  cbn [fold_left]. apply IH; [intros y Hy; apply Hl; right; exact Hy|].
  destruct (Hl x ltac:(left)) as (H1 & H2 & H3). apply dup_step_sound; assumption.
Qed.

Lemma init_step_sound (k s : Z) (check save : bool) (st : nn_state) (i : Z) :
  0 ≤ i < num_data → flag_sound st.2 →
  flag_sound (init_step coord_dist EPSILON_NUMBERS k s check save st i).2.
Proof.
  destruct st as [[nn d] h]. intros Hi Hh. unfold init_step.
  destruct ((0 <? i) && (i <=? k)); [|destruct (k <? i); exact Hh].
  cbn [snd].
  apply (fold_dup_step_sound check (fun j => (j, i))); [|exact Hh].
  intros j Hj. apply elem_of_range in Hj. cbn [fst snd]. lia.
Qed.

Lemma save_obs_distances_sound (k s : Z) (check save : bool) (st : nn_state) (i : Z) :
  0 ≤ i < num_data → 0 ≤ k →
  length (znth [] st.1.1 (i - s)) = Z.to_nat k →
  (∀ x, x ∈ znth [] st.1.1 (i - s) → 0 ≤ x < i) →
  flag_sound st.2 →
  flag_sound (save_obs_distances coord_dist EPSILON_NUMBERS k s check save st i).2.
Proof.
  destruct st as [[nn d] h]. cbn [fst snd]. intros Hi Hk Hl Hrow Hh.
  unfold save_obs_distances. cbn [snd].
  rewrite fold_left_over_map.
  apply (fold_dup_step_sound check (fun jjj => (i, znth 0 (znth [] nn (i - s)) jjj)));
    [|exact Hh].
  intros jjj Hj. apply elem_of_range in Hj. cbn [fst snd].
  assert (Hx : znth 0 (znth [] nn (i - s)) jjj ∈ znth [] nn (i - s))
    by (apply znth_elem_of; lia).
  apply Hrow in Hx. lia.
Qed.


Lemma search_step_sound (k s : Z) (check save : bool) (nn : list (list Z)) (d : list (list Q))
    (h : bool) (i : Z) (N : list Z) :
  0 ≤ i < num_data → 0 ≤ k → 0 ≤ i - s < Z.of_nat (length nn) →
  length N = Z.to_nat k → (∀ x, x ∈ N → 0 ≤ x < i) →
  flag_sound h →
  flag_sound (save_obs_distances coord_dist EPSILON_NUMBERS k s check save
                (zset nn (i - s) N, d, h) i).2.
Proof.
  intros Hi Hk Hin Hl HN Hh.
  apply save_obs_distances_sound; cbn [fst snd]; try assumption;
    rewrite znth_zset_eq by exact Hin; assumption.
Qed.

Lemma pairs_elem (n j k : Z) :
  (j, k) ∈ flat_map (fun j => map (fun k => (j, k)) (range (j + 1) n)) (range 0 n) →
  0 ≤ j < k ∧ k < n.
Proof.
  intros H. apply list_elem_of_In, in_flat_map in H as (j' & Hj' & H).
  apply in_map_iff in H as (k' & E & Hk'). injection E as -> ->.
  apply list_elem_of_In, elem_of_range in Hj'. apply list_elem_of_In, elem_of_range in Hk'. lia.
Qed.

Lemma between_step_sound (s : Z) (check save : bool) (nn : list (list Z))
    (st : list (list (list Q)) * bool) (i : Z) :
  NoDup (znth [] nn (i - s)) →
  (∀ x, x ∈ znth [] nn (i - s) → 0 ≤ x < num_data) →
  flag_sound st.2 →
  flag_sound (between_step coord_dist EPSILON_NUMBERS s check save nn st i).2.
Proof.
  destruct st as [d h]. cbn [snd]. intros Hnd Hrange Hh. unfold between_step. cbn [snd].
  set (nn_i := znth [] nn (i - s)) in *.
  assert (Hp : ∀ j k, (j, k) ∈ flat_map (fun j => map (fun k => (j, k))
                                             (range (j + 1) (Z.of_nat (length nn_i))))
                                  (range 0 (Z.of_nat (length nn_i))) →
                 0 ≤ j < k ∧ k < Z.of_nat (length nn_i)) by (intros j k; apply pairs_elem).
  revert h Hh Hp. generalize (flat_map (fun j => map (fun k => (j, k))
                                          (range (j + 1) (Z.of_nat (length nn_i))))
                                       (range 0 (Z.of_nat (length nn_i)))).
  intros pairs. induction pairs as [|[j k] pairs IH]; intros h Hh Hp; [exact Hh|].
  cbn [fold_left]. apply IH; [|intros j' k' H; apply Hp; right; exact H].
  destruct (Hp j k ltac:(left)) as [Hj Hk].
  apply dup_step_sound; [| apply Hrange, znth_elem_of; lia | apply Hrange, znth_elem_of; lia
                         | exact Hh].
  intros E. apply znth_NoDup_inj in E; [lia | exact Hnd | lia | lia].
Qed.

(** X19. In a call with one thread (a build without OpenMP, or
    [omp_get_max_threads() = 1]) on distances that are numbers (no NaN),
    under the conditions under which the search returns rows of distinct
    earlier points ([start_at] not negative, the CHECKs on the sizes, the
    clamped number of neighbours between one and the number of points that
    may be neighbours, the cover-tree loop starting at a point the call
    handles, on a tree of at least two points): the search reports duplicates
    only when it was asked to check for them and two different points of the
    data are closer than [EPSILON_NUMBERS]. No point is compared with itself,
    and with [check_has_duplicates = false] the flag stays false. *)
Theorem search_duplicate_flag_sound (num_neighbors : Z)
    (neighbors0 : list (list Z)) (dist_obs0 : list (list Q)) (dist_between0 : list (list (list Q)))
    (start_at end_search_at : Z) (check save_distances : bool) (base : Q)
    (prediction cond_on_all : bool) (num_data_obs : Z) :
  let k := clamp_num_neighbors num_neighbors (default_end_search_at num_data end_search_at) in
  let max_ind_nn := if cond_on_all then num_data else num_data_obs in
  let rows := if prediction && negb cond_on_all then num_data_obs else num_data in
  0 ≤ start_at →
  Z.of_nat (length neighbors0) = num_data - start_at →
  (save_distances = true →
   Z.of_nat (length dist_obs0) = num_data - start_at ∧
   Z.of_nat (length dist_between0) = num_data - start_at) →
  1 ≤ k ≤ max_ind_nn →
  start_at ≤ brute_force_threshold_of num_data k (first_search_index start_at k) prediction →
  (cover_tree_indices num_data k start_at prediction ≠ [] → 2 ≤ rows) →
  ∃ out,
    find_nearest_neighbors_Vecchia_FSA_fast dist coord_dist EPSILON_NUMBERS num_data num_neighbors
      neighbors0 dist_obs0 dist_between0 start_at end_search_at check save_distances
      base prediction cond_on_all num_data_obs = Search_done out ∧
    (has_duplicates_out out = true →
     check = true ∧
     ∃ a b, a ≠ b ∧ 0 ≤ a < num_data ∧ 0 ≤ b < num_data ∧
            (coord_dist a b < EPSILON_NUMBERS)%Q).
Proof.
  intros k max_ind_nn rows Hstart Hlen Hsave Hk Hthr Htree.
  change (∃ a b, a ≠ b ∧ 0 ≤ a < num_data ∧ 0 ≤ b < num_data ∧
                 (coord_dist a b < EPSILON_NUMBERS)%Q) with close_pair.
  unfold find_nearest_neighbors_Vecchia_FSA_fast.
  assert (E1 : (Z.of_nat (length neighbors0) =? num_data - start_at) = true) by (apply Z.eqb_eq, Hlen).
  rewrite E1. cbn [negb].
  assert (E2 : save_distances && negb (Z.of_nat (length dist_obs0) =? num_data - start_at) = false).
  { destruct save_distances; [|reflexivity]. destruct (Hsave eq_refl) as [H _].
    apply Z.eqb_eq in H. rewrite H. reflexivity. }
  assert (E3 : save_distances && negb (Z.of_nat (length dist_between0) =? num_data - start_at) = false).
  { destruct save_distances; [|reflexivity]. destruct (Hsave eq_refl) as [_ H].
    apply Z.eqb_eq in H. rewrite H. reflexivity. }
  rewrite E2, E3. cbv zeta. fold k. fold max_ind_nn. fold rows.
  set (st0 := (neighbors0, dist_obs0, false) : nn_state).
  set (st1 := fold_left (init_step coord_dist EPSILON_NUMBERS k start_at check save_distances)
                (range start_at num_data) st0).
  set (bf := brute_force_indices num_data k start_at prediction) in *.
  set (ct := cover_tree_indices num_data k start_at prediction) in *.
  set (st2 := fold_left (brute_force_step dist coord_dist EPSILON_NUMBERS k start_at max_ind_nn
                           check save_distances) bf st1).
  destruct (fold_rows_spec (fun st : nn_state => st.1.1) _ start_at (init_row k)
              (init_step_nn coord_dist EPSILON_NUMBERS k start_at check save_distances)
              (range start_at num_data) st0 (NoDup_seqZ _ _)) as [L1 R1].
  fold st1 in L1, R1.
  destruct (fold_rows_spec (fun st : nn_state => st.1.1) _ start_at (brute_force_row dist k max_ind_nn)
              (brute_force_step_nn dist coord_dist EPSILON_NUMBERS k start_at max_ind_nn check
                 save_distances) bf st1 (NoDup_brute_force_indices _ _ _ _)) as [L2 R2].
  fold st2 in L2, R2. cbn beta in L1, R1, L2, R2. simpl in L1, R1.
  set (row1 := fun i => init_row k i (znth [] neighbors0 (i - start_at))).
  assert (Hrow1 : ∀ i, start_at ≤ i < num_data → znth [] st1.1.1 (i - start_at) = row1 i).
  { intros i Hi. rewrite R1 by lia.
    destruct (decide (i ∈ range start_at num_data)) as [_ | H]; [reflexivity|].
    exfalso. apply H, elem_of_range. lia. }
  (* the flag after the three loops *)
  assert (F1 : flag_sound st1.2).
  { unfold st1. assert (H0 : flag_sound st0.2) by (intros H; discriminate).
    assert (Hr : ∀ i, i ∈ range start_at num_data → 0 ≤ i < num_data)
      by (intros i Hi; apply elem_of_range in Hi; lia).
    revert H0 Hr. generalize st0. generalize (range start_at num_data).
    intros l. induction l as [|i l IH]; intros st H0 Hr; [exact H0|].
    cbn [fold_left]. apply IH; [|intros j Hj; apply Hr; right; exact Hj].
    apply init_step_sound; [apply Hr; left | exact H0]. }
  assert (Hshape : ∀ cover_tree level i,
            (ct ≠ [] → CoverTree_kNN dist (Z.to_nat rows) rows base 0 = CT_built cover_tree level) →
            0 < i → start_at ≤ i < num_data →
            let N := if decide (i ∈ bf) then brute_force_row dist k max_ind_nn i (row1 i)
                     else if decide (i ∈ ct)
                          then cover_tree_row dist k level base cover_tree i (row1 i)
                          else row1 i in
            length N = Z.to_nat (Z.min i k) ∧ NoDup N ∧ ∀ x, x ∈ N → 0 ≤ x < i).
  { intros cover_tree level i Hb Hi0 Hi.
    apply (searched_row_shape dist num_data k start_at prediction max_ind_nn rows base
             cover_tree level (znth [] neighbors0 (i - start_at)) i Hk Hi0 Hi).
    intros H. split; [apply Htree, H | apply Hb, H]. }
  assert (F2 : ∀ cover_tree level,
            (ct ≠ [] → CoverTree_kNN dist (Z.to_nat rows) rows base 0 = CT_built cover_tree level) →
            flag_sound st2.2).
  { intros cover_tree level Hb. unfold st2.
    apply (fold_flag_inv (fun st : nn_state => st.1.1) (fun st : nn_state => st.2) _ start_at
             (brute_force_row dist k max_ind_nn) row1 flag_sound (length neighbors0)
             (brute_force_step_nn dist coord_dist EPSILON_NUMBERS k start_at max_ind_nn check
                save_distances) bf (NoDup_brute_force_indices _ _ _ _)).
    - intros [[nn d] h] i Hin Hrow Hl Hh. cbn [fst snd] in *.
      destruct (search_indices num_data k start_at prediction i) as (Hbf & _ & _).
      destruct (Hbf Hin) as (Hki & Hi & _).
      pose proof (Hshape cover_tree level i Hb ltac:(lia) Hi) as HN. cbv zeta in HN.
      destruct (decide (i ∈ bf)) as [_ | Hc]; [|contradiction].
      destruct HN as (H1 & _ & H3).
      unfold brute_force_step. fold (brute_force_row dist k max_ind_nn i (znth [] nn (i - start_at))).
      rewrite Hrow.
      apply search_step_sound; try assumption; try lia.
    - intros i Hin. destruct (search_indices num_data k start_at prediction i) as (Hbf & _ & _).
      destruct (Hbf Hin) as (_ & Hi & _). apply Hrow1, Hi.
    - exact L1.
    - exact F1. }
  assert (Hfinish : ∀ (st3 : nn_state) log2 cover_tree level,
            (ct ≠ [] → CoverTree_kNN dist (Z.to_nat rows) rows base 0 = CT_built cover_tree level) →
            length st3.1.1 = length neighbors0 →
            (∀ i, start_at ≤ i < num_data →
               znth [] st3.1.1 (i - start_at) =
               if decide (i ∈ bf) then brute_force_row dist k max_ind_nn i (row1 i)
               else if decide (i ∈ ct)
                    then cover_tree_row dist k level base cover_tree i (row1 i)
                    else row1 i) →
            flag_sound st3.2 →
            ∃ out,
            (let '(nn, d_obs, has_dup) := st3 in
             let first_i := if start_at =? 0 then 1 else start_at in
             let '(d_between, has_dup') :=
               fold_left (between_step coord_dist EPSILON_NUMBERS start_at check save_distances nn)
                 (range first_i num_data) (dist_between0, has_dup) in
             Search_done (mkNNOutput nn d_obs d_between (if check then has_dup' else false)
                            (clamp_log num_neighbors (default_end_search_at num_data end_search_at)
                             ++ log2))) = Search_done out ∧
            (has_duplicates_out out = true → check = true ∧ close_pair)).
  { intros [[nn d_obs] has_dup] log2 cover_tree level Hb Hl Hrows Hh. cbn [fst snd] in *. cbv zeta.
    assert (Hb3 : flag_sound
              (fold_left (between_step coord_dist EPSILON_NUMBERS start_at check save_distances nn)
                 (range (if start_at =? 0 then 1 else start_at) num_data)
                 (dist_between0, has_dup)).2).
    { assert (Hr : ∀ i, i ∈ range (if start_at =? 0 then 1 else start_at) num_data →
                     0 < i ∧ start_at ≤ i < num_data).
      { intros i Hi. apply elem_of_range in Hi. destruct (Z.eqb_spec start_at 0); lia. }
      assert (H0 : flag_sound (dist_between0, has_dup).2) by exact Hh.
      revert H0 Hr. generalize (dist_between0, has_dup).
      generalize (range (if start_at =? 0 then 1 else start_at) num_data).
      intros l. induction l as [|i l IH]; intros st H0 Hr; [exact H0|].
      cbn [fold_left]. apply IH; [|intros j Hj; apply Hr; right; exact Hj].
      destruct (Hr i ltac:(left)) as [Hi0 Hi].
      pose proof (Hshape cover_tree level i Hb Hi0 Hi) as HN. cbv zeta in HN.
      rewrite <- (Hrows i Hi) in HN. destruct HN as (_ & H2 & H3).
      apply between_step_sound; [exact H2 | | exact H0].
      intros x Hx. apply H3 in Hx. lia. }
    destruct (fold_left (between_step _ _ _ _ _ _) _ _) as [d_between has_dup'].
    eexists. split; [reflexivity|]. cbn [has_duplicates_out snd] in *.
    destruct check; [|discriminate]. intros H. split; [reflexivity | apply Hb3, H]. }
  destruct ct as [|i0 idx] eqn:Ect.
  - apply (Hfinish st2 [] ∅ 0).
    + intros H. congruence.
    + lia.
    + intros i Hi. rewrite R2 by lia. rewrite (Hrow1 i Hi).
      destruct (decide (i ∈ bf)); [reflexivity|].
      destruct (decide (i ∈ [])) as [H | _]; [inversion H | reflexivity].
    + apply (F2 ∅ 0). intros H. congruence.
  - destruct (CoverTree_kNN_builds dist base 0 rows ltac:(lia)
                ltac:(specialize (Htree ltac:(discriminate)); lia))
      as (cover_tree & level & Hbuilt).
    rewrite Hbuilt.
    set (st3 := fold_left (cover_tree_step dist coord_dist EPSILON_NUMBERS k start_at level base
                             cover_tree check save_distances) (i0 :: idx) st2).
    assert (Hnd : NoDup (i0 :: idx)) by (rewrite <- Ect; apply NoDup_cover_tree_indices).
    destruct (fold_rows_spec (fun st : nn_state => st.1.1) _ start_at
                (cover_tree_row dist k level base cover_tree)
                (cover_tree_step_nn dist coord_dist EPSILON_NUMBERS k start_at level base
                   cover_tree check save_distances)
                (i0 :: idx) st2 Hnd) as [L3 R3].
    fold st3 in L3, R3. cbn beta in L3, R3.
    assert (Hin_ct : ∀ i, i ∈ i0 :: idx → (k ≤ i < num_data ∧ start_at ≤ i) ∧ i ∉ bf).
    { intros i Hin. destruct (search_indices num_data k start_at prediction i) as (Hbf & Hct & _).
      fold ct in Hct, Hbf. rewrite Ect in Hct, Hbf. split.
      - split; [apply Hct, Hin|]. rewrite <- Ect in Hin. unfold ct in Hin.
        apply cover_tree_indices_from in Hin. lia.
      - intros H. apply Hbf in H as (_ & _ & H). contradiction. }
    apply (Hfinish st3 _ cover_tree level).
    + intros _. exact Hbuilt.
    + lia.
    + intros i Hi. rewrite R3 by lia. rewrite R2 by lia. rewrite (Hrow1 i Hi).
      destruct (decide (i ∈ bf)) as [Hin | Hnin]; [|reflexivity].
      destruct (decide (i ∈ i0 :: idx)) as [H | _]; [|reflexivity].
      destruct (Hin_ct i H) as [_ Hc]. contradiction.
    + unfold st3.
      apply (fold_flag_inv (fun st : nn_state => st.1.1) (fun st : nn_state => st.2) _ start_at
               (cover_tree_row dist k level base cover_tree) row1 flag_sound (length neighbors0)
               (cover_tree_step_nn dist coord_dist EPSILON_NUMBERS k start_at level base
                  cover_tree check save_distances) (i0 :: idx) Hnd).
      * intros [[nn d] h] i Hin Hrow Hl Hh. cbn [fst snd] in *.
        destruct (Hin_ct i Hin) as [[Hi Hs] Hnbf].
        pose proof (Hshape cover_tree level i ltac:(intros _; exact Hbuilt) ltac:(lia)
                      ltac:(lia)) as HN. cbv zeta in HN.
        destruct (decide (i ∈ bf)) as [Hc | _]; [contradiction|].
        destruct (decide (i ∈ i0 :: idx)) as [_ | Hc]; [|contradiction].
        destruct HN as (H1 & _ & H3).
        unfold cover_tree_step.
        fold (cover_tree_row dist k level base cover_tree i (znth [] nn (i - start_at))).
        rewrite Hrow.
        apply search_step_sound; try assumption; try lia.
      * intros i Hin. destruct (Hin_ct i Hin) as [[Hi Hs] Hnbf].
        rewrite R2 by lia.
        destruct (decide (i ∈ bf)) as [Hc | _]; [contradiction|]. apply Hrow1. lia.
      * lia.
      * apply (F2 cover_tree level). intros _. exact Hbuilt.
Qed.

End SearchFlag.

(** 1002 points and two neighbours, with the check for duplicates: the
    cover-tree loop handles the points 1000 and 1001. *)
Lemma search_duplicate_flag_sound_witness :
  cover_tree_indices 1002 (clamp_num_neighbors 2 (default_end_search_at 1002 (-1))) 0 false
  = [1000; 1001] ∧
  ∃ out,
    find_nearest_neighbors_Vecchia_FSA_fast ex_skew_dist ex_line_dist (1 # 100000) 1002 2
      (replicate 1002 []) [] [] 0 (-1) true false 2 false true 1002 = Search_done out ∧
    (has_duplicates_out out = true →
     true = true ∧
     ∃ a b, a ≠ b ∧ 0 ≤ a < 1002 ∧ 0 ≤ b < 1002 ∧ (ex_line_dist a b < 1 # 100000)%Q).
Proof.
  split; [vm_compute; reflexivity|].
  apply (search_duplicate_flag_sound ex_skew_dist ex_line_dist (1 # 100000) 1002 2
           (replicate 1002 []) [] [] 0 (-1) true false 2 false true 1002).
  - lia.
  - vm_compute. reflexivity.
  - intros H. discriminate.
  - vm_compute. split; discriminate.
  - vm_compute. discriminate.
  - intros _. simpl. lia.
Defined.



Section SearchFlagSet.

Variables (dist coord_dist : Z → Z → Q) (EPSILON_NUMBERS : Q).

















End SearchFlagSet.

(** Points on a line where the points 3 and 4 coincide. *)
Definition ex_dup_dist (i j : Z) : Q :=
  (Z.abs ((if i =? 4 then 3 else i) - (if j =? 4 then 3 else j)) # 1000)%Q.


Example ex_dup_dist_flag :
  match find_nearest_neighbors_Vecchia_FSA_fast ex_dup_dist ex_dup_dist (1 # 100000) 6 2
          (replicate 6 []) [] [] 0 (-1) true false 2 false true 6 with
  | Search_done out => has_duplicates_out out = true ∧ znth [] (neighbors out) 4 = [3; 2]
  | _ => False
  end.
Proof. vm_compute. split; reflexivity. Qed.

(** ** Factors built from triplets and then updated in place *)

Section SparseFactor.

Variable double : Type.
Variables dzero done : double.
Variable dadd dsub : double → double → double.
Variable A_i : Z → list double.
Variable P : Z → bool.
Variable g : Z → Z.
Variable nn : list (list Z).
Variable rows : list Z.

Hypothesis g_inj : ∀ c c', g c = g c' → c = c'.
Hypothesis rows_NoDup : NoDup rows.
Hypothesis nn_NoDup : ∀ i, i ∈ rows → NoDup (znth [] nn i).

Let ops := flat_map (row_ops double dzero A_i P g nn) rows.

(** The factor whose triplets are the zero entries of the writes, and the
    factor whose triplets also hold a one on the diagonal of every row. *)
Definition factor_plain : gmap (Z * Z) double :=
  fold_left (sub_op double dzero dsub) ops (setFromTriplets double dadd (map (to_trip double dzero) ops)).

Definition factor_diag : gmap (Z * Z) double :=
  fold_left (sub_op double dzero dsub) ops
    (setFromTriplets double dadd (diag_trips double dzero done A_i P g nn rows)).

Lemma ops_NoDup : NoDup (map fst ops).
Proof. apply all_ops_keys_NoDup; assumption. Qed.

Lemma factor_plain_value (i inn : Z) :
  i ∈ rows → 0 ≤ inn < Z.of_nat (length (znth [] nn i)) →
  P (znth 0 (znth [] nn i) inn) = true →
  factor_plain !! (i, g (znth 0 (znth [] nn i) inn)) = Some (dsub dzero (znth dzero (A_i i) inn)).
Proof.
  intros Hi Hinn HP. unfold factor_plain.
  set (o := (i, g (znth 0 (znth [] nn i) inn), znth dzero (A_i i) inn)).
  assert (Ho : o ∈ ops).
  { apply (row_ops_all double dzero A_i P g nn rows i); [exact Hi|].
    apply row_ops_in; assumption. }
  pose proof (fold_sub_once double dzero dsub ops
                (setFromTriplets double dadd (map (to_trip double dzero) ops)) o ops_NoDup Ho) as H.
  cbn [fst snd o] in H. rewrite H. f_equal. f_equal.
  assert (Ht : setFromTriplets double dadd (map (to_trip double dzero) ops)
               !! (i, g (znth 0 (znth [] nn i) inn)) = Some dzero);
    [|unfold coeff; rewrite Ht; reflexivity].
  apply (add_triplets_once double dadd (map (to_trip double dzero) ops) ∅ (to_trip double dzero o)).
  - rewrite map_key_to_trip. exact ops_NoDup.
  - apply list_elem_of_In, in_map, list_elem_of_In, Ho.
  - apply lookup_empty.
Qed.

Lemma factor_plain_support (i j : Z) :
  is_Some (factor_plain !! (i, j)) →
  i ∈ rows ∧ ∃ c, c ∈ znth [] nn i ∧ P c = true ∧ j = g c.
Proof.
  unfold factor_plain. intros H.
  assert (Hk : (i, j) ∈ map fst ops).
  { apply fold_sub_keys in H as [H | H]; [|exact H].
    apply add_triplets_keys in H as [H | H]; [|rewrite map_key_to_trip in H; exact H].
    rewrite lookup_empty in H. destruct H; discriminate. }
  apply all_ops_keys_elem in Hk. exact Hk.
Qed.

Hypothesis off_diagonal : ∀ i c, i ∈ rows → c ∈ znth [] nn i → P c = true → g c ≠ i.

Lemma trips_NoDup : NoDup (map (t_key double) (diag_trips double dzero done A_i P g nn rows)).
Proof.
  apply diag_trips_keys_NoDup; [exact g_inj | exact rows_NoDup|].
  intros i Hi. split; [apply nn_NoDup, Hi|]. intros c Hc HP. apply off_diagonal; assumption.
Qed.

Lemma factor_diag_diagonal (i : Z) : i ∈ rows → factor_diag !! (i, i) = Some done.
Proof.
  intros Hi. unfold factor_diag. rewrite fold_sub_other.
  - apply (add_triplets_once double dadd _ ∅ (Triplet i i done) trips_NoDup); [|apply lookup_empty].
    unfold diag_trips. apply list_elem_of_In, in_flat_map. exists i.
    split; [apply list_elem_of_In, Hi | left; reflexivity].
  - intros H. apply all_ops_keys_elem in H as (_ & c & Hc & HP & Heq). simpl in *.
    apply (off_diagonal i c Hi Hc HP). congruence.
Qed.

Lemma factor_diag_value (i inn : Z) :
  i ∈ rows → 0 ≤ inn < Z.of_nat (length (znth [] nn i)) →
  P (znth 0 (znth [] nn i) inn) = true →
  factor_diag !! (i, g (znth 0 (znth [] nn i) inn)) = Some (dsub dzero (znth dzero (A_i i) inn)).
Proof.
  intros Hi Hinn HP. unfold factor_diag.
  set (o := (i, g (znth 0 (znth [] nn i) inn), znth dzero (A_i i) inn)).
  assert (Hr : o ∈ row_ops double dzero A_i P g nn i) by (apply row_ops_in; assumption).
  assert (Ho : o ∈ ops) by (apply (row_ops_all double dzero A_i P g nn rows i); assumption).
  pose proof (fold_sub_once double dzero dsub ops
                (setFromTriplets double dadd (diag_trips double dzero done A_i P g nn rows))
                o ops_NoDup Ho) as H.
  cbn [fst snd o] in H. rewrite H. f_equal. f_equal.
  assert (Ht : setFromTriplets double dadd (diag_trips double dzero done A_i P g nn rows)
               !! (i, g (znth 0 (znth [] nn i) inn)) = Some dzero);
    [|unfold coeff; rewrite Ht; reflexivity].
  apply (add_triplets_once double dadd _ ∅ (to_trip double dzero o)).
  - exact trips_NoDup.
  - apply (row_ops_to_trip_diag double dzero done A_i P g nn rows i); assumption.
  - apply lookup_empty.
Qed.

Lemma factor_diag_support (i j : Z) :
  is_Some (factor_diag !! (i, j)) →
  i ∈ rows ∧ (j = i ∨ ∃ c, c ∈ znth [] nn i ∧ P c = true ∧ j = g c).
Proof.
  unfold factor_diag. intros H.
  assert (Hk : (i, j) ∈ map (t_key double) (diag_trips double dzero done A_i P g nn rows)
               ∨ (i, j) ∈ map fst ops).
  { apply fold_sub_keys in H as [H | H]; [|right; exact H].
    apply add_triplets_keys in H as [H | H]; [|left; exact H].
    rewrite lookup_empty in H. destruct H; discriminate. }
  destruct Hk as [Hk | Hk].
  - apply diag_trips_keys_elem in Hk. exact Hk.
  - apply all_ops_keys_elem in Hk as [Hi Hc]. split; [exact Hi | right; exact Hc].
Qed.

End SparseFactor.

Lemma znth_drop {A : Type} (d : A) (l : list A) (n r : Z) :
  0 ≤ n → 0 ≤ r → znth d (drop (Z.to_nat n) l) r = znth d l (r + n).
Proof.
  intros Hn Hr. unfold znth.
  destruct (Z.ltb_spec r 0); [lia|]. destruct (Z.ltb_spec (r + n) 0); [lia|].
  rewrite !nth_lookup, lookup_drop. do 2 f_equal. lia.
Qed.

(** ** The factors [Bo], [Bop] and [Bp] when the predicted points come first
    ([CalcPredVecchiaPredictedFirstOrder]) *)

Section PredPredictedFirst.

Variable double : Type.
Variables dzero done : double.
Variable dadd dsub : double → double → double.
(** The row [A_i] that Eigen's LLT solve returns for the point [i]. *)
Variable A_i : Z → list double.

Abbreviation sp_mat := (gmap (Z * Z) double).
Abbreviation triplets := (list (Triplet_t double)).

(** Lines 2324-2339: the triplets of [Bo], [Bop] and [Bp]. The first
    [num_data_pred_cli] points are the predicted ones. *)
Definition pf_triplets (num_data_pred_cli num_data_cli : Z) (nn : list (list Z))
  : triplets * triplets * triplets :=
  let tBp :=
    fold_left (fun (t : triplets) (i : Z) =>
        fold_left (fun (t : triplets) (inn : Z) =>
            t ++ [Triplet i (znth 0 (znth [] nn i) inn) dzero])
          (range 0 (Z.of_nat (length (znth [] nn i)))) (t ++ [Triplet i i done]))
      (range 0 num_data_pred_cli) [] in
  let tBoBop :=
    fold_left (fun (st : triplets * triplets) (i : Z) =>
        let nn_i := znth [] nn (i + num_data_pred_cli) in
        fold_left (fun (st : triplets * triplets) (inn : Z) =>
            let c := znth 0 nn_i inn in
            if c <? num_data_pred_cli then (st.1, st.2 ++ [Triplet i c dzero])
            else (st.1 ++ [Triplet i (c - num_data_pred_cli) dzero], st.2))
          (range 0 (Z.of_nat (length nn_i))) (st.1 ++ [Triplet i i done], st.2))
      (range 0 num_data_cli) ([], []) in
  (tBoBop.1, tBoBop.2, tBp).

(** Lines 2403-2420 for the point [i] of all points. *)
Definition pf_B_row (num_data_pred_cli : Z) (nn : list (list Z))
    (st : sp_mat * sp_mat * sp_mat) (i : Z) : sp_mat * sp_mat * sp_mat :=
  if 0 <? i then
    let nn_i := znth [] nn i in
    fold_left (fun (st : sp_mat * sp_mat * sp_mat) (inn : Z) =>
        let c := znth 0 nn_i inn in
        let a := znth dzero (A_i i) inn in
        if i <? num_data_pred_cli then
          (st.1.1, st.1.2, coeffRef_sub double dzero dsub st.2 i c a)
        else if c <? num_data_pred_cli then
          (st.1.1, coeffRef_sub double dzero dsub st.1.2 (i - num_data_pred_cli) c a, st.2)
        else
          (coeffRef_sub double dzero dsub st.1.1 (i - num_data_pred_cli)
             (c - num_data_pred_cli) a, st.1.2, st.2))
      (range 0 (Z.of_nat (length nn_i))) st
  else st.

(** [Bo], [Bop] and [Bp] after the loop over all points (lines 2340-2348
    and 2403-2420). *)
Definition CalcPredVecchiaPredictedFirstOrder_B (num_data_pred_cli num_data_cli : Z)
    (nn : list (list Z)) : sp_mat * sp_mat * sp_mat :=
  let t := pf_triplets num_data_pred_cli num_data_cli nn in
  fold_left (pf_B_row num_data_pred_cli nn) (range 0 (num_data_cli + num_data_pred_cli))
    (setFromTriplets double dadd t.1.1, setFromTriplets double dadd t.1.2,
     setFromTriplets double dadd t.2).

Section Split.

Variables np nobs : Z.
Variable nn : list (list Z).
Hypothesis np_nonneg : 0 ≤ np.
Hypothesis nobs_nonneg : 0 ≤ nobs.
Hypothesis first_row : 0 < nobs + np → znth [] nn 0 = [].

Let nn_obs := drop (Z.to_nat np) nn.
Let A_obs (r : Z) := A_i (r + np).
Let all_true (c : Z) := true.
Let same (c : Z) := c.
Let shift (c : Z) := c - np.

Let opsP := row_ops double dzero A_i all_true same nn.
Let opsO := row_ops double dzero A_obs (is_pred np) shift nn_obs.
Let opsOP := row_ops double dzero A_obs (is_obs np) same nn_obs.

Lemma pf_Bp_triplets (rowsP : list Z) (t : triplets) :
  fold_left (fun (t : triplets) (i : Z) =>
      fold_left (fun (t : triplets) (inn : Z) =>
          t ++ [Triplet i (znth 0 (znth [] nn i) inn) dzero])
        (range 0 (Z.of_nat (length (znth [] nn i)))) (t ++ [Triplet i i done]))
    rowsP t
  = t ++ diag_trips double dzero done A_i all_true same nn rowsP.
Proof.
  revert t. induction rowsP as [|i rowsP IH]; intros t.
  - simpl. rewrite app_nil_r. reflexivity.
  - cbn [fold_left]. rewrite IH. unfold diag_trips. cbn [flat_map].
    assert (Hrow : ∀ l (s : triplets),
              fold_left (fun (t : triplets) (inn : Z) =>
                  t ++ [Triplet i (znth 0 (znth [] nn i) inn) dzero]) l s
              = s ++ map (to_trip double dzero)
                  (flat_map (fun inn => let c := znth 0 (znth [] nn i) inn in
                       if all_true c then [(i, same c, znth dzero (A_i i) inn)] else []) l)).
    { induction l as [|inn l IHl]; intros s.
      - simpl. rewrite app_nil_r. reflexivity.
      - cbn [fold_left flat_map]. rewrite IHl. cbv zeta. unfold all_true, same.
        cbn [app map]. rewrite <- app_assoc. reflexivity. }
    rewrite Hrow. unfold row_ops. rewrite <- !app_assoc. reflexivity.
Qed.

Lemma pf_Bo_Bop_triplets (rowsO : list Z) (st : triplets * triplets) :
  (∀ i, i ∈ rowsO → 0 ≤ i) →
  fold_left (fun (st : triplets * triplets) (i : Z) =>
      let nn_i := znth [] nn (i + np) in
      fold_left (fun (st : triplets * triplets) (inn : Z) =>
          let c := znth 0 nn_i inn in
          if c <? np then (st.1, st.2 ++ [Triplet i c dzero])
          else (st.1 ++ [Triplet i (c - np) dzero], st.2))
        (range 0 (Z.of_nat (length nn_i))) (st.1 ++ [Triplet i i done], st.2))
    rowsO st
  = (st.1 ++ diag_trips double dzero done A_obs (is_pred np) shift nn_obs rowsO,
     st.2 ++ map (to_trip double dzero) (flat_map opsOP rowsO)).
Proof.
  revert st. induction rowsO as [|i rowsO IH]; intros st Hpos.
  - simpl. rewrite !app_nil_r. destruct st; reflexivity.
  - cbn [fold_left]. rewrite IH by (intros j Hj; apply Hpos; right; exact Hj). clear IH.
    unfold diag_trips. cbn [flat_map]. cbv zeta.
    assert (Hi : znth [] nn (i + np) = znth [] nn_obs i).
    { unfold nn_obs. rewrite znth_drop; [reflexivity | exact np_nonneg | apply Hpos; left]. }
    rewrite Hi.
    assert (Hrow : ∀ l (s : triplets * triplets),
              fold_left (fun (st : triplets * triplets) (inn : Z) =>
                  if znth 0 (znth [] nn_obs i) inn <? np
                  then (st.1, st.2 ++ [Triplet i (znth 0 (znth [] nn_obs i) inn) dzero])
                  else (st.1 ++ [Triplet i (znth 0 (znth [] nn_obs i) inn - np) dzero], st.2))
                l s
              = (s.1 ++ map (to_trip double dzero)
                   (flat_map (fun inn => let c := znth 0 (znth [] nn_obs i) inn in
                        if is_pred np c then [(i, shift c, znth dzero (A_obs i) inn)] else []) l),
                 s.2 ++ map (to_trip double dzero)
                   (flat_map (fun inn => let c := znth 0 (znth [] nn_obs i) inn in
                        if is_obs np c then [(i, same c, znth dzero (A_obs i) inn)] else []) l))).
    { induction l as [|inn l IHl]; intros s.
      - simpl. rewrite !app_nil_r. destruct s; reflexivity.
      - cbn [fold_left flat_map]. rewrite IHl. cbv zeta. unfold is_obs, is_pred, shift, same.
        destruct (znth 0 (znth [] nn_obs i) inn <? np); cbn [fst snd negb app map];
          rewrite <- ?app_assoc; reflexivity. }
    rewrite Hrow. cbn [fst snd]. unfold opsOP, row_ops.
    rewrite map_app, <- !app_assoc. reflexivity.
Qed.

Lemma pf_triplets_split :
  pf_triplets np nobs nn
  = (diag_trips double dzero done A_obs (is_pred np) shift nn_obs (range 0 nobs),
     map (to_trip double dzero) (flat_map opsOP (range 0 nobs)),
     diag_trips double dzero done A_i all_true same nn (range 0 np)).
Proof.
  unfold pf_triplets. cbv zeta. rewrite pf_Bp_triplets, pf_Bo_Bop_triplets.
  - reflexivity.
  - intros i Hi. apply elem_of_range in Hi. lia.
Qed.

Lemma pf_B_row_pred (st : sp_mat * sp_mat * sp_mat) (i : Z) :
  0 ≤ i < np →
  pf_B_row np nn st i
  = (st.1.1, st.1.2, fold_left (sub_op double dzero dsub) (opsP i) st.2).
Proof.
  intros Hi. unfold pf_B_row. destruct (Z.ltb_spec 0 i) as [H0 | H0].
  - cbv zeta. unfold opsP, row_ops.
    generalize (range 0 (Z.of_nat (length (znth [] nn i)))). intros l. revert st.
    induction l as [|inn l IHl]; intros st; [destruct st as [[a b] c]; reflexivity|].
    cbn [fold_left flat_map]. rewrite IHl. destruct (Z.ltb_spec i np); [|lia].
    cbn [fst snd]. rewrite fold_left_app. reflexivity.
  - assert (i = 0) by lia. subst i. unfold opsP, row_ops. rewrite first_row by lia.
    destruct st as [[a b] c]. reflexivity.
Qed.

Lemma pf_B_row_obs (st : sp_mat * sp_mat * sp_mat) (r : Z) :
  0 ≤ r < nobs →
  pf_B_row np nn st (r + np)
  = (fold_left (sub_op double dzero dsub) (opsO r) st.1.1,
     fold_left (sub_op double dzero dsub) (opsOP r) st.1.2, st.2).
Proof.
  intros Hr.
  assert (Hi : znth [] nn (r + np) = znth [] nn_obs r).
  { unfold nn_obs. rewrite znth_drop; [reflexivity | exact np_nonneg | lia]. }
  unfold pf_B_row. destruct (Z.ltb_spec 0 (r + np)) as [H0 | H0].
  - cbv zeta. unfold opsO, opsOP, row_ops. rewrite Hi.
    generalize (range 0 (Z.of_nat (length (znth [] nn_obs r)))). intros l. revert st.
    induction l as [|inn l IHl]; intros st; [destruct st as [[a b] c]; reflexivity|].
    cbn [fold_left flat_map]. rewrite IHl. destruct (Z.ltb_spec (r + np) np); [lia|].
    unfold is_obs, is_pred, shift, same, A_obs.
    replace (r + np - np) with r by lia.
    destruct (znth 0 (znth [] nn_obs r) inn <? np); cbn [fst snd negb app fold_left];
      reflexivity.
  - assert (r + np = 0) as E by lia. unfold opsO, opsOP, row_ops.
    rewrite <- Hi, E, first_row by lia. destruct st as [[a b] c]. reflexivity.
Qed.

Lemma pf_rows_pred (rowsP : list Z) (st : sp_mat * sp_mat * sp_mat) :
  (∀ i, i ∈ rowsP → 0 ≤ i < np) →
  fold_left (pf_B_row np nn) rowsP st
  = (st.1.1, st.1.2, fold_left (sub_op double dzero dsub) (flat_map opsP rowsP) st.2).
Proof.
  revert st. induction rowsP as [|i rowsP IH]; intros st Hr; [destruct st as [[a b] c]; reflexivity|].
  cbn [fold_left flat_map]. rewrite IH by (intros j Hj; apply Hr; right; exact Hj).
  rewrite pf_B_row_pred by (apply Hr; left). cbn [fst snd]. rewrite fold_left_app. reflexivity.
Qed.

Lemma pf_rows_obs (rowsO : list Z) (st : sp_mat * sp_mat * sp_mat) :
  (∀ r, r ∈ rowsO → 0 ≤ r < nobs) →
  fold_left (pf_B_row np nn) (map (fun r => r + np) rowsO) st
  = (fold_left (sub_op double dzero dsub) (flat_map opsO rowsO) st.1.1,
     fold_left (sub_op double dzero dsub) (flat_map opsOP rowsO) st.1.2, st.2).
Proof.
  revert st. induction rowsO as [|r rowsO IH]; intros st Hr; [destruct st as [[a b] c]; reflexivity|].
  cbn [map fold_left flat_map]. rewrite IH by (intros j Hj; apply Hr; right; exact Hj).
  rewrite pf_B_row_obs by (apply Hr; left). cbn [fst snd]. rewrite !fold_left_app. reflexivity.
Qed.

Lemma range_shift (n m : Z) : 0 ≤ m → range n (m + n) = map (fun r => r + n) (range 0 m).
Proof.
  intros Hm. unfold range. replace (m + n - n) with m by lia. rewrite Z.sub_0_r.
  rewrite <- (Z2Nat.id m) by exact Hm. generalize (Z.to_nat m). intros k.
  induction k as [|k IH]; [reflexivity|].
  rewrite Nat2Z.inj_succ, <- Z.add_1_r.
  rewrite (seqZ_app n (Z.of_nat k) 1), (seqZ_app 0 (Z.of_nat k) 1) by lia.
  rewrite map_app, IH. f_equal. unfold seqZ. simpl. f_equal. lia.
Qed.

Lemma CalcPredVecchiaPredictedFirstOrder_B_ops :
  CalcPredVecchiaPredictedFirstOrder_B np nobs nn
  = (factor_diag double dzero done dadd dsub A_obs (is_pred np) shift nn_obs (range 0 nobs),
     factor_plain double dzero dadd dsub A_obs (is_obs np) same nn_obs (range 0 nobs),
     factor_diag double dzero done dadd dsub A_i all_true same nn (range 0 np)).
Proof.
  unfold CalcPredVecchiaPredictedFirstOrder_B. cbv zeta. rewrite pf_triplets_split.
  rewrite <- (range_app 0 np (nobs + np)) by lia. rewrite fold_left_app.
  rewrite (pf_rows_pred (range 0 np)) by (intros i Hi; apply elem_of_range in Hi; exact Hi).
  rewrite (range_shift np nobs nobs_nonneg).
  rewrite pf_rows_obs by (intros r Hr; apply elem_of_range in Hr; lia).
  reflexivity.
Qed.

End Split.

End PredPredictedFirst.

(** X21. In [CalcPredVecchiaPredictedFirstOrder], when the neighbours of
    every point are distinct earlier points (the predicted points come
    first), [Bp] and [Bo] are unit lower triangular, [Bop] has entries only
    where a predicted point is a neighbour of an observed point, and the
    entry for neighbour number [inn] of the point [i] is [0 - A_i(0, inn)],
    stored in [Bp], [Bop] or [Bo] according to the kinds of the point and of
    the neighbour. *)
Theorem CalcPredVecchiaPredictedFirstOrder_factors
    (double : Type) (dzero done : double) (dadd dsub : double → double → double)
    (A_i : Z → list double) (num_data_pred_cli num_data_cli : Z) (nn : list (list Z)) :
  0 ≤ num_data_pred_cli → 0 ≤ num_data_cli →
  (∀ i, 0 ≤ i < num_data_cli + num_data_pred_cli →
     NoDup (znth [] nn i) ∧ ∀ x, x ∈ znth [] nn i → 0 ≤ x < i) →
  let B := CalcPredVecchiaPredictedFirstOrder_B double dzero done dadd dsub A_i
             num_data_pred_cli num_data_cli nn in
  let Bo := B.1.1 in
  let Bop := B.1.2 in
  let Bp := B.2 in
  (∀ i, 0 ≤ i < num_data_pred_cli → Bp !! (i, i) = Some done) ∧
  (∀ i j, is_Some (Bp !! (i, j)) → 0 ≤ j ≤ i ∧ i < num_data_pred_cli) ∧
  (∀ r, 0 ≤ r < num_data_cli → Bo !! (r, r) = Some done) ∧
  (∀ r j, is_Some (Bo !! (r, j)) → 0 ≤ j ≤ r ∧ r < num_data_cli) ∧
  (∀ r c, is_Some (Bop !! (r, c)) →
     0 ≤ r < num_data_cli ∧ 0 ≤ c < num_data_pred_cli ∧
     c ∈ znth [] nn (r + num_data_pred_cli)) ∧
  (∀ i inn, 0 ≤ i < num_data_cli + num_data_pred_cli →
     0 ≤ inn < Z.of_nat (length (znth [] nn i)) →
     let c := znth 0 (znth [] nn i) inn in
     let a := dsub dzero (znth dzero (A_i i) inn) in
     if i <? num_data_pred_cli then Bp !! (i, c) = Some a
     else if c <? num_data_pred_cli then Bop !! (i - num_data_pred_cli, c) = Some a
          else Bo !! (i - num_data_pred_cli, c - num_data_pred_cli) = Some a).
Proof.
  intros Hnp Hnobs Hnn B Bo Bop Bp. subst Bo Bop Bp B.
  set (np := num_data_pred_cli) in *. set (nobs := num_data_cli) in *.
  assert (Hfirst : 0 < nobs + np → znth [] nn 0 = []).
  { intros H. destruct (Hnn 0 ltac:(lia)) as [_ Hx].
    destruct (znth [] nn 0) as [|x l]; [reflexivity|]. specialize (Hx x ltac:(left)). lia. }
  rewrite (CalcPredVecchiaPredictedFirstOrder_B_ops double dzero done dadd dsub A_i np nobs nn
             Hnp Hnobs Hfirst).
  cbn [fst snd].
  set (nn_obs := drop (Z.to_nat np) nn).
  assert (Hrow : ∀ r, 0 ≤ r → znth [] nn_obs r = znth [] nn (r + np)).
  { intros r Hr. unfold nn_obs. apply znth_drop; assumption. }
  assert (HP : ∀ i, i ∈ range 0 np → NoDup (znth [] nn i)).
  { intros i Hi. apply elem_of_range in Hi. apply Hnn. lia. }
  assert (HO : ∀ r, r ∈ range 0 nobs → NoDup (znth [] nn_obs r)).
  { intros r Hr. apply elem_of_range in Hr. rewrite Hrow by lia. apply Hnn. lia. }
  assert (HdP : ∀ i c, i ∈ range 0 np → c ∈ znth [] nn i → true = true → c ≠ i).
  { intros i c Hi Hc _. apply elem_of_range in Hi.
    destruct (Hnn i ltac:(lia)) as [_ Hx]. specialize (Hx c Hc). lia. }
  assert (HdO : ∀ r c, r ∈ range 0 nobs → c ∈ znth [] nn_obs r → is_pred np c = true →
                  c - np ≠ r).
  { intros r c Hr Hc _. apply elem_of_range in Hr. rewrite Hrow in Hc by lia.
    destruct (Hnn (r + np) ltac:(lia)) as [_ Hx]. specialize (Hx c Hc). lia. }
  assert (Hshift : ∀ c c' : Z, c - np = c' - np → c = c') by (intros; lia).
  assert (Hsame : ∀ c c' : Z, c = c' → c = c') by auto.
  split; [|split; [|split; [|split; [|split]]]].
  - intros i Hi.
    apply (factor_diag_diagonal double dzero done dadd dsub A_i (fun _ => true) (fun c => c)
             nn (range 0 np) Hsame (NoDup_seqZ _ _) HP HdP), elem_of_range, Hi.
  - intros i j H.
    apply (factor_diag_support double dzero done dadd dsub A_i (fun _ => true) (fun c => c)
             nn (range 0 np)) in H as [Hi Hj].
    apply elem_of_range in Hi. destruct Hj as [-> | (c & Hc & _ & ->)]; [lia|].
    destruct (Hnn i ltac:(lia)) as [_ Hx]. specialize (Hx c Hc). lia.
  - intros r Hr.
    apply (factor_diag_diagonal double dzero done dadd dsub (fun r => A_i (r + np))
             (is_pred np) (fun c => c - np) nn_obs (range 0 nobs) Hshift (NoDup_seqZ _ _)
             HO HdO), elem_of_range, Hr.
  - intros r j H.
    apply (factor_diag_support double dzero done dadd dsub (fun r => A_i (r + np))
             (is_pred np) (fun c => c - np) nn_obs (range 0 nobs)) in H as [Hr Hj].
    apply elem_of_range in Hr. destruct Hj as [-> | (c & Hc & HPc & ->)]; [lia|].
    rewrite Hrow in Hc by lia.
    destruct (Hnn (r + np) ltac:(lia)) as [_ Hx]. specialize (Hx c Hc).
    unfold is_pred in HPc. destruct (Z.ltb_spec c np); [discriminate | lia].
  - intros r c H.
    apply (factor_plain_support double dzero dadd dsub (fun r => A_i (r + np))
             (is_obs np) (fun c => c) nn_obs (range 0 nobs)) in H
      as (Hr & c' & Hc & HPc & ->).
    apply elem_of_range in Hr. rewrite Hrow in Hc by lia.
    destruct (Hnn (r + np) ltac:(lia)) as [_ Hx]. specialize (Hx c' Hc).
    unfold is_obs in HPc. destruct (Z.ltb_spec c' np); [|discriminate].
    split; [exact Hr|]. split; [lia | exact Hc].
  - intros i inn Hi Hinn. cbv zeta.
    destruct (Z.ltb_spec i np) as [Hlt | Hge].
    + apply (factor_diag_value double dzero done dadd dsub A_i (fun _ => true) (fun c => c)
               nn (range 0 np) Hsame (NoDup_seqZ _ _) HP HdP i inn);
        [apply elem_of_range; lia | exact Hinn | reflexivity].
    + assert (Hr : i - np ∈ range 0 nobs) by (apply elem_of_range; lia).
      assert (Hrow' : znth [] nn_obs (i - np) = znth [] nn i).
      { rewrite Hrow by lia. f_equal. lia. }
      destruct (Z.ltb_spec (znth 0 (znth [] nn i) inn) np) as [Hc | Hc].
      * pose proof (factor_plain_value double dzero dadd dsub (fun r => A_i (r + np))
                      (is_obs np) (fun c => c) nn_obs (range 0 nobs) Hsame (NoDup_seqZ _ _)
                      HO (i - np) inn Hr) as H.
        rewrite Hrow' in H. replace (i - np + np) with i in H by lia.
        apply H; [exact Hinn | unfold is_obs; apply Z.ltb_lt, Hc].
      * pose proof (factor_diag_value double dzero done dadd dsub (fun r => A_i (r + np))
                      (is_pred np) (fun c => c - np) nn_obs (range 0 nobs) Hshift
                      (NoDup_seqZ _ _) HO HdO (i - np) inn Hr) as H.
        rewrite Hrow' in H. replace (i - np + np) with i in H by lia.
        apply H; [exact Hinn | unfold is_pred; apply negb_true_iff, Z.ltb_ge, Hc].
Qed.

Definition ex_pf_nn : list (list Z) := [[]; [0]; [1; 0]; [2; 0]].

Lemma ex_pf_nn_earlier (i : Z) :
  0 ≤ i < 2 + 2 →
  NoDup (znth [] ex_pf_nn i) ∧ ∀ x, x ∈ znth [] ex_pf_nn i → 0 ≤ x < i.
Proof.
  intros Hi. assert (i = 0 ∨ i = 1 ∨ i = 2 ∨ i = 3) as [-> | [-> | [-> | ->]]] by lia.
  - change (znth [] ex_pf_nn 0) with (@nil Z). split; [constructor|].
    intros x Hx. inversion Hx.
  - change (znth [] ex_pf_nn 1) with [0]. split.
    + apply NoDup_ListNoDup. repeat constructor; simpl; lia.
    + intros x Hx. repeat (apply elem_of_cons in Hx as [-> | Hx]; [lia|]). inversion Hx.
  - change (znth [] ex_pf_nn 2) with [1; 0]. split.
    + apply NoDup_ListNoDup. repeat constructor; simpl; lia.
    + intros x Hx. repeat (apply elem_of_cons in Hx as [-> | Hx]; [lia|]). inversion Hx.
  - change (znth [] ex_pf_nn 3) with [2; 0]. split.
    + apply NoDup_ListNoDup. repeat constructor; simpl; lia.
    + intros x Hx. repeat (apply elem_of_cons in Hx as [-> | Hx]; [lia|]). inversion Hx.
Qed.

Lemma CalcPredVecchiaPredictedFirstOrder_factors_witness :
  let B := CalcPredVecchiaPredictedFirstOrder_B Q 0%Q 1%Q Qplus Qminus ex_pred_A 2 2 ex_pf_nn in
  let Bo := B.1.1 in
  let Bop := B.1.2 in
  let Bp := B.2 in
  (∀ i, 0 ≤ i < 2 → Bp !! (i, i) = Some 1%Q) ∧
  (∀ i j, is_Some (Bp !! (i, j)) → 0 ≤ j ≤ i ∧ i < 2) ∧
  (∀ r, 0 ≤ r < 2 → Bo !! (r, r) = Some 1%Q) ∧
  (∀ r j, is_Some (Bo !! (r, j)) → 0 ≤ j ≤ r ∧ r < 2) ∧
  (∀ r c, is_Some (Bop !! (r, c)) → 0 ≤ r < 2 ∧ 0 ≤ c < 2 ∧ c ∈ znth [] ex_pf_nn (r + 2)) ∧
  (∀ i inn, 0 ≤ i < 2 + 2 → 0 ≤ inn < Z.of_nat (length (znth [] ex_pf_nn i)) →
     let c := znth 0 (znth [] ex_pf_nn i) inn in
     let a := (0 - znth 0 (ex_pred_A i) inn)%Q in
     if i <? 2 then Bp !! (i, c) = Some a
     else if c <? 2 then Bop !! (i - 2, c) = Some a
          else Bo !! (i - 2, c - 2) = Some a).
Proof.
  apply (CalcPredVecchiaPredictedFirstOrder_factors Q 0%Q 1%Q Qplus Qminus ex_pred_A 2 2 ex_pf_nn).
  - lia.
  - lia.
  - exact ex_pf_nn_earlier.
Defined.

(** ** The residual-correlation distance orders by correlation *)

Lemma std_pow_range (x y : R) :
  (0 <= x <= y)%R → (y <= 1)%R →
  (0 <= std_pow x (1 / 10) <= std_pow y (1 / 10))%R ∧ (std_pow y (1 / 10) <= 1)%R.
Proof.
  intros [Hx Hxy] Hy. unfold std_pow.
  assert (Hpos : ∀ z, (0 < z)%R → (0 < Rpower z (1 / 10))%R).
  { intros z _. unfold Rpower. apply exp_pos. }
  assert (Hone : ∀ z, (0 < z <= 1)%R → (Rpower z (1 / 10) <= 1)%R).
  { intros z [Hz0 Hz1]. replace 1%R with (Rpower 1 (1 / 10)) at 2.
    - apply Rle_Rpower_l; lra.
    - unfold Rpower. rewrite ln_1, Rmult_0_r. apply exp_0. }
  assert (Hnz : ∀ z, (0 <= z)%R → z ≠ 0%R → (0 < z)%R).
  { intros z [H | H] Hz; [exact H | congruence]. }
  destruct (Req_dec_T x 0) as [-> | Hx0], (Req_dec_T y 0) as [-> | Hy0].
  - lra.
  - pose proof (Hnz y Hxy Hy0) as H. pose proof (Hpos y H). pose proof (Hone y ltac:(lra)). lra.
  - pose proof (Hnz x Hx Hx0). lra.
  - pose proof (Hnz x Hx Hx0) as H. assert (H' : (0 < y)%R) by lra.
    pose proof (Hpos x H). pose proof (Hone y ltac:(lra)).
    pose proof (Rle_Rpower_l x y (1 / 10) ltac:(lra) ltac:(lra)). lra.
Qed.

Section DistanceOrder.

Variable k : list R → list R → R.
Variable CalcSigmaAndSigmaGradVecchia : list R → list R → list (list R) → list R.
Hypothesis CalcSigma_is_k : ∀ (distances_saved : bool) (coords_i : list R) (coords_j : list (list R)),
  CalcSigmaAndSigmaGradVecchia
    (if distances_saved then map (fun c => lpNorm2_diff_R c coords_i) coords_j else [])
    coords_i coords_j = map (k coords_i) coords_j.

(** The entry written for the candidate at position [p]. *)
Lemma distances_funct_entry (coord_ind_i : Z) (coords_ind_j : list Z) (a : kernel_args)
    (distances_saved : bool) (p : nat) (j : Z) :
  (length coords_ind_j ≤ length (distances a))%nat →
  coords_ind_j !! p = Some j →
  distances (distances_funct CalcSigmaAndSigmaGradVecchia coord_ind_i coords_ind_j a
               "residual_correlation_FSA" distances_saved) !! p
  = Some (residual_correlation_distance k a coord_ind_i j).
Proof.
  intros Hlen Hp. unfold distances_funct. simpl String.eqb. cbv iota zeta. simpl distances.
  pose proof (lookup_lt_Some _ _ _ Hp) as Hlt.
  rewrite fold_insert_lookup by assumption.
  rewrite CalcSigma_is_k.
  f_equal. unfold residual_correlation_distance, residual_correlation.
  rewrite !(nth_lookup_Some _ _ _ j Hp).
  erewrite (nth_lookup_Some (map _ (map _ _))); [|rewrite !list_lookup_fmap, Hp; reflexivity].
  erewrite (nth_lookup_Some (map _ coords_ind_j)); [|rewrite list_lookup_fmap, Hp; reflexivity].
  rewrite (dot_comm (znth [] (chol_ip_cross_cov a) j)). reflexivity.
Qed.

(** X22. The distance that [distances_funct] writes orders the candidates
    by the absolute value of their residual correlation with the query
    point: of two candidates whose residual correlations are at most one in
    absolute value, the one with the larger absolute residual correlation
    gets the smaller distance, and both distances lie between zero and
    one. *)
Theorem distances_funct_orders_by_correlation
    (coord_ind_i : Z) (coords_ind_j : list Z) (a : kernel_args) (distances_saved : bool)
    (p p' : nat) (j j' : Z) :
  (length coords_ind_j ≤ length (distances a))%nat →
  coords_ind_j !! p = Some j → coords_ind_j !! p' = Some j' →
  (Rabs (residual_correlation k a coord_ind_i j)
   <= Rabs (residual_correlation k a coord_ind_i j') <= 1)%R →
  let a' := distances_funct CalcSigmaAndSigmaGradVecchia coord_ind_i coords_ind_j a
              "residual_correlation_FSA" distances_saved in
  ∃ d d', distances a' !! p = Some d ∧ distances a' !! p' = Some d' ∧
          (0 <= d' <= d)%R ∧ (d <= 1)%R.
Proof.
  intros Hlen Hp Hp' [Hle H1] a'. subst a'.
  exists (residual_correlation_distance k a coord_ind_i j),
         (residual_correlation_distance k a coord_ind_i j').
  split; [apply distances_funct_entry; assumption|].
  split; [apply distances_funct_entry; assumption|].
  unfold residual_correlation_distance.
  set (x := Rabs (residual_correlation k a coord_ind_i j)) in *.
  set (y := Rabs (residual_correlation k a coord_ind_i j')) in *.
  assert (Hx : (0 <= x)%R) by apply Rabs_pos.
  destruct (std_pow_range x y ltac:(lra) H1) as [[Hpx Hpxy] Hpy].
  split; [split|].
  - apply sqrt_pos.
  - apply sqrt_le_1_alt. lra.
  - pose proof (sqrt_le_1_alt (1 - std_pow x (1 / 10)) 1 ltac:(lra)) as H.
    rewrite sqrt_1 in H. exact H.
Qed.

End DistanceOrder.

(** Three points on a line with the constant residual covariance of one
    half between distinct points and no inducing-point part. *)
Definition ex_kernel_args_order : kernel_args :=
  mkKernelArgs [[0%R]; [1%R]; [2%R]] [1%R; 1%R; 1%R] [[0%R]; [0%R]; [0%R]] [0%R; 0%R].

Lemma ex_residual_correlation (j : Z) :
  0 ≤ j < 2 → residual_correlation ex_kernel ex_kernel_args_order 2 j = (1 / 2)%R.
Proof.
  intros Hj. assert (j = 0 ∨ j = 1) as [-> | ->] by lia;
    unfold residual_correlation, ex_kernel, ex_kernel_args_order, dot; simpl;
    unfold znth; simpl; rewrite Rmult_1_r, sqrt_1; lra.
Qed.

Lemma distances_funct_orders_by_correlation_witness :
  let a' := distances_funct ex_CalcSigma 2 [0; 1] ex_kernel_args_order
              "residual_correlation_FSA" true in
  ∃ d d', distances a' !! 0%nat = Some d ∧ distances a' !! 1%nat = Some d' ∧
          (0 <= d' <= d)%R ∧ (d <= 1)%R.
Proof.
  apply (distances_funct_orders_by_correlation ex_kernel ex_CalcSigma (fun _ _ _ => eq_refl)
           2 [0; 1] ex_kernel_args_order true 0%nat 1%nat 0 1).
  - simpl. lia.
  - reflexivity.
  - reflexivity.
  - rewrite !ex_residual_correlation by lia. rewrite Rabs_right by lra. lra.
Defined.

(** ** The factor [B] and the incidence matrices of the latent prediction
    ([CalcPredVecchiaLatentObservedFirstOrder]) *)

Section PredLatent.

Variable double : Type.
Variables dzero done : double.
Variable dadd dsub : double → double → double.
(** The row [A_i] that Eigen's LLT solve returns for the location [i]. *)
Variable A_i : Z → list double.

(** Lines 2514-2527: the triplets of the incidence matrices [Z_o] and
    [Z_p]; [unique_idx] comes from [DetermineUniqueDuplicateCoordsFast]. *)
Definition latent_Z_triplets (num_data_cli num_data_tot : Z) (unique_idx : list Z)
  : list (Triplet_t double) * list (Triplet_t double) :=
  fold_left (fun (st : list (Triplet_t double) * list (Triplet_t double)) (i : Z) =>
      if i <? num_data_cli then (st.1 ++ [Triplet i (znth 0 unique_idx i) done], st.2)
      else (st.1, st.2 ++ [Triplet (i - num_data_cli) (znth 0 unique_idx i) done]))
    (range 0 num_data_tot) ([], []).

Definition latent_Z (num_data_cli num_data_tot : Z) (unique_idx : list Z)
  : gmap (Z * Z) double * gmap (Z * Z) double :=
  let t := latent_Z_triplets num_data_cli num_data_tot unique_idx in
  (setFromTriplets double dadd t.1, setFromTriplets double dadd t.2).

(** Lines 2567-2576: the triplets of [B]. *)
Definition latent_B_triplets (num_coord_unique : Z) (nn : list (list Z))
  : list (Triplet_t double) :=
  fold_left (fun (t : list (Triplet_t double)) (i : Z) =>
      fold_left (fun (t : list (Triplet_t double)) (inn : Z) =>
          t ++ [Triplet i (znth 0 (znth [] nn i) inn) dzero])
        (range 0 (Z.of_nat (length (znth [] nn i)))) (t ++ [Triplet i i done]))
    (range 0 num_coord_unique) [].

(** Lines 2600-2607 for the location [i]. *)
Definition latent_B_row (nn : list (list Z)) (B : gmap (Z * Z) double) (i : Z)
  : gmap (Z * Z) double :=
  if 0 <? i then
    fold_left (fun (B : gmap (Z * Z) double) (inn : Z) =>
        coeffRef_sub double dzero dsub B i (znth 0 (znth [] nn i) inn) (znth dzero (A_i i) inn))
      (range 0 (Z.of_nat (length (znth [] nn i)))) B
  else B.

(** [B] after the loop over the locations. *)
Definition CalcPredVecchiaLatentObservedFirstOrder_B (num_coord_unique : Z)
    (nn : list (list Z)) : gmap (Z * Z) double :=
  fold_left (latent_B_row nn) (range 0 num_coord_unique)
    (setFromTriplets double dadd (latent_B_triplets num_coord_unique nn)).

Lemma latent_B_rows (nn : list (list Z)) (rows : list Z) (B : gmap (Z * Z) double) :
  (∀ i, i ∈ rows → i ≤ 0 → znth [] nn i = []) →
  fold_left (latent_B_row nn) rows B
  = fold_left (sub_op double dzero dsub)
      (flat_map (row_ops double dzero A_i (fun _ => true) (fun c => c) nn) rows) B.
Proof.
  revert B. induction rows as [|i rows IH]; intros B Hr; [reflexivity|].
  cbn [fold_left flat_map]. rewrite IH by (intros j Hj; apply Hr; right; exact Hj).
  rewrite fold_left_app. f_equal. unfold latent_B_row, row_ops.
  destruct (Z.ltb_spec 0 i) as [H0 | H0].
  - generalize (range 0 (Z.of_nat (length (znth [] nn i)))). intros l. revert B.
    induction l as [|inn l IHl]; intros B; [reflexivity|].
    cbn [fold_left flat_map]. rewrite IHl. reflexivity.
  - rewrite (Hr i ltac:(left) H0). reflexivity.
Qed.

Lemma CalcPredVecchiaLatentObservedFirstOrder_B_ops (n : Z) (nn : list (list Z)) :
  (0 < n → znth [] nn 0 = []) →
  CalcPredVecchiaLatentObservedFirstOrder_B n nn
  = factor_diag double dzero done dadd dsub A_i (fun _ => true) (fun c => c) nn (range 0 n).
Proof.
  intros Hfirst. unfold CalcPredVecchiaLatentObservedFirstOrder_B, latent_B_triplets, factor_diag.
  rewrite (pf_Bp_triplets double dzero done A_i nn (range 0 n) []). cbn [app].
  apply latent_B_rows. intros i Hi H0. apply elem_of_range in Hi.
  assert (i = 0) by lia. subst i. apply Hfirst. lia.
Qed.

Lemma latent_Z_triplets_rows (num_data_cli : Z) (unique_idx : list Z) (rows : list Z)
    (st : list (Triplet_t double) * list (Triplet_t double)) :
  fold_left (fun (st : list (Triplet_t double) * list (Triplet_t double)) (i : Z) =>
      if i <? num_data_cli then (st.1 ++ [Triplet i (znth 0 unique_idx i) done], st.2)
      else (st.1, st.2 ++ [Triplet (i - num_data_cli) (znth 0 unique_idx i) done]))
    rows st
  = (st.1 ++ map (fun i => Triplet i (znth 0 unique_idx i) done)
               (List.filter (fun i => i <? num_data_cli) rows),
     st.2 ++ map (fun i => Triplet (i - num_data_cli) (znth 0 unique_idx i) done)
               (List.filter (fun i => negb (i <? num_data_cli)) rows)).
Proof.
  revert st. induction rows as [|i rows IH]; intros st.
  - simpl. rewrite !app_nil_r. destruct st; reflexivity.
  - cbn [fold_left List.filter]. rewrite IH.
    destruct (i <? num_data_cli); cbn [fst snd negb map]; rewrite <- ?app_assoc; reflexivity.
Qed.

(** The matrix of triplets [(f i, c i, 1)] over indices with distinct rows. *)
Lemma setFromTriplets_rows (f c : Z → Z) (rows : list Z) :
  NoDup (map f rows) →
  let M := setFromTriplets double dadd (map (fun i => Triplet (f i) (c i) done) rows) in
  (∀ i, i ∈ rows → M !! (f i, c i) = Some done) ∧
  (∀ r j, is_Some (M !! (r, j)) → ∃ i, i ∈ rows ∧ r = f i ∧ j = c i).
Proof.
  intros Hnd M. subst M. unfold setFromTriplets.
  assert (Hkeys : NoDup (map (t_key double) (map (fun i => Triplet (f i) (c i) done) rows))).
  { clear -Hnd. induction rows as [|i rows IH]; [constructor|].
    simpl in Hnd |- *. apply NoDup_cons in Hnd as [Hi Hnd]. apply NoDup_cons.
    split; [|apply IH, Hnd]. intros H. apply Hi.
    apply list_elem_of_In, in_map_iff in H as (t & Ht & H).
    apply in_map_iff in H as (i' & <- & Hi'). unfold t_key in Ht. simpl in Ht.
    injection Ht as Hf _. rewrite <- Hf. apply list_elem_of_In, in_map, Hi'. }
  split.
  - intros i Hi.
    apply (add_triplets_once double dadd _ ∅ (Triplet (f i) (c i) done) Hkeys);
      [|apply lookup_empty].
    apply list_elem_of_In, in_map_iff. exists i. split; [reflexivity | apply list_elem_of_In, Hi].
  - intros r j H. apply add_triplets_keys in H as [H | H].
    + rewrite lookup_empty in H. destruct H; discriminate.
    + apply list_elem_of_In, in_map_iff in H as (t & Ht & H).
      apply in_map_iff in H as (i & <- & Hi). unfold t_key in Ht. simpl in Ht.
      injection Ht as <- <-. exists i. split; [apply list_elem_of_In, Hi | auto].
Qed.

End PredLatent.

Lemma NoDup_map_inj {A B : Type} (f : A → B) (l : list A) :
  (∀ x y, f x = f y → x = y) → NoDup l → NoDup (map f l).
Proof.
  intros Hf. induction 1 as [|x l Hx Hnd IH]; simpl; [constructor|].
  apply NoDup_cons. split; [|exact IH]. intros H.
  apply list_elem_of_In, in_map_iff in H as (y & E & Hy). apply Hf in E. subst y.
  apply Hx, list_elem_of_In, Hy.
Qed.

(** X23. In [CalcPredVecchiaLatentObservedFirstOrder], when the neighbours
    of every location are distinct earlier locations, [B] is unit lower
    triangular and its entry at neighbour number [inn] of the location [i]
    is [0 - A_i(0, inn)]. *)
Theorem CalcPredVecchiaLatentObservedFirstOrder_B_factor
    (double : Type) (dzero done : double) (dadd dsub : double → double → double)
    (A_i : Z → list double) (num_coord_unique : Z) (nn : list (list Z)) :
  (∀ i, 0 ≤ i < num_coord_unique →
     NoDup (znth [] nn i) ∧ ∀ x, x ∈ znth [] nn i → 0 ≤ x < i) →
  let B := CalcPredVecchiaLatentObservedFirstOrder_B double dzero done dadd dsub A_i
             num_coord_unique nn in
  (∀ i, 0 ≤ i < num_coord_unique → B !! (i, i) = Some done) ∧
  (∀ i j, is_Some (B !! (i, j)) → 0 ≤ j ≤ i ∧ i < num_coord_unique) ∧
  (∀ i inn, 0 ≤ i < num_coord_unique → 0 ≤ inn < Z.of_nat (length (znth [] nn i)) →
     B !! (i, znth 0 (znth [] nn i) inn) = Some (dsub dzero (znth dzero (A_i i) inn))).
Proof.
  intros Hnn B. subst B. set (n := num_coord_unique) in *.
  rewrite CalcPredVecchiaLatentObservedFirstOrder_B_ops.
  2: { intros H. destruct (Hnn 0 ltac:(lia)) as [_ Hx].
       destruct (znth [] nn 0) as [|x l]; [reflexivity|]. specialize (Hx x ltac:(left)). lia. }
  assert (HP : ∀ i, i ∈ range 0 n → NoDup (znth [] nn i)).
  { intros i Hi. apply elem_of_range in Hi. apply Hnn. lia. }
  assert (Hd : ∀ i c, i ∈ range 0 n → c ∈ znth [] nn i → true = true → c ≠ i).
  { intros i c Hi Hc _. apply elem_of_range in Hi.
    destruct (Hnn i ltac:(lia)) as [_ Hx]. specialize (Hx c Hc). lia. }
  assert (Hsame : ∀ c c' : Z, c = c' → c = c') by auto.
  split; [|split].
  - intros i Hi.
    apply (factor_diag_diagonal double dzero done dadd dsub A_i (fun _ => true) (fun c => c)
             nn (range 0 n) Hsame (NoDup_seqZ _ _) HP Hd), elem_of_range, Hi.
  - intros i j H.
    apply (factor_diag_support double dzero done dadd dsub A_i (fun _ => true) (fun c => c)
             nn (range 0 n)) in H as [Hi Hj].
    apply elem_of_range in Hi. destruct Hj as [-> | (c & Hc & _ & ->)]; [lia|].
    destruct (Hnn i ltac:(lia)) as [_ Hx]. specialize (Hx c Hc). lia.
  - intros i inn Hi Hinn.
    apply (factor_diag_value double dzero done dadd dsub A_i (fun _ => true) (fun c => c)
             nn (range 0 n) Hsame (NoDup_seqZ _ _) HP Hd i inn);
      [apply elem_of_range; lia | exact Hinn | reflexivity].
Qed.

Lemma CalcPredVecchiaLatentObservedFirstOrder_B_factor_witness :
  let B := CalcPredVecchiaLatentObservedFirstOrder_B Q 0%Q 1%Q Qplus Qminus ex_pred_A 4 ex_pf_nn in
  (∀ i, 0 ≤ i < 4 → B !! (i, i) = Some 1%Q) ∧
  (∀ i j, is_Some (B !! (i, j)) → 0 ≤ j ≤ i ∧ i < 4) ∧
  (∀ i inn, 0 ≤ i < 4 → 0 ≤ inn < Z.of_nat (length (znth [] ex_pf_nn i)) →
     B !! (i, znth 0 (znth [] ex_pf_nn i) inn) = Some (0 - znth 0 (ex_pred_A i) inn)%Q).
Proof.
  apply (CalcPredVecchiaLatentObservedFirstOrder_B_factor Q 0%Q 1%Q Qplus Qminus ex_pred_A 4
           ex_pf_nn).
  exact ex_pf_nn_earlier.
Defined.

(** X24. The matrices [Z_o] and [Z_p] of
    [CalcPredVecchiaLatentObservedFirstOrder] are incidence matrices: the row
    of an observed point [i] of [Z_o], and the row [i - num_data_cli] of a
    predicted point [i] of [Z_p], store one entry, the value one at the
    column [unique_idx[i]], and the matrices store nothing else. *)
Theorem latent_Z_incidence
    (double : Type) (done : double) (dadd : double → double → double)
    (num_data_cli num_data_tot : Z) (unique_idx : list Z) :
  let Z := latent_Z double done dadd num_data_cli num_data_tot unique_idx in
  (∀ i, 0 ≤ i < num_data_tot → i < num_data_cli →
     Z.1 !! (i, znth 0 unique_idx i) = Some done) ∧
  (∀ r j, is_Some (Z.1 !! (r, j)) →
     0 ≤ r < num_data_tot ∧ r < num_data_cli ∧ j = znth 0 unique_idx r) ∧
  (∀ i, 0 ≤ i < num_data_tot → num_data_cli ≤ i →
     Z.2 !! (i - num_data_cli, znth 0 unique_idx i) = Some done) ∧
  (∀ r j, is_Some (Z.2 !! (r, j)) →
     0 ≤ r + num_data_cli < num_data_tot ∧ 0 ≤ r ∧
     j = znth 0 unique_idx (r + num_data_cli)).
Proof.
  intros Z. subst Z. unfold latent_Z, latent_Z_triplets. cbv zeta.
  rewrite latent_Z_triplets_rows. cbn [fst snd app].
  set (obs := List.filter (fun i => i <? num_data_cli) (range 0 num_data_tot)).
  set (prd := List.filter (fun i => negb (i <? num_data_cli)) (range 0 num_data_tot)).
  assert (Hobs : ∀ i, i ∈ obs ↔ 0 ≤ i < num_data_tot ∧ i < num_data_cli).
  { intros i. unfold obs. rewrite elem_of_List_filter, elem_of_range, Z.ltb_lt. reflexivity. }
  assert (Hprd : ∀ i, i ∈ prd ↔ 0 ≤ i < num_data_tot ∧ num_data_cli ≤ i).
  { intros i. unfold prd. rewrite elem_of_List_filter, elem_of_range, negb_true_iff, Z.ltb_ge.
    reflexivity. }
  destruct (setFromTriplets_rows double done dadd (fun i => i) (znth 0 unique_idx) obs)
    as [Ho1 Ho2].
  { apply NoDup_map_inj; [auto | apply NoDup_List_filter, NoDup_seqZ]. }
  destruct (setFromTriplets_rows double done dadd (fun i => i - num_data_cli)
              (znth 0 unique_idx) prd) as [Hp1 Hp2].
  { apply NoDup_map_inj; [intros; lia | apply NoDup_List_filter, NoDup_seqZ]. }
  split; [|split; [|split]].
  - intros i Hi Hc. apply Ho1, Hobs. split; assumption.
  - intros r j H. apply Ho2 in H as (i & Hi & -> & ->). apply Hobs in Hi.
    destruct Hi as [Hi Hc]. split; [exact Hi|]. split; [exact Hc | reflexivity].
  - intros i Hi Hc. apply Hp1, Hprd. split; assumption.
  - intros r j H. apply Hp2 in H as (i & Hi & -> & ->). apply Hprd in Hi.
    destruct Hi as [Hi Hc]. replace (i - num_data_cli + num_data_cli) with i by lia.
    split; [exact Hi|]. split; [lia | reflexivity].
Qed.

(** ** The rows of the brute-force loop hold the nearest points *)

(** X25. In a call with one thread (a build without OpenMP, or
    [omp_get_max_threads() = 1]) on distances that are numbers (no NaN;
    metric or not): when [start_at] is not negative, the CHECKs on the sizes
    hold, the clamped number of neighbours [k] is at least one and at most
    the number of points that may be neighbours, the cover-tree loop starts
    at a point the call handles and its tree has at least two points, the
    search returns, and for every point [i] of the brute-force loop the row
    of neighbours holds the [k] nearest candidates under the distance of the
    search, in ascending order of distance: no candidate
    [y < min(i, max_ind_nn)] outside the row is closer to [i] than a point
    of the row. *)
Theorem search_brute_force_rows_are_nearest
    (dist coord_dist : Z → Z → Q) (EPSILON_NUMBERS : Q) (num_data num_neighbors : Z)
    (neighbors0 : list (list Z)) (dist_obs0 : list (list Q)) (dist_between0 : list (list (list Q)))
    (start_at end_search_at : Z) (check save_distances : bool) (base : Q)
    (prediction cond_on_all : bool) (num_data_obs : Z) :
  let k := clamp_num_neighbors num_neighbors (default_end_search_at num_data end_search_at) in
  let max_ind_nn := if cond_on_all then num_data else num_data_obs in
  let rows := if prediction && negb cond_on_all then num_data_obs else num_data in
  0 ≤ start_at →
  Z.of_nat (length neighbors0) = num_data - start_at →
  (save_distances = true →
   Z.of_nat (length dist_obs0) = num_data - start_at ∧
   Z.of_nat (length dist_between0) = num_data - start_at) →
  1 ≤ k ≤ max_ind_nn →
  start_at ≤ brute_force_threshold_of num_data k (first_search_index start_at k) prediction →
  (cover_tree_indices num_data k start_at prediction ≠ [] → 2 ≤ rows) →
  ∃ out,
    find_nearest_neighbors_Vecchia_FSA_fast dist coord_dist EPSILON_NUMBERS num_data num_neighbors
      neighbors0 dist_obs0 dist_between0 start_at end_search_at check save_distances
      base prediction cond_on_all num_data_obs = Search_done out ∧
    ∀ i, i ∈ brute_force_indices num_data k start_at prediction →
      let N := znth [] (neighbors out) (i - start_at) in
      length N = Z.to_nat k ∧ NoDup N ∧
      (∀ x, x ∈ N → 0 ≤ x < Z.min i max_ind_nn) ∧
      (∀ x y, x ∈ N → 0 ≤ y < Z.min i max_ind_nn → y ∉ N → (dist i x <= dist i y)%Q) ∧
      StronglySorted Qle (map (dist i) N).
Proof.
  intros k max_ind_nn rows Hstart Hlen Hsave Hk _ Htree.
  destruct (search_rows dist coord_dist EPSILON_NUMBERS num_data num_neighbors neighbors0
              dist_obs0 dist_between0 start_at end_search_at check save_distances base
              prediction cond_on_all num_data_obs Hlen Hsave)
    as (out & cover_tree & level & Hout & _ & _ & Hrows).
  { intros H. specialize (Htree H). fold rows. lia. }
  fold k in Hrows. fold max_ind_nn in Hrows.
  exists out. split; [exact Hout|].
  intros i Hin N. unfold N. clear N.
  destruct (search_indices num_data k start_at prediction i) as (Hbf & _ & _).
  destruct (Hbf Hin) as (Hki & Hi & _).
  rewrite (Hrows i Hi).
  destruct (decide (i ∈ brute_force_indices num_data k start_at prediction)) as [_ | Hc];
    [|contradiction].
  set (row1 := init_row k i (znth [] neighbors0 (i - start_at))).
  assert (Hl1 : length row1 = Z.to_nat k) by (apply init_row_length; lia).
  rewrite (brute_force_row_scan dist k max_ind_nn i row1 Hl1).
  set (c := range 0 (Z.min i max_ind_nn)).
  assert (Hc : (Z.to_nat k ≤ length c)%nat) by (unfold c; rewrite length_range; lia).
  destruct (brute_force_scan_spec dist i k row1 c ltac:(lia) Hl1 (NoDup_seqZ _ _) Hc)
    as (H1 & H2 & H3 & H4 & H5).
  split; [exact H1|]. split; [exact H2|]. split; [|split].
  - intros x Hx. apply H3, elem_of_range in Hx. exact Hx.
  - intros x y Hx Hy Hny. apply H5; [exact Hx | apply elem_of_range, Hy | exact Hny].
  - apply asc_sorted_dist; [|exact H4].
    apply brute_force_scan_asc; [lia | exact Hl1 | apply NoDup_seqZ].
Qed.

Lemma search_brute_force_rows_are_nearest_witness :
  ∃ out,
    find_nearest_neighbors_Vecchia_FSA_fast ex_skew_dist ex_line_dist (1 # 100000) 6 2
      (replicate 6 []) [] [] 0 (-1) false false 2 false true 6 = Search_done out ∧
    ∀ i, i ∈ brute_force_indices 6 (clamp_num_neighbors 2 (default_end_search_at 6 (-1))) 0 false →
      let N := znth [] (neighbors out) (i - 0) in
      length N = Z.to_nat (clamp_num_neighbors 2 (default_end_search_at 6 (-1))) ∧ NoDup N ∧
      (∀ x, x ∈ N → 0 ≤ x < Z.min i 6) ∧
      (∀ x y, x ∈ N → 0 ≤ y < Z.min i 6 → y ∉ N → (ex_skew_dist i x <= ex_skew_dist i y)%Q) ∧
      StronglySorted Qle (map (ex_skew_dist i) N).
Proof.
  apply (search_brute_force_rows_are_nearest ex_skew_dist ex_line_dist (1 # 100000) 6 2
           (replicate 6 []) [] [] 0 (-1) false false 2 false true 6).
  - lia.
  - reflexivity.
  - intros H. discriminate.
  - vm_compute. split; discriminate.
  - vm_compute. discriminate.
  - intros _. simpl. lia.
Defined.

(** *** The factor [B] after the search with several threads *)

(** The stored entries of [B]: the diagonal and the columns of the
    neighbour row. *)
Lemma CalcCovFactorVecchia_B_support (double : Type) (dzero done : double)
    (dadd : double → double → double) (dneg : double → double) (A_i : Z → list double)
    (n : Z) (nn : list (list Z)) (i j : Z) :
  is_Some (CalcCovFactorVecchia_B double dzero dadd dneg A_i n
             (init_B_triplets double dzero done n nn).1 nn !! (i, j)) →
  j = i ∨ j ∈ znth [] nn i.
Proof.
  intros H. unfold CalcCovFactorVecchia_B in H.
  apply (fold_set_B_row_dom double dzero dadd) in H. cbn [fst snd] in H.
  destruct H as [H | H]; [|right; exact H].
  unfold setFromTriplets in H. apply (fold_add_triplet_dom double dadd) in H.
  destruct H as [H | (t & Ht & Hk)].
  { rewrite lookup_empty in H. destruct H; discriminate. }
  unfold init_B_triplets in Ht. cbn [fst] in Ht.
  apply list_elem_of_In, in_flat_map in Ht. destruct Ht as (i' & _ & Ht).
  apply in_app_or in Ht. destruct Ht as [Ht | Ht].
  - apply in_map_iff in Ht. destruct Ht as (c & <- & Hc).
    cbn [t_row t_col] in Hk. injection Hk as <- <-. right. apply list_elem_of_In, Hc.
  - destruct Ht as [<- | []]. cbn [t_row t_col] in Hk. injection Hk as <- <-. left. reflexivity.
Qed.

Definition threads_rows (r : threads_outcome) : option (list (list Z)) :=
  match r with
  | Threads_returns (Search_done out) => Some (neighbors out)
  | _ => None
  end.

(** The rows that [CreateREComponentsVecchia] leaves for 1001 points and 17
    neighbours selected by residual correlation: [UpdateNearestNeighbors]
    passes them to the search. No coordinate is read for them. *)
Definition ex_placeholder_rows : list (list Z) :=
  neighbors_after_init Z 0 (fun _ _ => 1) (fun d => d <? 0) 1001 17 false false [].

(** The search as [UpdateNearestNeighbors] calls it (lines 1410-1412), in a
    build with OpenMP on a machine with 64 threads: 1001 points on a line,
    the distance growing with the gap between two points, 17 neighbours. *)
Definition ex_threads_update_search : threads_outcome :=
  find_nearest_neighbors_Vecchia_FSA_fast_threads ex_line_dist ex_line_dist (1 # 100000) 64
    1001 17 ex_placeholder_rows [] [] 0 (-1) false false 2 false false 1001.

(** C3. The claim fails in a build with OpenMP when a segment of the
    candidate points is shorter than the number of neighbours. With 64
    threads, 1001 points and 17 neighbours the segments hold 16 points (the
    last one 9): for the point 1000 every tree with fewer than 17 points
    below it answers with the scan over all the points [0 .. 999] (lines
    662-677), the last segment with its 8 points, and the merge takes the
    nearest point, 999, from one tree after the other. The row of the point
    1000 holds the point 999 seventeen times: the neighbour set has one
    element, not [min(17, 1000) = 17], and the row 1000 of the factor [B]
    built from the triplets of these rows has one entry beside the diagonal,
    whatever the local solve returns. *)
Theorem neighbor_set_smaller_than_k_with_threads :
  ∃ out,
    ex_threads_update_search = Threads_returns (Search_done out) ∧
    let N := znth [] (neighbors out) 1000 in
    N = replicate 17 999 ∧
    size (list_to_set N : gset Z) = 1%nat ∧
    Z.to_nat (Z.min 17 1000) = 17%nat ∧
    ∀ (dadd : Q → Q → Q) (dneg : Q → Q) (A_i : Z → list Q) (j : Z),
      j ≠ 1000 →
      is_Some (CalcCovFactorVecchia_B Q 0%Q dadd dneg A_i 1001
                 (init_B_triplets Q 0%Q 1%Q 1001 (neighbors out)).1 (neighbors out)
               !! (1000, j)) →
      j = 999.
Proof.
  assert (H : option_map (fun nn => znth [] nn 1000) (threads_rows ex_threads_update_search)
              = Some (replicate 17 999)) by (vm_compute; reflexivity).
  destruct ex_threads_update_search as [[out| | |]|]; try discriminate H.
  cbn [threads_rows option_map] in H. injection H as HN.
  exists out. split; [reflexivity|]. cbv zeta. rewrite HN.
  split; [reflexivity|]. split.
  { replace (list_to_set (replicate 17 999) : gset Z) with ({[ 999 ]} : gset Z).
    - apply size_singleton.
    - apply set_eq. intros x. rewrite elem_of_list_to_set, elem_of_replicate, elem_of_singleton.
      split; [intros ->; split; [reflexivity | lia] | intros [-> _]; reflexivity]. }
  split; [reflexivity|].
  intros dadd dneg A_i j Hj Hs.
  apply CalcCovFactorVecchia_B_support in Hs. rewrite HN in Hs.
  destruct Hs as [-> | Hs]; [congruence|].
  assert (Hall : Forall (fun x => x = 999) (replicate 17 999))
    by (apply Forall_replicate; reflexivity).
  rewrite Forall_forall in Hall. apply Hall, Hs.
Qed.

(** *** The factor [B] after the search with one thread *)

(** X26. Under the full-scale approximation with neighbours selected by
    residual correlation, when the search runs with one thread (a build
    without OpenMP, or [omp_get_max_threads() = 1]) on distances that are
    numbers (no NaN): for a component with at least two points, at least one
    neighbour requested, an empty first row, neighbour rows of the sizes
    [min(i, num_neighbors)] and triplet lists of the sizes of their sparsity
    pattern (what [CreateREComponentsVecchia] leaves),
    [UpdateNearestNeighbors] returns, and the factor [B] that
    [CalcCovFactorVecchia] builds from the triplets and the rows it leaves
    has the value one on the diagonal of every row [i], stores entries
    beside the diagonal only in the columns of the neighbour set [N(i)], and
    [N(i)] has exactly [min(num_neighbors, i)] elements, all of them points
    before [i]; this for every local solve [A_i] and every floating-point
    sum and negation. *)
Theorem CalcCovFactorVecchia_B_after_update
    (RECompGP RNG_t : Type) (GetNumUniqueREs : RECompGP → Z)
    (ShouldSaveDistances : RECompGP → bool) (dist_of coord_dist_of : RECompGP → Z → Z → Q)
    (EPSILON_NUMBERS : Q)
    (find_nearest_neighbors_Vecchia_fast :
       RECompGP → Z → Z → list (list Z) → string → RNG_t → list (list Z) * RNG_t)
    (st : REComponents Q RECompGP RNG_t) (num_neighbors : Z) (ind_intercept_gp : Z)
    (re_comps_resid_cluster_i : list RECompGP) (base : Q) (dflt : RECompGP)
    (dadd : Q → Q → Q) (dneg : Q → Q) (A_i : Z → list Q) :
  let re_comp := znth dflt re_comps_resid_cluster_i ind_intercept_gp in
  let num_re := GetNumUniqueREs re_comp in
  let nn := nearest_neighbors_cluster_i st in
  2 ≤ num_re → 1 ≤ num_neighbors →
  Z.of_nat (length nn) = num_re →
  (ShouldSaveDistances re_comp = true →
   Z.of_nat (length (dist_obs_neighbors_cluster_i st)) = num_re ∧
   Z.of_nat (length (dist_between_neighbors_cluster_i st)) = num_re) →
  znth [] nn 0 = [] →
  (∀ i, 0 < i < num_re → length (znth [] nn i) = Z.to_nat (Z.min i num_neighbors)) →
  length (entries_init_B_cluster_i st) = length (init_B_triplets Q 0%Q 1%Q num_re nn).1 →
  length (entries_init_B_grad_cluster_i st) = length (init_B_triplets Q 0%Q 1%Q num_re nn).2 →
  ∃ st' log,
    UpdateNearestNeighbors RECompGP RNG_t GetNumUniqueREs ShouldSaveDistances
      dist_of coord_dist_of EPSILON_NUMBERS find_nearest_neighbors_Vecchia_fast
      st num_neighbors "residual_correlation" ind_intercept_gp "full_scale_vecchia"
      re_comps_resid_cluster_i base dflt = Updated st' log ∧
    let N := znth [] (nearest_neighbors_cluster_i st') in
    let B := CalcCovFactorVecchia_B Q 0%Q dadd dneg A_i num_re
               (entries_init_B_cluster_i st') (nearest_neighbors_cluster_i st') in
    ∀ i, 0 ≤ i < num_re →
      coeff Q 0%Q B i i = 1%Q ∧
      (∀ j, j ≠ i → is_Some (B !! (i, j)) → j ∈ N i) ∧
      NoDup (N i) ∧
      size (list_to_set (N i) : gset Z) = Z.to_nat (Z.min num_neighbors i) ∧
      (∀ j, j ∈ N i → 0 ≤ j < i).
Proof.
  intros re_comp num_re nn Hn Hk Hlen Hsave Hzero Hsizes HB HG.
  unfold UpdateNearestNeighbors, update_re_comp.
  replace (("full_scale_vecchia" =? "full_scale_vecchia")%string) with true by reflexivity.
  replace (("residual_correlation" =? "residual_correlation")%string) with true by reflexivity.
  cbn [andb negb]. cbv zeta. fold re_comp. fold num_re. fold nn.
  assert (E : (Z.of_nat (length nn) =? num_re) = true) by (apply Z.eqb_eq, Hlen).
  rewrite E. cbn [negb].
  set (k := clamp_num_neighbors num_neighbors (default_end_search_at num_re (-1))).
  assert (Hkc : k = Z.min num_neighbors (num_re - 1)).
  { unfold k, clamp_num_neighbors, default_end_search_at.
    change (-1 <? 0) with true. cbv iota.
    destruct (Z.ltb_spec (num_re - 2 + 1) num_neighbors); lia. }
  destruct (search_rows (dist_of re_comp) (coord_dist_of re_comp) EPSILON_NUMBERS num_re
              num_neighbors nn (dist_obs_neighbors_cluster_i st)
              (dist_between_neighbors_cluster_i st) 0 (-1) false (ShouldSaveDistances re_comp)
              base false false num_re)
    as (out & cover_tree & level & Hout & Hbuilt & Hlen' & Hrows).
  { lia. }
  { intros Hs. destruct (Hsave Hs) as [H1 H2]. lia. }
  { intros _. simpl. lia. }
  fold k in Hbuilt, Hrows. cbn [andb negb] in Hbuilt.
  rewrite Hout.
  set (nn' := neighbors out) in *.
  assert (Hrow0 : znth [] nn' 0 = []).
  { specialize (Hrows 0 ltac:(lia)). replace (0 - 0) with 0 in Hrows by lia.
    rewrite Hrows.
    destruct (search_indices num_re k 0 false 0) as (Hbf & Hct & _).
    destruct (decide (0 ∈ brute_force_indices num_re k 0 false)) as [H | _];
      [apply Hbf in H; lia|].
    destruct (decide (0 ∈ cover_tree_indices num_re k 0 false)) as [H | _];
      [apply Hct in H; lia|].
    unfold init_row. change (0 <? 0) with false. cbn [andb].
    destruct (Z.ltb_spec k 0); [lia | exact Hzero]. }
  assert (Hshape : ∀ i, 0 < i < num_re →
            length (znth [] nn' i) = Z.to_nat (Z.min i num_neighbors) ∧
            NoDup (znth [] nn' i) ∧ ∀ x, x ∈ znth [] nn' i → 0 ≤ x < i).
  { intros i Hi. specialize (Hrows i ltac:(lia)). replace (i - 0) with i in Hrows by lia.
    rewrite Hrows.
    destruct (searched_row_shape (dist_of re_comp) num_re k 0 false num_re num_re base
                cover_tree level (znth [] nn i) i ltac:(lia) ltac:(lia) ltac:(lia))
      as (H1 & H2 & H3).
    { intros Hne. split; [lia | exact (Hbuilt Hne)]. }
    split; [rewrite H1; f_equal; lia|]. split; [exact H2 | exact H3]. }
  assert (Hsame : ∀ i, 0 ≤ i < num_re → length (znth [] nn i) = length (znth [] nn' i)).
  { intros i Hi. destruct (decide (i = 0)) as [-> | Hne]; [rewrite Hrow0, Hzero; reflexivity|].
    rewrite (Hsizes i ltac:(lia)). symmetry. apply Hshape. lia. }
  destruct (length_pattern_ext num_re nn nn' Hsame) as [LB LG].
  eexists. exists (info_log out). split.
  - apply rewrite_triplets_spec; cbn [nearest_neighbors_cluster_i entries_init_B_cluster_i
                                       entries_init_B_grad_cluster_i].
    + lia.
    + lia.
    + intros i Hi. fold nn'. destruct (Hshape i ltac:(lia)) as (H1 & _). rewrite H1. lia.
    + fold nn'. rewrite <- LB. exact HB.
    + fold nn'. rewrite <- LG. exact HG.
  - cbn [nearest_neighbors_cluster_i entries_init_B_cluster_i]. fold nn'.
    assert (Hearlier : earlier_neighbors num_re nn').
    { intros i j Hi Hj. destruct (decide (i = 0)) as [-> | Hne].
      - rewrite Hrow0 in Hj. inversion Hj.
      - apply (Hshape i ltac:(lia)), Hj. }
    intros i Hi.
    destruct (CalcCovFactorVecchia_B_structure Q 0%Q 1%Q dadd dneg A_i num_re nn' ltac:(lia)
                Hearlier i Hi) as [Hdiag Hoff].
    split; [exact Hdiag|]. split; [exact Hoff|].
    destruct (decide (i = 0)) as [-> | Hne].
    + rewrite Hrow0. split; [constructor|]. split.
      * replace (Z.min num_neighbors 0) with 0 by lia. reflexivity.
      * intros j Hj. inversion Hj.
    + destruct (Hshape i ltac:(lia)) as (H1 & H2 & H3).
      split; [exact H2|]. split; [|exact H3].
      rewrite size_list_to_set by exact H2. rewrite H1. f_equal. lia.
Qed.

(** A component with 1002 points and two neighbours, in the state that
    [CreateREComponentsVecchia] leaves: the cover-tree loop of the search
    handles the points 1000 and 1001. *)
Definition ex_factor_rows : list (list Z) := map (initial_neighbors 2) (range 0 1002).

Definition ex_factor_st : REComponents Q unit unit :=
  mkREComponents (range 0 1002) [tt] ex_factor_rows [] []
    (init_B_triplets Q 0%Q 1%Q 1002 ex_factor_rows).1
    (init_B_triplets Q 0%Q 1%Q 1002 ex_factor_rows).2 [] false false tt.

Lemma ex_factor_rows_sizes (i : Z) :
  0 < i < 1002 → length (znth [] ex_factor_rows i) = Z.to_nat (Z.min i 2).
Proof.
  intros Hi. unfold ex_factor_rows.
  rewrite (znth_map_in_range 0) by (rewrite length_range; lia).
  assert (Hz : znth 0 (range 0 1002) i = i).
  { unfold znth. destruct (Z.ltb_spec i 0); [lia|]. unfold range.
    rewrite nth_lookup. rewrite (lookup_seqZ_lt _ _ (Z.to_nat i)) by lia. simpl. lia. }
  rewrite Hz. destruct (initial_neighbors_spec 2 i ltac:(lia) ltac:(lia)) as [H _].
  rewrite H. f_equal. lia.
Qed.

Lemma CalcCovFactorVecchia_B_after_update_witness :
  ∃ st' log,
    UpdateNearestNeighbors unit unit (fun _ => 1002) (fun _ => false)
      (fun _ => ex_skew_dist) (fun _ => ex_line_dist) (1 # 100000)
      (fun _ _ _ nn _ g => (nn, g))
      ex_factor_st 2 "residual_correlation" 0 "full_scale_vecchia" [tt] 2 tt
    = Updated st' log ∧
    let N := znth [] (nearest_neighbors_cluster_i st') in
    let B := CalcCovFactorVecchia_B Q 0%Q Qplus Qopp (fun _ => [1 # 2; 1 # 3]%Q) 1002
               (entries_init_B_cluster_i st') (nearest_neighbors_cluster_i st') in
    ∀ i, 0 ≤ i < 1002 →
      coeff Q 0%Q B i i = 1%Q ∧
      (∀ j, j ≠ i → is_Some (B !! (i, j)) → j ∈ N i) ∧
      NoDup (N i) ∧
      size (list_to_set (N i) : gset Z) = Z.to_nat (Z.min 2 i) ∧
      (∀ j, j ∈ N i → 0 ≤ j < i).
Proof.
  apply (CalcCovFactorVecchia_B_after_update unit unit (fun _ => 1002) (fun _ => false)
           (fun _ => ex_skew_dist) (fun _ => ex_line_dist) (1 # 100000)
           (fun _ _ _ nn _ g => (nn, g))
           ex_factor_st 2 0 [tt] 2 tt Qplus Qopp (fun _ => [1 # 2; 1 # 3]%Q)).
  - lia.
  - lia.
  - vm_compute. reflexivity.
  - intros H. discriminate.
  - reflexivity.
  - exact ex_factor_rows_sizes.
  - reflexivity.
  - reflexivity.
Defined.

(** ** Two threads and an odd number of candidate points *)

(** Line 871 leaves one thread when the candidate points do not split into
    two equal segments. *)
Lemma segments_two_odd (rows : Z) :
  1 ≤ rows → Z.odd rows = true → segments rows 2 = [(0, rows)].
Proof.
  intros Hrows Hodd. unfold segments.
  assert (Hm : ∃ m, rows = 2 * m + 1).
  { exists (rows / 2). pose proof (Z.div_mod rows 2 ltac:(lia)) as H.
    rewrite Zmod_odd, Hodd in H. lia. }
  destruct Hm as (m & ->).
  assert (Hs : - (- (2 * m + 1) / 2) = m + 1).
  { replace (- (2 * m + 1)) with ((- m - 1) * 2 + 1) by lia.
    rewrite Z.div_add_l by lia. change (1 / 2) with 0. lia. }
  rewrite Hs. cbv zeta.
  assert (E : (2 * m + 1 - (2 - 1) * (m + 1) =? m + 1) = false) by (apply Z.eqb_neq; lia).
  rewrite E. cbn [negb]. change (range 0 (2 - 1)) with [0]. cbn [map].
  change (0 =? 2 - 1 - 1) with true. cbn [andb]. f_equal. f_equal; lia.
Qed.

(** Without a level the query is the scan over all the points before [i]
    (lines 662-677). *)
Lemma find_kNN_CoverTree_no_level (dist : Z → Z → Q) (i k : Z) (base : Q) (row : list Z)
    (cover_tree : int_map) :
  2 ≤ k →
  find_kNN_CoverTree_in_range dist i k 0 base cover_tree = true ∧
  (find_kNN_CoverTree dist i k 0 base row cover_tree).1 =
  heap_neighbors k (brute_force_scan dist i k row (range 0 i)) row.
Proof.
  intros Hk. unfold find_kNN_CoverTree_in_range, find_kNN_CoverTree.
  change (range 1 0) with (@nil Z). cbn [query_levels Q_before_size Q_cand].
  destruct (Z.leb_spec 1 k); [|lia]. destruct (Z.ltb_spec 1 k); [|lia].
  destruct (Z.leb_spec k 1); [lia|]. split; reflexivity.
Qed.

Lemma fold_one_tree_step (dist coord_dist : Z → Z → Q) (EPSILON_NUMBERS : Q)
    (k s : Z) (base : Q) (cover_tree : int_map) (check save : bool) (idx : list Z) (st : nn_state) :
  2 ≤ k →
  fold_left (one_tree_step dist coord_dist EPSILON_NUMBERS k s 0 base cover_tree check save)
            idx (Some st) =
  Some (fold_left (cover_tree_step dist coord_dist EPSILON_NUMBERS k s 0 base cover_tree
                     check save) idx st).
Proof.
  intros Hk. revert st. induction idx as [|i idx IH]; intros st; [reflexivity|].
  cbn [fold_left]. unfold one_tree_step at 2.
  destruct (find_kNN_CoverTree_no_level dist i k base [] cover_tree Hk) as [E _].
  rewrite E. apply IH.
Qed.

(** The rows after the three loops of a call with one tree, for any tree and
    any number of levels passed to the query. *)
Lemma search_state_rows (dist coord_dist : Z → Z → Q) (EPSILON_NUMBERS : Q)
    (n k s max_ind_nn : Z) (check save prediction : bool) (base : Q) (level : Z)
    (cover_tree : int_map) (neighbors0 : list (list Z)) (dist_obs0 : list (list Q)) :
  Z.of_nat (length neighbors0) = n - s →
  s ≤ brute_force_threshold_of n k (first_search_index s k) prediction →
  let st1 := fold_left (init_step coord_dist EPSILON_NUMBERS k s check save)
               (range s n) (neighbors0, dist_obs0, false) in
  let st2 := fold_left (brute_force_step dist coord_dist EPSILON_NUMBERS k s max_ind_nn
                          check save) (brute_force_indices n k s prediction) st1 in
  let st3 := fold_left (cover_tree_step dist coord_dist EPSILON_NUMBERS k s level base
                          cover_tree check save) (cover_tree_indices n k s prediction) st2 in
  ∀ i, i ∈ cover_tree_indices n k s prediction →
    znth [] st3.1.1 (i - s) =
    cover_tree_row dist k level base cover_tree i (init_row k i (znth [] neighbors0 (i - s))).
Proof.
  intros Hlen Hthr st1 st2 st3 i Hin.
  set (st0 := (neighbors0, dist_obs0, false) : nn_state) in *.
  destruct (fold_rows_spec (fun st : nn_state => st.1.1) _ s (init_row k)
              (init_step_nn coord_dist EPSILON_NUMBERS k s check save) (range s n) st0
              (NoDup_seqZ _ _)) as [L1 R1].
  fold st1 in L1, R1.
  destruct (fold_rows_spec (fun st : nn_state => st.1.1) _ s (brute_force_row dist k max_ind_nn)
              (brute_force_step_nn dist coord_dist EPSILON_NUMBERS k s max_ind_nn check save)
              (brute_force_indices n k s prediction) st1
              (NoDup_brute_force_indices _ _ _ _)) as [L2 R2].
  fold st2 in L2, R2.
  destruct (fold_rows_spec (fun st : nn_state => st.1.1) _ s
              (cover_tree_row dist k level base cover_tree)
              (cover_tree_step_nn dist coord_dist EPSILON_NUMBERS k s level base cover_tree
                 check save)
              (cover_tree_indices n k s prediction) st2
              (NoDup_cover_tree_indices _ _ _ _)) as [L3 R3].
  fold st3 in L3, R3. cbn beta in L1, R1, L2, R2, L3, R3. simpl in L1, R1.
  destruct (search_indices n k s prediction i) as (Hbf & Hct & _).
  assert (Hi : s ≤ i < n).
  { unfold cover_tree_indices in Hin. destruct (k <? n); [|inversion Hin]. cbv zeta in Hin.
    destruct (_ <? n) eqn:E; [|inversion Hin]. apply elem_of_range in Hin. lia. }
  rewrite R3 by lia. rewrite R2 by lia. rewrite R1 by lia.
  destruct (decide (i ∈ cover_tree_indices n k s prediction)) as [_ | H]; [|contradiction].
  destruct (decide (i ∈ brute_force_indices n k s prediction)) as [H | _].
  { apply Hbf in H. destruct H as (_ & _ & H). contradiction. }
  destruct (decide (i ∈ range s n)) as [_ | H]; [reflexivity|].
  exfalso. apply H, elem_of_range. lia.
Qed.

(** X27. In a build with OpenMP and two threads, when the number of
    candidate points is odd (they do not split into two equal segments),
    line 871 leaves one thread: the tree is built over all the candidate
    points, but the query of line 967 is given the variable [level], which
    is still zero. For distances that are numbers (no NaN), with the CHECKs
    on the sizes, at least two neighbours after the clamp ([k]) and a
    cover-tree loop that starts at a point the call handles, the search
    returns, and every point [i] of the cover-tree loop gets the row of the
    scan over all the points before [i] (lines 662-677): the [k] nearest of
    all earlier points, whether or not they are below [max_ind_nn]. *)
Theorem two_threads_odd_rows_scan_all_earlier_points
    (dist coord_dist : Z → Z → Q) (EPSILON_NUMBERS : Q) (num_data num_neighbors : Z)
    (neighbors0 : list (list Z)) (dist_obs0 : list (list Q)) (dist_between0 : list (list (list Q)))
    (start_at end_search_at : Z) (check save_distances : bool) (base : Q)
    (prediction cond_on_all : bool) (num_data_obs : Z) :
  let k := clamp_num_neighbors num_neighbors (default_end_search_at num_data end_search_at) in
  let rows := if prediction && negb cond_on_all then num_data_obs else num_data in
  0 ≤ start_at →
  Z.of_nat (length neighbors0) = num_data - start_at →
  (save_distances = true →
   Z.of_nat (length dist_obs0) = num_data - start_at ∧
   Z.of_nat (length dist_between0) = num_data - start_at) →
  2 ≤ k →
  start_at ≤ brute_force_threshold_of num_data k (first_search_index start_at k) prediction →
  1 ≤ rows → Z.odd rows = true →
  ∃ out,
    find_nearest_neighbors_Vecchia_FSA_fast_threads dist coord_dist EPSILON_NUMBERS 2
      num_data num_neighbors neighbors0 dist_obs0 dist_between0 start_at end_search_at
      check save_distances base prediction cond_on_all num_data_obs
    = Threads_returns (Search_done out) ∧
    ∀ i, i ∈ cover_tree_indices num_data k start_at prediction →
      let N := znth [] (neighbors out) (i - start_at) in
      N = map snd (brute_force_scan dist i k
                     (init_row k i (znth [] neighbors0 (i - start_at))) (range 0 i)) ∧
      length N = Z.to_nat k ∧ NoDup N ∧
      (∀ x, x ∈ N → 0 ≤ x < i) ∧
      (∀ x y, x ∈ N → 0 ≤ y < i → y ∉ N → (dist i x <= dist i y)%Q).
Proof.
  intros k rows Hstart Hlen Hsave Hk Hthr Hrows Hodd.
  unfold find_nearest_neighbors_Vecchia_FSA_fast_threads.
  assert (E1 : (Z.of_nat (length neighbors0) =? num_data - start_at) = true) by (apply Z.eqb_eq, Hlen).
  rewrite E1. cbn [negb].
  assert (E2 : save_distances && negb (Z.of_nat (length dist_obs0) =? num_data - start_at) = false).
  { destruct save_distances; [|reflexivity]. destruct (Hsave eq_refl) as [H _].
    apply Z.eqb_eq in H. rewrite H. reflexivity. }
  assert (E3 : save_distances && negb (Z.of_nat (length dist_between0) =? num_data - start_at) = false).
  { destruct save_distances; [|reflexivity]. destruct (Hsave eq_refl) as [_ H].
    apply Z.eqb_eq in H. rewrite H. reflexivity. }
  rewrite E2, E3. cbv zeta. fold k. fold rows.
  set (max_ind_nn := if cond_on_all then num_data else num_data_obs).
  set (st1 := fold_left (init_step coord_dist EPSILON_NUMBERS k start_at check save_distances)
                (range start_at num_data) (neighbors0, dist_obs0, false)).
  set (st2 := fold_left (brute_force_step dist coord_dist EPSILON_NUMBERS k start_at max_ind_nn
                           check save_distances)
                (brute_force_indices num_data k start_at prediction) st1).
  assert (Hfinish : ∀ (st3 : nn_state) log2, ∃ out,
            (let '(nn, d_obs, has_dup) := st3 in
             let first_i := if start_at =? 0 then 1 else start_at in
             let '(d_between, has_dup') :=
               fold_left (between_step coord_dist EPSILON_NUMBERS start_at check save_distances nn)
                 (range first_i num_data) (dist_between0, has_dup) in
             Search_done (mkNNOutput nn d_obs d_between (if check then has_dup' else false)
                            (clamp_log num_neighbors (default_end_search_at num_data end_search_at)
                             ++ log2))) = Search_done out ∧
            neighbors out = st3.1.1).
  { intros [[nn d_obs] has_dup] log2. cbv zeta.
    destruct (fold_left (between_step _ _ _ _ _ _) _ _) as [d_between has_dup'].
    eexists. split; reflexivity. }
  destruct (cover_tree_indices num_data k start_at prediction) as [|i0 idx] eqn:Ect.
  { destruct (Hfinish st2 []) as (out & Hout & _). exists out. split; [f_equal; exact Hout|].
    intros i Hin. inversion Hin. }
  change (2 <? 1) with false. change (2 =? 1) with false. cbv iota.
  rewrite (segments_two_odd rows Hrows Hodd).
  destruct (CoverTree_kNN_builds dist base 0 rows ltac:(lia) Hrows)
    as (cover_tree & level & Hbuilt).
  cbn [build_trees].
  assert (Eg : (0 <? 0) || (rows <? 0) || (rows <? 0 + rows) = false).
  { change (0 <? 0) with false. cbn [orb].
    destruct (Z.ltb_spec rows 0); [lia|]. cbn [orb]. apply Z.ltb_ge. lia. }
  rewrite Eg, Hbuilt.
  rewrite (fold_one_tree_step dist coord_dist EPSILON_NUMBERS k start_at base cover_tree check
             save_distances (i0 :: idx) st2 Hk).
  set (st3 := fold_left _ (i0 :: idx) st2).
  destruct (Hfinish st3 [(" time until CoverTrees for kNN = %g ", []);
                         ("num threads %i %i %i", [1; num_data; level])]) as (out & Hout & Hnn).
  exists out. split; [f_equal; exact Hout|].
  intros i Hin. rewrite Hnn. unfold st3, st2, st1. rewrite <- Ect.
  rewrite (search_state_rows dist coord_dist EPSILON_NUMBERS num_data k start_at max_ind_nn
             check save_distances prediction base 0 cover_tree neighbors0 dist_obs0 Hlen Hthr i)
    by (rewrite Ect; exact Hin).
  set (row1 := init_row k i (znth [] neighbors0 (i - start_at))).
  assert (Hi : k ≤ i < num_data).
  { destruct (search_indices num_data k start_at prediction i) as (_ & Hct & _).
    apply Hct. rewrite Ect. exact Hin. }
  assert (Hl1 : length row1 = Z.to_nat k) by (apply init_row_length; lia).
  unfold cover_tree_row.
  destruct (find_kNN_CoverTree_no_level dist i k base row1 cover_tree Hk) as [_ Erow].
  rewrite Erow. unfold heap_neighbors. rewrite drop_ge by lia. rewrite app_nil_r.
  split; [reflexivity|].
  destruct (brute_force_scan_spec dist i k row1 (range 0 i) ltac:(lia) Hl1 (NoDup_seqZ _ _)
              ltac:(rewrite length_range; lia)) as (H1 & H2 & H3 & _ & H5).
  split; [exact H1|]. split; [exact H2|]. split.
  - intros x Hx. apply H3, elem_of_range in Hx. exact Hx.
  - intros x y Hx Hy Hny. apply H5; [exact Hx | apply elem_of_range, Hy | exact Hny].
Qed.

(** A prediction that conditions on the observed points only
    ([cond_on_all = false]): 21 observed points, 520 prediction points,
    three neighbours, two threads. *)
Lemma two_threads_odd_rows_scan_all_earlier_points_witness :
  cover_tree_indices 541 (clamp_num_neighbors 3 (default_end_search_at 541 20)) 21 true
  = range 521 541 ∧
  ∃ out,
    find_nearest_neighbors_Vecchia_FSA_fast_threads ex_line_dist ex_line_dist (1 # 100000) 2
      541 3 (replicate 520 []) [] [] 21 20 false false 2 true false 21
    = Threads_returns (Search_done out) ∧
    ∀ i, i ∈ cover_tree_indices 541 (clamp_num_neighbors 3 (default_end_search_at 541 20)) 21 true →
      let N := znth [] (neighbors out) (i - 21) in
      N = map snd (brute_force_scan ex_line_dist i
                     (clamp_num_neighbors 3 (default_end_search_at 541 20))
                     (init_row (clamp_num_neighbors 3 (default_end_search_at 541 20)) i
                        (znth [] (replicate 520 []) (i - 21))) (range 0 i)) ∧
      length N = Z.to_nat (clamp_num_neighbors 3 (default_end_search_at 541 20)) ∧ NoDup N ∧
      (∀ x, x ∈ N → 0 ≤ x < i) ∧
      (∀ x y, x ∈ N → 0 ≤ y < i → y ∉ N → (ex_line_dist i x <= ex_line_dist i y)%Q).
Proof.
  split; [vm_compute; reflexivity|].
  apply (two_threads_odd_rows_scan_all_earlier_points ex_line_dist ex_line_dist (1 # 100000)
           541 3 (replicate 520 []) [] [] 21 20 false false 2 true false 21).
  - lia.
  - vm_compute. reflexivity.
  - intros H. discriminate.
  - vm_compute. discriminate.
  - vm_compute. discriminate.
  - simpl. lia.
  - reflexivity.
Defined.

(** In that call the last prediction point gets three prediction points as
    neighbours; with one thread it gets the three nearest observed points. *)
Example ex_two_threads_prediction_neighbors :
  option_map (fun nn => last nn)
    (threads_rows
       (find_nearest_neighbors_Vecchia_FSA_fast_threads ex_line_dist ex_line_dist (1 # 100000) 2
          541 3 (replicate 520 []) [] [] 21 20 false false 2 true false 21))
  = Some (Some [539; 538; 537]) ∧
  option_map (fun nn => last nn)
    (threads_rows
       (find_nearest_neighbors_Vecchia_FSA_fast_threads ex_line_dist ex_line_dist (1 # 100000) 1
          541 3 (replicate 520 []) [] [] 21 20 false false 2 true false 21))
  = Some (Some [20; 19; 18]).
Proof. vm_compute. split; reflexivity. Qed.

(** ** The search with several trees *)

(** *** The set of tuples *)

Definition tuple_tree (y : tuple_t) : Z := y.1.1.2.

Lemma tuple_ltb_trees (x y : tuple_t) :
  tuple_ltb x y = false → tuple_ltb y x = false → tuple_tree x = tuple_tree y.
Proof.
  destruct x as [[[d1 t1] p1] n1], y as [[[d2 t2] p2] n2]. unfold tuple_ltb, tuple_tree.
  cbn [fst snd]. intros H1 H2.
  destruct (dbl_ltb d1 d2); [discriminate|]. destruct (dbl_ltb d2 d1); [discriminate|].
  destruct (Z.ltb_spec t1 t2); [discriminate|]. destruct (Z.ltb_spec t2 t1); [discriminate|].
  lia.
Qed.

Lemma set_insert_elem (x y : tuple_t) (s : list tuple_t) :
  y ∈ set_insert x s → y = x ∨ y ∈ s.
Proof.
  induction s as [|z s IH]; cbn [set_insert]; intros H.
  - apply list_elem_of_singleton in H. left. exact H.
  - destruct (tuple_ltb x z).
    + apply elem_of_cons in H. destruct H as [H | H]; [left; exact H | right; exact H].
    + destruct (tuple_ltb z x); [|right; exact H].
      apply elem_of_cons in H. destruct H as [H | H]; [right; subst; left|].
      destruct (IH H) as [H' | H']; [left; exact H' | right; right; exact H'].
Qed.

Lemma set_insert_keeps (x y : tuple_t) (s : list tuple_t) : y ∈ s → y ∈ set_insert x s.
Proof.
  induction s as [|z s IH]; cbn [set_insert]; intros H; [inversion H|].
  destruct (tuple_ltb x z); [right; exact H|].
  destruct (tuple_ltb z x); [|exact H].
  apply elem_of_cons in H. destruct H as [H | H]; [subst; left | right; apply IH, H].
Qed.

Lemma set_insert_in (x : tuple_t) (s : list tuple_t) :
  (∀ y, y ∈ s → tuple_tree y ≠ tuple_tree x) → x ∈ set_insert x s.
Proof.
  induction s as [|z s IH]; cbn [set_insert]; intros H; [left|].
  destruct (tuple_ltb x z) eqn:E1; [left|].
  destruct (tuple_ltb z x) eqn:E2.
  - right. apply IH. intros y Hy. apply H. right. exact Hy.
  - exfalso. apply (H z); [left|]. symmetry. apply tuple_ltb_trees; assumption.
Qed.

Lemma set_insert_trees (x : tuple_t) (s : list tuple_t) :
  NoDup (map tuple_tree s) → tuple_tree x ∉ map tuple_tree s →
  NoDup (map tuple_tree (set_insert x s)).
Proof.
  induction s as [|z s IH]; cbn [set_insert]; intros Hnd Hx.
  - apply NoDup_singleton.
  - destruct (tuple_ltb x z).
    + cbn [map]. apply NoDup_cons. split; [exact Hx | exact Hnd].
    + destruct (tuple_ltb z x); [|exact Hnd].
      cbn [map] in *. apply NoDup_cons in Hnd. destruct Hnd as [Hz Hnd].
      apply not_elem_of_cons in Hx. destruct Hx as [Hxz Hx].
      apply NoDup_cons. split; [|apply IH; assumption].
      intros Hin. apply list_elem_of_fmap in Hin. destruct Hin as (y & Ey & Hy).
      apply set_insert_elem in Hy. destruct Hy as [-> | Hy]; [congruence|].
      apply Hz. rewrite Ey. apply list_elem_of_fmap. exists y. split; [reflexivity | exact Hy].
Qed.

(** *** The merge of the answers of the trees *)

Definition tree_neighbors (per_tree : list (list Z * list dbl)) (j : Z) : list Z :=
  (znth ([], []) per_tree j).1.

Definition tree_dists (per_tree : list (list Z * list dbl)) (j : Z) : list dbl :=
  (znth ([], []) per_tree j).2.

Definition tree_tuple (per_tree : list (list Z * list dbl)) (j q : Z) : tuple_t :=
  (znth Inf (tree_dists per_tree j) q, j, q, znth 0 (tree_neighbors per_tree j) q).

Lemma combine_range_elem {A : Type} (l : list A) (a ii : Z) (p : A) :
  (ii, p) ∈ combine (range a (a + Z.of_nat (length l))) l →
  a ≤ ii < a + Z.of_nat (length l) ∧ l !! Z.to_nat (ii - a) = Some p.
Proof.
  revert a. induction l as [|x l IH]; intros a H.
  - rewrite range_nil in H by (simpl; lia). inversion H.
  - rewrite range_cons in H by (simpl; lia). cbn [combine] in H.
    apply elem_of_cons in H. destruct H as [H | H].
    + injection H as -> ->. replace (a - a) with 0 by lia. simpl. split; [lia | reflexivity].
    + replace (a + Z.of_nat (length (x :: l))) with (a + 1 + Z.of_nat (length l)) in H
        by (simpl; lia).
      apply IH in H. destruct H as [H1 H2]. split; [simpl; lia|].
      replace (Z.to_nat (ii - a)) with (S (Z.to_nat (ii - (a + 1)))) by lia. exact H2.
Qed.

Lemma combine_range_fst {A : Type} (l : list A) (a : Z) :
  map fst (combine (range a (a + Z.of_nat (length l))) l) = range a (a + Z.of_nat (length l)).
Proof.
  revert a. induction l as [|x l IH]; intros a.
  - rewrite range_nil by (simpl; lia). reflexivity.
  - rewrite range_cons by (simpl; lia). cbn [combine map fst]. f_equal.
    replace (a + Z.of_nat (length (x :: l))) with (a + 1 + Z.of_nat (length l)) by (simpl; lia).
    apply IH.
Qed.

Lemma znth_lookup {A : Type} (d : A) (l : list A) (j : Z) (x : A) :
  0 ≤ j → l !! Z.to_nat j = Some x → znth d l j = x.
Proof.
  intros Hj H. unfold znth. destruct (Z.ltb_spec j 0); [lia|].
  apply nth_lookup_Some. exact H.
Qed.

Lemma lookup_znth {A : Type} (d : A) (l : list A) (j : Z) :
  0 ≤ j < Z.of_nat (length l) → l !! Z.to_nat j = Some (znth d l j).
Proof.
  intros Hj. destruct (lookup_lt_is_Some_2 l (Z.to_nat j) ltac:(lia)) as [x Hx].
  rewrite Hx. f_equal. symmetry. apply znth_lookup; [lia | exact Hx].
Qed.

Lemma take_zset_snoc {A : Type} (l : list A) (t : Z) (x : A) :
  0 ≤ t < Z.of_nat (length l) →
  take (Z.to_nat (t + 1)) (zset l t x) = take (Z.to_nat t) l ++ [x].
Proof.
  intros Ht. unfold zset. destruct (Z.ltb_spec t 0); [lia|].
  replace (Z.to_nat (t + 1)) with (S (Z.to_nat t)) by lia.
  rewrite (take_S_r _ _ x).
  - rewrite take_insert_ge by lia. reflexivity.
  - apply list_lookup_insert_eq. lia.
Qed.

Section Merge.

Variables (k : Z) (per_tree : list (list Z * list dbl)).

Abbreviation m := (Z.of_nat (length per_tree)).
Abbreviation nbs := (tree_neighbors per_tree).
Abbreviation len := (fun j => Z.of_nat (length (tree_dists per_tree j))).
Abbreviation tup := (tree_tuple per_tree).

Hypothesis Hk : 1 ≤ k.
Hypothesis Hlen : ∀ j, 0 ≤ j < m → length (nbs j) = length (tree_dists per_tree j) ∧ 1 ≤ len j.
Hypothesis Hfirst : 1 ≤ m ∧ len 0 = k.
Hypothesis Hinj : ∀ j q j' q', 0 ≤ j < m → 0 ≤ q < len j → 0 ≤ j' < m → 0 ≤ q' < len j' →
  znth 0 (nbs j) q = znth 0 (nbs j') q' → j = j' ∧ q = q'.

(** After [t] neighbours are taken: [pos j] of them come from the tree [j],
    and the set holds the next tuple of every tree that has one. *)
Definition merge_inv (t : Z) (pos : Z → Z) (s : list tuple_t) (row : list Z) : Prop :=
  (∀ y, y ∈ s → ∃ j, 0 ≤ j < m ∧ pos j < len j ∧ y = tup j (pos j)) ∧
  NoDup (map tuple_tree s) ∧
  (∀ j, 0 ≤ j < m → pos j < len j → ∃ y, y ∈ s ∧ tuple_tree y = j) ∧
  (∀ j, 0 ≤ pos j) ∧ pos 0 ≤ t ∧
  NoDup (take (Z.to_nat t) row) ∧
  (∀ x, x ∈ take (Z.to_nat t) row →
        ∃ j q, 0 ≤ j < m ∧ 0 ≤ q < pos j ∧ q < len j ∧ x = znth 0 (nbs j) q).

Lemma merge_step_inv (t : Z) (pos : Z → Z) (s : list tuple_t) (row : list Z) :
  0 ≤ t < k → length row = Z.to_nat k → merge_inv t pos s row →
  ∃ pos' s' row', merge_step per_tree (Some (s, row)) t = Some (s', row') ∧
                  length row' = Z.to_nat k ∧ merge_inv (t + 1) pos' s' row'.
Proof.
  intros Ht Hrow (I1 & I2 & I3 & I4 & I5 & I6 & I7).
  destruct Hfirst as [Hm H0].
  destruct (I3 0 ltac:(lia) ltac:(lia)) as (y0 & Hy0 & _).
  destruct s as [|y s]; [inversion Hy0|]. clear y0 Hy0.
  destruct (I1 y ltac:(left)) as (j & Hj & Hpj & ->).
  set (pos' := fun j' => if decide (j' = j) then pos j + 1 else pos j').
  set (s' := if pos j <? len j - 1 then set_insert (tup j (pos j + 1)) s else s).
  exists pos', s', (zset row t (znth 0 (nbs j) (pos j))).
  cbn [map] in I2. apply NoDup_cons in I2. destruct I2 as [Hjs I2].
  change (tuple_tree (tup j (pos j))) with j in Hjs.
  assert (Htail : ∀ y, y ∈ s → ∃ j', 0 ≤ j' < m ∧ j' ≠ j ∧ pos j' < len j' ∧ y = tup j' (pos j')).
  { intros y Hy. destruct (I1 y ltac:(right; exact Hy)) as (j' & Hj' & Hp' & ->).
    exists j'. split; [exact Hj'|]. split; [|split; [exact Hp' | reflexivity]].
    intros ->. apply Hjs. apply list_elem_of_fmap. exists (tup j (pos j)).
    split; [reflexivity | exact Hy]. }
  split; [|split].
  - unfold merge_step, tree_tuple. unfold s', tree_tuple, tree_neighbors, tree_dists.
    destruct (znth ([], []) per_tree j) as [nb d]. reflexivity.
  - rewrite length_zset. exact Hrow.
  - split; [|split; [|split; [|split; [|split; [|split]]]]].
    + intros y Hy.
      assert (Hy' : y = tup j (pos j + 1) ∧ pos j + 1 < len j ∨ y ∈ s).
      { unfold s' in Hy. destruct (Z.ltb_spec (pos j) (len j - 1)); [|right; exact Hy].
        apply set_insert_elem in Hy. destruct Hy as [-> | Hy]; [left; split; [reflexivity | lia]|].
        right. exact Hy. }
      destruct Hy' as [[-> Hlt] | Hy'].
      * exists j. unfold pos'. destruct (decide (j = j)); [|contradiction].
        split; [exact Hj|]. split; [exact Hlt | reflexivity].
      * destruct (Htail y Hy') as (j' & Hj' & Hne & Hp' & ->).
        exists j'. unfold pos'. destruct (decide (j' = j)); [contradiction|].
        split; [exact Hj'|]. split; [exact Hp' | reflexivity].
    + unfold s'. destruct (pos j <? len j - 1); [|exact I2].
      apply set_insert_trees; [exact I2 | exact Hjs].
    + intros j' Hj' Hp'. unfold pos' in Hp'. destruct (decide (j' = j)) as [-> | Hne].
      * exists (tup j (pos j + 1)). split; [|reflexivity].
        unfold s'. destruct (Z.ltb_spec (pos j) (len j - 1)); [|lia].
        apply set_insert_in. intros y Hy. destruct (Htail y Hy) as (j' & _ & Hne & _ & ->).
        exact Hne.
      * destruct (I3 j' Hj' Hp') as (y & Hy & Ey).
        apply elem_of_cons in Hy. destruct Hy as [-> | Hy].
        { exfalso. apply Hne. symmetry. exact Ey. }
        exists y. split; [|exact Ey].
        unfold s'. destruct (pos j <? len j - 1); [apply set_insert_keeps, Hy | exact Hy].
    + intros j'. unfold pos'. destruct (decide (j' = j)); [specialize (I4 j); lia | apply I4].
    + unfold pos'. destruct (decide (0 = j)) as [<- | _]; lia.
    + rewrite take_zset_snoc by lia. apply NoDup_app. split; [exact I6|]. split.
      * intros x Hx Hx'. apply list_elem_of_singleton in Hx'. subst x.
        destruct (I7 _ Hx) as (j' & q & Hj' & Hq & Hql & E).
        destruct (Hinj j (pos j) j' q Hj ltac:(specialize (I4 j); lia) Hj' ltac:(lia) E)
          as [E1 E2]. subst j'. lia.
      * apply NoDup_singleton.
    + intros x Hx. rewrite take_zset_snoc in Hx by lia.
      apply elem_of_app in Hx. destruct Hx as [Hx | Hx].
      * destruct (I7 _ Hx) as (j' & q & Hj' & Hq & Hql & E).
        exists j', q. split; [exact Hj'|]. split; [|split; [exact Hql | exact E]].
        unfold pos'. destruct (decide (j' = j)) as [-> | _]; lia.
      * apply list_elem_of_singleton in Hx. subst x. exists j, (pos j).
        split; [exact Hj|]. unfold pos'. destruct (decide (j = j)); [|contradiction].
        specialize (I4 j). split; [lia|]. split; [lia | reflexivity].
Qed.

Lemma merge_steps_inv (n : nat) (t : Z) (pos : Z → Z) (s : list tuple_t) (row : list Z) :
  0 ≤ t → t + Z.of_nat n = k → length row = Z.to_nat k → merge_inv t pos s row →
  ∃ pos' s' row', fold_left (merge_step per_tree) (range t k) (Some (s, row)) = Some (s', row') ∧
                  length row' = Z.to_nat k ∧ merge_inv k pos' s' row'.
Proof.
  revert t pos s row. induction n as [|n IH]; intros t pos s row Ht Hn Hrow Hinv.
  - rewrite range_nil by lia. replace k with t by lia.
    exists pos, s, row. split; [reflexivity|]. split; [rewrite Hrow; f_equal; lia | exact Hinv].
  - rewrite range_cons by lia. cbn [fold_left].
    destruct (merge_step_inv t pos s row ltac:(lia) Hrow Hinv) as (pos1 & s1 & row1 & E & Hl & Hi).
    rewrite E. apply (IH (t + 1) pos1 s1 row1); [lia | lia | exact Hl | exact Hi].
Qed.

Lemma merge_init_inv (cs : list (Z * (list Z * list dbl))) (s : list tuple_t) :
  (∀ c, c ∈ cs → 0 ≤ c.1 < m ∧ znth ([], []) per_tree c.1 = c.2) →
  NoDup (map fst cs) →
  (∀ y, y ∈ s → ∃ j, 0 ≤ j < m ∧ y = tup j 0) →
  NoDup (map tuple_tree s) →
  (∀ c, c ∈ cs → c.1 ∉ map tuple_tree s) →
  let s' := fold_left (fun s '(ii, (nbs, ds)) => set_insert (znth Inf ds 0, ii, 0, znth 0 nbs 0) s)
              cs s in
  (∀ y, y ∈ s' → ∃ j, 0 ≤ j < m ∧ y = tup j 0) ∧
  NoDup (map tuple_tree s') ∧
  (∀ j, j ∈ map tuple_tree s ∨ j ∈ map fst cs → j ∈ map tuple_tree s').
Proof.
  revert s. induction cs as [|[ii [nb d]] cs IH]; intros s Hcs Hnd Hs Hns Hnew; cbn [fold_left].
  - split; [exact Hs|]. split; [exact Hns|].
    intros j [H | H]; [exact H | inversion H].
  - cbn [map fst] in Hnd. apply NoDup_cons in Hnd. destruct Hnd as [Hii Hnd].
    destruct (Hcs (ii, (nb, d)) ltac:(left)) as [Hr Hz]. cbn [fst snd] in Hr, Hz.
    assert (Et : (znth Inf d 0, ii, 0, znth 0 nb 0) = tup ii 0).
    { unfold tree_tuple, tree_dists, tree_neighbors. rewrite Hz. reflexivity. }
    rewrite Et.
    pose proof (Hnew (ii, (nb, d)) ltac:(left)) as Hfresh. cbn [fst] in Hfresh.
    destruct (IH (set_insert (tup ii 0) s)) as (H1 & H2 & H3).
    + intros c Hc. apply Hcs. right. exact Hc.
    + exact Hnd.
    + intros y Hy. apply set_insert_elem in Hy. destruct Hy as [-> | Hy]; [|apply Hs, Hy].
      exists ii. split; [exact Hr | reflexivity].
    + apply set_insert_trees; [exact Hns | exact Hfresh].
    + intros c Hc Hin. apply list_elem_of_fmap in Hin. destruct Hin as (y & Ey & Hy).
      apply set_insert_elem in Hy. destruct Hy as [-> | Hy].
      * apply Hii. change (tuple_tree (tup ii 0)) with ii in Ey. rewrite <- Ey.
        apply list_elem_of_fmap. exists c. split; [reflexivity | exact Hc].
      * apply (Hnew c ltac:(right; exact Hc)). rewrite Ey.
        apply list_elem_of_fmap. exists y. split; [reflexivity | exact Hy].
    + split; [exact H1|]. split; [exact H2|].
      intros j [Hj | Hj]; apply H3.
      * left. apply list_elem_of_fmap in Hj. destruct Hj as (y & Ey & Hy).
        apply list_elem_of_fmap. exists y. split; [exact Ey | apply set_insert_keeps, Hy].
      * cbn [map fst] in Hj. apply elem_of_cons in Hj. destruct Hj as [-> | Hj]; [|right; exact Hj].
        left. apply list_elem_of_fmap. exists (tup ii 0). split; [reflexivity|].
        apply set_insert_in. intros y Hy Ey. apply Hfresh.
        change (tuple_tree (tup ii 0)) with ii in Ey. rewrite <- Ey.
        apply list_elem_of_fmap. exists y. split; [reflexivity | exact Hy].
Qed.

(** The merge writes [k] distinct neighbours, each from the answer of a
    tree. *)
Lemma merge_trees_spec (row : list Z) :
  length row = Z.to_nat k →
  ∃ row', merge_trees k per_tree row = Some row' ∧ length row' = Z.to_nat k ∧ NoDup row' ∧
          ∀ x, x ∈ row' → ∃ j, 0 ≤ j < m ∧ x ∈ nbs j.
Proof.
  intros Hrow. unfold merge_trees.
  assert (Eg : forallb (fun p : list Z * list dbl =>
                          negb (Nat.eqb (length p.1) 0) && negb (Nat.eqb (length p.2) 0))
                       per_tree = true).
  { apply forallb_forall. intros p Hp. apply list_elem_of_In, list_elem_of_lookup in Hp.
    destruct Hp as [n Hn].
    pose proof (lookup_lt_Some _ _ _ Hn) as Hlt.
    destruct (Hlen (Z.of_nat n) ltac:(lia)) as [H1 H2].
    unfold tree_neighbors, tree_dists in H1, H2.
    rewrite (znth_lookup ([], []) per_tree (Z.of_nat n) p) in H1, H2
      by (try lia; rewrite Nat2Z.id; exact Hn).
    destruct (length p.1), (length p.2); simpl in *; try lia; reflexivity. }
  rewrite Eg.
  set (cs := combine (range 0 m) per_tree).
  destruct (merge_init_inv cs []) as (H1 & H2 & H3).
  { intros [ii p] Hc. unfold cs in Hc.
    apply (combine_range_elem per_tree 0 ii p) in Hc. destruct Hc as [Hr Hl].
    cbn [fst snd]. split; [lia|]. apply znth_lookup; [lia|].
    replace (ii - 0) with ii in Hl by lia. exact Hl. }
  { unfold cs. rewrite (combine_range_fst per_tree 0 : map fst (combine (range 0 m) per_tree) = range 0 m). apply NoDup_seqZ. }
  { intros y Hy. inversion Hy. }
  { constructor. }
  { intros c _ Hin. inversion Hin. }
  cbv zeta in H1, H2, H3.
  set (s0 := fold_left _ cs []) in *.
  destruct (merge_steps_inv (Z.to_nat k) 0 (fun _ => 0) s0 row ltac:(lia) ltac:(lia) Hrow)
    as (pos' & s' & row' & E & Hl & Hinv).
  { split; [|split; [|split; [|split; [|split; [|split]]]]].
    - intros y Hy. destruct (H1 y Hy) as (j & Hj & ->). exists j.
      split; [exact Hj|]. split; [|reflexivity]. destruct (Hlen j Hj). lia.
    - exact H2.
    - intros j Hj _.
      assert (Hin : j ∈ map tuple_tree s0).
      { apply H3. right. unfold cs. rewrite (combine_range_fst per_tree 0 : map fst (combine (range 0 m) per_tree) = range 0 m).
        apply elem_of_range. lia. }
      apply list_elem_of_fmap in Hin. destruct Hin as (y & Ey & Hy).
      exists y. split; [exact Hy | symmetry; exact Ey].
    - intros j. lia.
    - lia.
    - simpl. constructor.
    - intros x Hx. simpl in Hx. inversion Hx. }
  rewrite E. exists row'. split; [reflexivity|]. split; [exact Hl|].
  destruct Hinv as (_ & _ & _ & _ & _ & I6 & I7).
  rewrite take_ge in I6, I7 by lia.
  split; [exact I6|].
  intros x Hx. destruct (I7 x Hx) as (j & q & Hj & Hq & Hql & ->).
  exists j. split; [exact Hj|].
  destruct (Hlen j Hj) as [Hl' _].
  apply list_elem_of_lookup. exists (Z.to_nat q). apply lookup_znth. lia.
Qed.

End Merge.

(** Segments that follow one another from the point [a]. *)
Fixpoint chained (a : Z) (segs : list (Z * Z)) : Prop :=
  match segs with
  | [] => True
  | (s, len) :: r => s = a ∧ chained (a + len) r
  end.

(** The segments of lines 867-883 follow one another from the first point. *)
Lemma segments_chained (rows num_threads : Z) : chained 0 (segments rows num_threads).
Proof.
  unfold segments. cbv zeta.
  set (size := - (- rows / num_threads)).
  set (last := rows - (num_threads - 1) * size).
  set (overhead := negb (last =? size)).
  set (T := if overhead then num_threads - 1 else num_threads).
  set (f := fun i => (i * size, if (i =? T - 1) && overhead then size + last else size)).
  assert (H : ∀ (n : nat) lo, T - lo ≤ Z.of_nat n → chained (lo * size) (map f (range lo T))).
  { induction n as [|n IH]; intros lo Hn.
    - rewrite range_nil by lia. exact I.
    - destruct (Z_lt_le_dec lo T) as [Hlt | Hge]; [|rewrite range_nil by lia; exact I].
      rewrite range_cons by lia. cbn [map]. unfold f at 1. split; [reflexivity|].
      destruct (Z.eqb_spec lo (T - 1)) as [-> | Hne].
      + rewrite range_nil by lia. exact I.
      + cbn [andb]. replace (lo * size + size) with ((lo + 1) * size) by lia.
        apply IH. lia. }
  exact (H (Z.to_nat T) 0 ltac:(lia)).
Qed.

(** *** The answers of the trees *)

Section ThreadsRows.

Variables (dist coord_dist : Z → Z → Q) (EPSILON_NUMBERS : Q).
Variables (k rows : Z) (base : Q).
Hypothesis Hk : 1 ≤ k.
Hypothesis Hbase : (1 <= base)%Q.

Lemma cover_tree_wf_levels_at (start len : Z) (cover_tree : int_map) (levels : Z) :
  cover_tree_wf dist start len base cover_tree levels → 2 ≤ len → 2 ≤ levels.
Proof.
  intros Hwf Hlen.
  destruct (wf_path _ _ _ _ _ _ Hwf (start + 1) ltac:(lia)) as (pth & [H0 _] & Hl & Hle & _).
  rewrite last_lookup in Hl. destruct pth as [|a [|b pth]]; simpl in *; [discriminate| |lia].
  assert (a = start) by congruence. assert (a = start + 1) by congruence. lia.
Qed.

(** The answer of the tree of a segment of at least [k] and at least two
    points that starts before [i]: distinct points of the segment before
    [i], [k] of them or all those before [i]. *)
Lemma tree_answer_spec (i a len : Z) (row : list Z) (cover_tree : int_map) (levels : Z) :
  0 ≤ a → a < i → Z.max k 2 ≤ len →
  cover_tree_wf dist a len base cover_tree levels →
  length row = Z.to_nat k →
  ∃ nbs ds, tree_answer dist k base i row (a, (cover_tree, levels)) = Some (nbs, ds) ∧
    length nbs = length ds ∧ length ds = Z.to_nat (Z.min (i - a) k) ∧ NoDup nbs ∧
    ∀ x, x ∈ nbs → a ≤ x < Z.min i (a + len).
Proof.
  intros Ha Hi Hlen Hwf Hrow. unfold tree_answer.
  pose proof (cover_tree_wf_levels_at a len cover_tree levels Hwf ltac:(lia)) as Hlev.
  destruct (Z.ltb_spec (a + k) i) as [Hfar | Hnear].
  - assert (Eg : find_kNN_CoverTree_in_range dist i k levels base cover_tree = true).
    { unfold find_kNN_CoverTree_in_range. cbv zeta.
      assert (Hroot : znth 0 (map_at cover_tree (-1)) 0 = a).
      { unfold map_at. rewrite (wf_root _ _ _ _ _ _ Hwf). reflexivity. }
      rewrite Hroot.
      destruct (query_levels_sound_from_root dist a len base cover_tree levels i k Hwf Hlev Hi)
        as (Hsize & _).
      rewrite Hsize. apply andb_true_iff. split; [apply Z.leb_le, Hk|].
      apply orb_true_iff. right. apply Z.leb_le. lia. }
    rewrite Eg.
    destruct (find_kNN_CoverTree_scan_tree dist a len base cover_tree levels i k Hwf Hbase Hk
                ltac:(lia) row Hlev Hi Hrow) as (c & Hc & Hkc & Hsub & Heq).
    destruct (brute_force_scan_spec dist i k row c Hk Hrow Hc Hkc) as (H1 & H2 & H3 & H4 & _).
    eexists _, _. split; [rewrite Heq; reflexivity|].
    split; [rewrite !length_map; reflexivity|].
    split; [rewrite length_map, <- (length_map snd), H1; f_equal; lia|].
    split; [exact H2|]. intros x Hx. apply Hsub, H3, Hx.
  - destruct (Z.ltb_spec a i); [|lia]. unfold local_scan. cbv zeta.
    set (size := Z.min (i - a) k).
    change (fold_left (fun h jj => heap_offer size h (dist i jj) jj) (range a i)
              (combine (replicate (Z.to_nat size) Inf) (resize_int size row)))
      with (brute_force_scan dist i size (resize_int size row) (range a i)).
    destruct (brute_force_scan_spec dist i size (resize_int size row) (range a i)
                ltac:(unfold size; lia) (length_resize_int _ _) (NoDup_seqZ _ _)
                ltac:(rewrite length_range; unfold size; lia)) as (H1 & H2 & H3 & _).
    eexists _, _. split; [reflexivity|].
    split; [rewrite !length_map; reflexivity|].
    split; [rewrite length_map, <- (length_map snd), H1; reflexivity|].
    split; [exact H2|]. intros x Hx. apply H3, elem_of_range in Hx. lia.
Qed.

(** The trees of segments that follow one another from the point [a], each
    of at least [k] and at least two points, within the candidate points. *)
Fixpoint trees_ok (a : Z) (trees : list (Z * (int_map * Z))) : Prop :=
  match trees with
  | [] => True
  | t :: r => ∃ len, t.1 = a ∧ Z.max k 2 ≤ len ∧ a + len ≤ rows ∧
                     cover_tree_wf dist a len base t.2.1 t.2.2 ∧ trees_ok (a + len) r
  end.

(** The answers for the point [i] of trees that follow one another from the
    point [a]. *)
Fixpoint answers_ok (i a : Z) (per_tree : list (list Z * list dbl)) : Prop :=
  match per_tree with
  | [] => True
  | p :: r => ∃ b, a < i ∧ a < b ≤ rows ∧ length p.1 = length p.2 ∧
                   length p.2 = Z.to_nat (Z.min (i - a) k) ∧ NoDup p.1 ∧
                   (∀ x, x ∈ p.1 → a ≤ x < Z.min i b) ∧ answers_ok i b r
  end.

Lemma answers_of_trees (i : Z) (row : list Z) (a : Z) (trees : list (Z * (int_map * Z))) :
  0 ≤ a → trees_ok a trees → length row = Z.to_nat k →
  ∃ per_tree, mapM (tree_answer dist k base i row) (trees_before i trees) = Some per_tree ∧
              answers_ok i a per_tree ∧ (a < i → trees ≠ [] → per_tree ≠ []).
Proof.
  intros Ha Hok Hrow. revert a Ha Hok.
  induction trees as [|[s [ct lev]] trees IH]; intros a Ha Hok.
  - exists []. split; [reflexivity|]. split; [exact I|]. intros _ H. contradiction.
  - destruct Hok as (len & Es & Hlen & Hrows & Hwf & Hok). cbn [fst snd] in Es, Hwf. subst s.
    cbn [trees_before fst]. destruct (Z.leb_spec i a) as [Hle | Hlt].
    + exists []. split; [reflexivity|]. split; [exact I|]. intros H. lia.
    + destruct (tree_answer_spec i a len row ct lev Ha Hlt Hlen Hwf Hrow)
        as (nbs & ds & E & H1 & H2 & H3 & H4).
      destruct (IH (a + len) ltac:(lia) Hok) as (per_tree & E' & Hans & _).
      exists ((nbs, ds) :: per_tree). split; [|split].
      * apply mapM_Some. constructor; [exact E | apply mapM_Some, E'].
      * exists (a + len). cbn [fst snd].
        split; [exact Hlt|]. split; [lia|]. split; [exact H1|]. split; [exact H2|].
        split; [exact H3|]. split; [exact H4 | exact Hans].
      * intros _ _. discriminate.
Qed.

Lemma answers_ok_lower (i a : Z) (per_tree : list (list Z * list dbl)) (n : nat)
    (p : list Z * list dbl) :
  answers_ok i a per_tree → per_tree !! n = Some p → ∀ x, x ∈ p.1 → a ≤ x.
Proof.
  revert a n. induction per_tree as [|p0 r IH]; intros a n Hok Hn x Hx; [discriminate|].
  destruct Hok as (b & _ & Hb & _ & _ & _ & H0 & Hok).
  destruct n as [|n].
  - injection Hn as ->. specialize (H0 x Hx). lia.
  - pose proof (IH b n Hok Hn x Hx). lia.
Qed.

Lemma answers_ok_lookup (i a : Z) (per_tree : list (list Z * list dbl)) (n : nat)
    (p : list Z * list dbl) :
  answers_ok i a per_tree → per_tree !! n = Some p →
  length p.1 = length p.2 ∧ (1 ≤ length p.2)%nat ∧ NoDup p.1 ∧
  (∀ x, x ∈ p.1 → a ≤ x < Z.min i rows) ∧
  ∃ hi, (∀ x, x ∈ p.1 → x < hi) ∧
        ∀ n' p', (n < n')%nat → per_tree !! n' = Some p' → ∀ x, x ∈ p'.1 → hi ≤ x.
Proof.
  revert a n. induction per_tree as [|p0 r IH]; intros a n Hok Hn; [discriminate|].
  destruct Hok as (b & Hi & Hb & H1 & H2 & H3 & H4 & Hok).
  destruct n as [|n].
  - injection Hn as ->. split; [exact H1|]. split; [lia|]. split; [exact H3|].
    split; [intros x Hx; specialize (H4 x Hx); lia|].
    exists b. split; [intros x Hx; specialize (H4 x Hx); lia|].
    intros n' p' Hn' Hp' x Hx. destruct n' as [|n']; [lia|].
    exact (answers_ok_lower i b r n' p' Hok Hp' x Hx).
  - destruct (IH b n Hok Hn) as (G1 & G2 & G3 & G4 & hi & G5 & G6).
    split; [exact G1|]. split; [exact G2|]. split; [exact G3|].
    split; [intros x Hx; specialize (G4 x Hx); lia|].
    exists hi. split; [exact G5|].
    intros n' p' Hn' Hp' x Hx. destruct n' as [|n']; [lia|].
    exact (G6 n' p' ltac:(lia) Hp' x Hx).
Qed.

(** The row that lines 900-957 write for the point [i]: [k] distinct
    candidate points before [i]. *)
Lemma threads_row_spec (i : Z) (row : list Z) (trees : list (Z * (int_map * Z))) :
  trees_ok 0 trees → trees ≠ [] → k ≤ i → length row = Z.to_nat k →
  ∃ per_tree row',
    mapM (tree_answer dist k base i row) (trees_before i trees) = Some per_tree ∧
    match per_tree with
    | [p] => Some p.1
    | _ => merge_trees k per_tree row
    end = Some row' ∧
    length row' = Z.to_nat k ∧ NoDup row' ∧ ∀ x, x ∈ row' → 0 ≤ x < Z.min i rows.
Proof.
  intros Hok Hne Hki Hrow.
  destruct (answers_of_trees i row 0 trees ltac:(lia) Hok Hrow) as (per_tree & E & Hans & Hne').
  specialize (Hne' ltac:(lia) Hne).
  exists per_tree. destruct per_tree as [|p0 [|p1 r]]; [contradiction| |].
  - exists p0.1. split; [exact E|]. split; [reflexivity|].
    destruct Hans as (b & _ & Hb & H1 & H2 & H3 & H4 & _).
    split; [rewrite H1, H2; f_equal; lia|]. split; [exact H3|].
    intros x Hx. specialize (H4 x Hx). lia.
  - set (per_tree := p0 :: p1 :: r) in *.
    assert (Hat : ∀ j, 0 ≤ j < Z.of_nat (length per_tree) →
              per_tree !! Z.to_nat j = Some (znth ([], []) per_tree j)).
    { intros j Hj. apply lookup_znth, Hj. }
    destruct (merge_trees_spec k per_tree Hk) with (row := row) as (row' & Em & Hl & Hnd & Hin).
    + intros j Hj. destruct (answers_ok_lookup i 0 per_tree _ _ Hans (Hat j Hj)) as (G1 & G2 & _).
      unfold tree_neighbors, tree_dists. split; [exact G1 | lia].
    + split; [unfold per_tree; simpl; lia|].
      destruct Hans as (b & _ & _ & _ & H2 & _). unfold tree_dists. 
      change (znth ([], []) per_tree 0) with p0. rewrite H2. lia.
    + intros j q j' q' Hj Hq Hj' Hq' Eq.
      destruct (answers_ok_lookup i 0 per_tree _ _ Hans (Hat j Hj)) as (G1 & _ & G3 & _ & hi & G5 & G6).
      destruct (answers_ok_lookup i 0 per_tree _ _ Hans (Hat j' Hj'))
        as (G1' & _ & G3' & _ & hi' & G5' & G6').
      unfold tree_neighbors, tree_dists in *.
      set (pj := znth ([], []) per_tree j) in *. set (pj' := znth ([], []) per_tree j') in *.
      assert (Hx : znth 0 pj.1 q ∈ pj.1) by (apply znth_elem_of; lia).
      assert (Hx' : znth 0 pj'.1 q' ∈ pj'.1) by (apply znth_elem_of; lia).
      destruct (Z.lt_trichotomy j j') as [Hlt | [-> | Hgt]].
      * pose proof (G5 _ Hx) as B1.
        assert (Hn : (Z.to_nat j < Z.to_nat j')%nat) by lia.
        pose proof (G6 (Z.to_nat j') pj' Hn (Hat j' Hj') _ Hx') as B2.
        rewrite Eq in B1. exfalso. exact (Z.lt_irrefl _ (Z.le_lt_trans _ _ _ B2 B1)).
      * subst pj pj'. split; [reflexivity|].
        apply (znth_NoDup_inj (znth ([], []) per_tree j').1); [exact G3' | lia | lia | exact Eq].
      * pose proof (G5' _ Hx') as B1.
        assert (Hn : (Z.to_nat j' < Z.to_nat j)%nat) by lia.
        pose proof (G6' (Z.to_nat j) pj Hn (Hat j Hj) _ Hx) as B2.
        rewrite <- Eq in B1. exfalso. exact (Z.lt_irrefl _ (Z.le_lt_trans _ _ _ B2 B1)).
    + exact Hrow.
    + exists row'. split; [exact E|]. split; [exact Em|]. split; [exact Hl|]. split; [exact Hnd|].
      intros x Hx. destruct (Hin x Hx) as (j & Hj & Hxj).
      destruct (answers_ok_lookup i 0 per_tree _ _ Hans (Hat j Hj)) as (_ & _ & _ & G4 & _).
      exact (G4 x Hxj).
Qed.

(** The cover-tree loop with several trees, from a state whose rows for the
    points of the loop have [k] entries. *)
Lemma fold_threads_step (s : Z) (check save : bool) (trees : list (Z * (int_map * Z)))
    (idx : list Z) (st : nn_state) :
  trees_ok 0 trees → trees ≠ [] → NoDup idx →
  (∀ i, i ∈ idx → k ≤ i ∧ 0 ≤ i - s < Z.of_nat (length st.1.1) ∧
                  length (znth [] st.1.1 (i - s)) = Z.to_nat k) →
  ∃ st', fold_left (threads_step dist coord_dist EPSILON_NUMBERS k s base trees check save)
           idx (Some st) = Some st' ∧
         length st'.1.1 = length st.1.1 ∧
         ∀ j, (j ∈ idx →
               let N := znth [] st'.1.1 (j - s) in
               length N = Z.to_nat k ∧ NoDup N ∧ ∀ x, x ∈ N → 0 ≤ x < Z.min j rows) ∧
              (j ∉ idx → znth [] st'.1.1 (j - s) = znth [] st.1.1 (j - s)).
Proof.
  intros Hok Hne. revert st. induction idx as [|i idx IH]; intros st Hnd Hidx.
  - exists st. split; [reflexivity|]. split; [reflexivity|].
    intros j. split; [intros H; inversion H | reflexivity].
  - apply NoDup_cons in Hnd. destruct Hnd as [Hi Hnd].
    destruct (Hidx i ltac:(left)) as (Hki & Hr & Hl).
    destruct st as [[nn d_obs] has_dup]. cbn [fst snd] in *.
    destruct (threads_row_spec i (znth [] nn (i - s)) trees Hok Hne Hki Hl)
      as (per_tree & row' & E & Em & Hl' & Hnd' & Hin').
    set (st1 := save_obs_distances coord_dist EPSILON_NUMBERS k s check save
                  (zset nn (i - s) row', d_obs, has_dup) i).
    assert (Es : threads_step dist coord_dist EPSILON_NUMBERS k s base trees check save
                   (Some (nn, d_obs, has_dup)) i = Some st1).
    { unfold threads_step. rewrite E. cbv zeta. rewrite Em. reflexivity. }
    assert (Hnn1 : st1.1.1 = zset nn (i - s) row').
    { unfold st1. rewrite save_obs_distances_nn. reflexivity. }
    destruct (IH st1 Hnd) as (st' & Ef & Hlen & Hrows).
    { intros i' Hi'. destruct (Hidx i' ltac:(right; exact Hi')) as (G1 & G2 & G3).
      rewrite Hnn1, length_zset. split; [exact G1|]. split; [exact G2|].
      rewrite znth_zset_ne; [exact G3|].
      intros Eq. apply Hi. replace i with i' by lia. exact Hi'. }
    exists st'. split; [cbn [fold_left]; rewrite <- Ef; f_equal; exact Es|].
    split; [rewrite Hlen, Hnn1, length_zset; reflexivity|].
    intros j. destruct (Hrows j) as [R1 R2]. split.
    + intros Hj. apply elem_of_cons in Hj. destruct Hj as [-> | Hj]; [|apply R1, Hj].
      cbv zeta. rewrite (R2 Hi), Hnn1, znth_zset_eq by exact Hr.
      split; [exact Hl'|]. split; [exact Hnd' | exact Hin'].
    + intros Hj. apply not_elem_of_cons in Hj. destruct Hj as [Hne' Hj].
      rewrite (R2 Hj), Hnn1. apply znth_zset_ne. lia.
Qed.

(** *** The segments and their trees *)

(** Lines 878-888 on segments that follow one another, each of at least [k]
    and at least two points and within the candidate points. *)
Lemma build_trees_ok (segs : list (Z * Z)) (a : Z) :
  0 ≤ a → chained a segs →
  Forall (fun seg : Z * Z => Z.max k 2 ≤ seg.2 ∧ seg.1 + seg.2 ≤ rows) segs →
  ∃ trees, build_trees dist rows base segs = Trees_built trees ∧
           length trees = length segs ∧ trees_ok a trees.
Proof.
  revert a. induction segs as [|[s len] segs IH]; intros a Ha Hch Hall.
  - exists []. split; [reflexivity|]. split; [reflexivity | exact I].
  - destruct Hch as [-> Hch]. apply Forall_cons in Hall. destruct Hall as [[Hlen Hin] Hall].
    cbn [fst snd] in Hlen, Hin. cbn [build_trees].
    assert (Eg : (a <? 0) || (len <? 0) || (rows <? a + len) = false).
    { destruct (Z.ltb_spec a 0); [lia|]. destruct (Z.ltb_spec len 0); [lia|].
      destruct (Z.ltb_spec rows (a + len)); [lia | reflexivity]. }
    rewrite Eg.
    destruct (CoverTree_kNN_builds dist base a len Ha ltac:(lia)) as (ct & lev & Hb).
    rewrite Hb.
    destruct (IH (a + len) ltac:(lia) Hch Hall) as (trees & Et & Hl & Hok).
    rewrite Et. exists ((a, (ct, lev)) :: trees).
    split; [reflexivity|]. split; [simpl; rewrite Hl; reflexivity|].
    exists len. cbn [fst snd]. split; [reflexivity|]. split; [exact Hlen|]. split; [exact Hin|].
    split; [exact (CoverTree_kNN_wf dist a len base Ha _ ct lev Hb) | exact Hok].
Qed.

End ThreadsRows.

Lemma segments_length (rows num_threads : Z) :
  (length (segments rows num_threads) ≤ Z.to_nat num_threads)%nat.
Proof.
  unfold segments. cbv zeta. rewrite length_map, length_range.
  destruct (negb _); lia.
Qed.

(** The rows before the cover-tree loop. *)
Lemma search_state_rows_before (dist coord_dist : Z → Z → Q) (EPSILON_NUMBERS : Q)
    (n k s max_ind_nn : Z) (check save prediction : bool)
    (neighbors0 : list (list Z)) (dist_obs0 : list (list Q)) :
  Z.of_nat (length neighbors0) = n - s →
  let st1 := fold_left (init_step coord_dist EPSILON_NUMBERS k s check save)
               (range s n) (neighbors0, dist_obs0, false) in
  let st2 := fold_left (brute_force_step dist coord_dist EPSILON_NUMBERS k s max_ind_nn
                          check save) (brute_force_indices n k s prediction) st1 in
  length st2.1.1 = length neighbors0 ∧
  ∀ i, s ≤ i < n →
    znth [] st2.1.1 (i - s) =
    if decide (i ∈ brute_force_indices n k s prediction)
    then brute_force_row dist k max_ind_nn i (init_row k i (znth [] neighbors0 (i - s)))
    else init_row k i (znth [] neighbors0 (i - s)).
Proof.
  intros Hlen st1 st2.
  set (st0 := (neighbors0, dist_obs0, false) : nn_state) in *.
  destruct (fold_rows_spec (fun st : nn_state => st.1.1) _ s (init_row k)
              (init_step_nn coord_dist EPSILON_NUMBERS k s check save) (range s n) st0
              (NoDup_seqZ _ _)) as [L1 R1].
  fold st1 in L1, R1.
  destruct (fold_rows_spec (fun st : nn_state => st.1.1) _ s (brute_force_row dist k max_ind_nn)
              (brute_force_step_nn dist coord_dist EPSILON_NUMBERS k s max_ind_nn check save)
              (brute_force_indices n k s prediction) st1
              (NoDup_brute_force_indices _ _ _ _)) as [L2 R2].
  fold st2 in L2, R2. cbn beta in L1, R1, L2, R2. simpl in L1, R1.
  split; [rewrite L2, L1; reflexivity|].
  intros i Hi. rewrite R2 by lia. rewrite R1 by lia.
  destruct (decide (i ∈ range s n)) as [_ | H]; [reflexivity|].
  exfalso. apply H, elem_of_range. lia.
Qed.

(** X28. In a build with OpenMP in which the loop of lines 878-888 builds
    more than one tree, on distances that are numbers (no NaN; metric or
    not): when [start_at] is not negative, the CHECKs on the sizes hold, the
    clamped number of neighbours [k] is at least one and at most the number
    of points that may be neighbours, [base] is at least one, the cover-tree
    loop starts at a point the call handles, and every segment that lines
    867-883 cut lies within the candidate points and holds at least [k] and
    at least two points, the search returns, and for every point [i > 0] it
    handles the row of neighbours holds [min(i, k)] distinct points, all of
    them before [i]; the neighbours of a point of the cover-tree loop are
    candidate points. *)
Theorem threads_search_neighbors_are_earlier_points
    (dist coord_dist : Z → Z → Q) (EPSILON_NUMBERS : Q) (num_threads num_data num_neighbors : Z)
    (neighbors0 : list (list Z)) (dist_obs0 : list (list Q)) (dist_between0 : list (list (list Q)))
    (start_at end_search_at : Z) (check save_distances : bool) (base : Q)
    (prediction cond_on_all : bool) (num_data_obs : Z) :
  let k := clamp_num_neighbors num_neighbors (default_end_search_at num_data end_search_at) in
  let max_ind_nn := if cond_on_all then num_data else num_data_obs in
  let rows := if prediction && negb cond_on_all then num_data_obs else num_data in
  0 ≤ start_at →
  Z.of_nat (length neighbors0) = num_data - start_at →
  (save_distances = true →
   Z.of_nat (length dist_obs0) = num_data - start_at ∧
   Z.of_nat (length dist_between0) = num_data - start_at) →
  1 ≤ k ≤ max_ind_nn →
  (1 <= base)%Q →
  start_at ≤ brute_force_threshold_of num_data k (first_search_index start_at k) prediction →
  (2 ≤ length (segments rows num_threads))%nat →
  Forall (fun seg : Z * Z => Z.max k 2 ≤ seg.2 ∧ seg.1 + seg.2 ≤ rows)
         (segments rows num_threads) →
  ∃ out,
    find_nearest_neighbors_Vecchia_FSA_fast_threads dist coord_dist EPSILON_NUMBERS num_threads
      num_data num_neighbors neighbors0 dist_obs0 dist_between0 start_at end_search_at
      check save_distances base prediction cond_on_all num_data_obs
    = Threads_returns (Search_done out) ∧
    length (neighbors out) = length neighbors0 ∧
    ∀ i, 0 < i → start_at ≤ i < num_data →
      let N := znth [] (neighbors out) (i - start_at) in
      length N = Z.to_nat (Z.min i k) ∧ NoDup N ∧ (∀ x, x ∈ N → 0 ≤ x < i) ∧
      (i ∈ cover_tree_indices num_data k start_at prediction → ∀ x, x ∈ N → x < rows).
Proof.
  intros k max_ind_nn rows Hstart Hlen Hsave Hk Hbase Hthr Hsegs Hall.
  unfold find_nearest_neighbors_Vecchia_FSA_fast_threads.
  assert (E1 : (Z.of_nat (length neighbors0) =? num_data - start_at) = true) by (apply Z.eqb_eq, Hlen).
  rewrite E1. cbn [negb].
  assert (E2 : save_distances && negb (Z.of_nat (length dist_obs0) =? num_data - start_at) = false).
  { destruct save_distances; [|reflexivity]. destruct (Hsave eq_refl) as [H _].
    apply Z.eqb_eq in H. rewrite H. reflexivity. }
  assert (E3 : save_distances && negb (Z.of_nat (length dist_between0) =? num_data - start_at) = false).
  { destruct save_distances; [|reflexivity]. destruct (Hsave eq_refl) as [_ H].
    apply Z.eqb_eq in H. rewrite H. reflexivity. }
  rewrite E2, E3. cbv zeta. fold k. fold rows. fold max_ind_nn.
  set (st1 := fold_left (init_step coord_dist EPSILON_NUMBERS k start_at check save_distances)
                (range start_at num_data) (neighbors0, dist_obs0, false)).
  set (st2 := fold_left (brute_force_step dist coord_dist EPSILON_NUMBERS k start_at max_ind_nn
                           check save_distances)
                (brute_force_indices num_data k start_at prediction) st1).
  destruct (search_state_rows_before dist coord_dist EPSILON_NUMBERS num_data k start_at
              max_ind_nn check save_distances prediction neighbors0 dist_obs0 Hlen) as [L2 R2].
  fold st1 in L2, R2. fold st2 in L2, R2.
  assert (Hfinish : ∀ (st3 : nn_state) log2, ∃ out,
            (let '(nn, d_obs, has_dup) := st3 in
             let first_i := if start_at =? 0 then 1 else start_at in
             let '(d_between, has_dup') :=
               fold_left (between_step coord_dist EPSILON_NUMBERS start_at check save_distances nn)
                 (range first_i num_data) (dist_between0, has_dup) in
             Search_done (mkNNOutput nn d_obs d_between (if check then has_dup' else false)
                            (clamp_log num_neighbors (default_end_search_at num_data end_search_at)
                             ++ log2))) = Search_done out ∧
            neighbors out = st3.1.1).
  { intros [[nn d_obs] has_dup] log2. cbv zeta.
    destruct (fold_left (between_step _ _ _ _ _ _) _ _) as [d_between has_dup'].
    eexists. split; reflexivity. }
  remember (cover_tree_indices num_data k start_at prediction) as cidx eqn:Ect.
  assert (Hidx : ∀ i, i ∈ cidx →
            k ≤ i ∧ 0 ≤ i - start_at < Z.of_nat (length st2.1.1) ∧
            length (znth [] st2.1.1 (i - start_at)) = Z.to_nat k).
  { intros i Hin. rewrite Ect in Hin.
    destruct (search_indices num_data k start_at prediction i) as (Hbf & Hct & _).
    destruct (Hct Hin) as [Hki Hin'].
    assert (Hi : start_at ≤ i < num_data).
    { unfold cover_tree_indices in Hin. destruct (k <? num_data); [|inversion Hin].
      cbv zeta in Hin. destruct (_ <? num_data) eqn:E; [|inversion Hin].
      apply elem_of_range in Hin. lia. }
    split; [exact Hki|]. split; [rewrite L2; lia|].
    rewrite (R2 i Hi).
    destruct (decide (i ∈ brute_force_indices num_data k start_at prediction)) as [H | _].
    { apply Hbf in H. destruct H as (_ & _ & H). contradiction. }
    apply init_row_length; lia. }
  assert (Hfinal : ∀ (st3 : nn_state) out,
            neighbors out = st3.1.1 → length st3.1.1 = length st2.1.1 →
            (∀ j, (j ∈ cidx →
                   let N := znth [] st3.1.1 (j - start_at) in
                   length N = Z.to_nat k ∧ NoDup N ∧ ∀ x, x ∈ N → 0 ≤ x < Z.min j rows) ∧
                  (j ∉ cidx →
                   znth [] st3.1.1 (j - start_at) = znth [] st2.1.1 (j - start_at))) →
            length (neighbors out) = length neighbors0 ∧
            ∀ i, 0 < i → start_at ≤ i < num_data →
              let N := znth [] (neighbors out) (i - start_at) in
              length N = Z.to_nat (Z.min i k) ∧ NoDup N ∧ (∀ x, x ∈ N → 0 ≤ x < i) ∧
              (i ∈ cidx → ∀ x, x ∈ N → x < rows)).
  { intros st3 out Hnn Hl3 Hr3. rewrite Hnn. split; [rewrite Hl3, L2; reflexivity|].
    intros i Hi0 Hi. cbv zeta. destruct (Hr3 i) as [Rin Rout].
    destruct (decide (i ∈ cidx)) as [Hin | Hnin].
    - destruct (Rin Hin) as (G1 & G2 & G3). destruct (Hidx i Hin) as (Hki & _).
      split; [rewrite G1; f_equal; lia|]. split; [exact G2|].
      split; intros; specialize (G3 _ ltac:(eassumption)); lia.
    - rewrite (Rout Hnin), (R2 i Hi).
      destruct (search_indices num_data k start_at prediction i) as (Hbf & Hct & Hall').
      set (row1 := init_row k i (znth [] neighbors0 (i - start_at))).
      destruct (decide (i ∈ brute_force_indices num_data k start_at prediction)) as [Hb | Hnb].
      + destruct (Hbf Hb) as (Hki & _ & _).
        assert (Hl1 : length row1 = Z.to_nat k) by (apply init_row_length; lia).
        rewrite (brute_force_row_scan dist k max_ind_nn i row1 Hl1).
        destruct (scan_row dist i k row1 (range 0 (Z.min i max_ind_nn)) ltac:(lia) Hl1
                    (NoDup_seqZ _ _) ltac:(rewrite length_range; lia)) as (H1 & H2 & H3).
        split; [rewrite H1; f_equal; lia|]. split; [exact H2|]. split; [|intros H; contradiction].
        intros x Hx. apply H3, elem_of_range in Hx. lia.
      + assert (Hik : i ≤ k).
        { destruct (Z_le_gt_dec i k) as [H | H]; [exact H|].
          destruct (Hall' ltac:(lia) Hi) as [H' | H']; [contradiction|].
          rewrite <- Ect in H'. contradiction. }
        unfold row1. rewrite (init_row_first k i _ Hi0 Hik).
        split; [rewrite length_range; f_equal; lia|]. split; [apply NoDup_seqZ|].
        split; [|intros H; contradiction].
        intros x Hx. apply elem_of_range in Hx. exact Hx. }
  destruct cidx as [|i0 idx].
  - destruct (Hfinish st2 []) as (out & Hout & Hnn). exists out. split; [f_equal; exact Hout|].
    apply (Hfinal st2 out Hnn eq_refl). intros j. split; [intros H; inversion H | reflexivity].
  - pose proof (segments_length rows num_threads) as HT.
    destruct (Z.ltb_spec num_threads 1); [lia|]. destruct (Z.eqb_spec num_threads 1); [lia|].
    destruct (build_trees_ok dist k rows base (segments rows num_threads) 0 ltac:(lia)
                (segments_chained _ _) Hall) as (trees & Et & Hl & Hok).
    rewrite Et.
    destruct trees as [|[s0 [ct0 lev0]] [|t1 r]]; [simpl in Hl; lia | simpl in Hl; lia |].
    cbv beta iota zeta.
    destruct (fold_threads_step dist coord_dist EPSILON_NUMBERS k rows base ltac:(lia) Hbase
                start_at check save_distances ((s0, (ct0, lev0)) :: t1 :: r) (i0 :: idx) st2 Hok
                ltac:(discriminate) ltac:(rewrite Ect; apply NoDup_cover_tree_indices) Hidx)
      as (st3 & Ef & Hl3 & Hr3).
    rewrite Ef.
    destruct (Hfinish st3 [(" time until CoverTrees for kNN = %g ", []);
                           ("num threads %i %i %i",
                            [Z.of_nat (length ((s0, (ct0, lev0)) :: t1 :: r)); num_data; lev0])])
      as (out & Hout & Hnn).
    exists out. split; [f_equal; exact Hout|].
    exact (Hfinal st3 out Hnn Hl3 Hr3).
Qed.

(** 1002 points, two neighbours and two threads: two segments of 501 points,
    and the cover-tree loop handles the points 1000 and 1001. *)
Lemma threads_search_neighbors_are_earlier_points_witness :
  segments 1002 2 = [(0, 501); (501, 501)] ∧
  cover_tree_indices 1002 (clamp_num_neighbors 2 (default_end_search_at 1002 (-1))) 0 false
  = [1000; 1001] ∧
  ∃ out,
    find_nearest_neighbors_Vecchia_FSA_fast_threads ex_skew_dist ex_line_dist (1 # 100000) 2
      1002 2 (replicate 1002 []) [] [] 0 (-1) false false 2 false true 1002
    = Threads_returns (Search_done out) ∧
    length (neighbors out) = length (replicate 1002 ([] : list Z)) ∧
    ∀ i, 0 < i → 0 ≤ i < 1002 →
      let N := znth [] (neighbors out) (i - 0) in
      length N = Z.to_nat (Z.min i (clamp_num_neighbors 2 (default_end_search_at 1002 (-1)))) ∧
      NoDup N ∧ (∀ x, x ∈ N → 0 ≤ x < i) ∧
      (i ∈ cover_tree_indices 1002 (clamp_num_neighbors 2 (default_end_search_at 1002 (-1))) 0
             false →
       ∀ x, x ∈ N → x < 1002).
Proof.
  split; [vm_compute; reflexivity|]. split; [vm_compute; reflexivity|].
  apply (threads_search_neighbors_are_earlier_points ex_skew_dist ex_line_dist (1 # 100000) 2
           1002 2 (replicate 1002 []) [] [] 0 (-1) false false 2 false true 1002).
  - lia.
  - vm_compute. reflexivity.
  - intros H. discriminate.
  - vm_compute. split; discriminate.
  - vm_compute. discriminate.
  - vm_compute. discriminate.
  - vm_compute. lia.
  - change (segments 1002 2) with [(0, 501); (501, 501)].
    repeat constructor; vm_compute; discriminate.
Defined.
